(** * The external pointer table and the string-set shape

    A shallow embedding of [src/sandbox/external-pointer-table-inl.h] and
    [src/objects/string-set-inl.h].

    The table is an array of 64-bit entries plus two 32-bit control words,
    [freelist_head_] and the start of the evacuation area.  Every method of
    the table is written as a program over the atomic memory accesses the
    C++ code performs, in the order it performs them.  A program is run
    either alone ([run]), under interference from other threads between any
    two of its accesses ([exec]), or as one thread of a pool whose accesses
    are interleaved by a scheduler ([interleave]).  Interleavings are
    sequentially consistent: the acquire, release and relaxed orderings of
    the source are not distinguished.

    [DCHECK]s are modelled as they behave in a debug build: a failed check
    aborts the process.  The [#ifdef DEBUG] block of [Mark] is part of the
    model for the same reason. *)

From Stdlib Require Import ZArith Lia Bool.
From stdpp Require Import base option list list_numbers gmap.

Local Open Scope Z_scope.

(** ** Constants of the encoding

    The constants below are declared in [include/v8-internal.h],
    [src/sandbox/external-pointer.h] and [src/sandbox/external-pointer-table.h],
    none of which is part of the sources at hand.  They are parameters of
    the development, together with the facts about them the table relies
    on. *)

Class Layout := {
  (** bits of an entry reserved for the tag (the mark bit included) *)
  kExternalPointerTagMask : Z;
  (** the bit of the tag that records liveness *)
  kExternalPointerMarkBit : Z;
  (** reserved tag patterns of freelist and evacuation entries *)
  kExternalPointerFreeEntryTag : Z;
  kExternalPointerEvacuationEntryTag : Z;
  (** handle = index << kExternalPointerIndexShift *)
  kExternalPointerIndexShift : Z;
  (** width of the next-pointer and of the size field of a freelist entry *)
  kFreelistFieldBits : Z;
  (** number of entries added by one growth step *)
  kEntriesPerBlock : Z;
  (** markers of the word holding the start of the evacuation area *)
  kNotCompactingMarker : Z;
  kCompactionAbortedMarker : Z;
  (** debug marker OR-ed into a handle that has been visited *)
  kVisitedHandleMarker : Z;

  mark_bit_nonzero : kExternalPointerMarkBit ≠ 0;
  free_tag_in_mask :
    Z.land kExternalPointerFreeEntryTag kExternalPointerTagMask
    = kExternalPointerFreeEntryTag;
  evacuation_tag_in_mask :
    Z.land kExternalPointerEvacuationEntryTag kExternalPointerTagMask
    = kExternalPointerEvacuationEntryTag;
  index_shift_range : 0 ≤ kExternalPointerIndexShift < 32;
  freelist_field_fits :
    32 - kExternalPointerIndexShift ≤ kFreelistFieldBits;
  tag_above_freelist_fields :
    Z.land kExternalPointerTagMask (Z.ones (2 * kFreelistFieldBits)) = 0;
  entries_per_block_range : 2 ≤ kEntriesPerBlock
}.

(** A layout that meets the laws; examples are evaluated on it. *)
#[refine] Instance reference_layout : Layout := {|
  kExternalPointerTagMask := 0xffff000000000000;
  kExternalPointerMarkBit := 0x8000000000000000;
  kExternalPointerFreeEntryTag := 0x00ff000000000000;
  kExternalPointerEvacuationEntryTag := 0x80e7000000000000;
  kExternalPointerIndexShift := 8;
  kFreelistFieldBits := 24;
  kEntriesPerBlock := 4;
  kNotCompactingMarker := 0xffffffff;
  kCompactionAbortedMarker := 0xf0000000;
  kVisitedHandleMarker := 1
|}.
Proof. all: try reflexivity; try discriminate; lia. Defined.

(** ** Scalars

    Addresses and entries are 64-bit words, handles and indices 32-bit
    words, tags 64-bit enumerators. *)

Abbreviation Address := Z (only parsing).
Abbreviation ExternalPointerHandle := Z (only parsing).
Abbreviation ExternalPointerTag := Z (only parsing).
Abbreviation Entry := Z (only parsing).

Section Table.
Context `{L : Layout}.

(** Modelled from the spec: [kNullExternalPointerHandle] is declared in
    [include/v8-internal.h], which is missing; the null handle has the
    value 0. *)
Definition kNullExternalPointerHandle : ExternalPointerHandle := 0.

(** Modelled from the spec: [kMaxExternalPointers] is declared in
    [include/v8-internal.h], which is missing.  The table reserves room
    for every index that a 32-bit handle can encode. *)
Definition kMaxExternalPointers : Z := 2 ^ (32 - kExternalPointerIndexShift).

(** Modelled from the spec: [HandleToIndex] and [IndexToHandle] are declared
    in [external-pointer-table.h], which is missing; a handle is its index
    scaled by a constant, a power of two. *)
Definition HandleToIndex (handle : ExternalPointerHandle) : Z :=
  Z.shiftr handle kExternalPointerIndexShift.

(** Modelled from the spec: see [HandleToIndex]; the handle is a 32-bit
    word. *)
Definition IndexToHandle (index : Z) : ExternalPointerHandle :=
  Z.shiftl index kExternalPointerIndexShift mod 2 ^ 32.

(** ** Entries

    The class [ExternalPointerTable::Entry] is declared in
    [external-pointer-table.h], which is missing; its methods are modelled
    from the spec.  An entry is one 64-bit word.  A regular entry is a
    pointer combined with a tag, whose bits lie in
    [kExternalPointerTagMask]; freelist and evacuation entries are told
    apart by reserved tag patterns. *)

(** Modelled from the spec: [Entry::HasTag] is missing; the entry's tag
    bits are the given tag. *)
Definition HasTag (entry : Entry) (tag : ExternalPointerTag) : bool :=
  Z.land entry kExternalPointerTagMask =? tag.

(** Modelled from the spec: [Entry::IsFreelistEntry] is missing; a freelist
    node carries the reserved pattern of free entries. *)
Definition IsFreelistEntry (entry : Entry) : bool :=
  HasTag entry kExternalPointerFreeEntryTag.

(** Modelled from the spec: [Entry::IsEvacuationEntry] is missing; an
    evacuation node carries the reserved pattern of evacuation entries. *)
Definition IsEvacuationEntry (entry : Entry) : bool :=
  HasTag entry kExternalPointerEvacuationEntryTag.

(** Modelled from the spec: [Entry::IsRegularEntry] is missing; the three
    shapes exclude each other, so a regular entry is one that is neither a
    freelist nor an evacuation node. *)
Definition IsRegularEntry (entry : Entry) : bool :=
  negb (IsFreelistEntry entry) && negb (IsEvacuationEntry entry).

(** Modelled from the spec: [Entry::IsMarked] is missing; the mark bit is
    set. *)
Definition IsMarked (entry : Entry) : bool :=
  negb (Z.land entry kExternalPointerMarkBit =? 0).

(** Modelled from the spec: [Entry::SetMarkBit] is missing; it sets the
    mark bit. *)
Definition SetMarkBit (entry : Entry) : Entry :=
  Z.lor entry kExternalPointerMarkBit.

(** Modelled from the spec: [Entry::MakeRegularEntry] is missing; it
    combines the pointer with the tag. *)
Definition MakeRegularEntry (value : Address) (tag : ExternalPointerTag)
  : Entry :=
  Z.lor value tag.

(** Modelled from the spec: [Entry::MakeEvacuationEntry] is missing; the
    node holds the address of the handle, under the reserved pattern. *)
Definition MakeEvacuationEntry (handle_location : Address) : Entry :=
  Z.lor handle_location kExternalPointerEvacuationEntryTag.

(** Modelled from the spec: [Entry::MakeFreelistEntry] is missing; the node
    holds the index of the next free entry in its low field and a count of
    free entries in the field above, under the reserved pattern. *)
Definition MakeFreelistEntry (next size : Z) : Entry :=
  Z.lor (Z.lor (Z.shiftl size kFreelistFieldBits) next)
        kExternalPointerFreeEntryTag.

(** Modelled from the spec: [Entry::Untag] is missing; it asserts that the
    stored tag matches the requested one before it returns the pointer.
    [None] is the failed assertion. *)
Definition Untag (entry : Entry) (tag : ExternalPointerTag)
  : option Address :=
  if HasTag entry tag
  then Some (Z.ldiff entry kExternalPointerTagMask)
  else None.

(** Modelled from the spec: [Entry::ExtractNextFreelistEntry] is missing;
    see [MakeFreelistEntry]. *)
Definition ExtractNextFreelistEntry (entry : Entry) : Z :=
  Z.land entry (Z.ones kFreelistFieldBits).

(** Modelled from the spec: [Entry::ExtractFreelistSize] is missing; see
    [MakeFreelistEntry]. *)
Definition ExtractFreelistSize (entry : Entry) : Z :=
  Z.land (Z.shiftr entry kFreelistFieldBits) (Z.ones kFreelistFieldBits).

(** Modelled from the spec: [Entry::ExtractHandleLocation] is missing; see
    [MakeEvacuationEntry]. *)
Definition ExtractHandleLocation (entry : Entry) : Address :=
  Z.ldiff entry kExternalPointerTagMask.

(** A tag that names a pointer kind: its bits lie in the tag mask and it is
    neither of the two reserved patterns. *)
Definition pointer_tag (tag : ExternalPointerTag) : Prop :=
  Z.land tag kExternalPointerTagMask = tag
  ∧ tag ≠ kExternalPointerFreeEntryTag
  ∧ tag ≠ kExternalPointerEvacuationEntryTag.

(** ** The state the table's methods act on *)

Record State := mkState {
  (** the entries; [capacity()] is the length *)
  buffer_ : list Entry;
  freelist_head_ : Z;
  start_of_evacuation_area_ : Z;
  (** whether [mutex_] is held *)
  mutex_ : bool;
  (** the 32-bit handle slots of heap objects, by address *)
  heap_ : gmap Z Z
}.

(** Modelled from the spec: [capacity()] is declared in
    [external-pointer-table.h], which is missing; it is the number of
    entries the table holds at present. *)
Definition capacity (s : State) : Z := Z.of_nat (length (buffer_ s)).

(** The table fits the region reserved for it. *)
Definition table_fits (s : State) : Prop :=
  capacity s ≤ kMaxExternalPointers.

(** [None] outside the committed part of the table. *)
Definition entry_at (buffer : list Entry) (index : Z) : option Entry :=
  if index <? 0 then None else buffer !! Z.to_nat index.

Definition set_buffer (s : State) (buffer : list Entry) : State :=
  mkState buffer (freelist_head_ s) (start_of_evacuation_area_ s)
          (mutex_ s) (heap_ s).

Definition set_freelist_head (s : State) (head : Z) : State :=
  mkState (buffer_ s) head (start_of_evacuation_area_ s) (mutex_ s) (heap_ s).

Definition set_start (s : State) (start : Z) : State :=
  mkState (buffer_ s) (freelist_head_ s) start (mutex_ s) (heap_ s).

Definition set_mutex (s : State) (held : bool) : State :=
  mkState (buffer_ s) (freelist_head_ s) (start_of_evacuation_area_ s)
          held (heap_ s).

Definition set_heap (s : State) (heap : gmap Z Z) : State :=
  mkState (buffer_ s) (freelist_head_ s) (start_of_evacuation_area_ s)
          (mutex_ s) heap.

Definition store_entry (s : State) (index : Z) (entry : Entry) : State :=
  set_buffer s (<[Z.to_nat index := entry]> (buffer_ s)).

(** ** Atomic accesses

    One constructor for each kind of access to shared memory that the
    methods perform: loads, stores, exchanges and compare-and-swaps of an
    entry; loads and compare-and-swaps of [freelist_head_]; [capacity()];
    loads and stores of the start of the evacuation area; the handle slot
    read and written by [Mark]; taking and releasing [mutex_]; and the two
    collaborators, growth and the reclaiming of an entry by the sweep,
    each taken as one step. *)

Inductive Access :=
| RelaxedLoad (index : Z)
| RelaxedStore (index : Z) (entry : Entry)
| Store (index : Z) (entry : Entry)
| RelaxedExchange (index : Z) (entry : Entry)
| RelaxedCompareAndSwap (index : Z) (old_entry new_entry : Entry)
| Load_freelist_head
| CompareAndSwap_freelist_head (old_head new_head : Z)
| Load_capacity
| Load_start_of_evacuation_area
| Store_start_of_evacuation_area (value : Z)
| Load_handle (location : Address)
| Store_handle (location : Address) (handle : ExternalPointerHandle)
| Lock_mutex
| Unlock_mutex
| Grow
| Reclaim (index : Z).

Inductive reply :=
| Reply (value : Z) (s : State)
| Fault
| Blocked.

(** Modelled from the spec: [Grow] is defined in [external-pointer-table.cc],
    which is missing.  These are the entries of the block it adds: entry
    zero excepted (the null handle resolves to it), they are threaded into
    a freelist whose nodes record the number of free entries from the node
    onward. *)
Definition grow_block (old_capacity : Z) : list Entry :=
  let new_capacity := old_capacity + kEntriesPerBlock in
  (λ i, if i =? 0 then 0
        else MakeFreelistEntry
               (if i + 1 <? new_capacity then i + 1 else 0)
               (new_capacity - i))
  <$> seqZ old_capacity kEntriesPerBlock.

(** Modelled from the spec: [Grow] is defined in [external-pointer-table.cc],
    which is missing.  It is called with the mutex held and the freelist
    empty; it extends the array by one block, publishes the new head and
    returns it.  Running out of room is fatal. *)
Definition grow (s : State) : reply :=
  let old_capacity := capacity s in
  if negb (freelist_head_ s =? 0) then Fault
  else if kMaxExternalPointers <? old_capacity + kEntriesPerBlock then Fault
  else
    let start := Z.max old_capacity 1 in
    Reply start
          (set_freelist_head
             (set_buffer s (buffer_ s ++ grow_block old_capacity)) start).

(** Modelled from the spec: the sweep is defined in
    [external-pointer-table.cc], which is missing.  This is the size of the
    freelist as the head node records it. *)
Definition current_freelist_size (s : State) : Z :=
  if freelist_head_ s =? 0 then 0
  else match entry_at (buffer_ s) (freelist_head_ s) with
       | Some entry => ExtractFreelistSize entry
       | None => 0
       end.

(** Modelled from the spec: the sweep is defined in
    [external-pointer-table.cc], which is missing.  It reclaims an unmarked
    regular entry onto the freelist: the node it writes points to the
    previous head and records the number of free entries from itself on,
    and becomes the head.  Entry zero is never reclaimed. *)
Definition reclaim (index : Z) (s : State) : reply :=
  if index <=? 0 then Fault
  else
    match entry_at (buffer_ s) index with
    | Some entry =>
        if IsRegularEntry entry && negb (IsMarked entry) then
          let node :=
            MakeFreelistEntry (freelist_head_ s)
                              (current_freelist_size s + 1) in
          Reply 0 (set_freelist_head (store_entry s index node) index)
        else Fault
    | None => Fault
    end.

(** Modelled from the spec: the accessors [RelaxedLoad], [RelaxedStore],
    [Store], [RelaxedExchange], [RelaxedCompareAndSwap],
    [start_of_evacuation_area] and [set_start_of_evacuation_area] are
    declared in [external-pointer-table.h], which is missing.  Each is one
    access to one word; an entry outside the buffer, like a heap slot that
    does not exist, cannot be accessed. *)
Definition access (a : Access) (s : State) : reply :=
  match a with
  | RelaxedLoad index =>
      match entry_at (buffer_ s) index with
      | Some entry => Reply entry s
      | None => Fault
      end
  | RelaxedStore index entry | Store index entry =>
      match entry_at (buffer_ s) index with
      | Some _ => Reply 0 (store_entry s index entry)
      | None => Fault
      end
  | RelaxedExchange index entry =>
      match entry_at (buffer_ s) index with
      | Some old_entry => Reply old_entry (store_entry s index entry)
      | None => Fault
      end
  | RelaxedCompareAndSwap index old_entry new_entry =>
      match entry_at (buffer_ s) index with
      | Some entry =>
          if entry =? old_entry
          then Reply entry (store_entry s index new_entry)
          else Reply entry s
      | None => Fault
      end
  | Load_freelist_head => Reply (freelist_head_ s) s
  | CompareAndSwap_freelist_head old_head new_head =>
      if freelist_head_ s =? old_head
      then Reply (freelist_head_ s) (set_freelist_head s new_head)
      else Reply (freelist_head_ s) s
  | Load_capacity => Reply (capacity s) s
  | Load_start_of_evacuation_area => Reply (start_of_evacuation_area_ s) s
  | Store_start_of_evacuation_area value => Reply 0 (set_start s value)
  | Load_handle location =>
      match heap_ s !! location with
      | Some handle => Reply handle s
      | None => Fault
      end
  | Store_handle location handle =>
      match heap_ s !! location with
      | Some _ => Reply 0 (set_heap s (<[location := handle]> (heap_ s)))
      | None => Fault
      end
  | Lock_mutex => if mutex_ s then Blocked else Reply 0 (set_mutex s true)
  | Unlock_mutex => Reply 0 (set_mutex s false)
  | Grow => grow s
  | Reclaim index => reclaim index s
  end.

(** ** Programs

    A method is a tree of accesses.  [Abort] is a failed [DCHECK] or a
    failed tag check; [Spin] is a loop that has used up its fuel. *)

Inductive prog (A : Type) : Type :=
| Ret (a : A)
| Abort
| Spin
| Do (a : Access) (k : Z → prog A).

#[global] Arguments Ret {A} a.
#[global] Arguments Abort {A}.
#[global] Arguments Spin {A}.
#[global] Arguments Do {A} a k.

Fixpoint prog_bind {A B} (f : A → prog B) (p : prog A) : prog B :=
  match p with
  | Ret a => f a
  | Abort => Abort
  | Spin => Spin
  | Do a k => Do a (λ v, prog_bind f (k v))
  end.

#[global] Instance prog_mbind : MBind prog := @prog_bind.
#[global] Instance prog_mret : MRet prog := @Ret.

Definition perform (a : Access) : prog Z := Do a Ret.

Definition DCHECK (condition : bool) : prog unit :=
  if condition then Ret tt else Abort.

Definition checked {A} (o : option A) : prog A :=
  match o with
  | Some a => Ret a
  | None => Abort
  end.

Definition Event : Type := Access * Z.

Inductive outcome (A : Type) : Type :=
| Done (a : A) (s : State) (trace : list Event)
| Aborted
| Diverged.

#[global] Arguments Done {A} a s trace.
#[global] Arguments Aborted {A}.
#[global] Arguments Diverged {A}.

(** What became of a run: the value returned, the state left, the accesses
    performed. *)
Definition returned {A} (o : outcome A) : option A :=
  match o with
  | Done a _ _ => Some a
  | Aborted | Diverged => None
  end.

Definition final_state {A} (o : outcome A) : option State :=
  match o with
  | Done _ s _ => Some s
  | Aborted | Diverged => None
  end.

Definition accesses {A} (o : outcome A) : list Event :=
  match o with
  | Done _ _ trace => trace
  | Aborted | Diverged => []
  end.

(** One thread, nobody else. *)
Fixpoint run {A} (p : prog A) (s : State) : outcome A :=
  match p with
  | Ret a => Done a s []
  | Abort => Aborted
  | Spin => Diverged
  | Do a k =>
      match access a s with
      | Reply v s' =>
          match run (k v) s' with
          | Done r s'' trace => Done r s'' ((a, v) :: trace)
          | Aborted => Aborted
          | Diverged => Diverged
          end
      | Fault => Aborted
      | Blocked => Diverged
      end
  end.

(** One thread under interference: before the thread's [n]-th access the
    other threads turn the state [s] into [env n s]; [None] means that one
    of them aborted the process. *)
Fixpoint exec {A} (env : nat → State → option State) (n : nat)
    (p : prog A) (s : State) : outcome A :=
  match p with
  | Ret a => Done a s []
  | Abort => Aborted
  | Spin => Diverged
  | Do a k =>
      match env n s with
      | None => Aborted
      | Some s1 =>
          match access a s1 with
          | Reply v s2 =>
              match exec env (S n) (k v) s2 with
              | Done r s3 trace => Done r s3 ((a, v) :: trace)
              | Aborted => Aborted
              | Diverged => Diverged
              end
          | Fault => Aborted
          | Blocked => Diverged
          end
      end
  end.

(** ** The methods of [ExternalPointerTable] *)

Definition of_bool (b : bool) : Z := if b then 1 else 0.

Definition Get (handle : ExternalPointerHandle) (tag : ExternalPointerTag)
  : prog Address :=
  let index := HandleToIndex handle in
  entry ← perform (RelaxedLoad index);
  DCHECK (IsRegularEntry entry);;
  checked (Untag entry tag).

Definition Set_ (handle : ExternalPointerHandle) (value : Address)
    (tag : ExternalPointerTag) : prog unit :=
  DCHECK (negb (handle =? kNullExternalPointerHandle));;
  DCHECK (Z.land value kExternalPointerTagMask =? 0);;
  DCHECK (negb (Z.land tag kExternalPointerMarkBit =? 0));;
  let index := HandleToIndex handle in
  let entry := MakeRegularEntry value tag in
  perform (RelaxedStore index entry);;
  mret tt.

Definition Exchange (handle : ExternalPointerHandle) (value : Address)
    (tag : ExternalPointerTag) : prog Address :=
  DCHECK (negb (handle =? kNullExternalPointerHandle));;
  DCHECK (Z.land value kExternalPointerTagMask =? 0);;
  DCHECK (negb (Z.land tag kExternalPointerMarkBit =? 0));;
  let index := HandleToIndex handle in
  let new_entry := MakeRegularEntry value tag in
  old_entry ← perform (RelaxedExchange index new_entry);
  DCHECK (IsRegularEntry old_entry);;
  checked (Untag old_entry tag).

Definition TryAllocateEntryFromFreelist (freelist_head : Z) : prog bool :=
  DCHECK (negb (freelist_head =? 0));;
  table_capacity ← perform Load_capacity;
  DCHECK (freelist_head <? table_capacity);;
  entry ← perform (RelaxedLoad freelist_head);
  let new_freelist_head := ExtractNextFreelistEntry entry in
  old_val ← perform
    (CompareAndSwap_freelist_head freelist_head new_freelist_head);
  let success := old_val =? freelist_head in
  DCHECK (negb success || IsFreelistEntry entry);;
  mret success.

(** The [while (!success)] loop of [AllocateAndInitializeEntry]; its result
    is the value of [freelist_head] when the loop is left.  The check
    [DCHECK(is_initialized())] that precedes it, here and in
    [AllocateEvacuationEntry], has no counterpart: a [State] always has its
    buffer. *)
Fixpoint allocate_loop (fuel : nat) : prog Z :=
  match fuel with
  | O => Spin
  | S fuel' =>
      freelist_head ← perform Load_freelist_head;
      freelist_head ←
        (if freelist_head =? 0 then
           perform Lock_mutex;;
           freelist_head ← perform Load_freelist_head;
           freelist_head ←
             (if freelist_head =? 0 then perform Grow
              else mret freelist_head);
           perform Unlock_mutex;;
           mret freelist_head
         else mret freelist_head);
      success ← TryAllocateEntryFromFreelist freelist_head;
      if success : bool then mret freelist_head else allocate_loop fuel'
  end.

Definition AllocateAndInitializeEntry (fuel : nat) (initial_value : Address)
    (tag : ExternalPointerTag) : prog ExternalPointerHandle :=
  freelist_head ← allocate_loop fuel;
  let entry := MakeRegularEntry initial_value tag in
  perform (RelaxedStore freelist_head entry);;
  mret (IndexToHandle freelist_head).

Fixpoint AllocateEvacuationEntry (fuel : nat) (start_of_evacuation_area : Z)
  : prog ExternalPointerHandle :=
  match fuel with
  | O => Spin
  | S fuel' =>
      freelist_head ← perform Load_freelist_head;
      if (freelist_head =? 0) || (start_of_evacuation_area <=? freelist_head)
      then mret kNullExternalPointerHandle
      else
        success ← TryAllocateEntryFromFreelist freelist_head;
        if success : bool then mret (IndexToHandle freelist_head)
        else AllocateEvacuationEntry fuel' start_of_evacuation_area
  end.

Fixpoint FreelistSize (fuel : nat) : prog Z :=
  match fuel with
  | O => Spin
  | S fuel' =>
      freelist_head ← perform Load_freelist_head;
      if freelist_head =? 0 then mret 0
      else
        entry ← perform (RelaxedLoad freelist_head);
        if negb (IsFreelistEntry entry) then FreelistSize fuel'
        else
          let freelist_size := ExtractFreelistSize entry in
          table_capacity ← perform Load_capacity;
          DCHECK (freelist_size <=? table_capacity);;
          mret freelist_size
  end.

Definition IsCompacting : prog bool :=
  start ← perform Load_start_of_evacuation_area;
  mret (negb (start =? kNotCompactingMarker)).

Definition CompactingWasAbortedDuringMarking : prog bool :=
  start ← perform Load_start_of_evacuation_area;
  mret (Z.land start kCompactionAbortedMarker =? kCompactionAbortedMarker).

(** The part of [Mark] that decides on evacuation. *)
Definition evacuate (fuel : nat) (handle : ExternalPointerHandle)
    (handle_location : Address) (index : Z) : prog unit :=
  current_start_of_evacuation_area ← perform Load_start_of_evacuation_area;
  if current_start_of_evacuation_area <=? index then
    compacting ← IsCompacting;
    DCHECK compacting;;
    new_handle ← AllocateEvacuationEntry fuel current_start_of_evacuation_area;
    if negb (new_handle =? kNullExternalPointerHandle) then
      DCHECK (HandleToIndex new_handle <? current_start_of_evacuation_area);;
      let index := HandleToIndex new_handle in
      perform (Store index (MakeEvacuationEntry handle_location));;
      perform (Store_handle handle_location
                 (Z.lor handle kVisitedHandleMarker));;
      mret tt
    else
      let compaction_aborted_marker :=
        Z.lor current_start_of_evacuation_area kCompactionAbortedMarker in
      perform (Store_start_of_evacuation_area compaction_aborted_marker);;
      mret tt
  else mret tt.

(** The part of [Mark] that marks the entry as alive. *)
Definition mark_alive (index : Z) : prog unit :=
  old_entry ← perform (RelaxedLoad index);
  DCHECK (IsRegularEntry old_entry);;
  let new_entry := SetMarkBit old_entry in
  entry ← perform (RelaxedCompareAndSwap index old_entry new_entry);
  DCHECK ((entry =? old_entry) || IsMarked entry);;
  mret tt.

Definition Mark (fuel : nat) (handle : ExternalPointerHandle)
    (handle_location : Address) : prog unit :=
  stored ← perform (Load_handle handle_location);
  DCHECK (handle =? stored);;
  let index := HandleToIndex handle in
  evacuate fuel handle handle_location index;;
  mark_alive index.

(** ** Threads taking turns

    [interleave schedule threads s] lets the threads of a pool perform one
    access at a time, in the order the schedule names them.  A thread that
    has aborted brings the process down when it is scheduled next; a thread
    blocked on the mutex, a thread that has returned and a number that
    names no thread make the turn pass. *)
Fixpoint interleave {A} (schedule : list nat) (threads : list (prog A))
    (s : State) : option (list (prog A) * State) :=
  match schedule with
  | [] => Some (threads, s)
  | i :: schedule' =>
      match threads !! i with
      | Some (Do a k) =>
          match access a s with
          | Reply v s' => interleave schedule' (<[i := k v]> threads) s'
          | Fault => None
          | Blocked => interleave schedule' threads s
          end
      | Some Abort => None
      | _ => interleave schedule' threads s
      end
  end.

Definition is_success (thread : prog bool) : bool :=
  match thread with
  | Ret true => true
  | _ => false
  end.

(** Number of threads that have returned [true]. *)
Definition successes (threads : list (prog bool)) : nat :=
  length (List.filter is_success threads).

(** What is left of [TryAllocateEntryFromFreelist] once the capacity has
    been loaded, and once the entry has been loaded. *)
Definition claim_after_load (freelist_head : Z) (entry : Entry)
  : prog bool :=
  let new_freelist_head := ExtractNextFreelistEntry entry in
  old_val ← perform
    (CompareAndSwap_freelist_head freelist_head new_freelist_head);
  let success := old_val =? freelist_head in
  DCHECK (negb success || IsFreelistEntry entry);;
  mret success.

Definition claim_after_capacity (freelist_head table_capacity : Z)
  : prog bool :=
  DCHECK (freelist_head <? table_capacity);;
  entry ← perform (RelaxedLoad freelist_head);
  claim_after_load freelist_head entry.

(** The states a thread running [TryAllocateEntryFromFreelist head] goes
    through, [entry] being the entry found at [head]. *)
Inductive claiming (head : Z) (entry : Entry) : prog bool → Prop :=
| claiming_start : claiming head entry (TryAllocateEntryFromFreelist head)
| claiming_capacity table_capacity :
    claiming head entry (claim_after_capacity head table_capacity)
| claiming_loaded : claiming head entry (claim_after_load head entry)
| claiming_returned success : claiming head entry (Ret success)
| claiming_aborted : claiming head entry Abort.

(** ** Calls

    The methods as another thread, or a later caller, may invoke them.  A
    call is run to completion; boolean results are returned as 0 and 1. *)

Inductive Call :=
| Call_Get (handle : ExternalPointerHandle) (tag : ExternalPointerTag)
| Call_Set (handle : ExternalPointerHandle) (value : Address)
    (tag : ExternalPointerTag)
| Call_Exchange (handle : ExternalPointerHandle) (value : Address)
    (tag : ExternalPointerTag)
| Call_TryAllocateEntryFromFreelist (freelist_head : Z)
| Call_AllocateAndInitializeEntry (initial_value : Address)
    (tag : ExternalPointerTag)
| Call_AllocateEvacuationEntry (start_of_evacuation_area : Z)
| Call_FreelistSize
| Call_Mark (handle : ExternalPointerHandle) (handle_location : Address)
| Call_IsCompacting
| Call_CompactingWasAbortedDuringMarking.

Definition invoke (fuel : nat) (call : Call) : prog Z :=
  match call with
  | Call_Get handle tag => Get handle tag
  | Call_Set handle value tag => Set_ handle value tag;; mret 0
  | Call_Exchange handle value tag => Exchange handle value tag
  | Call_TryAllocateEntryFromFreelist freelist_head =>
      success ← TryAllocateEntryFromFreelist freelist_head;
      mret (of_bool success)
  | Call_AllocateAndInitializeEntry initial_value tag =>
      AllocateAndInitializeEntry fuel initial_value tag
  | Call_AllocateEvacuationEntry start_of_evacuation_area =>
      AllocateEvacuationEntry fuel start_of_evacuation_area
  | Call_FreelistSize => FreelistSize fuel
  | Call_Mark handle handle_location =>
      Mark fuel handle handle_location;; mret 0
  | Call_IsCompacting => compacting ← IsCompacting; mret (of_bool compacting)
  | Call_CompactingWasAbortedDuringMarking =>
      aborted ← CompactingWasAbortedDuringMarking; mret (of_bool aborted)
  end.

Fixpoint invoke_all (fuel : nat) (calls : list Call) : prog unit :=
  match calls with
  | [] => mret tt
  | call :: calls' => invoke fuel call;; invoke_all fuel calls'
  end.

(** Interference made of calls: before the thread's [n]-th access, other
    threads run the calls [schedule n].  An abort in one of them aborts the
    process. *)
Definition calls_env (fuel : nat) (schedule : nat → list Call)
    (n : nat) (s : State) : option State :=
  match run (invoke_all fuel (schedule n)) s with
  | Done _ s' _ => Some s'
  | Aborted | Diverged => None
  end.

(** A write by a mutator to the entry at [index]: a [Set] or an [Exchange]
    on a handle of that index, storing [entry]. *)
Definition mutator_write (call : Call) (index : Z) (entry : Entry) : Prop :=
  ∃ handle value tag,
    (call = Call_Set handle value tag ∨ call = Call_Exchange handle value tag)
    ∧ HandleToIndex handle = index
    ∧ entry = MakeRegularEntry value tag
    ∧ Z.land tag kExternalPointerMarkBit ≠ 0.

Definition is_mutator_write (call : Call) : bool :=
  match call with
  | Call_Set _ _ _ | Call_Exchange _ _ _ => true
  | _ => false
  end.

(** Allocations and frees, in the order they happen. *)
Inductive FreelistOp :=
| Op_AllocateAndInitializeEntry (initial_value : Address)
    (tag : ExternalPointerTag)
| Op_AllocateEvacuationEntry (start_of_evacuation_area : Z)
| Op_Reclaim (index : Z).

Definition perform_op (fuel : nat) (op : FreelistOp) : prog unit :=
  match op with
  | Op_AllocateAndInitializeEntry initial_value tag =>
      AllocateAndInitializeEntry fuel initial_value tag;; mret tt
  | Op_AllocateEvacuationEntry start_of_evacuation_area =>
      AllocateEvacuationEntry fuel start_of_evacuation_area;; mret tt
  | Op_Reclaim index => perform (Reclaim index);; mret tt
  end.

Fixpoint perform_ops (fuel : nat) (ops : list FreelistOp) : prog unit :=
  match ops with
  | [] => mret tt
  | op :: ops' => perform_op fuel op;; perform_ops fuel ops'
  end.

(** ** The freelist *)

(** [freelist_from buffer head nodes]: following next-pointers from [head]
    one passes the entries at the indices [nodes], in this order, and then
    reaches the terminator 0; each of them is a freelist entry that records
    how many of them there are from itself on. *)
Inductive freelist_from (buffer : list Entry) : Z → list Z → Prop :=
| freelist_end : freelist_from buffer 0 []
| freelist_node head entry nodes :
    head ≠ 0 →
    entry_at buffer head = Some entry →
    IsFreelistEntry entry = true →
    ExtractFreelistSize entry = Z.of_nat (S (length nodes)) →
    freelist_from buffer (ExtractNextFreelistEntry entry) nodes →
    freelist_from buffer head (head :: nodes).

Definition freelist_invariant (s : State) : Prop :=
  table_fits s ∧ ∃ nodes, freelist_from (buffer_ s) (freelist_head_ s) nodes.

(** The number of entries passed when following next-pointers from [head]
    to the terminator 0; [None] when a walk of [fuel] steps does not get
    there or leaves the freelist. *)
Fixpoint freelist_length (fuel : nat) (buffer : list Entry) (head : Z)
  : option nat :=
  if head =? 0 then Some 0%nat
  else
    match fuel with
    | O => None
    | S fuel' =>
        match entry_at buffer head with
        | Some entry =>
            if IsFreelistEntry entry
            then S <$> freelist_length fuel' buffer
                         (ExtractNextFreelistEntry entry)
            else None
        | None => None
        end
    end.

Definition reachable_free_entries (s : State) : option nat :=
  freelist_length (length (buffer_ s)) (buffer_ s) (freelist_head_ s).

(** Partial correctness of a program run alone. *)
Definition hoare {A} (P : State → Prop) (p : prog A)
    (Q : A → State → Prop) : Prop :=
  ∀ s a s' trace, P s → run p s = Done a s' trace → Q a s'.

(** The state right after the entry at [head] has been claimed. *)
Definition claimed (head : Z) (s : State) : Prop :=
  table_fits s
  ∧ 0 < head < capacity s
  ∧ ∃ nodes, freelist_from (buffer_ s) (freelist_head_ s) nodes
             ∧ head ∉ nodes.

(** ** Predicates used in the statements *)

(** The tag bits of an entry, and what they are once the entry is marked. *)
Definition stored_tag (entry : Entry) : ExternalPointerTag :=
  Z.land entry kExternalPointerTagMask.

Definition tag_when_marked (entry : Entry) : ExternalPointerTag :=
  stored_tag (SetMarkBit entry).

Definition is_Store (a : Access) : bool :=
  match a with Store _ _ => true | _ => false end.

(** Below [boundary] there is an evacuation entry that records
    [handle_location]. *)
Definition evacuated_below (s : State) (boundary : Z)
    (handle_location : Address) : Prop :=
  ∃ j entry,
    0 ≤ j < boundary
    ∧ entry_at (buffer_ s) j = Some entry
    ∧ IsEvacuationEntry entry = true
    ∧ ExtractHandleLocation entry = handle_location.

(** Below [boundary] there is a free entry. *)
Definition free_entry_below (s : State) (boundary : Z) : Prop :=
  ∃ j entry,
    0 < j < boundary
    ∧ entry_at (buffer_ s) j = Some entry
    ∧ IsFreelistEntry entry = true.

(** The freelist is ordered by index: every free entry is on it, and each
    node links to a node of a higher index or ends the list, so that the
    head is the lowest free entry.  [AllocateEvacuationEntry] and [Mark]
    rely on it when they take a head that is not below the start of the
    evacuation area to mean that no entry below it is free. *)
Definition freelist_ordered (s : State) : Prop :=
  ∃ nodes,
    freelist_from (buffer_ s) (freelist_head_ s) nodes
    ∧ ∀ j entry,
        0 < j →
        entry_at (buffer_ s) j = Some entry →
        IsFreelistEntry entry = true →
        j ∈ nodes
        ∧ (ExtractNextFreelistEntry entry = 0
           ∨ j < ExtractNextFreelistEntry entry).

(** The start of the evacuation area is [boundary], with or without the
    abort marker. *)
Definition boundary_or_aborted (boundary : Z) (s : State) : Prop :=
  start_of_evacuation_area_ s = boundary
  ∨ start_of_evacuation_area_ s = Z.lor boundary kCompactionAbortedMarker.

(** From a state that satisfies [I], each access of the program leads to a
    state that satisfies [I]. *)
Inductive respects {A} (I : State → Prop) : prog A → Prop :=
| respects_Ret a : respects I (Ret a)
| respects_Abort : respects I Abort
| respects_Spin : respects I Spin
| respects_Do a k :
    (∀ s v s', I s → access a s = Reply v s' → I s') →
    (∀ s v s', I s → access a s = Reply v s' → respects I (k v)) →
    respects I (Do a k).

(** Every access the program can perform is one of the [allowed] ones. *)
Inductive performs_only {A} (allowed : Access → bool) : prog A → Prop :=
| performs_only_Ret a : performs_only allowed (Ret a)
| performs_only_Abort : performs_only allowed Abort
| performs_only_Spin : performs_only allowed Spin
| performs_only_Do a k :
    allowed a = true →
    (∀ v, performs_only allowed (k v)) →
    performs_only allowed (Do a k).

(** Whenever the program returns, from a state satisfying the invariant
    [I] and whatever the other threads do short of breaking [I], the trace
    of its accesses and the value returned satisfy [Q]. *)
Inductive ensures {A} (I : State → Prop)
  : (list Event → A → Prop) → prog A → Prop :=
| ensures_Ret (Q : list Event → A → Prop) a : Q [] a → ensures I Q (Ret a)
| ensures_Abort Q : ensures I Q Abort
| ensures_Spin Q : ensures I Q Spin
| ensures_Do (Q : list Event → A → Prop) a k :
    (∀ s v s', I s → access a s = Reply v s' →
       ensures I (λ trace, Q ((a, v) :: trace)) (k v)) →
    ensures I Q (Do a k).

(** The value returned by the last load of [freelist_head_] in a trace. *)
Fixpoint final_freelist_head_loaded (trace : list Event) : option Z :=
  match trace with
  | [] => None
  | (a, v) :: trace' =>
      match final_freelist_head_loaded trace' with
      | Some head => Some head
      | None =>
          match a with
          | Load_freelist_head => Some v
          | _ => None
          end
      end
  end.

Definition is_Grow (a : Access) : bool :=
  match a with Grow => true | _ => false end.

Definition is_entry_CAS (a : Access) : bool :=
  match a with RelaxedCompareAndSwap _ _ _ => true | _ => false end.

Definition writes_start_of_evacuation_area (a : Access) : bool :=
  match a with Store_start_of_evacuation_area _ => true | _ => false end.

Definition leaves_start (a : Access) : bool :=
  negb (writes_start_of_evacuation_area a).

(** Number of compare-and-swap accesses to entries in a trace. *)
Definition entry_CAS_count (trace : list Event) : nat :=
  length (filter (λ ev, is_entry_CAS ev.1 = true) trace).


(** Between [s] and [s'] nothing but the entry at [index] has changed. *)
Definition only_entry_changed (index : Z) (s s' : State) : Prop :=
  freelist_head_ s' = freelist_head_ s
  ∧ start_of_evacuation_area_ s' = start_of_evacuation_area_ s
  ∧ mutex_ s' = mutex_ s
  ∧ heap_ s' = heap_ s
  ∧ length (buffer_ s') = length (buffer_ s)
  ∧ ∀ other, other ≠ index →
      entry_at (buffer_ s') other = entry_at (buffer_ s) other.

End Table.

(** * The shape of string sets

    [src/objects/string-set-inl.h].  The string class, its methods
    [EnsureHash] and [Equals], and [ReadOnlyRoots] are declared in headers
    that are missing; they are parameters.  [EnsureHash] may compute the
    hash and cache it in the string: it yields the hash and the string as
    it is afterwards.  A failed [DCHECK] is [None]. *)

Module StringSetShape.
Section Shape.
Variable ReadOnlyRoots : Type.
Variable String : Type.
Variable EnsureHash : String → Z * String.
Variable Equals : String → String → bool.

Inductive Object :=
| Smi (value : Z)
| HeapString (string : String)
| OtherHeapObject (address : Z).

Definition IsString (object : Object) : bool :=
  match object with
  | HeapString _ => true
  | _ => false
  end.

(** [String::cast] *)
Definition cast (object : Object) : option String :=
  match object with
  | HeapString string => Some string
  | _ => None
  end.

Definition IsMatch (key : String) (value : Object) : option bool :=
  if IsString value then
    string ← cast value;
    Some (Equals key string)
  else None.

Definition Hash (roots : ReadOnlyRoots) (key : String) : Z * String :=
  EnsureHash key.

Definition HashForObject (roots : ReadOnlyRoots) (object : Object)
  : option (Z * String) :=
  string ← cast object;
  Some (EnsureHash string).

End Shape.
End StringSetShape.

(** ** Threads that allocate

    A thread that runs [AllocateAndInitializeEntry] can be overtaken by
    other threads before each of its accesses.  An [AllocationPoint] names
    a place where it can be then, with the values of its local variables
    [freelist_head] and [entry]; [fuel] is the number of rounds of the
    loop that remain. *)

Section Allocation.
Context `{L : Layout}.

Inductive AllocationPoint :=
(** at the top of the loop, before the load of [freelist_head_] *)
| At_loop (fuel : nat)
(** the freelist was empty: before the mutex is taken *)
| At_lock (fuel : nat)
(** holding the mutex, before [freelist_head_] is loaded again *)
| At_reload (fuel : nat)
(** holding the mutex, the freelist still empty: before [Grow] *)
| At_grow (fuel : nat)
(** holding the mutex, before it is released *)
| At_unlock (fuel : nat) (freelist_head : Z)
(** entering [TryAllocateEntryFromFreelist], before [capacity()] *)
| At_try (fuel : nat) (freelist_head : Z)
(** before the load of the entry at [freelist_head] *)
| At_capacity (fuel : nat) (freelist_head table_capacity : Z)
(** before the compare-and-swap of [freelist_head_] *)
| At_loaded (fuel : nat) (freelist_head : Z) (entry : Entry)
(** the loop left: before the entry is initialised *)
| At_store (freelist_head : Z)
(** returned, with the handle of [freelist_head] *)
| At_returned (freelist_head : Z)
(** a check has failed *)
| At_aborted.

(** The rest of a round of the loop, [p] being what remains to be done to
    know [freelist_head]. *)
Definition claim_from (fuel : nat) (p : prog Z) : prog Z :=
  freelist_head ← p;
  success ← TryAllocateEntryFromFreelist freelist_head;
  if success : bool then mret freelist_head else allocate_loop fuel.

(** The end of a round of the loop. *)
Definition retry (fuel : nat) (freelist_head : Z) (success : bool)
  : prog Z :=
  if success then mret freelist_head else allocate_loop fuel.

(** What [AllocateAndInitializeEntry] does under the mutex, once it holds
    it. *)
Definition reload_under_mutex : prog Z :=
  freelist_head ← perform Load_freelist_head;
  freelist_head ←
    (if freelist_head =? 0 then perform Grow else mret freelist_head);
  perform Unlock_mutex;;
  mret freelist_head.

(** What [AllocateAndInitializeEntry] does after its loop. *)
Definition initialize (initial_value : Address) (tag : ExternalPointerTag)
    (freelist_head : Z) : prog ExternalPointerHandle :=
  let entry := MakeRegularEntry initial_value tag in
  perform (RelaxedStore freelist_head entry);;
  mret (IndexToHandle freelist_head).

(** What remains of [AllocateAndInitializeEntry] at a point. *)
Definition rest_of_allocation (initial_value : Address)
    (tag : ExternalPointerTag) (point : AllocationPoint)
  : prog ExternalPointerHandle :=
  match point with
  | At_loop fuel => allocate_loop fuel ≫= initialize initial_value tag
  | At_lock fuel =>
      claim_from fuel (perform Lock_mutex;; reload_under_mutex)
      ≫= initialize initial_value tag
  | At_reload fuel =>
      claim_from fuel reload_under_mutex ≫= initialize initial_value tag
  | At_grow fuel =>
      claim_from fuel
        (freelist_head ← perform Grow;
         perform Unlock_mutex;;
         mret freelist_head)
      ≫= initialize initial_value tag
  | At_unlock fuel freelist_head =>
      claim_from fuel (perform Unlock_mutex;; mret freelist_head)
      ≫= initialize initial_value tag
  | At_try fuel freelist_head =>
      claim_from fuel (mret freelist_head) ≫= initialize initial_value tag
  | At_capacity fuel freelist_head table_capacity =>
      (claim_after_capacity freelist_head table_capacity
       ≫= retry fuel freelist_head)
      ≫= initialize initial_value tag
  | At_loaded fuel freelist_head entry =>
      (claim_after_load freelist_head entry ≫= retry fuel freelist_head)
      ≫= initialize initial_value tag
  | At_store freelist_head => initialize initial_value tag freelist_head
  | At_returned freelist_head => mret (IndexToHandle freelist_head)
  | At_aborted => Abort
  end.

(** The access a thread performs next, if it is to perform one. *)
Definition next_access (initial_value : Address) (tag : ExternalPointerTag)
    (point : AllocationPoint) : option Access :=
  match point with
  | At_loop O => None
  | At_loop (S _) => Some Load_freelist_head
  | At_lock _ => Some Lock_mutex
  | At_reload _ => Some Load_freelist_head
  | At_grow _ => Some Grow
  | At_unlock _ _ => Some Unlock_mutex
  | At_try _ freelist_head =>
      if freelist_head =? 0 then None else Some Load_capacity
  | At_capacity _ freelist_head table_capacity =>
      if freelist_head <? table_capacity
      then Some (RelaxedLoad freelist_head)
      else None
  | At_loaded _ freelist_head entry =>
      Some (CompareAndSwap_freelist_head freelist_head
              (ExtractNextFreelistEntry entry))
  | At_store freelist_head =>
      Some (RelaxedStore freelist_head
              (MakeRegularEntry initial_value tag))
  | At_returned _ | At_aborted => None
  end.

(** Where the thread is after that access has yielded [value]. *)
Definition next_point (point : AllocationPoint) (value : Z)
  : AllocationPoint :=
  match point with
  | At_loop O => point
  | At_loop (S fuel) =>
      if value =? 0 then At_lock fuel else At_try fuel value
  | At_lock fuel => At_reload fuel
  | At_reload fuel =>
      if value =? 0 then At_grow fuel else At_unlock fuel value
  | At_grow fuel => At_unlock fuel value
  | At_unlock fuel freelist_head => At_try fuel freelist_head
  | At_try fuel freelist_head => At_capacity fuel freelist_head value
  | At_capacity fuel freelist_head _ => At_loaded fuel freelist_head value
  | At_loaded fuel freelist_head entry =>
      if value =? freelist_head then
        if IsFreelistEntry entry then At_store freelist_head
        else At_aborted
      else At_loop fuel
  | At_store freelist_head => At_returned freelist_head
  | At_returned _ | At_aborted => point
  end.

(** A thread of a pool of allocating threads is given by the arguments of
    its call and the point it has reached. *)
Definition allocator_prog
    (allocator : Address * ExternalPointerTag * AllocationPoint)
  : prog ExternalPointerHandle :=
  rest_of_allocation allocator.1.1 allocator.1.2 allocator.2.

(** The entry a thread has taken off the freelist. *)
Definition owned_entry (point : AllocationPoint) : option Z :=
  match point with
  | At_store freelist_head | At_returned freelist_head => Some freelist_head
  | _ => None
  end.

(** Whether a thread is between taking the mutex and releasing it. *)
Definition holds_mutex (point : AllocationPoint) : bool :=
  match point with
  | At_reload _ | At_grow _ | At_unlock _ _ => true
  | _ => false
  end.

(** What a thread at [point] knows about the table, [nodes] being the
    indices on the freelist. *)
Definition point_consistent (s : State) (nodes : list Z)
    (allocator : Address * ExternalPointerTag * AllocationPoint) : Prop :=
  match allocator.2 with
  | At_grow _ => freelist_head_ s = 0
  | At_unlock _ freelist_head | At_try _ freelist_head =>
      0 < freelist_head < capacity s
  | At_capacity _ freelist_head table_capacity =>
      0 < freelist_head < table_capacity ∧ table_capacity ≤ capacity s
  | At_loaded _ freelist_head entry =>
      0 < freelist_head < capacity s
      ∧ (freelist_head ∈ nodes →
         entry_at (buffer_ s) freelist_head = Some entry)
  | At_returned freelist_head =>
      entry_at (buffer_ s) freelist_head
      = Some (MakeRegularEntry allocator.1.1 allocator.1.2)
  | At_aborted => False
  | _ => True
  end.

(** The invariant of a pool of allocating threads: the freelist is
    well-formed; the entries taken off it are off it, and no two threads
    have taken the same; the mutex is held by the one thread that is
    between taking and releasing it, if there is one. *)
Definition allocators_invariant
    (allocators : list (Address * ExternalPointerTag * AllocationPoint))
    (s : State) : Prop :=
  table_fits s
  ∧ ∃ nodes,
      freelist_from (buffer_ s) (freelist_head_ s) nodes
      ∧ (∀ i j ci cj head,
           allocators !! i = Some ci → allocators !! j = Some cj →
           owned_entry ci.2 = Some head → owned_entry cj.2 = Some head →
           i = j)
      ∧ (∀ i c head,
           allocators !! i = Some c → owned_entry c.2 = Some head →
           0 < head < capacity s ∧ head ∉ nodes)
      ∧ (∀ i c, allocators !! i = Some c → point_consistent s nodes c)
      ∧ (mutex_ s = true ↔
         ∃ i c, allocators !! i = Some c ∧ holds_mutex c.2 = true)
      ∧ (∀ i j ci cj,
           allocators !! i = Some ci → allocators !! j = Some cj →
           holds_mutex ci.2 = true → holds_mutex cj.2 = true → i = j).

(** Whether a thread has taken an entry off the freelist, and the number
    of threads that have. *)
Definition has_entry
    (allocator : Address * ExternalPointerTag * AllocationPoint) : bool :=
  match owned_entry allocator.2 with
  | Some _ => true
  | None => false
  end.

Definition entries_taken
    (allocators : list (Address * ExternalPointerTag * AllocationPoint))
  : nat :=
  length (List.filter has_entry allocators).

(** The table has grown by no more than one block for each entry taken
    off the freelist, and one more unless the freelist is empty. *)
Definition room_invariant (initial_capacity : Z)
    (allocators : list (Address * ExternalPointerTag * AllocationPoint))
    (s : State) : Prop :=
  capacity s
  ≤ initial_capacity
    + kEntriesPerBlock
      * (Z.of_nat (entries_taken allocators)
         + (if freelist_head_ s =? 0 then 0 else 1)).

(** A bound on the number of changes of [freelist_head_] that a thread
    waiting for its entry may still see other threads make: every other
    thread that has not taken an entry yet takes one, and the table grows
    at most once for each thread that the freelist, as it is, cannot
    serve. *)
Definition changes_to_come
    (allocators : list (Address * ExternalPointerTag * AllocationPoint))
    (s : State) : Z :=
  let waiting :=
    Z.of_nat (length allocators) - Z.of_nat (entries_taken allocators) in
  (waiting - 1) + Z.max 0 (waiting - current_freelist_size s).

(** The rounds that a thread has left outnumber the changes to come: a
    round fails only when [freelist_head_] has changed since the thread
    loaded it. *)
Definition rounds_suffice
    (allocators : list (Address * ExternalPointerTag * AllocationPoint))
    (s : State) (point : AllocationPoint) : Prop :=
  match point with
  | At_loop fuel => changes_to_come allocators s + 1 ≤ Z.of_nat fuel
  | At_lock fuel | At_reload fuel | At_grow fuel =>
      changes_to_come allocators s ≤ Z.of_nat fuel
  | At_unlock fuel freelist_head | At_try fuel freelist_head
  | At_capacity fuel freelist_head _ | At_loaded fuel freelist_head _ =>
      changes_to_come allocators s
      + (if freelist_head_ s =? freelist_head then 0 else 1)
      ≤ Z.of_nat fuel
  | At_store _ | At_returned _ | At_aborted => True
  end.

Definition fuel_invariant
    (allocators : list (Address * ExternalPointerTag * AllocationPoint))
    (s : State) : Prop :=
  ∀ i c, allocators !! i = Some c → rounds_suffice allocators s c.2.

(** The next access of the thread is the call of [Grow]. *)
Definition about_to_grow {A} (thread : prog A) : bool :=
  match thread with
  | Do Grow _ => true
  | _ => false
  end.

End Allocation.

(** ** Threads that exchange

    A pool of threads that call [Exchange] on one handle with one tag.
    Each thread is given by the pointer it stores and, once it has
    returned, the pointer it has received. *)

Section Exchanging.
Context `{L : Layout}.

Definition exchanger_prog (handle : ExternalPointerHandle)
    (tag : ExternalPointerTag) (exchanger : Address * option Address)
  : prog Address :=
  match exchanger.2 with
  | None => Exchange handle exchanger.1 tag
  | Some old_value => mret old_value
  end.

(** The exchanges made so far: the pointer stored and the pointer
    received, for each thread that has returned. *)
Definition completed (exchangers : list (Address * option Address))
  : list (Address * Address) :=
  omap (λ exchanger : Address * option Address,
          match exchanger.2 with
          | Some old_value => Some (exchanger.1, old_value)
          | None => None
          end) exchangers.

(** The same, read off the threads of the pool. *)
Definition exchanges (values : list Address) (threads : list (prog Address))
  : list (Address * Address) :=
  omap (λ pair : Address * prog Address,
          match pair.2 with
          | Ret old_value => Some (pair.1, old_value)
          | _ => None
          end) (zip values threads).

(** The entry holds a pointer under the tag, and the pointers received so
    far together with that pointer are the pointers stored so far
    together with the initial one. *)
Definition exchangers_invariant (handle : ExternalPointerHandle)
    (tag : ExternalPointerTag) (initial_value : Address)
    (exchangers : list (Address * option Address)) (s : State) : Prop :=
  Forall (λ exchanger : Address * option Address,
            Z.land exchanger.1 kExternalPointerTagMask = 0) exchangers
  ∧ ∃ current,
      Z.land current kExternalPointerTagMask = 0
      ∧ entry_at (buffer_ s) (HandleToIndex handle)
        = Some (MakeRegularEntry current tag)
      ∧ current :: (completed exchangers).*2
        ≡ₚ initial_value :: (completed exchangers).*1.

End Exchanging.

(** ** Further predicates used in the statements *)

Section Observations.
Context `{L : Layout}.

(** The accesses that read and do not write. *)
Definition is_load (a : Access) : bool :=
  match a with
  | RelaxedLoad _ | Load_freelist_head | Load_capacity
  | Load_start_of_evacuation_area | Load_handle _ => true
  | _ => false
  end.

(** The accesses of rounds of the loop of [FreelistSize] that are not the
    last: each round loads the head and the entry at the head. *)
Definition retried_rounds (rounds : list (Z * Entry)) : list Event :=
  concat ((λ round : Z * Entry,
             [(Load_freelist_head, round.1); (RelaxedLoad round.1, round.2)])
          <$> rounds).

(** The value returned by the first load of the start of the evacuation
    area in a trace. *)
Fixpoint start_of_evacuation_area_loaded (trace : list Event) : option Z :=
  match trace with
  | [] => None
  | (Load_start_of_evacuation_area, value) :: _ => Some value
  | _ :: trace' => start_of_evacuation_area_loaded trace'
  end.

(** Every [Store] of the trace writes [entry], to an index that is not 0
    and lies below [boundary]. *)
Definition stores_below (boundary : Z) (entry : Entry) (trace : list Event)
  : Prop :=
  Forall (λ ev : Event,
            match ev.1 with
            | Store index entry' => 0 < index < boundary ∧ entry' = entry
            | _ => True
            end) trace.

(** The entry at [index] is marked. *)
Definition marked_at (index : Z) (s : State) : Prop :=
  ∃ entry, entry_at (buffer_ s) index = Some entry ∧ IsMarked entry = true.

(** The table fits the region reserved for it and the entry at [index] is
    marked. *)
Definition kept_marked (index : Z) (s : State) : Prop :=
  table_fits s ∧ marked_at index s.

End Observations.

(** ** Threads that call the methods at the same time

    The points a thread running [Mark] goes through, and a pool whose
    threads allocate, mark, write an entry or only read. *)

Section Marking.
Context `{L : Layout}.

Inductive MarkPoint :=
(** before the handle is loaded from its slot *)
| M_begin (fuel : nat)
(** in the evacuation part, before the start of the evacuation area is
    loaded *)
| M_checked (fuel : nat)
(** before [IsCompacting] loads the start of the evacuation area *)
| M_compacting (fuel : nat) (start : Z)
(** at the top of the loop of [AllocateEvacuationEntry] *)
| M_loop (fuel : nat) (start : Z)
(** entering [TryAllocateEntryFromFreelist], before [capacity()] *)
| M_try (fuel : nat) (start freelist_head : Z)
(** before the load of the entry at [freelist_head] *)
| M_capacity (fuel : nat) (start freelist_head table_capacity : Z)
(** before the compare-and-swap of [freelist_head_] *)
| M_loaded (fuel : nat) (start freelist_head : Z) (entry : Entry)
(** the entry at [index] taken: before the evacuation entry is stored *)
| M_store (index : Z)
(** before the handle in the slot is flagged as visited *)
| M_slot
(** no entry below the evacuation area: before compaction is given up *)
| M_abandon (start : Z)
(** before the load of the entry to mark *)
| M_alive
(** before the compare-and-swap of the entry *)
| M_marking (old_entry : Entry)
(** returned *)
| M_returned
(** a check has failed *)
| M_aborted.

(** The end of a round of the loop of [AllocateEvacuationEntry]. *)
Definition again (fuel : nat) (start freelist_head : Z) (success : bool)
  : prog ExternalPointerHandle :=
  if success then mret (IndexToHandle freelist_head)
  else AllocateEvacuationEntry fuel start.

(** What [Mark] does with the handle [AllocateEvacuationEntry] returns. *)
Definition relocate (handle : ExternalPointerHandle)
    (handle_location : Address) (start : Z)
    (new_handle : ExternalPointerHandle) : prog unit :=
  if negb (new_handle =? kNullExternalPointerHandle) then
    DCHECK (HandleToIndex new_handle <? start);;
    let index := HandleToIndex new_handle in
    perform (Store index (MakeEvacuationEntry handle_location));;
    perform (Store_handle handle_location
               (Z.lor handle kVisitedHandleMarker));;
    mret tt
  else
    let compaction_aborted_marker := Z.lor start kCompactionAbortedMarker in
    perform (Store_start_of_evacuation_area compaction_aborted_marker);;
    mret tt.

(** A call of [Mark] whose evacuation part has [p] left to do. *)
Definition finish (index : Z) (p : prog unit) : prog Z :=
  (p;; mark_alive index);; mret 0.

(** What remains of a call of [Mark] at a point. *)
Definition rest_of_mark (handle : ExternalPointerHandle)
    (handle_location : Address) (point : MarkPoint) : prog Z :=
  let index := HandleToIndex handle in
  match point with
  | M_begin fuel => Mark fuel handle handle_location;; mret 0
  | M_checked fuel => finish index (evacuate fuel handle handle_location index)
  | M_compacting fuel start =>
      finish index
        (compacting ← IsCompacting;
         DCHECK compacting;;
         new_handle ← AllocateEvacuationEntry fuel start;
         relocate handle handle_location start new_handle)
  | M_loop fuel start =>
      finish index
        (AllocateEvacuationEntry fuel start
         ≫= relocate handle handle_location start)
  | M_try fuel start freelist_head =>
      finish index
        ((TryAllocateEntryFromFreelist freelist_head
          ≫= again fuel start freelist_head)
         ≫= relocate handle handle_location start)
  | M_capacity fuel start freelist_head table_capacity =>
      finish index
        ((claim_after_capacity freelist_head table_capacity
          ≫= again fuel start freelist_head)
         ≫= relocate handle handle_location start)
  | M_loaded fuel start freelist_head entry =>
      finish index
        ((claim_after_load freelist_head entry
          ≫= again fuel start freelist_head)
         ≫= relocate handle handle_location start)
  | M_store index' =>
      finish index
        (perform (Store index' (MakeEvacuationEntry handle_location));;
         perform (Store_handle handle_location
                    (Z.lor handle kVisitedHandleMarker));;
         mret tt)
  | M_slot =>
      finish index
        (perform (Store_handle handle_location
                    (Z.lor handle kVisitedHandleMarker));;
         mret tt)
  | M_abandon start =>
      finish index
        (perform (Store_start_of_evacuation_area
                    (Z.lor start kCompactionAbortedMarker));;
         mret tt)
  | M_alive => mark_alive index;; mret 0
  | M_marking old_entry =>
      (entry ← perform (RelaxedCompareAndSwap index old_entry
                          (SetMarkBit old_entry));
       DCHECK ((entry =? old_entry) || IsMarked entry);;
       mret tt);;
      mret 0
  | M_returned => mret 0
  | M_aborted => Abort
  end.

(** The access a marking thread performs next, if it is to perform one. *)
Definition next_mark_access (handle : ExternalPointerHandle)
    (handle_location : Address) (point : MarkPoint) : option Access :=
  match point with
  | M_begin _ => Some (Load_handle handle_location)
  | M_checked _ | M_compacting _ _ => Some Load_start_of_evacuation_area
  | M_loop O _ => None
  | M_loop (S _) _ => Some Load_freelist_head
  | M_try _ _ freelist_head =>
      if freelist_head =? 0 then None else Some Load_capacity
  | M_capacity _ _ freelist_head table_capacity =>
      if freelist_head <? table_capacity
      then Some (RelaxedLoad freelist_head)
      else None
  | M_loaded _ _ freelist_head entry =>
      Some (CompareAndSwap_freelist_head freelist_head
              (ExtractNextFreelistEntry entry))
  | M_store index =>
      Some (Store index (MakeEvacuationEntry handle_location))
  | M_slot =>
      Some (Store_handle handle_location
              (Z.lor handle kVisitedHandleMarker))
  | M_abandon start =>
      Some (Store_start_of_evacuation_area
              (Z.lor start kCompactionAbortedMarker))
  | M_alive => Some (RelaxedLoad (HandleToIndex handle))
  | M_marking old_entry =>
      Some (RelaxedCompareAndSwap (HandleToIndex handle) old_entry
              (SetMarkBit old_entry))
  | M_returned | M_aborted => None
  end.

(** Where the thread is after that access has yielded [value]. *)
Definition next_mark_point (handle : ExternalPointerHandle)
    (point : MarkPoint) (value : Z) : MarkPoint :=
  match point with
  | M_begin fuel => if handle =? value then M_checked fuel else M_aborted
  | M_checked fuel =>
      if value <=? HandleToIndex handle then M_compacting fuel value
      else M_alive
  | M_compacting fuel start =>
      if negb (value =? kNotCompactingMarker) then M_loop fuel start
      else M_aborted
  | M_loop O _ => point
  | M_loop (S fuel) start =>
      if (value =? 0) || (start <=? value) then M_abandon start
      else M_try fuel start value
  | M_try fuel start freelist_head =>
      M_capacity fuel start freelist_head value
  | M_capacity fuel start freelist_head _ =>
      M_loaded fuel start freelist_head value
  | M_loaded fuel start freelist_head entry =>
      if value =? freelist_head then
        if IsFreelistEntry entry then
          let new_handle := IndexToHandle freelist_head in
          if negb (new_handle =? kNullExternalPointerHandle) then
            if HandleToIndex new_handle <? start
            then M_store (HandleToIndex new_handle)
            else M_aborted
          else M_abandon start
        else M_aborted
      else M_loop fuel start
  | M_store _ => M_slot
  | M_slot | M_abandon _ => M_alive
  | M_alive => if IsRegularEntry value then M_marking value else M_aborted
  | M_marking old_entry =>
      if (value =? old_entry) || IsMarked value then M_returned
      else M_aborted
  | M_returned | M_aborted => point
  end.

(** A thread of the pool allocates an entry, marks one, only loads, or has
    the entry at [index] to write before it only loads. *)
Inductive Worker :=
| Allocating (initial_value : Address) (tag : ExternalPointerTag)
    (point : AllocationPoint)
| Marking (handle : ExternalPointerHandle) (handle_location : Address)
    (point : MarkPoint)
| Reading (p : prog Z)
| Writing (index : Z) (p : prog Z).

Definition worker_prog (worker : Worker) : prog Z :=
  match worker with
  | Allocating initial_value tag point =>
      rest_of_allocation initial_value tag point
  | Marking handle handle_location point =>
      rest_of_mark handle handle_location point
  | Reading p | Writing _ p => p
  end.

(** The thread that is about to make a call. *)
Definition worker_of (fuel : nat) (call : Call) : Worker :=
  match call with
  | Call_AllocateAndInitializeEntry initial_value tag =>
      Allocating initial_value tag (At_loop fuel)
  | Call_Mark handle handle_location =>
      Marking handle handle_location (M_begin fuel)
  | Call_Set handle _ _ | Call_Exchange handle _ _ =>
      Writing (HandleToIndex handle) (invoke fuel call)
  | _ => Reading (invoke fuel call)
  end.

(** The calls that threads may make while others allocate and mark: those
    of the public methods, [Set] and [Exchange] being called with a handle
    whose entry is not free.  [TryAllocateEntryFromFreelist] and
    [AllocateEvacuationEntry] are called by the methods that allocate and
    mark. *)
Definition concurrent_call (s : State) (call : Call) : Prop :=
  match call with
  | Call_Set handle _ _ | Call_Exchange handle _ _ =>
      ∃ entry,
        entry_at (buffer_ s) (HandleToIndex handle) = Some entry
        ∧ IsFreelistEntry entry = false
  | Call_TryAllocateEntryFromFreelist _ | Call_AllocateEvacuationEntry _ =>
      False
  | _ => True
  end.

(** The thread after its next access has yielded [value]. *)
Definition worker_next (worker : Worker) (value : Z) : Worker :=
  match worker with
  | Allocating initial_value tag point =>
      Allocating initial_value tag (next_point point value)
  | Marking handle handle_location point =>
      Marking handle handle_location (next_mark_point handle point value)
  | Reading (Do _ k) | Writing _ (Do _ k) => Reading (k value)
  | Reading p | Writing _ p => Reading p
  end.

(** The call of a thread that allocates or marks. *)
Definition worker_call (worker : Worker) : option Call :=
  match worker with
  | Allocating initial_value tag _ =>
      Some (Call_AllocateAndInitializeEntry initial_value tag)
  | Marking handle handle_location _ =>
      Some (Call_Mark handle handle_location)
  | Reading _ | Writing _ _ => None
  end.

(** The entry a thread has taken off the freelist and not written yet, or
    returned the handle of. *)
Definition worker_owned (worker : Worker) : option Z :=
  match worker with
  | Allocating _ _ point => owned_entry point
  | Marking _ _ (M_store index) => Some index
  | _ => None
  end.

Definition worker_holds (worker : Worker) : bool :=
  match worker with
  | Allocating _ _ point => holds_mutex point
  | _ => false
  end.

(** The entry a thread has yet to write, without having taken it off the
    freelist. *)
Definition worker_writes (worker : Worker) : option Z :=
  match worker with
  | Writing index (Do _ _) => Some index
  | _ => None
  end.

(** What a thread knows about the table, [nodes] being the indices on the
    freelist. *)
Definition worker_consistent (s : State) (nodes : list Z) (worker : Worker)
  : Prop :=
  match worker with
  | Allocating initial_value tag point =>
      match point with
      | At_grow _ => freelist_head_ s = 0
      | At_unlock _ freelist_head | At_try _ freelist_head =>
          0 < freelist_head < capacity s
      | At_capacity _ freelist_head table_capacity =>
          0 < freelist_head < table_capacity ∧ table_capacity ≤ capacity s
      | At_loaded _ freelist_head entry =>
          0 < freelist_head < capacity s
          ∧ (freelist_head ∈ nodes →
             entry_at (buffer_ s) freelist_head = Some entry)
      | At_store freelist_head =>
          ∃ entry,
            entry_at (buffer_ s) freelist_head = Some entry
            ∧ IsFreelistEntry entry = true
      | At_returned freelist_head =>
          entry_at (buffer_ s) freelist_head
          = Some (MakeRegularEntry initial_value tag)
          ∨ entry_at (buffer_ s) freelist_head
            = Some (SetMarkBit (MakeRegularEntry initial_value tag))
      | At_aborted => False
      | _ => True
      end
  | Marking handle _ point =>
      match point with
      | M_try _ _ freelist_head | M_capacity _ _ freelist_head _ =>
          0 < freelist_head < capacity s
      | M_loaded _ _ freelist_head entry =>
          0 < freelist_head < capacity s
          ∧ (freelist_head ∈ nodes →
             entry_at (buffer_ s) freelist_head = Some entry)
      | M_store index =>
          ∃ entry,
            entry_at (buffer_ s) index = Some entry
            ∧ IsFreelistEntry entry = true
      | M_marking old_entry => IsRegularEntry old_entry = true
      | M_returned =>
          (∀ entry,
             IsFreelistEntry entry = true → IsMarked entry = false) →
          ∃ entry,
            entry_at (buffer_ s) (HandleToIndex handle) = Some entry
            ∧ IsMarked entry = true
      | _ => True
      end
  | Reading p => performs_only is_load p
  | Writing index p =>
      match p with
      | Do a k =>
          (∃ entry,
             (a = RelaxedStore index entry ∨ a = RelaxedExchange index entry)
             ∧ IsMarked entry = true)
          ∧ (∀ value, performs_only is_load (k value))
          ∧ 0 ≤ index < capacity s
          ∧ index ∉ nodes
      | _ => True
      end
  end.

(** The invariant of the pool: the freelist is well-formed; the entries
    taken off it are off it, no two threads have taken the same, and none
    is an entry that a thread is to write without having taken it; the
    mutex is held by the one thread that is between taking and releasing
    it, if there is one. *)
Definition workers_invariant (workers : list Worker) (s : State) : Prop :=
  table_fits s
  ∧ ∃ nodes,
      freelist_from (buffer_ s) (freelist_head_ s) nodes
      ∧ (∀ i j wi wj head,
           workers !! i = Some wi → workers !! j = Some wj →
           worker_owned wi = Some head → worker_owned wj = Some head →
           i = j)
      ∧ (∀ i w head,
           workers !! i = Some w → worker_owned w = Some head →
           0 < head < capacity s ∧ head ∉ nodes)
      ∧ (∀ i j wi wj index,
           workers !! i = Some wi → workers !! j = Some wj →
           worker_writes wi = Some index → worker_owned wj ≠ Some index)
      ∧ (∀ i w, workers !! i = Some w → worker_consistent s nodes w)
      ∧ (mutex_ s = true ↔
         ∃ i w, workers !! i = Some w ∧ worker_holds w = true)
      ∧ (∀ i j wi wj,
           workers !! i = Some wi → workers !! j = Some wj →
           worker_holds wi = true → worker_holds wj = true → i = j).

End Marking.

(** ** Example states, on the reference layout *)

Definition tag_a : ExternalPointerTag := 0x8012000000000000.
Definition tag_b : ExternalPointerTag := 0x8034000000000000.

(** Capacity 8: entry 1 free, entries 2 and 6 regular, entry 5 free and
    linked to entry 1; the freelist is 5 -> 1 -> end.  Heap slot 0x7000
    holds the handle of entry 6. *)
Definition example_state : State := {|
  buffer_ :=
    [ 0;
      MakeFreelistEntry 0 1;
      MakeRegularEntry 0x1000 tag_a;
      0; 0;
      MakeFreelistEntry 1 2;
      MakeRegularEntry 0x2000 tag_b;
      0 ];
  freelist_head_ := 5;
  start_of_evacuation_area_ := kNotCompactingMarker;
  mutex_ := false;
  heap_ := {[ 0x7000 := IndexToHandle 6 ]}
|}.

(** [example_state] while the table is compacted, entries from index
    [boundary] on being evacuated. *)
Definition compacting_state (boundary : Z) : State :=
  set_start example_state boundary.

(** Capacity 8, compacting from index 4 on: entries 1 and 5 free, the
    freelist 1 -> 5 -> end ordered by index; entries 2 and 6 regular.  Heap
    slot 0x7000 holds the handle of entry 6. *)
Definition ordered_state : State := {|
  buffer_ :=
    [ 0;
      MakeFreelistEntry 5 2;
      MakeRegularEntry 0x1000 tag_a;
      0; 0;
      MakeFreelistEntry 0 1;
      MakeRegularEntry 0x2000 tag_b;
      0 ];
  freelist_head_ := 1;
  start_of_evacuation_area_ := 4;
  mutex_ := false;
  heap_ := {[ 0x7000 := IndexToHandle 6 ]}
|}.

(** The table before its first growth. *)
Definition empty_table : State := {|
  buffer_ := [];
  freelist_head_ := 0;
  start_of_evacuation_area_ := kNotCompactingMarker;
  mutex_ := false;
  heap_ := ∅
|}.

(** A tag without the mark bit: an entry allocated with it is unmarked. *)
Definition tag_unmarked : ExternalPointerTag := 0x0012000000000000.

(** [example_state] with entry 6 holding its pointer under a tag without
    the mark bit: the entry is regular and not marked. *)
Definition unmarked_state : State :=
  store_entry example_state 6 (MakeRegularEntry 0x2000 tag_unmarked).

(** Six allocations into the empty table, which grows twice, mixed with
    frees and one allocation of an evacuation entry below index 4. *)
Definition example_ops : list FreelistOp :=
  [ Op_AllocateAndInitializeEntry 0x1000 tag_unmarked;
    Op_AllocateAndInitializeEntry 0x2000 tag_a;
    Op_Reclaim 1;
    Op_AllocateAndInitializeEntry 0x3000 tag_unmarked;
    Op_AllocateAndInitializeEntry 0x4000 tag_unmarked;
    Op_AllocateAndInitializeEntry 0x5000 tag_unmarked;
    Op_AllocateAndInitializeEntry 0x6000 tag_unmarked;
    Op_Reclaim 3;
    Op_AllocateEvacuationEntry 4;
    Op_Reclaim 1;
    Op_Reclaim 4 ].

(** Interference for [example_state]: while the thread is between its
    second and its third access, another thread claims entry 5, the head of
    the freelist, and so moves the head to entry 1. *)
Definition example_rival_claim (n : nat) (s : State) : option State :=
  if (n =? 2)%nat then Some (set_freelist_head s 1) else Some s.

(** Interference for [example_state]: just before the thread's fourth
    access a mutator stores a new pointer into entry 6. *)
Definition example_racing_set (n : nat) : list Call :=
  if (n =? 3)%nat then [Call_Set (IndexToHandle 6) 0x5000 tag_a] else [].

(** [example_state] with heap slot 0x7000 holding the handle of entry 5,
    which is free. *)
Definition dangling_state : State :=
  set_heap example_state {[ 0x7000 := IndexToHandle 5 ]}.

(** Two calls of [AllocateAndInitializeEntry], made by two threads. *)
Definition example_requests : list (Address * ExternalPointerTag) :=
  [(0x3000, tag_a); (0x4000, tag_b)].

(** A schedule on which the two threads contend for the head of the
    freelist of [example_state]: both load the head; the first thread
    claims the entry and initialises it; the second fails to claim it and
    goes round its loop once more. *)
Definition contended_schedule : list nat :=
  [0; 1; 0; 0; 0; 0; 1; 1; 1; 1; 1; 1; 1; 1]%nat.

(** A schedule for [empty_table] that stops when the first thread is about
    to grow the table: both threads load the empty head, the first takes
    the mutex, the second waits for it, the first loads the head again. *)
Definition growing_schedule : list nat := [0; 1; 0; 1; 0]%nat.

(** Interference for [example_state]: between the first and the second
    access of the thread another thread allocates entry 5, the head of the
    freelist. *)
Definition example_rival_allocation (n : nat) (s : State) : option State :=
  if (n =? 1)%nat
  then Some (store_entry (set_freelist_head s 1) 5
               (MakeRegularEntry 0x3000 tag_a))
  else Some s.

(** Interference for [example_state]: just before the thread's second
    access a mutator stores a pointer into entry 2. *)
Definition example_other_set (n : nat) : list Call :=
  if (n =? 1)%nat then [Call_Set (IndexToHandle 2) 0x5000 tag_a] else [].

(** Calls of several methods, among them an allocation with an unmarked
    tag and writes to entry 2. *)
Definition example_calls : list Call :=
  [ Call_Set (IndexToHandle 2) 0x3000 tag_a;
    Call_AllocateAndInitializeEntry 0x4000 tag_unmarked;
    Call_Mark (IndexToHandle 6) 0x7000;
    Call_Exchange (IndexToHandle 2) 0x5000 tag_a;
    Call_FreelistSize ].

(** Interference for [compacting_state 6]: between the second and the
    third access of the thread another marking thread aborts the
    compaction. *)
Definition example_rival_abort (n : nat) (s : State) : option State :=
  if (n =? 2)%nat
  then Some (set_start s (Z.lor 6 kCompactionAbortedMarker))
  else Some s.

(** Four threads: one allocates, one marks the entry of the handle in
    slot 0x7000, one asks for the size of the freelist, one stores a
    pointer into entry 2. *)
Definition example_pool : list Call :=
  [ Call_AllocateAndInitializeEntry 0x3000 tag_a;
    Call_Mark (IndexToHandle 6) 0x7000;
    Call_FreelistSize;
    Call_Set (IndexToHandle 2) 0x5000 tag_a ].

(** A schedule for [compacting_state 6] on which the marking thread and
    the allocating thread contend for entry 5, the head of the freelist:
    both load the head; the allocating thread takes the entry; the marking
    thread fails to take it, goes round its loop once more and evacuates to
    entry 1. *)
Definition marking_schedule : list nat :=
  [1; 1; 1; 1; 0; 0; 0; 0; 1; 1; 1; 1; 1; 1; 3; 1; 1; 0; 1; 1; 1;
   2; 2; 2; 2]%nat.

(* ================================================================== *)
(** * Properties *)

Section Properties.
Context `{L : Layout}.

(** ** Bit-level facts about entries *)

Lemma land_regular_entry value tag :
  Z.land value kExternalPointerTagMask = 0 →
  Z.land tag kExternalPointerTagMask = tag →
  Z.land (MakeRegularEntry value tag) kExternalPointerTagMask = tag.
Proof.
  intros Hv Ht. unfold MakeRegularEntry.
  by rewrite Z.land_lor_distr_l, Hv, Ht, Z.lor_0_l.
Qed.

Lemma ldiff_regular_entry value tag :
  Z.land value kExternalPointerTagMask = 0 →
  Z.land tag kExternalPointerTagMask = tag →
  Z.ldiff (MakeRegularEntry value tag) kExternalPointerTagMask = value.
Proof.
  intros Hv Ht. unfold MakeRegularEntry.
  apply Z.bits_inj'. intros n Hn.
  rewrite Z.ldiff_spec, Z.lor_spec.
  apply (f_equal (λ x, Z.testbit x n)) in Hv, Ht.
  rewrite Z.land_spec in Hv, Ht. rewrite Z.bits_0 in Hv.
  destruct (Z.testbit value n), (Z.testbit tag n),
    (Z.testbit kExternalPointerTagMask n); simpl in *; congruence.
Qed.

Lemma HasTag_regular_entry value tag tag' :
  Z.land value kExternalPointerTagMask = 0 →
  Z.land tag kExternalPointerTagMask = tag →
  HasTag (MakeRegularEntry value tag) tag' = bool_decide (tag = tag').
Proof.
  intros Hv Ht. unfold HasTag. rewrite land_regular_entry by done.
  case_bool_decide; [by apply Z.eqb_eq | by apply Z.eqb_neq].
Qed.

Lemma IsRegularEntry_regular_entry value tag :
  Z.land value kExternalPointerTagMask = 0 →
  pointer_tag tag →
  IsRegularEntry (MakeRegularEntry value tag) = true.
Proof.
  intros Hv (Ht & Hfree & Hevac).
  unfold IsRegularEntry, IsFreelistEntry, IsEvacuationEntry.
  rewrite !HasTag_regular_entry by done.
  by rewrite !bool_decide_eq_false_2.
Qed.

Lemma Untag_regular_entry value tag :
  Z.land value kExternalPointerTagMask = 0 →
  Z.land tag kExternalPointerTagMask = tag →
  Untag (MakeRegularEntry value tag) tag = Some value.
Proof.
  intros Hv Ht. unfold Untag.
  rewrite HasTag_regular_entry, bool_decide_eq_true_2 by done.
  by rewrite ldiff_regular_entry.
Qed.

Lemma Untag_mismatch value tag tag' :
  Z.land value kExternalPointerTagMask = 0 →
  Z.land tag kExternalPointerTagMask = tag →
  tag' ≠ tag →
  Untag (MakeRegularEntry value tag) tag' = None.
Proof.
  intros Hv Ht Hne. unfold Untag.
  by rewrite HasTag_regular_entry, bool_decide_eq_false_2.
Qed.

Lemma land_lor_same a b : Z.land (Z.lor a b) b = b.
Proof.
  apply Z.bits_inj'. intros n _. rewrite Z.land_spec, Z.lor_spec.
  by destruct (Z.testbit a n), (Z.testbit b n).
Qed.

Lemma IsMarked_SetMarkBit entry : IsMarked (SetMarkBit entry) = true.
Proof.
  unfold IsMarked, SetMarkBit. rewrite land_lor_same.
  apply negb_true_iff, Z.eqb_neq, mark_bit_nonzero.
Qed.

Lemma IsMarked_regular_entry value tag :
  Z.land tag kExternalPointerMarkBit ≠ 0 →
  IsMarked (MakeRegularEntry value tag) = true.
Proof.
  intros Htag. unfold IsMarked, MakeRegularEntry.
  apply negb_true_iff, Z.eqb_neq. rewrite Z.land_lor_distr_l.
  intros [_ H]%Z.lor_eq_0_iff. done.
Qed.

Lemma IsRegularEntry_SetMarkBit entry :
  pointer_tag (tag_when_marked entry) →
  IsRegularEntry (SetMarkBit entry) = true.
Proof.
  intros (_ & Hfree & Hevac).
  unfold IsRegularEntry, IsFreelistEntry, IsEvacuationEntry, HasTag.
  by rewrite !(proj2 (Z.eqb_neq _ _)).
Qed.

(** ** Freelist entries *)

Lemma freelist_field_bits_pos : 0 < kFreelistFieldBits.
Proof. pose proof index_shift_range. pose proof freelist_field_fits. lia. Qed.

Lemma testbit_above a bits n :
  0 ≤ a < 2 ^ bits → 0 ≤ bits ≤ n → Z.testbit a n = false.
Proof.
  intros Ha Hn. rewrite <- (Z.mod_small a (2 ^ bits)) by done.
  by apply Z.mod_pow2_bits_high.
Qed.

Lemma tag_mask_low_bit n :
  0 ≤ n < 2 * kFreelistFieldBits →
  Z.testbit kExternalPointerTagMask n = false.
Proof.
  intros Hn.
  pose proof (f_equal (λ x, Z.testbit x n) tag_above_freelist_fields) as H.
  cbn beta in H.
  rewrite Z.land_spec, Z.bits_0, Z.testbit_ones_nonneg in H by lia.
  rewrite (proj2 (Z.ltb_lt _ _)) in H by lia.
  by rewrite andb_true_r in H.
Qed.

Lemma free_tag_bit n :
  Z.testbit kExternalPointerFreeEntryTag n = true →
  Z.testbit kExternalPointerTagMask n = true.
Proof.
  pose proof (f_equal (λ x, Z.testbit x n) free_tag_in_mask) as H.
  cbn beta in H. rewrite Z.land_spec in H.
  intros Hfree. rewrite Hfree in H. by destruct (Z.testbit _ n).
Qed.

Lemma free_tag_low_bit n :
  0 ≤ n < 2 * kFreelistFieldBits →
  Z.testbit kExternalPointerFreeEntryTag n = false.
Proof.
  intros Hn. pose proof (tag_mask_low_bit n Hn) as Hmask.
  pose proof (free_tag_bit n) as Hfree.
  destruct (Z.testbit kExternalPointerFreeEntryTag n); [|done].
  by rewrite Hfree in Hmask.
Qed.

Lemma ExtractNextFreelistEntry_range entry :
  0 ≤ ExtractNextFreelistEntry entry < 2 ^ kFreelistFieldBits.
Proof.
  pose proof freelist_field_bits_pos. unfold ExtractNextFreelistEntry.
  rewrite Z.land_ones by lia. apply Z.mod_pos_bound.
  apply Z.pow_pos_nonneg; lia.
Qed.

Lemma ExtractFreelistSize_range entry :
  0 ≤ ExtractFreelistSize entry < 2 ^ kFreelistFieldBits.
Proof.
  pose proof freelist_field_bits_pos. unfold ExtractFreelistSize.
  rewrite Z.land_ones by lia. apply Z.mod_pos_bound.
  apply Z.pow_pos_nonneg; lia.
Qed.

Lemma ExtractNextFreelistEntry_MakeFreelistEntry next size :
  0 ≤ next < 2 ^ kFreelistFieldBits →
  ExtractNextFreelistEntry (MakeFreelistEntry next size) = next.
Proof.
  pose proof freelist_field_bits_pos as Hbits. intros Hnext.
  unfold ExtractNextFreelistEntry, MakeFreelistEntry.
  apply Z.bits_inj'. intros n Hn.
  rewrite Z.land_spec, !Z.lor_spec, Z.testbit_ones_nonneg by lia.
  destruct (Z.ltb_spec n kFreelistFieldBits) as [Hlow|Hhigh].
  - rewrite Z.shiftl_spec, Z.testbit_neg_r, free_tag_low_bit by lia.
    by rewrite orb_false_l, orb_false_r, andb_true_r.
  - rewrite andb_false_r. symmetry.
    apply (testbit_above next kFreelistFieldBits); lia.
Qed.

Lemma ExtractFreelistSize_MakeFreelistEntry next size :
  0 ≤ next < 2 ^ kFreelistFieldBits →
  0 ≤ size < 2 ^ kFreelistFieldBits →
  ExtractFreelistSize (MakeFreelistEntry next size) = size.
Proof.
  pose proof freelist_field_bits_pos as Hbits. intros Hnext Hsize.
  unfold ExtractFreelistSize, MakeFreelistEntry.
  apply Z.bits_inj'. intros n Hn.
  rewrite Z.land_spec, Z.shiftr_spec, !Z.lor_spec, Z.testbit_ones_nonneg
    by lia.
  rewrite Z.shiftl_spec by lia.
  replace (n + kFreelistFieldBits - kFreelistFieldBits) with n by lia.
  destruct (Z.ltb_spec n kFreelistFieldBits) as [Hlow|Hhigh].
  - rewrite (testbit_above next kFreelistFieldBits), free_tag_low_bit
      by lia.
    by rewrite !orb_false_r, andb_true_r.
  - rewrite andb_false_r. symmetry.
    apply (testbit_above size kFreelistFieldBits); lia.
Qed.

Lemma IsFreelistEntry_MakeFreelistEntry next size :
  0 ≤ next < 2 ^ kFreelistFieldBits →
  0 ≤ size < 2 ^ kFreelistFieldBits →
  IsFreelistEntry (MakeFreelistEntry next size) = true.
Proof.
  pose proof freelist_field_bits_pos as Hbits. intros Hnext Hsize.
  unfold IsFreelistEntry, HasTag, MakeFreelistEntry.
  apply Z.eqb_eq, Z.bits_inj'. intros n Hn.
  rewrite Z.land_spec, !Z.lor_spec.
  destruct (Z.testbit kExternalPointerTagMask n) eqn:Hmask.
  - assert (2 * kFreelistFieldBits ≤ n) as Hhigh.
    { destruct (Z.le_gt_cases (2 * kFreelistFieldBits) n); [done |].
      rewrite tag_mask_low_bit in Hmask by lia. done. }
    rewrite Z.shiftl_spec by lia.
    rewrite (testbit_above size kFreelistFieldBits),
      (testbit_above next kFreelistFieldBits) by lia.
    by rewrite andb_true_r.
  - rewrite andb_false_r. pose proof (free_tag_bit n) as Hfree.
    destruct (Z.testbit kExternalPointerFreeEntryTag n); [|done].
    by rewrite Hfree in Hmask.
Qed.

(** ** Reading and writing the buffer *)

Lemma entry_at_Some buffer index entry :
  entry_at buffer index = Some entry →
  0 ≤ index < Z.of_nat (length buffer).
Proof.
  unfold entry_at. destruct (Z.ltb_spec index 0); [done |].
  intros Hl%lookup_lt_Some. lia.
Qed.

Lemma entry_at_is_Some buffer index :
  0 ≤ index < Z.of_nat (length buffer) → is_Some (entry_at buffer index).
Proof.
  intros H. unfold entry_at. destruct (Z.ltb_spec index 0); [lia |].
  apply lookup_lt_is_Some. lia.
Qed.

Lemma entry_at_insert buffer index entry :
  0 ≤ index < Z.of_nat (length buffer) →
  entry_at (<[Z.to_nat index := entry]> buffer) index = Some entry.
Proof.
  intros H. unfold entry_at. destruct (Z.ltb_spec index 0); [lia |].
  apply list_lookup_insert_eq. lia.
Qed.

Lemma entry_at_insert_ne buffer index index' entry :
  0 ≤ index → index ≠ index' →
  entry_at (<[Z.to_nat index := entry]> buffer) index'
  = entry_at buffer index'.
Proof.
  intros H Hne. unfold entry_at. destruct (Z.ltb_spec index' 0); [done |].
  apply list_lookup_insert_ne. lia.
Qed.

Lemma buffer_store_entry s index entry :
  buffer_ (store_entry s index entry)
  = <[Z.to_nat index := entry]> (buffer_ s).
Proof. done. Qed.

Lemma store_entry_only_entry_changed s index entry :
  0 ≤ index → only_entry_changed index s (store_entry s index entry).
Proof.
  intros Hi. unfold only_entry_changed, store_entry; simpl.
  repeat split; [by rewrite length_insert |].
  intros other Hne. by apply entry_at_insert_ne.
Qed.

(** ** Running a sequence *)

Lemma run_bind {A B} (p : prog A) (f : A → prog B) s :
  run (p ≫= f) s =
  match run p s with
  | Done a s' trace =>
      match run (f a) s' with
      | Done b s'' trace' => Done b s'' (trace ++ trace')
      | Aborted => Aborted
      | Diverged => Diverged
      end
  | Aborted => Aborted
  | Diverged => Diverged
  end.
Proof.
  revert s. induction p as [a| | |a k IH]; intros s; cbn.
  - by destruct (run (f a) s).
  - done.
  - done.
  - destruct (access a s) as [v s'| |]; [|done..].
    change (prog_bind f (k v)) with (k v ≫= f). rewrite IH.
    destruct (run (k v) s') as [r s'' trace| |]; [|done..].
    by destruct (run (f r) s'').
Qed.

Lemma exec_bind {A B} env (p : prog A) (f : A → prog B) n s :
  exec env n (p ≫= f) s =
  match exec env n p s with
  | Done a s' trace =>
      match exec env (n + length trace) (f a) s' with
      | Done b s'' trace' => Done b s'' (trace ++ trace')
      | Aborted => Aborted
      | Diverged => Diverged
      end
  | Aborted => Aborted
  | Diverged => Diverged
  end.
Proof.
  revert n s. induction p as [a| | |a k IH]; intros n s; cbn.
  - rewrite Nat.add_0_r. by destruct (exec env n (f a) s).
  - done.
  - done.
  - destruct (env n s) as [s1|]; [|done].
    destruct (access a s1) as [v s2| |]; [|done..].
    change (prog_bind f (k v)) with (k v ≫= f). rewrite IH.
    destruct (exec env (S n) (k v) s2) as [r s3 trace| |]; [|done..].
    cbn [length].
    replace (n + S (length trace))%nat with (S n + length trace)%nat by lia.
    by destruct (exec env (S n + length trace) (f r) s3).
Qed.

Lemma exec_quiet {A} (p : prog A) n s :
  exec (λ _ s, Some s) n p s = run p s.
Proof.
  revert n s. induction p as [a| | |a k IH]; intros n s; cbn; try done.
  destruct (access a s) as [v s'| |]; [|done..]. by rewrite IH.
Qed.

(** ** Which accesses a program performs *)

Lemma performs_only_bind {A B} allowed (p : prog A) (f : A → prog B) :
  performs_only allowed p →
  (∀ a, performs_only allowed (f a)) →
  performs_only allowed (p ≫= f).
Proof.
  intros Hp Hf. induction Hp as [a| | |a k Ha Hk IH]; cbn.
  - apply Hf.
  - constructor.
  - constructor.
  - constructor; [done |]. intros v. apply IH.
Qed.

Lemma performs_only_perform allowed a :
  allowed a = true → performs_only allowed (perform a).
Proof. intros Ha. constructor; [done |]. intros v. constructor. Qed.

Lemma performs_only_DCHECK allowed c : performs_only allowed (DCHECK c).
Proof. destruct c; constructor. Qed.

Lemma exec_performs_only {A} allowed env (p : prog A) n s a s' trace :
  performs_only allowed p →
  exec env n p s = Done a s' trace →
  Forall (λ ev, allowed ev.1 = true) trace.
Proof.
  intros Hp. revert n s a s' trace.
  induction Hp as [r| | |b k Hb Hk IH]; intros n s a s' trace; cbn;
    try done.
  - intros [= _ _ <-]. constructor.
  - destruct (env n s) as [s1|]; [|done].
    destruct (access b s1) as [v s2| |]; [|done..].
    destruct (exec env (S n) (k v) s2) as [r s3 trace'| |] eqn:Hk';
      [|done..].
    intros [= _ _ <-]. constructor; [done |]. eapply IH, Hk'.
Qed.

(** ** What a program ensures under interference *)

Lemma access_table_fits a s v s' :
  table_fits s → access a s = Reply v s' → table_fits s'.
Proof.
  unfold table_fits, capacity. intros Hs.
  destruct a; cbn; unfold grow, reclaim;
    repeat match goal with
    | |- context [match ?x with _ => _ end] => destruct x eqn:?
    end; try done; intros [= _ <-]; cbn; rewrite ?length_insert; try done.
  unfold grow_block. rewrite length_app, length_fmap, length_seqZ.
  pose proof entries_per_block_range. unfold capacity in *. lia.
Qed.

Lemma exec_ensures {A} I Q env (p : prog A) n s a s' trace :
  (∀ n s s1, I s → env n s = Some s1 → I s1) →
  (∀ a s v s', I s → access a s = Reply v s' → I s') →
  ensures I Q p →
  I s →
  exec env n p s = Done a s' trace →
  Q trace a.
Proof.
  intros Henv Hacc Hp. revert n s a s' trace.
  induction Hp as [Q0 r|Q0|Q0|Q0 b k Hk IH]; intros n s a s' trace Hs; cbn;
    try done.
  - by intros [= <- _ <-].
  - destruct (env n s) as [s1|] eqn:Hs1; [|done].
    apply Henv in Hs1; [|done].
    destruct (access b s1) as [v s2| |] eqn:Hs2; [|done..].
    destruct (exec env (S n) (k v) s2) as [r s3 trace'| |] eqn:Hk';
      [|done..].
    intros [= <- _ <-].
    eapply (IH _ _ _ Hs1 Hs2); [by eapply Hacc | exact Hk'].
Qed.

Lemma ensures_weaken {A} I (Q Q' : list Event → A → Prop) (p : prog A) :
  ensures I Q p →
  (∀ trace a, Q trace a → Q' trace a) →
  ensures I Q' p.
Proof.
  intros Hp. revert Q'.
  induction Hp as [Q0 a Ha|Q0|Q0|Q0 a k Hk IH]; intros Q' HQ.
  - constructor. by apply HQ.
  - constructor.
  - constructor.
  - constructor. intros s v s' Hs Hacc.
    eapply IH; [done.. |]. intros trace r. apply HQ.
Qed.

Lemma ensures_bind {A B} I (Q' : list Event → A → Prop)
    (Q : list Event → B → Prop) (p : prog A) (f : A → prog B) :
  ensures I Q' p →
  (∀ trace a, Q' trace a → ensures I (λ trace', Q (trace ++ trace')) (f a)) →
  ensures I Q (p ≫= f).
Proof.
  intros Hp. revert Q.
  induction Hp as [Q0 a Ha|Q0|Q0|Q0 a k Hk IH]; intros Q Hf; cbn.
  - by apply (Hf [] a).
  - constructor.
  - constructor.
  - constructor. intros s v s' Hs Hacc.
    eapply IH; [done.. |]. intros trace r HQ'. by apply (Hf _ _ HQ').
Qed.

Lemma ensures_DCHECK I c :
  ensures I (λ trace _, trace = [] ∧ c = true) (DCHECK c).
Proof. destruct c; by constructor. Qed.

Lemma ensures_perform I a :
  ensures I (λ trace v, ∃ s s', I s ∧ access a s = Reply v s'
                                ∧ trace = [(a, v)]) (perform a).
Proof.
  constructor. intros s v s' Hs Hacc. constructor. by exists s, s'.
Qed.

Lemma final_freelist_head_loaded_app trace trace' :
  final_freelist_head_loaded (trace ++ trace') =
  match final_freelist_head_loaded trace' with
  | Some head => Some head
  | None => final_freelist_head_loaded trace
  end.
Proof.
  induction trace as [|[a v] trace IH]; cbn.
  - by destruct (final_freelist_head_loaded trace').
  - rewrite IH. by destruct (final_freelist_head_loaded trace').
Qed.

(** ** Handles and indices *)

Lemma kMaxExternalPointers_pos : 0 < kMaxExternalPointers.
Proof.
  pose proof index_shift_range. unfold kMaxExternalPointers.
  apply Z.pow_pos_nonneg; lia.
Qed.

Lemma IndexToHandle_small index :
  0 ≤ index < kMaxExternalPointers →
  IndexToHandle index = Z.shiftl index kExternalPointerIndexShift.
Proof.
  pose proof index_shift_range as Hshift.
  unfold kMaxExternalPointers, IndexToHandle. intros Hi.
  apply Z.mod_small. rewrite Z.shiftl_mul_pow2 by lia.
  replace (2 ^ 32) with
    (2 ^ (32 - kExternalPointerIndexShift) * 2 ^ kExternalPointerIndexShift)
    by (rewrite <- Z.pow_add_r by lia; f_equal; lia).
  assert (0 < 2 ^ kExternalPointerIndexShift)
    by (apply Z.pow_pos_nonneg; lia).
  nia.
Qed.

Lemma HandleToIndex_IndexToHandle index :
  0 ≤ index < kMaxExternalPointers →
  HandleToIndex (IndexToHandle index) = index.
Proof.
  pose proof index_shift_range as Hshift. intros Hi.
  rewrite IndexToHandle_small by done. unfold HandleToIndex.
  rewrite Z.shiftr_shiftl_l by lia.
  by rewrite Z.sub_diag, Z.shiftl_0_r.
Qed.

Lemma IndexToHandle_nonzero index :
  0 < index < kMaxExternalPointers →
  IndexToHandle index ≠ kNullExternalPointerHandle.
Proof.
  intros Hi Hnull.
  assert (HandleToIndex (IndexToHandle index) = index) as Hback
    by (apply HandleToIndex_IndexToHandle; lia).
  rewrite Hnull in Hback. unfold HandleToIndex in Hback.
  rewrite Z.shiftr_0_l in Hback. lia.
Qed.

(** ** Get, Set and Exchange *)

Lemma run_Get s handle tag :
  run (Get handle tag) s =
  match entry_at (buffer_ s) (HandleToIndex handle) with
  | Some entry =>
      if IsRegularEntry entry then
        match Untag entry tag with
        | Some value =>
            Done value s [(RelaxedLoad (HandleToIndex handle), entry)]
        | None => Aborted
        end
      else Aborted
  | None => Aborted
  end.
Proof.
  unfold Get; cbn.
  destruct (entry_at _ _) as [entry|]; [|done]. cbn.
  destruct (IsRegularEntry entry); [|done]. cbn.
  by destruct (Untag entry tag).
Qed.

Lemma run_Set s handle value tag :
  run (Set_ handle value tag) s =
  if negb (handle =? kNullExternalPointerHandle)
     && (Z.land value kExternalPointerTagMask =? 0)
     && negb (Z.land tag kExternalPointerMarkBit =? 0)
  then
    match entry_at (buffer_ s) (HandleToIndex handle) with
    | Some _ =>
        Done tt
          (store_entry s (HandleToIndex handle) (MakeRegularEntry value tag))
          [(RelaxedStore (HandleToIndex handle) (MakeRegularEntry value tag),
            0)]
    | None => Aborted
    end
  else Aborted.
Proof.
  unfold Set_.
  destruct (negb (handle =? _)); [|done].
  destruct (Z.land value _ =? 0); [|done].
  destruct (negb (Z.land tag _ =? 0)); [|done]. cbn.
  by destruct (entry_at _ _).
Qed.

Lemma run_Exchange s handle value tag :
  run (Exchange handle value tag) s =
  if negb (handle =? kNullExternalPointerHandle)
     && (Z.land value kExternalPointerTagMask =? 0)
     && negb (Z.land tag kExternalPointerMarkBit =? 0)
  then
    match entry_at (buffer_ s) (HandleToIndex handle) with
    | Some old_entry =>
        if IsRegularEntry old_entry then
          match Untag old_entry tag with
          | Some old_value =>
              Done old_value
                (store_entry s (HandleToIndex handle)
                   (MakeRegularEntry value tag))
                [(RelaxedExchange (HandleToIndex handle)
                    (MakeRegularEntry value tag), old_entry)]
          | None => Aborted
          end
        else Aborted
    | None => Aborted
    end
  else Aborted.
Proof.
  unfold Exchange.
  destruct (negb (handle =? _)); [|done].
  destruct (Z.land value _ =? 0); [|done].
  destruct (negb (Z.land tag _ =? 0)); [|done]. cbn.
  destruct (entry_at _ _) as [old_entry|]; [|done]. cbn.
  destruct (IsRegularEntry old_entry); [|done]. cbn.
  by destruct (Untag old_entry tag).
Qed.

(** C1.  On a handle whose entry was written with tag [tag1], [Get] and
    [Exchange] with any other tag abort: neither returns a value. *)
Theorem Get_Exchange_tag_mismatch_aborts
    s handle value tag1 tag2 new_value :
  Z.land value kExternalPointerTagMask = 0 →
  Z.land tag1 kExternalPointerTagMask = tag1 →
  entry_at (buffer_ s) (HandleToIndex handle)
    = Some (MakeRegularEntry value tag1) →
  tag2 ≠ tag1 →
  run (Get handle tag2) s = Aborted
  ∧ run (Exchange handle new_value tag2) s = Aborted.
Proof.
  intros Hv Ht Hentry Hne.
  rewrite run_Get, run_Exchange, Hentry, Untag_mismatch by done.
  split.
  - by destruct (IsRegularEntry (MakeRegularEntry value tag1)).
  - by destruct (_ && _ && _),
      (IsRegularEntry (MakeRegularEntry value tag1)).
Qed.

(** C2.  Storing [value] with [Set] and loading it back with [Get] under
    the same tag returns [value]. *)
Theorem Set_then_Get_returns_value s handle value tag :
  handle ≠ kNullExternalPointerHandle →
  Z.land value kExternalPointerTagMask = 0 →
  Z.land tag kExternalPointerMarkBit ≠ 0 →
  pointer_tag tag →
  0 ≤ HandleToIndex handle < capacity s →
  ∃ s' trace,
    run (Set_ handle value tag;; Get handle tag) s = Done value s' trace.
Proof.
  intros Hnull Hv Hmark Htag Hrange.
  destruct (entry_at_is_Some (buffer_ s) (HandleToIndex handle) Hrange)
    as [old Hold].
  rewrite run_bind, run_Set, Hold.
  rewrite (proj2 (Z.eqb_neq _ _) Hnull), (proj2 (Z.eqb_eq _ _) Hv),
    (proj2 (Z.eqb_neq _ _) Hmark); cbn [negb andb].
  rewrite run_Get, buffer_store_entry, entry_at_insert by done.
  rewrite IsRegularEntry_regular_entry by done.
  rewrite Untag_regular_entry by (done || apply Htag).
  by eexists _, _.
Qed.

(** C9.  [Set] and [Exchange] change the entry at the handle's index and
    nothing else: not another entry, not [freelist_head_], not the start of
    the evacuation area. *)
Theorem Set_Exchange_change_one_entry
    s handle value tag s' trace old_value :
  run (Set_ handle value tag) s = Done tt s' trace
  ∨ run (Exchange handle value tag) s = Done old_value s' trace →
  only_entry_changed (HandleToIndex handle) s s'.
Proof.
  rewrite run_Set, run_Exchange.
  destruct (_ && _ && _); [|by intros [|]].
  destruct (entry_at _ _) as [old|] eqn:Hold; [|by intros [|]].
  apply entry_at_Some in Hold.
  intros [Hset | Hexchange].
  - injection Hset as <- _. apply store_entry_only_entry_changed; lia.
  - destruct (IsRegularEntry old); [|done].
    destruct (Untag old tag); [|done].
    injection Hexchange as _ <- _.
    apply store_entry_only_entry_changed; lia.
Qed.

(** ** Claiming a freelist entry *)

Lemma run_TryAllocateEntryFromFreelist s head :
  run (TryAllocateEntryFromFreelist head) s =
  if negb (head =? 0) && (head <? capacity s) then
    match entry_at (buffer_ s) head with
    | Some entry =>
        let next := ExtractNextFreelistEntry entry in
        let trace :=
          [(Load_capacity, capacity s); (RelaxedLoad head, entry);
           (CompareAndSwap_freelist_head head next, freelist_head_ s)] in
        if freelist_head_ s =? head then
          if IsFreelistEntry entry
          then Done true (set_freelist_head s next) trace
          else Aborted
        else Done false s trace
    | None => Aborted
    end
  else Aborted.
Proof.
  unfold TryAllocateEntryFromFreelist.
  destruct (negb (head =? 0)); [|done]. cbn.
  destruct (head <? capacity s); [|done]. cbn.
  destruct (entry_at _ _) as [entry|]; [|done]. cbn.
  destruct (freelist_head_ s =? head) eqn:Hhead; cbn; rewrite Hhead; cbn;
    [|done].
  by destruct (IsFreelistEntry entry).
Qed.

Lemma ensures_TryAllocateEntryFromFreelist head :
  ensures table_fits
    (λ trace success,
       final_freelist_head_loaded trace = None
       ∧ (success = true → 0 < head < kMaxExternalPointers))
    (TryAllocateEntryFromFreelist head).
Proof.
  unfold TryAllocateEntryFromFreelist.
  destruct (Z.eqb_spec head 0) as [|Hnz]; cbn; [constructor |].
  constructor. intros s v s' Hs [= <- <-].
  destruct (Z.ltb_spec head (capacity s)) as [Hlt|]; cbn; [|constructor].
  constructor. intros s1 entry s1' Hs1 Hload. cbn in Hload.
  destruct (entry_at _ _) as [e|] eqn:He; [|done].
  apply entry_at_Some in He.
  constructor. intros s2 old s2' Hs2 Hcas.
  destruct (negb (old =? head) || IsFreelistEntry entry); cbn;
    constructor.
  unfold table_fits in Hs. split; [done |]. lia.
Qed.

Lemma performs_only_TryAllocateEntryFromFreelist allowed head :
  allowed Load_capacity = true →
  allowed (RelaxedLoad head) = true →
  (∀ next, allowed (CompareAndSwap_freelist_head head next) = true) →
  performs_only allowed (TryAllocateEntryFromFreelist head).
Proof.
  intros Hcap Hload Hcas. unfold TryAllocateEntryFromFreelist.
  repeat first
    [ apply performs_only_bind; [|intros ?]
    | apply performs_only_DCHECK
    | by apply performs_only_perform
    | constructor ].
Qed.

(** ** AllocateEvacuationEntry *)

Lemma run_AllocateEvacuationEntry_refuses fuel boundary s :
  freelist_head_ s = 0 ∨ boundary ≤ freelist_head_ s →
  run (AllocateEvacuationEntry (S fuel) boundary) s
  = Done kNullExternalPointerHandle s
      [(Load_freelist_head, freelist_head_ s)].
Proof.
  intros Hhead. cbn.
  assert ((freelist_head_ s =? 0) || (boundary <=? freelist_head_ s) = true)
    as ->; [|done].
  apply orb_true_iff. destruct Hhead; [left | right]; lia.
Qed.

Lemma run_AllocateEvacuationEntry_claims fuel boundary s entry :
  0 < freelist_head_ s < boundary →
  entry_at (buffer_ s) (freelist_head_ s) = Some entry →
  IsFreelistEntry entry = true →
  run (AllocateEvacuationEntry (S fuel) boundary) s
  = Done (IndexToHandle (freelist_head_ s))
      (set_freelist_head s (ExtractNextFreelistEntry entry))
      [(Load_freelist_head, freelist_head_ s);
       (Load_capacity, capacity s);
       (RelaxedLoad (freelist_head_ s), entry);
       (CompareAndSwap_freelist_head (freelist_head_ s)
          (ExtractNextFreelistEntry entry), freelist_head_ s)].
Proof.
  intros Hhead Hentry Hfree.
  pose proof (entry_at_Some _ _ _ Hentry) as Hrange.
  change (AllocateEvacuationEntry (S fuel) boundary) with
    (freelist_head ← perform Load_freelist_head;
     if (freelist_head =? 0) || (boundary <=? freelist_head)
     then mret kNullExternalPointerHandle
     else
       success ← TryAllocateEntryFromFreelist freelist_head;
       if success : bool then mret (IndexToHandle freelist_head)
       else AllocateEvacuationEntry fuel boundary).
  cbn [perform mbind prog_mbind prog_bind run access].
  assert ((freelist_head_ s =? 0) || (boundary <=? freelist_head_ s) = false)
    as -> by (apply orb_false_iff; lia).
  change (prog_bind ?f ?p) with (p ≫= f).
  rewrite run_bind, run_TryAllocateEntryFromFreelist, Hentry.
  assert (negb (freelist_head_ s =? 0)
          && (freelist_head_ s <? capacity s) = true) as ->
    by (apply andb_true_iff; unfold capacity; split; [apply negb_true_iff|];
        lia).
  cbn zeta. rewrite Z.eqb_refl, Hfree. done.
Qed.

Lemma performs_only_AllocateEvacuationEntry allowed fuel boundary :
  allowed Load_freelist_head = true →
  allowed Load_capacity = true →
  (∀ index, allowed (RelaxedLoad index) = true) →
  (∀ head next, allowed (CompareAndSwap_freelist_head head next) = true) →
  performs_only allowed (AllocateEvacuationEntry fuel boundary).
Proof.
  intros Hhead Hcap Hload Hcas.
  induction fuel as [|fuel IH]; cbn; [constructor |].
  constructor; [done |]. intros head.
  destruct ((head =? 0) || (boundary <=? head)); [constructor |].
  change (prog_bind ?f ?p) with (p ≫= f).
  apply performs_only_bind;
    [by apply performs_only_TryAllocateEntryFromFreelist |].
  intros [|]; [constructor | done].
Qed.

Lemma ensures_AllocateEvacuationEntry fuel boundary :
  ensures table_fits
    (λ trace handle,
       ∃ head, final_freelist_head_loaded trace = Some head
         ∧ (((head = 0 ∨ boundary ≤ head)
             ∧ handle = kNullExternalPointerHandle)
            ∨ (0 < head < boundary ∧ head < kMaxExternalPointers
               ∧ handle = IndexToHandle head)))
    (AllocateEvacuationEntry fuel boundary).
Proof.
  induction fuel as [|fuel IH]; cbn; [constructor |].
  constructor. intros s head s' Hs [= <- <-].
  destruct ((freelist_head_ s =? 0) || (boundary <=? freelist_head_ s))
    eqn:Hrefuse.
  - constructor. exists (freelist_head_ s). split; [done |]. left.
    split; [|done]. apply orb_true_iff in Hrefuse. lia.
  - apply orb_false_iff in Hrefuse.
    change (prog_bind ?f ?p) with (p ≫= f).
    eapply ensures_bind; [apply ensures_TryAllocateEntryFromFreelist |].
    intros trace success [Hnone Hsuccess]. destruct success.
    + constructor. cbn. rewrite app_nil_r, Hnone.
      exists (freelist_head_ s). split; [done |]. right. lia.
    + eapply ensures_weaken; [apply IH |].
      intros trace' handle (head' & Hfinal & Hhandle). cbn.
      rewrite final_freelist_head_loaded_app, Hfinal. by exists head'.
Qed.

Lemma access_capacity a s v s' :
  is_Grow a = false → access a s = Reply v s' → capacity s' = capacity s.
Proof.
  unfold capacity. intros Ha.
  destruct a; try done; cbn; unfold reclaim;
    repeat match goal with
    | |- context [match ?x with _ => _ end] => destruct x eqn:?
    end; try done; intros [= _ <-]; cbn; by rewrite ?length_insert.
Qed.

Lemma exec_capacity {A} env (p : prog A) n s a s' trace :
  performs_only (λ a, negb (is_Grow a)) p →
  (∀ n s s1, env n s = Some s1 → capacity s1 = capacity s) →
  exec env n p s = Done a s' trace →
  capacity s' = capacity s.
Proof.
  intros Hp Henv. revert n s a s' trace.
  induction Hp as [r| | |b k Hb Hk IH]; intros n s a s' trace; cbn;
    try done.
  - by intros [= _ <- _].
  - destruct (env n s) as [s1|] eqn:Hs1; [|done].
    destruct (access b s1) as [v s2| |] eqn:Hs2; [|done..].
    destruct (exec env (S n) (k v) s2) as [r s3 trace'| |] eqn:Hk';
      [|done..].
    intros [= _ <- _].
    rewrite (IH _ _ _ _ _ _ Hk'), <- (Henv _ _ _ Hs1).
    apply negb_true_iff in Hb. by eapply access_capacity.
Qed.

(** C5.  [AllocateEvacuationEntry] returns the null handle whenever the
    freelist head it loads is zero or not below the boundary: whatever
    other threads have done before, it returns at once, with that load as
    its only access.  Whenever it returns, whatever other threads do in
    between, the handle is null exactly when the freelist head it last
    loaded is zero or not below the boundary; it never grows the table; a
    handle it returns that is not null resolves to an index below the
    boundary.  And run alone on a table whose freelist head is a free entry
    below the boundary, it returns the handle of that entry, which it has
    taken off the freelist. *)
Theorem AllocateEvacuationEntry_below_boundary fuel boundary env n s :
  (∀ n s s1, table_fits s → env n s = Some s1 → table_fits s1) →
  table_fits s →
  (∀ s1,
     env n s = Some s1 →
     freelist_head_ s1 = 0 ∨ boundary ≤ freelist_head_ s1 →
     exec env n (AllocateEvacuationEntry (S fuel) boundary) s
     = Done kNullExternalPointerHandle s1
         [(Load_freelist_head, freelist_head_ s1)])
  ∧ (∀ handle s' trace,
       exec env n (AllocateEvacuationEntry fuel boundary) s
         = Done handle s' trace →
       (∃ head, final_freelist_head_loaded trace = Some head
          ∧ (head = 0 ∨ boundary ≤ head
             ↔ handle = kNullExternalPointerHandle))
       ∧ Forall (λ ev, is_Grow ev.1 = false) trace
       ∧ ((∀ n s s1, env n s = Some s1 → capacity s1 = capacity s) →
          capacity s' = capacity s)
       ∧ (handle ≠ kNullExternalPointerHandle →
          0 ≤ HandleToIndex handle < boundary))
  ∧ (∀ entry,
       0 < freelist_head_ s < boundary →
       entry_at (buffer_ s) (freelist_head_ s) = Some entry →
       IsFreelistEntry entry = true →
       run (AllocateEvacuationEntry (S fuel) boundary) s
       = Done (IndexToHandle (freelist_head_ s))
           (set_freelist_head s (ExtractNextFreelistEntry entry))
           [(Load_freelist_head, freelist_head_ s);
            (Load_capacity, capacity s);
            (RelaxedLoad (freelist_head_ s), entry);
            (CompareAndSwap_freelist_head (freelist_head_ s)
               (ExtractNextFreelistEntry entry), freelist_head_ s)]
       ∧ IndexToHandle (freelist_head_ s) ≠ kNullExternalPointerHandle
       ∧ HandleToIndex (IndexToHandle (freelist_head_ s))
         = freelist_head_ s).
Proof.
  intros Henv Hs. split; [|split].
  - intros s1 Hs1 Hhead. cbn. rewrite Hs1. cbn.
    assert ((freelist_head_ s1 =? 0) || (boundary <=? freelist_head_ s1)
            = true) as ->; [|done].
    apply orb_true_iff. destruct Hhead; [left | right]; lia.
  - intros handle s' trace Hexec.
    assert (performs_only (λ a, negb (is_Grow a))
              (AllocateEvacuationEntry fuel boundary)) as Hperforms
      by by apply performs_only_AllocateEvacuationEntry.
    pose proof (exec_ensures _ _ _ _ _ _ _ _ _ Henv access_table_fits
                  (ensures_AllocateEvacuationEntry fuel boundary) Hs Hexec)
      as (head & Hfinal & Hhandle).
    repeat split.
    + exists head. split; [done |].
      destruct Hhandle as [[Hrefuse ->]|(Hhead & Hmax & ->)]; [done |].
      split; [lia |]. intros Hnull.
      by apply IndexToHandle_nonzero in Hnull; [|lia].
    + eapply Forall_impl; [by eapply exec_performs_only |].
      intros ev. apply negb_true_iff.
    + intros Hquiet. by eapply exec_capacity.
    + destruct Hhandle as [[_ ->]|(Hhead & Hmax & ->)]; [done |].
      rewrite HandleToIndex_IndexToHandle; lia.
    + destruct Hhandle as [[_ ->]|(Hhead & Hmax & ->)]; [done |].
      rewrite HandleToIndex_IndexToHandle; lia.
  - intros entry Hhead Hentry Hfree.
    pose proof (entry_at_Some _ _ _ Hentry) as Hrange.
    assert (0 < freelist_head_ s < kMaxExternalPointers) as Hmax
      by (unfold table_fits, capacity in Hs; lia).
    split; [by apply run_AllocateEvacuationEntry_claims |].
    split; [by apply IndexToHandle_nonzero |].
    apply HandleToIndex_IndexToHandle. lia.
Qed.

(** ** Mark, run alone *)

Lemma run_mark_alive s index :
  run (mark_alive index) s =
  match entry_at (buffer_ s) index with
  | Some old_entry =>
      if IsRegularEntry old_entry then
        Done tt (store_entry s index (SetMarkBit old_entry))
          [(RelaxedLoad index, old_entry);
           (RelaxedCompareAndSwap index old_entry (SetMarkBit old_entry),
            old_entry)]
      else Aborted
  | None => Aborted
  end.
Proof.
  unfold mark_alive. cbn.
  destruct (entry_at _ _) as [old_entry|] eqn:Hold; [|done]. cbn.
  destruct (IsRegularEntry old_entry); [|done]. cbn.
  rewrite Hold, Z.eqb_refl. cbn. by rewrite Z.eqb_refl.
Qed.

Lemma run_evacuate_not_needed fuel s handle handle_location index :
  index < start_of_evacuation_area_ s →
  run (evacuate fuel handle handle_location index) s
  = Done tt s
      [(Load_start_of_evacuation_area, start_of_evacuation_area_ s)].
Proof.
  intros Hbelow. unfold evacuate. cbn.
  by rewrite (proj2 (Z.leb_gt _ _) Hbelow).
Qed.

Lemma run_evacuate_aborts fuel s handle handle_location index :
  start_of_evacuation_area_ s ≤ index →
  start_of_evacuation_area_ s ≠ kNotCompactingMarker →
  freelist_head_ s = 0
  ∨ start_of_evacuation_area_ s ≤ freelist_head_ s →
  run (evacuate (S fuel) handle handle_location index) s
  = Done tt
      (set_start s
         (Z.lor (start_of_evacuation_area_ s) kCompactionAbortedMarker))
      [(Load_start_of_evacuation_area, start_of_evacuation_area_ s);
       (Load_start_of_evacuation_area, start_of_evacuation_area_ s);
       (Load_freelist_head, freelist_head_ s);
       (Store_start_of_evacuation_area
          (Z.lor (start_of_evacuation_area_ s) kCompactionAbortedMarker),
        0)].
Proof.
  intros Habove Hcompacting Hhead. unfold evacuate.
  cbn -[AllocateEvacuationEntry].
  rewrite (proj2 (Z.leb_le _ _) Habove).
  cbn -[AllocateEvacuationEntry].
  rewrite (proj2 (Z.eqb_neq _ _) Hcompacting).
  cbn -[AllocateEvacuationEntry].
  change (prog_bind ?f ?p) with (p ≫= f).
  rewrite run_bind, run_AllocateEvacuationEntry_refuses by done.
  done.
Qed.

Lemma run_evacuate_claims fuel s handle handle_location index entry slot :
  start_of_evacuation_area_ s ≤ index →
  start_of_evacuation_area_ s ≠ kNotCompactingMarker →
  0 < freelist_head_ s < start_of_evacuation_area_ s →
  table_fits s →
  entry_at (buffer_ s) (freelist_head_ s) = Some entry →
  IsFreelistEntry entry = true →
  heap_ s !! handle_location = Some slot →
  run (evacuate (S fuel) handle handle_location index) s
  = Done tt
      (set_heap
         (store_entry
            (set_freelist_head s (ExtractNextFreelistEntry entry))
            (freelist_head_ s) (MakeEvacuationEntry handle_location))
         (<[handle_location := Z.lor handle kVisitedHandleMarker]>
            (heap_ s)))
      [(Load_start_of_evacuation_area, start_of_evacuation_area_ s);
       (Load_start_of_evacuation_area, start_of_evacuation_area_ s);
       (Load_freelist_head, freelist_head_ s);
       (Load_capacity, capacity s);
       (RelaxedLoad (freelist_head_ s), entry);
       (CompareAndSwap_freelist_head (freelist_head_ s)
          (ExtractNextFreelistEntry entry), freelist_head_ s);
       (Store (freelist_head_ s) (MakeEvacuationEntry handle_location), 0);
       (Store_handle handle_location (Z.lor handle kVisitedHandleMarker),
        0)].
Proof.
  intros Habove Hcompacting Hhead Hfits Hentry Hfree Hslot.
  pose proof (entry_at_Some _ _ _ Hentry) as Hrange.
  assert (0 < freelist_head_ s < kMaxExternalPointers) as Hmax
    by (unfold table_fits, capacity in Hfits; lia).
  unfold evacuate.
  cbn -[AllocateEvacuationEntry].
  rewrite (proj2 (Z.leb_le _ _) Habove).
  cbn -[AllocateEvacuationEntry].
  rewrite (proj2 (Z.eqb_neq _ _) Hcompacting).
  cbn -[AllocateEvacuationEntry].
  change (prog_bind ?f ?p) with (p ≫= f).
  rewrite run_bind,
    (run_AllocateEvacuationEntry_claims _ _ _ entry) by done.
  rewrite (proj2 (Z.eqb_neq _ _) (IndexToHandle_nonzero _ Hmax)).
  rewrite HandleToIndex_IndexToHandle by lia.
  cbn.
  rewrite (proj2 (Z.ltb_lt _ _) (proj2 Hhead)). cbn.
  rewrite Hentry. cbn. by rewrite Hslot.
Qed.

Lemma run_Mark s fuel handle handle_location :
  run (Mark fuel handle handle_location) s =
  match heap_ s !! handle_location with
  | Some stored =>
      if handle =? stored then
        match run (evacuate fuel handle handle_location
                     (HandleToIndex handle)) s with
        | Done _ s1 trace1 =>
            match run (mark_alive (HandleToIndex handle)) s1 with
            | Done _ s2 trace2 =>
                Done tt s2
                  ((Load_handle handle_location, stored)
                   :: trace1 ++ trace2)
            | Aborted => Aborted
            | Diverged => Diverged
            end
        | Aborted => Aborted
        | Diverged => Diverged
        end
      else Aborted
  | None => Aborted
  end.
Proof.
  unfold Mark. cbn -[evacuate mark_alive].
  destruct (heap_ s !! handle_location) as [stored|]; [|done].
  cbn -[evacuate mark_alive].
  destruct (handle =? stored); [|done].
  cbn -[evacuate mark_alive].
  change (prog_bind ?f ?p) with (p ≫= f). rewrite run_bind.
  destruct (run (evacuate _ _ _ _) s) as [[] s1 trace1| |]; [|done..].
  by destruct (run (mark_alive _) s1) as [[] s2 trace2| |].
Qed.

(** ** The start of the evacuation area *)

Ltac solve_performs_only :=
  repeat first
    [ progress intros
    | apply performs_only_DCHECK
    | apply performs_only_perform
    | apply performs_only_bind
    | apply performs_only_Ret
    | apply performs_only_Abort
    | apply performs_only_Spin
    | match goal with
      | |- performs_only _ (if ?c then _ else _) => destruct c
      | |- performs_only _ (checked ?o) => destruct o
      | |- performs_only _ (mret _) => apply performs_only_Ret
      end
    | reflexivity ].

Lemma leaves_start_Get handle tag :
  performs_only leaves_start (Get handle tag).
Proof. unfold Get. solve_performs_only. Qed.

Lemma leaves_start_Set handle value tag :
  performs_only leaves_start (Set_ handle value tag).
Proof. unfold Set_. solve_performs_only. Qed.

Lemma leaves_start_Exchange handle value tag :
  performs_only leaves_start (Exchange handle value tag).
Proof. unfold Exchange. solve_performs_only. Qed.

Lemma leaves_start_TryAllocateEntryFromFreelist head :
  performs_only leaves_start (TryAllocateEntryFromFreelist head).
Proof. by apply performs_only_TryAllocateEntryFromFreelist. Qed.

Lemma leaves_start_AllocateEvacuationEntry fuel boundary :
  performs_only leaves_start (AllocateEvacuationEntry fuel boundary).
Proof. by apply performs_only_AllocateEvacuationEntry. Qed.

Lemma leaves_start_allocate_loop fuel :
  performs_only leaves_start (allocate_loop fuel).
Proof.
  induction fuel as [|fuel IH]; [constructor |].
  change (allocate_loop (S fuel)) with
    (freelist_head ← perform Load_freelist_head;
      freelist_head ←
        (if freelist_head =? 0 then
           perform Lock_mutex;;
           freelist_head ← perform Load_freelist_head;
           freelist_head ←
             (if freelist_head =? 0 then perform Grow
              else mret freelist_head);
           perform Unlock_mutex;;
           mret freelist_head
         else mret freelist_head);
      success ← TryAllocateEntryFromFreelist freelist_head;
      if success : bool then mret freelist_head else allocate_loop fuel).
  solve_performs_only;
    first [ apply leaves_start_TryAllocateEntryFromFreelist | apply IH ].
Qed.

Lemma leaves_start_AllocateAndInitializeEntry fuel value tag :
  performs_only leaves_start (AllocateAndInitializeEntry fuel value tag).
Proof.
  unfold AllocateAndInitializeEntry.
  apply performs_only_bind; [apply leaves_start_allocate_loop |].
  solve_performs_only.
Qed.

Lemma leaves_start_FreelistSize fuel :
  performs_only leaves_start (FreelistSize fuel).
Proof.
  induction fuel as [|fuel IH]; [constructor |].
  change (FreelistSize (S fuel)) with
    (freelist_head ← perform Load_freelist_head;
      if freelist_head =? 0 then mret 0
      else
        entry ← perform (RelaxedLoad freelist_head);
        if negb (IsFreelistEntry entry) then FreelistSize fuel
        else
          let freelist_size := ExtractFreelistSize entry in
          table_capacity ← perform Load_capacity;
          DCHECK (freelist_size <=? table_capacity);;
          mret freelist_size).
  solve_performs_only. apply IH.
Qed.

Lemma leaves_start_mark_alive index :
  performs_only leaves_start (mark_alive index).
Proof. unfold mark_alive. solve_performs_only. Qed.

Lemma access_leaves_start a s v s' :
  leaves_start a = true →
  access a s = Reply v s' →
  start_of_evacuation_area_ s' = start_of_evacuation_area_ s.
Proof.
  intros Ha.
  destruct a; try done; cbn; unfold grow, reclaim;
    repeat match goal with
    | |- context [match ?x with _ => _ end] => destruct x eqn:?
    end; try done; by intros [= _ <-].
Qed.

Lemma lor_marker_twice boundary :
  Z.lor (Z.lor boundary kCompactionAbortedMarker) kCompactionAbortedMarker
  = Z.lor boundary kCompactionAbortedMarker.
Proof. by rewrite <- Z.lor_assoc, Z.lor_diag. Qed.

Lemma performs_only_respects {A} boundary (p : prog A) :
  performs_only leaves_start p →
  respects (boundary_or_aborted boundary) p.
Proof.
  induction 1 as [a| | |a k Ha Hk IH]; constructor.
  - intros s v s' Hs Haccess. unfold boundary_or_aborted in *.
    by rewrite (access_leaves_start _ _ _ _ Ha Haccess).
  - intros s v s' _ _. apply IH.
Qed.

Lemma respects_bind {A B} I (p : prog A) (f : A → prog B) :
  respects I p →
  (∀ a, respects I (f a)) →
  respects I (p ≫= f).
Proof.
  intros Hp Hf. induction Hp as [a| | |a k Hstep Hk IH]; cbn.
  - apply Hf.
  - constructor.
  - constructor.
  - constructor; [done |]. intros s v s' Hs Haccess. by eapply IH.
Qed.

Lemma respects_evacuate boundary fuel handle handle_location index :
  respects (boundary_or_aborted boundary)
    (evacuate fuel handle handle_location index).
Proof.
  unfold evacuate. constructor; [by intros s current s' Hs [= _ <-] |].
  intros s current s' Hs [= <- <-].
  destruct (start_of_evacuation_area_ s <=? index);
    [|cbn; constructor].
  change (prog_bind ?f ?p) with (p ≫= f).
  apply respects_bind.
  { apply performs_only_respects. unfold IsCompacting.
    solve_performs_only. }
  intros compacting. apply respects_bind.
  { apply performs_only_respects, performs_only_DCHECK. }
  intros _. apply respects_bind.
  { apply performs_only_respects, leaves_start_AllocateEvacuationEntry. }
  intros new_handle.
  destruct (negb (new_handle =? kNullExternalPointerHandle)).
  - apply performs_only_respects. solve_performs_only.
  - constructor; [|intros; constructor].
    intros s1 v1 s1' _ [= _ <-]. right. cbn.
    destruct Hs as [->| ->]; [done | apply lor_marker_twice].
Qed.

Lemma respects_Mark boundary fuel handle handle_location :
  respects (boundary_or_aborted boundary)
    (Mark fuel handle handle_location).
Proof.
  unfold Mark. apply respects_bind.
  { apply performs_only_respects. by apply performs_only_perform. }
  intros stored. apply respects_bind.
  { apply performs_only_respects, performs_only_DCHECK. }
  intros _. apply respects_bind; [apply respects_evacuate |].
  intros _. apply performs_only_respects, leaves_start_mark_alive.
Qed.

Lemma respects_invoke boundary fuel call :
  respects (boundary_or_aborted boundary) (invoke fuel call).
Proof.
  destruct call; cbn [invoke];
    try (apply respects_bind; [|intros ?; exact (respects_Ret _ _)]);
    [ apply performs_only_respects, leaves_start_Get
    | apply performs_only_respects, leaves_start_Set
    | apply performs_only_respects, leaves_start_Exchange
    | apply performs_only_respects,
        leaves_start_TryAllocateEntryFromFreelist
    | apply performs_only_respects,
        leaves_start_AllocateAndInitializeEntry
    | apply performs_only_respects,
        leaves_start_AllocateEvacuationEntry
    | apply performs_only_respects, leaves_start_FreelistSize
    | apply respects_Mark
    | apply performs_only_respects; unfold IsCompacting;
      solve_performs_only
    | apply performs_only_respects;
      unfold CompactingWasAbortedDuringMarking; solve_performs_only ].
Qed.

Lemma respects_invoke_all boundary fuel calls :
  respects (boundary_or_aborted boundary) (invoke_all fuel calls).
Proof.
  induction calls as [|call calls IH]; cbn [invoke_all]; [constructor |].
  apply respects_bind; [apply respects_invoke | done].
Qed.

Lemma run_respects {A} I (p : prog A) s a s' trace :
  respects I p → I s → run p s = Done a s' trace → I s'.
Proof.
  intros Hp. revert s a s' trace.
  induction Hp as [r| | |b k Hstep Hk IH]; intros s a s' trace Hs; cbn;
    try done.
  - by intros [= _ <- _].
  - destruct (access b s) as [v s1| |] eqn:Haccess; [|done..].
    destruct (run (k v) s1) as [r s2 trace'| |] eqn:Hrun; [|done..].
    intros [= _ <- _].
    eapply (IH _ _ _ Hs Haccess); [by eapply Hstep | exact Hrun].
Qed.

Lemma interleave_respects {A} I schedule (threads : list (prog A)) s
    threads' s' :
  Forall (respects I) threads →
  I s →
  interleave schedule threads s = Some (threads', s') →
  I s'.
Proof.
  revert threads s.
  induction schedule as [|i schedule IH]; intros threads s Hthreads Hs; cbn.
  - by intros [= _ <-].
  - destruct (threads !! i) as [thread|] eqn:Hi; [|by apply IH].
    pose proof (Forall_lookup_1 _ _ _ _ Hthreads Hi) as Hthread.
    destruct thread as [r| | |a k]; [by apply IH | done | by apply IH |].
    destruct (access a s) as [v s1| |] eqn:Haccess; [|done | by apply IH].
    assert (I s1 ∧ respects I (k v)) as [Hs1 Hkv].
    { clear -Hthread Hs Haccess.
      remember (Do a k) as thread eqn:Hshape.
      destruct Hthread as [| | |a' k' Hstep Hk]; try done.
      injection Hshape as <- <-. split; [by eapply Hstep | by eapply Hk]. }
    apply IH; [by apply Forall_insert | done].
Qed.

Lemma run_CompactingWasAbortedDuringMarking s :
  run CompactingWasAbortedDuringMarking s
  = Done (Z.land (start_of_evacuation_area_ s) kCompactionAbortedMarker
          =? kCompactionAbortedMarker) s
      [(Load_start_of_evacuation_area, start_of_evacuation_area_ s)].
Proof. done. Qed.

(** C4.  When the entry lies in the evacuation area and no evacuation slot
    can be had, [Mark] stores the boundary OR-ed with the abort marker,
    writes no evacuation entry (its trace has no [Store]; only the entry of
    the handle changes, by gaining its mark bit), and from then on
    [CompactingWasAbortedDuringMarking] answers true: the word keeps the
    value stored, after any later calls of the table's methods and in any
    interleaving of such calls by any number of threads.  Before the abort
    as well, no interleaving of calls makes the word anything but the
    boundary or the boundary OR-ed with the marker. *)
Theorem Mark_without_evacuation_slot_aborts_compaction
    fuel s handle handle_location old_entry :
  heap_ s !! handle_location = Some handle →
  start_of_evacuation_area_ s ≤ HandleToIndex handle →
  start_of_evacuation_area_ s ≠ kNotCompactingMarker →
  freelist_head_ s = 0
  ∨ start_of_evacuation_area_ s ≤ freelist_head_ s →
  entry_at (buffer_ s) (HandleToIndex handle) = Some old_entry →
  IsRegularEntry old_entry = true →
  let index := HandleToIndex handle in
  let boundary := start_of_evacuation_area_ s in
  let marked_boundary := Z.lor boundary kCompactionAbortedMarker in
  let s' :=
    store_entry (set_start s marked_boundary) index (SetMarkBit old_entry) in
  run (Mark (S fuel) handle handle_location) s
  = Done tt s'
      [(Load_handle handle_location, handle);
       (Load_start_of_evacuation_area, boundary);
       (Load_start_of_evacuation_area, boundary);
       (Load_freelist_head, freelist_head_ s);
       (Store_start_of_evacuation_area marked_boundary, 0);
       (RelaxedLoad index, old_entry);
       (RelaxedCompareAndSwap index old_entry (SetMarkBit old_entry),
        old_entry)]
  ∧ freelist_head_ s' = freelist_head_ s
  ∧ (∀ other, other ≠ index →
       entry_at (buffer_ s') other = entry_at (buffer_ s) other)
  ∧ run CompactingWasAbortedDuringMarking s'
    = Done true s' [(Load_start_of_evacuation_area, marked_boundary)]
  ∧ (∀ later_fuel calls s'' trace,
       run (invoke_all later_fuel calls) s' = Done tt s'' trace →
       run CompactingWasAbortedDuringMarking s''
       = Done true s'' [(Load_start_of_evacuation_area, marked_boundary)])
  ∧ (∀ schedule later_fuel programs threads'' s'',
       interleave schedule (invoke_all later_fuel <$> programs) s'
         = Some (threads'', s'') →
       run CompactingWasAbortedDuringMarking s''
       = Done true s'' [(Load_start_of_evacuation_area, marked_boundary)])
  ∧ (∀ schedule any_fuel programs threads0 s0,
       interleave schedule (invoke_all any_fuel <$> programs) s
         = Some (threads0, s0) →
       start_of_evacuation_area_ s0 = boundary
       ∨ start_of_evacuation_area_ s0 = marked_boundary).
Proof.
  intros Hslot Habove Hcompacting Hhead Hold Hregular index boundary
    marked_boundary s'.
  pose proof (entry_at_Some _ _ _ Hold) as Hrange.
  assert (∀ s'', boundary_or_aborted marked_boundary s'' →
            run CompactingWasAbortedDuringMarking s''
            = Done true s''
                [(Load_start_of_evacuation_area, marked_boundary)])
    as Hanswer.
  { intros s'' Hs''. rewrite run_CompactingWasAbortedDuringMarking.
    assert (start_of_evacuation_area_ s'' = marked_boundary) as ->
      by (destruct Hs'' as [->| ->]; [done | apply lor_marker_twice]).
    unfold marked_boundary. by rewrite land_lor_same, Z.eqb_refl. }
  assert (∀ any_fuel (programs : list (list Call)) boundary',
            Forall (respects (boundary_or_aborted boundary'))
              (invoke_all any_fuel <$> programs)) as Hthreads.
  { intros any_fuel programs boundary'. apply Forall_fmap, Forall_true.
    intros calls. apply respects_invoke_all. }
  repeat split.
  - rewrite run_Mark, Hslot, Z.eqb_refl.
    rewrite run_evacuate_aborts by done.
    rewrite run_mark_alive. cbn [buffer_ set_start].
    by rewrite Hold, Hregular.
  - intros other Hne. apply entry_at_insert_ne; [lia | done].
  - apply Hanswer. by left.
  - intros later_fuel calls s'' trace Hlater. apply Hanswer.
    eapply run_respects; [apply respects_invoke_all | | exact Hlater].
    by left.
  - intros schedule later_fuel programs threads'' s'' Hlater.
    apply Hanswer.
    eapply interleave_respects; [apply Hthreads | | exact Hlater].
    by left.
  - intros schedule any_fuel programs threads0 s0 Hrun.
    eapply (interleave_respects (boundary_or_aborted boundary));
      [apply Hthreads | | exact Hrun].
    by left.
Qed.

Lemma IsEvacuationEntry_MakeEvacuationEntry handle_location :
  Z.land handle_location kExternalPointerTagMask = 0 →
  IsEvacuationEntry (MakeEvacuationEntry handle_location) = true.
Proof.
  intros Hloc. unfold IsEvacuationEntry, MakeEvacuationEntry.
  pose proof (HasTag_regular_entry handle_location
                kExternalPointerEvacuationEntryTag
                kExternalPointerEvacuationEntryTag Hloc
                evacuation_tag_in_mask) as Htag.
  unfold MakeRegularEntry in Htag. by rewrite Htag, bool_decide_eq_true_2.
Qed.

Lemma ExtractHandleLocation_MakeEvacuationEntry handle_location :
  Z.land handle_location kExternalPointerTagMask = 0 →
  ExtractHandleLocation (MakeEvacuationEntry handle_location)
  = handle_location.
Proof.
  intros Hloc. apply (ldiff_regular_entry _ _ Hloc evacuation_tag_in_mask).
Qed.

(** When the entry lies in the evacuation area and the head of the
    freelist is a free entry below the boundary, [Mark] turns that head
    into an evacuation entry recording the handle's location, and the
    handle's own entry stays regular and is marked. *)
Lemma Mark_evacuates_to_freelist_head
    fuel s handle handle_location old_entry free_entry :
  heap_ s !! handle_location = Some handle →
  Z.land handle_location kExternalPointerTagMask = 0 →
  start_of_evacuation_area_ s ≤ HandleToIndex handle →
  start_of_evacuation_area_ s ≠ kNotCompactingMarker →
  table_fits s →
  0 < freelist_head_ s < start_of_evacuation_area_ s →
  entry_at (buffer_ s) (freelist_head_ s) = Some free_entry →
  IsFreelistEntry free_entry = true →
  entry_at (buffer_ s) (HandleToIndex handle) = Some old_entry →
  IsRegularEntry old_entry = true →
  pointer_tag (tag_when_marked old_entry) →
  ∃ s' trace,
    run (Mark (S fuel) handle handle_location) s = Done tt s' trace
    ∧ freelist_head_ s < start_of_evacuation_area_ s
    ∧ entry_at (buffer_ s') (freelist_head_ s)
      = Some (MakeEvacuationEntry handle_location)
    ∧ evacuated_below s' (start_of_evacuation_area_ s) handle_location
    ∧ entry_at (buffer_ s') (HandleToIndex handle)
      = Some (SetMarkBit old_entry)
    ∧ IsRegularEntry (SetMarkBit old_entry) = true
    ∧ IsMarked (SetMarkBit old_entry) = true.
Proof.
  intros Hslot Hloc Habove Hcompacting Hfits Hhead Hfree_entry Hfree Hold
    Hregular Htag.
  pose proof (entry_at_Some _ _ _ Hold) as Hrange.
  pose proof (entry_at_Some _ _ _ Hfree_entry) as Hhead_range.
  assert (entry_at
            (<[Z.to_nat (freelist_head_ s) :=
                 MakeEvacuationEntry handle_location]> (buffer_ s))
            (HandleToIndex handle) = Some old_entry) as Hold'
    by (rewrite entry_at_insert_ne by lia; done).
  assert (entry_at
            (<[Z.to_nat (HandleToIndex handle) := SetMarkBit old_entry]>
               (<[Z.to_nat (freelist_head_ s) :=
                    MakeEvacuationEntry handle_location]> (buffer_ s)))
            (freelist_head_ s)
          = Some (MakeEvacuationEntry handle_location)) as Hevacuated
    by (rewrite entry_at_insert_ne by lia; apply entry_at_insert; lia).
  eexists _, _. split; [|repeat split].
  - rewrite run_Mark, Hslot, Z.eqb_refl.
    rewrite (run_evacuate_claims _ _ _ _ _ free_entry handle) by done.
    rewrite run_mark_alive.
    cbn [buffer_ set_heap set_buffer store_entry set_freelist_head].
    rewrite Hold', Hregular. done.
  - lia.
  - exact Hevacuated.
  - exists (freelist_head_ s), (MakeEvacuationEntry handle_location).
    split; [lia |]. split; [exact Hevacuated |].
    split; [by apply IsEvacuationEntry_MakeEvacuationEntry
           | by apply ExtractHandleLocation_MakeEvacuationEntry].
  - cbn [buffer_ set_heap set_buffer store_entry set_freelist_head].
    apply entry_at_insert. rewrite length_insert. lia.
  - by apply IsRegularEntry_SetMarkBit.
  - apply IsMarked_SetMarkBit.
Qed.

(** ** Mark under interference from mutators *)

Lemma run_invoke_Set fuel s handle value tag :
  run (invoke fuel (Call_Set handle value tag)) s =
  if negb (handle =? kNullExternalPointerHandle)
     && (Z.land value kExternalPointerTagMask =? 0)
     && negb (Z.land tag kExternalPointerMarkBit =? 0)
  then
    match entry_at (buffer_ s) (HandleToIndex handle) with
    | Some _ =>
        Done 0
          (store_entry s (HandleToIndex handle) (MakeRegularEntry value tag))
          [(RelaxedStore (HandleToIndex handle) (MakeRegularEntry value tag),
            0)]
    | None => Aborted
    end
  else Aborted.
Proof.
  cbn [invoke]. rewrite run_bind, run_Set.
  destruct (_ && _ && _); [|done]. by destruct (entry_at _ _).
Qed.

Lemma run_mutator_write fuel call s result s' trace index :
  is_mutator_write call = true →
  run (invoke fuel call) s = Done result s' trace →
  entry_at (buffer_ s') index = entry_at (buffer_ s) index
  ∨ ∃ entry, mutator_write call index entry
             ∧ entry_at (buffer_ s') index = Some entry.
Proof.
  intros Hcall Hrun.
  assert (∀ handle value tag,
            (call = Call_Set handle value tag
             ∨ call = Call_Exchange handle value tag) →
            negb (handle =? kNullExternalPointerHandle)
            && (Z.land value kExternalPointerTagMask =? 0)
            && negb (Z.land tag kExternalPointerMarkBit =? 0) = true →
            is_Some (entry_at (buffer_ s) (HandleToIndex handle)) →
            s' = store_entry s (HandleToIndex handle)
                   (MakeRegularEntry value tag) →
            entry_at (buffer_ s') index = entry_at (buffer_ s) index
            ∨ ∃ entry, mutator_write call index entry
                       ∧ entry_at (buffer_ s') index = Some entry) as Hwrite.
  { intros handle value tag Hshape Hchecks [old Hold] ->.
    apply entry_at_Some in Hold.
    destruct (decide (HandleToIndex handle = index)) as [Heq|Hne].
    - right. exists (MakeRegularEntry value tag). split.
      + exists handle, value, tag. repeat split; try done.
        apply andb_true_iff in Hchecks as [_ Hmark].
        by apply negb_true_iff, Z.eqb_neq in Hmark.
      + rewrite <- Heq. by apply entry_at_insert.
    - left. apply entry_at_insert_ne; [lia | done]. }
  destruct call as [| handle value tag | handle value tag | | | | | | |];
    try done.
  - rewrite run_invoke_Set in Hrun.
    destruct (_ && _ && _) eqn:Hchecks; [|done].
    destruct (entry_at _ _) as [old|] eqn:Hold; [|done].
    injection Hrun as _ <- _. eapply Hwrite; eauto.
  - cbn [invoke] in Hrun. rewrite run_Exchange in Hrun.
    destruct (_ && _ && _) eqn:Hchecks; [|done].
    destruct (entry_at _ _) as [old|] eqn:Hold; [|done].
    destruct (IsRegularEntry old); [|done].
    destruct (Untag old tag); [|done].
    injection Hrun as _ <- _. eapply Hwrite; eauto.
Qed.

Lemma run_mutator_writes fuel calls s s' trace index :
  Forall (λ call, is_mutator_write call = true) calls →
  run (invoke_all fuel calls) s = Done tt s' trace →
  entry_at (buffer_ s') index = entry_at (buffer_ s) index
  ∨ ∃ call entry, call ∈ calls ∧ mutator_write call index entry
                  ∧ entry_at (buffer_ s') index = Some entry.
Proof.
  intros Hcalls. revert s trace.
  induction Hcalls as [|call calls Hcall Hcalls IH]; intros s trace.
  - cbn. intros [= <- _]. by left.
  - cbn [invoke_all]. rewrite run_bind.
    destruct (run (invoke fuel call) s) as [result s1 trace1| |] eqn:Hcall1;
      [|done..].
    destruct (run (invoke_all fuel calls) s1) as [[] s2 trace2| |] eqn:Hrest;
      [|done..].
    intros [= <- _].
    destruct (IH _ _ Hrest) as [Hsame|(call' & entry & Hin & Hwrite & Hat)].
    + destruct (run_mutator_write _ _ _ _ _ _ index Hcall Hcall1)
        as [Hsame1|(entry & Hwrite & Hat)].
      * left. congruence.
      * right. exists call, entry. rewrite Hsame.
        split; [apply list_elem_of_here | done].
    + right. exists call', entry.
      split; [by apply list_elem_of_further | done].
Qed.

Lemma entry_CAS_count_app trace trace' :
  entry_CAS_count (trace ++ trace')
  = (entry_CAS_count trace + entry_CAS_count trace')%nat.
Proof. unfold entry_CAS_count. by rewrite filter_app, length_app. Qed.

Lemma entry_CAS_count_none trace :
  Forall (λ ev, negb (is_entry_CAS ev.1) = true) trace →
  entry_CAS_count trace = 0%nat.
Proof.
  unfold entry_CAS_count. induction 1 as [|ev trace Hev _ IH]; [done |].
  rewrite filter_cons_False; [done |].
  apply negb_true_iff in Hev. congruence.
Qed.

Lemma exec_Mark_splits env n fuel handle handle_location s s' trace :
  exec env n (Mark fuel handle handle_location) s = Done tt s' trace →
  ∃ prefix tail s_mid,
    trace = prefix ++ tail
    ∧ entry_CAS_count prefix = 0%nat
    ∧ exec env (n + length prefix) (mark_alive (HandleToIndex handle)) s_mid
      = Done tt s' tail.
Proof.
  intros Hexec. unfold Mark in Hexec.
  rewrite exec_bind in Hexec.
  destruct (exec env n (perform _) s) as [stored s1 trace1| |] eqn:Hload;
    [|done..].
  rewrite exec_bind in Hexec.
  destruct (exec env _ (DCHECK _) s1) as [[] s2 trace2| |] eqn:Hcheck;
    [|done..].
  rewrite exec_bind in Hexec.
  destruct (exec env _ (evacuate _ _ _ _) s2) as [[] s3 trace3| |]
    eqn:Hevacuate; [|done..].
  destruct (exec env _ (mark_alive _) s3) as [[] s4 tail| |] eqn:Hmark;
    [|done..].
  injection Hexec as <- <-.
  exists (trace1 ++ trace2 ++ trace3), tail, s3.
  split; [by rewrite <- !app_assoc |]. split.
  - rewrite !entry_CAS_count_app.
    rewrite (entry_CAS_count_none trace1), (entry_CAS_count_none trace2),
      (entry_CAS_count_none trace3); [done | ..].
    + eapply (exec_performs_only (λ a, negb (is_entry_CAS a))); [|exact Hevacuate].
      unfold evacuate, IsCompacting. solve_performs_only.
      by apply performs_only_AllocateEvacuationEntry.
    + eapply (exec_performs_only (λ a, negb (is_entry_CAS a))); [|exact Hcheck].
      apply performs_only_DCHECK.
    + eapply (exec_performs_only (λ a, negb (is_entry_CAS a))); [|exact Hload].
      by apply performs_only_perform.
  - rewrite !length_app, !Nat.add_assoc. exact Hmark.
Qed.

Lemma exec_mark_alive env_fuel schedule m index s s' tail :
  (∀ k, Forall (λ call, is_mutator_write call = true) (schedule k)) →
  exec (calls_env env_fuel schedule) m (mark_alive index) s
    = Done tt s' tail →
  ∃ old_entry seen_entry,
    tail = [(RelaxedLoad index, old_entry);
            (RelaxedCompareAndSwap index old_entry (SetMarkBit old_entry),
             seen_entry)]
    ∧ IsRegularEntry old_entry = true
    ∧ ((seen_entry = old_entry
        ∧ entry_at (buffer_ s') index = Some (SetMarkBit old_entry))
       ∨ (seen_entry ≠ old_entry
          ∧ entry_at (buffer_ s') index = Some seen_entry
          ∧ ∃ call, call ∈ schedule (S m)
                    ∧ mutator_write call index seen_entry)).
Proof.
  intros Hschedule Hexec. unfold mark_alive in Hexec. cbn in Hexec.
  destruct (calls_env env_fuel schedule m s) as [s1|]; [|done].
  destruct (entry_at (buffer_ s1) index) as [old_entry|] eqn:Hold; [|done].
  cbn in Hexec.
  destruct (IsRegularEntry old_entry) eqn:Hregular; [|done].
  cbn in Hexec.
  destruct (calls_env env_fuel schedule (S m) s1) as [s2|] eqn:Henv;
    [|done].
  unfold calls_env in Henv.
  destruct (run (invoke_all env_fuel (schedule (S m))) s1)
    as [[] s2' trace2| |] eqn:Hcalls; [|done..].
  injection Henv as ->.
  pose proof (run_mutator_writes _ _ _ _ _ index (Hschedule (S m)) Hcalls)
    as Hwritten.
  destruct (entry_at (buffer_ s2) index) as [seen_entry|] eqn:Hseen;
    [|done].
  pose proof (entry_at_Some _ _ _ Hseen) as Hrange.
  destruct (Z.eqb_spec seen_entry old_entry) as [->|Hne]; cbn in Hexec.
  - rewrite Z.eqb_refl in Hexec. cbn in Hexec. injection Hexec as <- <-.
    exists old_entry, old_entry. split; [done |]. split; [done |].
    left. split; [done |]. by apply entry_at_insert.
  - rewrite (proj2 (Z.eqb_neq _ _) Hne) in Hexec. cbn in Hexec.
    destruct (IsMarked seen_entry); [|done]. cbn in Hexec.
    injection Hexec as <- <-.
    exists old_entry, seen_entry. split; [done |]. split; [done |].
    right. split; [done |]. split; [done |].
    destruct Hwritten as [Hsame|(call & entry & Hin & Hwrite & Hat)].
    + congruence.
    + exists call. split; [done |]. congruence.
Qed.

(** Run alone on a well-formed table, [Mark] returns, and leaves the marked
    copy of the entry it has found. *)
Lemma run_Mark_marks fuel s handle handle_location old_entry :
  heap_ s !! handle_location = Some handle →
  freelist_invariant s →
  (start_of_evacuation_area_ s ≤ HandleToIndex handle →
   start_of_evacuation_area_ s ≠ kNotCompactingMarker) →
  entry_at (buffer_ s) (HandleToIndex handle) = Some old_entry →
  IsRegularEntry old_entry = true →
  ∃ s' trace,
    run (Mark (S fuel) handle handle_location) s = Done tt s' trace
    ∧ entry_CAS_count trace = 1%nat
    ∧ entry_at (buffer_ s') (HandleToIndex handle)
      = Some (SetMarkBit old_entry).
Proof.
  intros Hslot [Hfits (nodes & Hfrom)] Hcompacting Hold Hregular.
  pose proof (entry_at_Some _ _ _ Hold) as Hrange.
  rewrite run_Mark, Hslot, Z.eqb_refl.
  destruct (Z.lt_ge_cases (HandleToIndex handle)
              (start_of_evacuation_area_ s)) as [Hbelow|Habove].
  - rewrite run_evacuate_not_needed by done.
    rewrite run_mark_alive, Hold, Hregular.
    eexists _, _. split; [done |]. split; [done |].
    cbn. apply entry_at_insert. lia.
  - specialize (Hcompacting Habove).
    destruct (decide (freelist_head_ s = 0
                      ∨ start_of_evacuation_area_ s ≤ freelist_head_ s))
      as [Hrefuse|Hclaim].
    + rewrite run_evacuate_aborts by done.
      rewrite run_mark_alive. cbn [buffer_ set_start].
      rewrite Hold, Hregular.
      eexists _, _. split; [done |]. split; [done |].
      cbn. apply entry_at_insert. lia.
    + inversion Hfrom as [Hzero|head entry tail Hnz Hentry Hfree _ _ Hhead];
        [by destruct Hclaim; left |].
      pose proof (entry_at_Some _ _ _ Hentry) as Hhead_range.
      assert (HandleToIndex handle ≠ freelist_head_ s) as Hne.
      { intros Hsame. rewrite Hsame, Hentry in Hold. injection Hold as ->.
        unfold IsRegularEntry in Hregular. by rewrite Hfree in Hregular. }
      rewrite (run_evacuate_claims _ _ _ _ _ entry handle)
        by (done || lia).
      rewrite run_mark_alive.
      cbn [buffer_ set_heap set_buffer store_entry set_freelist_head].
      rewrite entry_at_insert_ne by (lia || done).
      rewrite Hold, Hregular.
      eexists _, _. split; [done |]. split; [done |].
      cbn. apply entry_at_insert. rewrite length_insert. lia.
Qed.

(** The marking step returns whenever the mutators that write in between
    return: a compare-and-swap that fails has seen an entry written by one
    of them, which is marked. *)
Lemma exec_mark_alive_returns env_fuel schedule n index s s1 s2 old_entry :
  (∀ k, Forall (λ call, is_mutator_write call = true) (schedule k)) →
  calls_env env_fuel schedule n s = Some s1 →
  entry_at (buffer_ s1) index = Some old_entry →
  IsRegularEntry old_entry = true →
  calls_env env_fuel schedule (S n) s1 = Some s2 →
  ∃ seen_entry s',
    exec (calls_env env_fuel schedule) n (mark_alive index) s
    = Done tt s'
        [(RelaxedLoad index, old_entry);
         (RelaxedCompareAndSwap index old_entry (SetMarkBit old_entry),
          seen_entry)]
    ∧ ∃ entry,
        entry_at (buffer_ s') index = Some entry ∧ IsMarked entry = true.
Proof.
  intros Hschedule Hs1 Hold Hregular Hs2.
  assert (entry_at (buffer_ s2) index = Some old_entry
          ∨ ∃ call entry,
              mutator_write call index entry
              ∧ entry_at (buffer_ s2) index = Some entry) as Hseen.
  { unfold calls_env in Hs2.
    destruct (run (invoke_all env_fuel (schedule (S n))) s1)
      as [[] s2' trace2| |] eqn:Hcalls; [|done..].
    injection Hs2 as ->.
    destruct (run_mutator_writes _ _ _ _ _ index (Hschedule (S n)) Hcalls)
      as [Hsame|(call & entry & _ & Hwrite & Hat)].
    - left. congruence.
    - right. by exists call, entry. }
  unfold mark_alive. cbn -[calls_env]. rewrite Hs1. cbn -[calls_env].
  rewrite Hold, Hregular. cbn -[calls_env]. rewrite Hs2.
  destruct Hseen as [Hsame|(call & entry & Hwrite & Hat)].
  - rewrite Hsame, Z.eqb_refl. cbn. rewrite Z.eqb_refl. cbn.
    eexists _, _. split; [done |].
    exists (SetMarkBit old_entry). split; [|apply IsMarked_SetMarkBit].
    cbn. apply entry_at_insert. by apply entry_at_Some in Hsame.
  - rewrite Hat.
    assert (IsMarked entry = true) as Hmarked.
    { destruct Hwrite as (h & value & tag & _ & _ & -> & Hmark).
      by apply IsMarked_regular_entry. }
    destruct (Z.eqb_spec entry old_entry) as [->|Hne].
    + cbn. rewrite Z.eqb_refl. cbn.
      eexists _, _. split; [done |].
      exists (SetMarkBit old_entry). split; [|apply IsMarked_SetMarkBit].
      cbn. apply entry_at_insert. by apply entry_at_Some in Hat.
    + cbn. rewrite (proj2 (Z.eqb_neq _ _) Hne), Hmarked. cbn.
      eexists _, _. split; [done |]. by exists entry.
Qed.

(** C3.  [Mark] marks the entry of a handle whose entry is regular.  Run
    alone on a well-formed table it returns, after one compare-and-swap of
    the entry, and the entry is the marked copy of the one it found,
    whether that was marked or not.  When mutators call [Set] and
    [Exchange] in between, the marking step still returns as long as their
    calls do: its compare-and-swap is attempted once, and if it fails the
    entry it has seen is marked.  And whenever [Mark] returns under such
    interference, it has performed exactly one compare-and-swap on an
    entry, and the entry of the handle is marked: either the
    compare-and-swap installed the marked copy of the entry loaded, or it
    failed on an entry that a concurrent [Set] or [Exchange] had stored in
    between, whose tag carries the mark bit. *)
Theorem Mark_marks_entry
    fuel env_fuel schedule handle handle_location :
  (∀ k, Forall (λ call, is_mutator_write call = true) (schedule k)) →
  let index := HandleToIndex handle in
  let env := calls_env env_fuel schedule in
  (∀ s old_entry,
     heap_ s !! handle_location = Some handle →
     freelist_invariant s →
     (start_of_evacuation_area_ s ≤ index →
      start_of_evacuation_area_ s ≠ kNotCompactingMarker) →
     entry_at (buffer_ s) index = Some old_entry →
     IsRegularEntry old_entry = true →
     ∃ s' trace,
       run (Mark (S fuel) handle handle_location) s = Done tt s' trace
       ∧ entry_CAS_count trace = 1%nat
       ∧ entry_at (buffer_ s') index = Some (SetMarkBit old_entry)
       ∧ IsMarked (SetMarkBit old_entry) = true)
  ∧ (∀ n s s1 s2 old_entry,
       env n s = Some s1 →
       entry_at (buffer_ s1) index = Some old_entry →
       IsRegularEntry old_entry = true →
       env (S n) s1 = Some s2 →
       ∃ seen_entry s',
         exec env n (mark_alive index) s
         = Done tt s'
             [(RelaxedLoad index, old_entry);
              (RelaxedCompareAndSwap index old_entry
                 (SetMarkBit old_entry), seen_entry)]
         ∧ ∃ entry,
             entry_at (buffer_ s') index = Some entry
             ∧ IsMarked entry = true)
  ∧ (∀ n s s' trace,
       exec env n (Mark fuel handle handle_location) s = Done tt s' trace →
       entry_CAS_count trace = 1%nat
       ∧ (∃ entry, entry_at (buffer_ s') index = Some entry
                   ∧ IsMarked entry = true)
       ∧ ∃ prefix old_entry seen_entry,
           trace = prefix ++
                   [(RelaxedLoad index, old_entry);
                    (RelaxedCompareAndSwap index old_entry
                       (SetMarkBit old_entry), seen_entry)]
           ∧ IsRegularEntry old_entry = true
           ∧ ((seen_entry = old_entry
               ∧ entry_at (buffer_ s') index = Some (SetMarkBit old_entry))
              ∨ (seen_entry ≠ old_entry
                 ∧ entry_at (buffer_ s') index = Some seen_entry
                 ∧ ∃ k call, call ∈ schedule k
                             ∧ mutator_write call index seen_entry))).
Proof.
  intros Hschedule index env. split; [|split].
  - intros s old_entry Hslot Hs Hcompacting Hold Hregular.
    destruct (run_Mark_marks fuel s handle handle_location old_entry)
      as (s' & trace & Hrun & Hcount & Hat); [done.. |].
    exists s', trace. split; [done |]. split; [done |]. split; [done |].
    apply IsMarked_SetMarkBit.
  - intros n s s1 s2 old_entry Hs1 Hold Hregular Hs2.
    by eapply exec_mark_alive_returns.
  - intros n s s' trace Hexec.
    apply exec_Mark_splits in Hexec
      as (prefix & tail & s_mid & -> & Hprefix & Hmark).
    apply exec_mark_alive in Hmark
      as (old_entry & seen_entry & -> & Hregular & Hcas); [|done].
    split; [by rewrite entry_CAS_count_app, Hprefix |].
    split.
    + destruct Hcas as [[_ Hat]|(_ & Hat & call & _ & Hwrite)].
      * eexists. split; [exact Hat | apply IsMarked_SetMarkBit].
      * eexists. split; [exact Hat |].
        destruct Hwrite as (h & value & tag & _ & _ & -> & Hmarked).
        by apply IsMarked_regular_entry.
    + exists prefix, old_entry, seen_entry. split; [done |].
      split; [done |].
      destruct Hcas as [Hinstalled|(Hne & Hat & call & Hin & Hwrite)];
        [by left |].
      right. split; [done |]. split; [done |]. by eexists _, call.
Qed.

(** ** Racing for a freelist entry *)

Lemma exec_TryAllocateEntryFromFreelist env n head s success s' trace :
  exec env n (TryAllocateEntryFromFreelist head) s = Done success s' trace →
  ∃ table_capacity entry s_load s_cas,
    entry_at (buffer_ s_load) head = Some entry
    ∧ trace = [(Load_capacity, table_capacity); (RelaxedLoad head, entry);
               (CompareAndSwap_freelist_head head
                  (ExtractNextFreelistEntry entry), freelist_head_ s_cas)]
    ∧ success = (freelist_head_ s_cas =? head)
    ∧ s' = (if success
            then set_freelist_head s_cas (ExtractNextFreelistEntry entry)
            else s_cas)
    ∧ (success = true → IsFreelistEntry entry = true).
Proof.
  unfold TryAllocateEntryFromFreelist. intros Hexec.
  destruct (negb (head =? 0)); [|done]. cbn in Hexec.
  destruct (env n s) as [s1|]; [|done].
  destruct (head <? capacity s1); [|done]. cbn in Hexec.
  destruct (env (S n) s1) as [s2|]; [|done].
  destruct (entry_at (buffer_ s2) head) as [entry|] eqn:Hentry; [|done].
  cbn in Hexec.
  destruct (env (S (S n)) s2) as [s3|]; [|done].
  exists (capacity s1), entry, s2, s3.
  destruct (freelist_head_ s3 =? head) eqn:Hhead; cbn in Hexec;
    rewrite Hhead in Hexec; cbn in Hexec.
  - destruct (IsFreelistEntry entry); [|done]. cbn in Hexec.
    by injection Hexec as <- <- <-.
  - by injection Hexec as <- <- <-.
Qed.

Lemma successes_insert threads i (old new : prog bool) :
  threads !! i = Some old →
  (successes (<[i := new]> threads) + (if is_success old then 1 else 0)
   = successes threads + (if is_success new then 1 else 0))%nat.
Proof.
  unfold successes. revert i.
  induction threads as [|thread threads IH]; intros [|i]; cbn; try done.
  - intros [= ->]. destruct (is_success old), (is_success new); cbn; lia.
  - intros Hi. specialize (IH _ Hi).
    destruct (is_success thread); cbn [List.filter length Nat.add];
      [f_equal |]; exact IH.
Qed.

Lemma claiming_step head entry thread a k s v s' :
  ExtractNextFreelistEntry entry ≠ head →
  entry_at (buffer_ s) head = Some entry →
  claiming head entry thread →
  thread = Do a k →
  access a s = Reply v s' →
  claiming head entry (k v)
  ∧ buffer_ s' = buffer_ s
  ∧ (is_success (k v) = true → freelist_head_ s = head)
  ∧ (is_success (k v) = true → freelist_head_ s' ≠ head)
  ∧ (freelist_head_ s ≠ head → freelist_head_ s' ≠ head).
Proof.
  intros Hnext Hentry Hthread.
  destruct Hthread as [|table_capacity| |success|]; [| | |done..].
  - unfold TryAllocateEntryFromFreelist.
    destruct (negb (head =? 0)); [|done]. cbn.
    intros [= <- <-] [= <- <-].
    split; [apply (claiming_capacity head entry (capacity s)) |].
    by destruct (head <? capacity s).
  - unfold claim_after_capacity.
    destruct (head <? table_capacity); [|done]. cbn.
    intros [= <- <-]. cbn. rewrite Hentry. intros [= <- <-].
    split; [apply claiming_loaded | done].
  - unfold claim_after_load. cbn. intros [= <- <-]. cbn.
    destruct (Z.eqb_spec (freelist_head_ s) head) as [Hhead|Hhead];
      intros [= <- <-]; cbn.
    + rewrite Hhead, Z.eqb_refl. cbn.
      destruct (IsFreelistEntry entry); cbn;
        (split; [constructor | done]).
    + rewrite (proj2 (Z.eqb_neq _ _) Hhead). cbn.
      split; [constructor | done].
Qed.

Lemma interleave_claims schedule threads s head entry threads' s' :
  ExtractNextFreelistEntry entry ≠ head →
  entry_at (buffer_ s) head = Some entry →
  Forall (claiming head entry) threads →
  successes threads = 0%nat
  ∨ (successes threads = 1%nat ∧ freelist_head_ s ≠ head) →
  interleave schedule threads s = Some (threads', s') →
  (successes threads' ≤ 1)%nat.
Proof.
  intros Hnext. revert threads s.
  induction schedule as [|i schedule IH]; intros threads s Hentry Hthreads
    Hcount; cbn.
  - intros [= <- <-]. lia.
  - destruct (threads !! i) as [thread|] eqn:Hi; [|by apply IH].
    pose proof (Forall_lookup_1 _ _ _ _ Hthreads Hi) as Hthread.
    destruct thread as [success| | |a k]; [by apply IH | done | by apply IH |].
    destruct (access a s) as [v s1| |] eqn:Haccess; [|done | by apply IH].
    destruct (claiming_step _ _ _ _ _ _ _ _ Hnext Hentry Hthread eq_refl
                Haccess)
      as (Hnew & Hbuffer & Hwas_head & Hmoved & Hstays).
    pose proof (successes_insert threads i _ (k v) Hi) as Hins.
    cbn [is_success] in Hins.
    apply IH.
    + by rewrite Hbuffer.
    + by apply Forall_insert.
    + destruct (is_success (k v)) eqn:Hsuccess.
      * right. split; [|by apply Hmoved].
        destruct Hcount as [Hzero|[_ Haway]]; [lia |].
        by specialize (Hwas_head eq_refl).
      * destruct Hcount as [Hzero|[Hone Haway]]; [left; lia |].
        right. split; [lia | by apply Hstays].
Qed.

(** C7.  [TryAllocateEntryFromFreelist] loads the entry at the expected
    head and then compare-and-swaps [freelist_head_] from the expected head
    to the next-pointer of that entry; it returns true exactly when the
    word still held the expected head, and then the entry was a freelist
    entry.  Of any number of threads that race to claim the same entry, in
    any interleaving of their accesses, at most one returns true. *)
Theorem TryAllocateEntryFromFreelist_claims_once :
  (∀ env n head s success s' trace,
     exec env n (TryAllocateEntryFromFreelist head) s
       = Done success s' trace →
     ∃ table_capacity entry s_load s_cas,
       entry_at (buffer_ s_load) head = Some entry
       ∧ trace = [(Load_capacity, table_capacity);
                  (RelaxedLoad head, entry);
                  (CompareAndSwap_freelist_head head
                     (ExtractNextFreelistEntry entry),
                   freelist_head_ s_cas)]
       ∧ success = (freelist_head_ s_cas =? head)
       ∧ s' = (if success
               then set_freelist_head s_cas (ExtractNextFreelistEntry entry)
               else s_cas)
       ∧ (success = true → IsFreelistEntry entry = true))
  ∧ (∀ schedule count head s entry threads' s',
       entry_at (buffer_ s) head = Some entry →
       ExtractNextFreelistEntry entry ≠ head →
       interleave schedule
         (replicate count (TryAllocateEntryFromFreelist head)) s
         = Some (threads', s') →
       (successes threads' ≤ 1)%nat).
Proof.
  split.
  - intros env n head s success s' trace.
    apply exec_TryAllocateEntryFromFreelist.
  - intros schedule count head s entry threads' s' Hentry Hnext.
    apply (interleave_claims _ _ _ head entry); [done.. | |].
    + apply Forall_replicate. constructor.
    + left. unfold successes.
      induction count as [|count IH]; [done |]. cbn [replicate List.filter].
      by destruct (is_success (TryAllocateEntryFromFreelist head)) eqn:Hs;
        [unfold TryAllocateEntryFromFreelist in Hs;
         destruct (negb (head =? 0)) |].
Qed.

(** ** The freelist as a chain of nodes *)

Lemma kMaxExternalPointers_le_field :
  kMaxExternalPointers ≤ 2 ^ kFreelistFieldBits.
Proof.
  pose proof index_shift_range. pose proof freelist_field_fits.
  unfold kMaxExternalPointers. apply Z.pow_le_mono_r; lia.
Qed.

Lemma freelist_from_sizes buffer head nodes :
  freelist_from buffer head nodes →
  Forall (λ i, ∃ entry, entry_at buffer i = Some entry
                        ∧ IsFreelistEntry entry = true
                        ∧ 1 ≤ ExtractFreelistSize entry
                          ≤ Z.of_nat (length nodes)) nodes.
Proof.
  induction 1 as [|head entry nodes Hnz Hentry Hfree Hsize _ IH];
    constructor.
  - exists entry. cbn [length]. repeat split; [done.. | lia | lia].
  - eapply Forall_impl; [exact IH |].
    intros i (e & He & Hf & Hs). exists e. cbn [length].
    repeat split; [done.. | lia | lia].
Qed.

Lemma freelist_from_NoDup buffer head nodes :
  freelist_from buffer head nodes → NoDup nodes.
Proof.
  induction 1 as [|head entry nodes Hnz Hentry Hfree Hsize Hrest IH];
    constructor; [|done].
  intros Hin. apply freelist_from_sizes in Hrest.
  rewrite Forall_forall in Hrest.
  destruct (Hrest _ Hin) as (e & He & _ & Hs).
  rewrite Hentry in He. injection He as <-. lia.
Qed.

Lemma freelist_from_bounds buffer head nodes :
  freelist_from buffer head nodes →
  Forall (λ i, 0 < i < Z.of_nat (length buffer)) nodes.
Proof.
  induction 1 as [|head entry nodes Hnz Hentry Hfree Hsize Hrest IH];
    constructor; [|done].
  apply entry_at_Some in Hentry. lia.
Qed.

Lemma freelist_from_entries buffer head nodes :
  freelist_from buffer head nodes →
  head = 0 ∧ nodes = [] ∨ head ∈ nodes.
Proof. destruct 1; [by left | right; apply list_elem_of_here]. Qed.

Lemma bounded_NoDup_length (nodes : list Z) bound :
  NoDup nodes →
  Forall (λ i, 0 < i < bound) nodes →
  Z.of_nat (length nodes) ≤ Z.max (bound - 1) 0.
Proof.
  intros Hnodup Hbounds.
  assert (nodes ⊆+ seqZ 1 (bound - 1)) as Hsub.
  { apply NoDup_submseteq; [done |]. intros i Hi.
    rewrite Forall_forall in Hbounds. apply elem_of_seqZ.
    specialize (Hbounds _ Hi). lia. }
  apply submseteq_length in Hsub. rewrite length_seqZ in Hsub. lia.
Qed.

Lemma freelist_from_length buffer head nodes :
  freelist_from buffer head nodes →
  Z.of_nat (length nodes) ≤ Z.max (Z.of_nat (length buffer) - 1) 0.
Proof.
  intros Hfrom. apply bounded_NoDup_length.
  - by eapply freelist_from_NoDup.
  - by eapply freelist_from_bounds.
Qed.

Lemma freelist_from_insert buffer head nodes index entry :
  0 ≤ index → index ∉ nodes →
  freelist_from buffer head nodes →
  freelist_from (<[Z.to_nat index := entry]> buffer) head nodes.
Proof.
  intros Hindex Hnotin Hfrom.
  induction Hfrom as [|head e nodes Hnz Hentry Hfree Hsize Hrest IH];
    [constructor |].
  apply not_elem_of_cons in Hnotin as [Hne Hnotin].
  econstructor; [done | | done | done | by apply IH].
  by rewrite entry_at_insert_ne.
Qed.

Lemma entry_at_app_l buffer extension index :
  index < Z.of_nat (length buffer) →
  entry_at (buffer ++ extension) index = entry_at buffer index.
Proof.
  intros Hindex. unfold entry_at.
  destruct (Z.ltb_spec index 0); [done |]. apply lookup_app_l. lia.
Qed.

Lemma freelist_from_app buffer extension head nodes :
  freelist_from buffer head nodes →
  freelist_from (buffer ++ extension) head nodes.
Proof.
  induction 1 as [|head e nodes Hnz Hentry Hfree Hsize Hrest IH];
    [constructor |].
  econstructor; [done | | done | done | done].
  rewrite entry_at_app_l; [done |]. apply entry_at_Some in Hentry. lia.
Qed.

Lemma freelist_length_from fuel buffer head nodes :
  freelist_from buffer head nodes →
  (length nodes ≤ fuel)%nat →
  freelist_length fuel buffer head = Some (length nodes).
Proof.
  intros Hfrom. revert fuel.
  induction Hfrom as [|head e nodes Hnz Hentry Hfree Hsize Hrest IH];
    intros fuel Hfuel.
  - by destruct fuel.
  - destruct fuel as [|fuel]; cbn [length] in Hfuel; [lia |].
    cbn [freelist_length]. rewrite (proj2 (Z.eqb_neq _ _) Hnz).
    rewrite Hentry, Hfree, IH by lia. done.
Qed.

Lemma reachable_free_entries_from s nodes :
  freelist_from (buffer_ s) (freelist_head_ s) nodes →
  reachable_free_entries s = Some (length nodes).
Proof.
  intros Hfrom. apply freelist_length_from; [done |].
  apply freelist_from_length in Hfrom. lia.
Qed.

Lemma current_freelist_size_from s nodes :
  freelist_from (buffer_ s) (freelist_head_ s) nodes →
  current_freelist_size s = Z.of_nat (length nodes).
Proof.
  unfold current_freelist_size. intros Hfrom.
  inversion Hfrom as [Hhead|head e nodes' Hnz Hentry Hfree Hsize Hrest].
  - done.
  - rewrite (proj2 (Z.eqb_neq _ _) Hnz), Hentry. by subst.
Qed.

(** ** Growing and reclaiming keep the freelist *)

Lemma entry_at_grown buffer index :
  let old_capacity := Z.of_nat (length buffer) in
  let new_capacity := old_capacity + kEntriesPerBlock in
  old_capacity ≤ index < new_capacity →
  0 < index →
  entry_at (buffer ++ grow_block old_capacity) index
  = Some (MakeFreelistEntry
            (if index + 1 <? new_capacity then index + 1 else 0)
            (new_capacity - index)).
Proof.
  intros old_capacity new_capacity Hindex Hpos. unfold entry_at.
  destruct (Z.ltb_spec index 0); [lia |].
  rewrite lookup_app_r by lia. unfold grow_block.
  rewrite list_lookup_fmap, lookup_seqZ_lt by lia. cbn.
  replace (old_capacity + Z.of_nat (Z.to_nat index - length buffer))
    with index by lia.
  by rewrite (proj2 (Z.eqb_neq index 0)) by lia.
Qed.

Lemma freelist_from_grown buffer n index :
  let old_capacity := Z.of_nat (length buffer) in
  let new_capacity := old_capacity + kEntriesPerBlock in
  new_capacity ≤ kMaxExternalPointers →
  Z.of_nat n = new_capacity - index →
  Z.max old_capacity 1 ≤ index →
  freelist_from (buffer ++ grow_block old_capacity)
    (if index <? new_capacity then index else 0)
    (seqZ index (new_capacity - index)).
Proof.
  intros old_capacity new_capacity Hfits.
  pose proof kMaxExternalPointers_le_field as Hfield.
  revert index. induction n as [|n IH]; intros index Hn Hindex.
  - rewrite (proj2 (Z.ltb_ge _ _)) by lia.
    rewrite seqZ_nil by lia. constructor.
  - rewrite (proj2 (Z.ltb_lt _ _)) by lia.
    rewrite seqZ_cons by lia.
    assert (0 ≤ (if index + 1 <? new_capacity then index + 1 else 0)
            < 2 ^ kFreelistFieldBits) as Hnext
      by (destruct (Z.ltb_spec (index + 1) new_capacity); lia).
    assert (0 ≤ new_capacity - index < 2 ^ kFreelistFieldBits) as Hsize
      by lia.
    eapply freelist_node.
    + lia.
    + apply entry_at_grown; lia.
    + by apply IsFreelistEntry_MakeFreelistEntry.
    + rewrite ExtractFreelistSize_MakeFreelistEntry by done.
      rewrite length_seqZ. lia.
    + rewrite ExtractNextFreelistEntry_MakeFreelistEntry by done.
      replace (Z.pred (new_capacity - index))
        with (new_capacity - Z.succ index) by lia.
      replace (index + 1) with (Z.succ index) by lia.
      apply IH; lia.
Qed.

Lemma grow_invariant s v s' :
  grow s = Reply v s' →
  freelist_invariant s' ∧ v = freelist_head_ s' ∧ v ≠ 0.
Proof.
  unfold grow. pose proof entries_per_block_range as Hblock.
  destruct (negb (freelist_head_ s =? 0)); [done |].
  destruct (Z.ltb_spec kMaxExternalPointers (capacity s + kEntriesPerBlock))
    as [|Hfits]; [done |].
  intros [= <- <-]. cbn. unfold capacity in *.
  split; [|split; [done | lia]]. split.
  - unfold table_fits, capacity. cbn.
    rewrite length_app. unfold grow_block.
    rewrite length_fmap, length_seqZ. lia.
  - cbn. eexists.
    pose proof (freelist_from_grown (buffer_ s)
      (Z.to_nat (Z.of_nat (length (buffer_ s)) + kEntriesPerBlock
                 - Z.max (Z.of_nat (length (buffer_ s))) 1))
      (Z.max (Z.of_nat (length (buffer_ s))) 1)) as Hgrown.
    cbn zeta in Hgrown.
    rewrite (proj2 (Z.ltb_lt _ _)) in Hgrown by lia.
    apply Hgrown; lia.
Qed.

Lemma reclaim_invariant index s v s' :
  freelist_invariant s →
  reclaim index s = Reply v s' →
  freelist_invariant s'.
Proof.
  intros [Hfits (nodes & Hfrom)]. unfold reclaim.
  pose proof kMaxExternalPointers_le_field as Hfield.
  destruct (Z.leb_spec index 0) as [|Hindex]; [done |].
  destruct (entry_at (buffer_ s) index) as [entry|] eqn:Hentry; [|done].
  destruct (IsRegularEntry entry) eqn:Hregular; [|done].
  destruct (negb (IsMarked entry)); [|done]. cbn [andb].
  intros [= _ <-].
  pose proof (entry_at_Some _ _ _ Hentry) as Hrange.
  assert (index ∉ nodes) as Hnotin.
  { intros Hin. apply freelist_from_sizes in Hfrom.
    rewrite Forall_forall in Hfrom.
    destruct (Hfrom _ Hin) as (e & He & Hfree & _).
    rewrite Hentry in He. injection He as <-.
    unfold IsRegularEntry in Hregular. by rewrite Hfree in Hregular. }
  assert (Z.of_nat (length (index :: nodes))
          ≤ Z.max (Z.of_nat (length (buffer_ s)) - 1) 0) as Hlength.
  { apply bounded_NoDup_length.
    - constructor; [done | by eapply freelist_from_NoDup].
    - constructor; [lia | by eapply freelist_from_bounds]. }
  cbn [length] in Hlength.
  pose proof kMaxExternalPointers_pos as Hmax.
  assert (0 ≤ freelist_head_ s < 2 ^ kFreelistFieldBits) as Hhead.
  { destruct (freelist_from_entries _ _ _ Hfrom) as [[-> _]|Hin]; [lia |].
    apply freelist_from_bounds in Hfrom. rewrite Forall_forall in Hfrom.
    specialize (Hfrom _ Hin). unfold table_fits, capacity in Hfits. lia. }
  rewrite (current_freelist_size_from _ _ Hfrom).
  assert (0 ≤ Z.of_nat (length nodes) + 1 < 2 ^ kFreelistFieldBits)
    as Hsize by (unfold table_fits, capacity in Hfits; lia).
  split.
  - unfold table_fits, capacity in *. cbn. by rewrite length_insert.
  - exists (index :: nodes). cbn.
    eapply freelist_node.
    + lia.
    + apply entry_at_insert. lia.
    + by apply IsFreelistEntry_MakeFreelistEntry.
    + rewrite ExtractFreelistSize_MakeFreelistEntry by done. lia.
    + rewrite ExtractNextFreelistEntry_MakeFreelistEntry by done.
      apply freelist_from_insert; [lia | done | done].
Qed.

(** ** Allocations keep the freelist *)

Lemma hoare_bind {A B} P (Q' : A → State → Prop) (Q : B → State → Prop)
    (p : prog A) (f : A → prog B) :
  hoare P p Q' →
  (∀ a, hoare (Q' a) (f a) Q) →
  hoare P (p ≫= f) Q.
Proof.
  intros Hp Hf s b s' trace Hs. rewrite run_bind.
  destruct (run p s) as [a s1 trace1| |] eqn:Hrun; [|done..].
  destruct (run (f a) s1) as [b' s2 trace2| |] eqn:Hrun'; [|done..].
  intros [= <- <- _]. eapply Hf; [|exact Hrun']. by eapply Hp.
Qed.

Lemma hoare_weaken {A} (P P' : State → Prop) (Q Q' : A → State → Prop)
    (p : prog A) :
  hoare P' p Q' →
  (∀ s, P s → P' s) →
  (∀ a s, Q' a s → Q a s) →
  hoare P p Q.
Proof.
  intros Hp HP HQ s a s' trace Hs Hrun. eapply HQ, Hp; [|exact Hrun]. auto.
Qed.

Lemma hoare_ret {A} (P : State → Prop) (a : A) :
  hoare P (mret a) (λ r s, r = a ∧ P s).
Proof. intros s r s' trace Hs [= <- <- _]. done. Qed.

Lemma hoare_perform (P : State → Prop) (Q : Z → State → Prop) a :
  (∀ s v s', P s → access a s = Reply v s' → Q v s') →
  hoare P (perform a) Q.
Proof.
  intros Ha s v s' trace Hs. cbn.
  destruct (access a s) as [v' s1| |] eqn:Haccess; [|done..].
  intros [= <- <- _]. by eapply Ha.
Qed.

Lemma hoare_DCHECK (P : State → Prop) c :
  hoare P (DCHECK c) (λ _ s, P s ∧ c = true).
Proof. intros s [] s' trace Hs. destruct c; [|done]. by intros [= <- _]. Qed.

Lemma claimed_freelist_invariant head s :
  claimed head s → freelist_invariant s.
Proof. intros (Hfits & _ & nodes & Hfrom & _). split; [done | by exists nodes]. Qed.

Lemma hoare_TryAllocateEntryFromFreelist head :
  hoare freelist_invariant (TryAllocateEntryFromFreelist head)
    (λ success s,
       if success : bool then claimed head s else freelist_invariant s).
Proof.
  intros s success s' trace [Hfits (nodes & Hfrom)].
  rewrite run_TryAllocateEntryFromFreelist.
  destruct (Z.eqb_spec head 0) as [|Hnz]; [done |].
  destruct (Z.ltb_spec head (capacity s)) as [Hlt|]; [|done]. cbn [negb andb].
  destruct (entry_at (buffer_ s) head) as [entry|] eqn:Hentry; [|done].
  cbn zeta.
  destruct (Z.eqb_spec (freelist_head_ s) head) as [Hhead|Hhead].
  - destruct (IsFreelistEntry entry); [|done]. intros [= <- <- _].
    pose proof (entry_at_Some _ _ _ Hentry) as Hrange.
    pose proof (freelist_from_NoDup _ _ _ Hfrom) as Hnodup.
    rewrite Hhead in Hfrom.
    inversion Hfrom as [Hzero|head' e tail _ He _ _ Hrest]; [lia |].
    subst. rewrite Hentry in He. injection He as <-.
    split; [done |]. split; [unfold capacity in *; cbn; lia |].
    exists tail. cbn.
    split; [done |]. by apply NoDup_cons in Hnodup as [Hnotin _].
  - intros [= <- <- _]. split; [done | by exists nodes].
Qed.

Lemma hoare_allocate_loop fuel :
  hoare freelist_invariant (allocate_loop fuel) claimed.
Proof.
  induction fuel as [|fuel IH]; [done |].
  change (allocate_loop (S fuel)) with
    (freelist_head ← perform Load_freelist_head;
      freelist_head ←
        (if freelist_head =? 0 then
           perform Lock_mutex;;
           freelist_head ← perform Load_freelist_head;
           freelist_head ←
             (if freelist_head =? 0 then perform Grow
              else mret freelist_head);
           perform Unlock_mutex;;
           mret freelist_head
         else mret freelist_head);
      success ← TryAllocateEntryFromFreelist freelist_head;
      if success : bool then mret freelist_head else allocate_loop fuel).
  assert (∀ held s, freelist_invariant s →
            freelist_invariant (set_mutex s held)) as Hmutex
    by (by intros held s [Hfits Hfrom]).
  eapply hoare_bind with (Q' := λ _ s, freelist_invariant s).
  { apply hoare_perform. by intros s v s' Hs [= _ <-]. }
  intros head0.
  eapply hoare_bind with (Q' := λ _ s, freelist_invariant s).
  { destruct (head0 =? 0).
    - eapply hoare_bind with (Q' := λ _ s, freelist_invariant s).
      { apply hoare_perform. intros s v s' Hs. cbn.
        destruct (mutex_ s); [done |]. intros [= _ <-]. by apply Hmutex. }
      intros _.
      eapply hoare_bind with (Q' := λ _ s, freelist_invariant s).
      { apply hoare_perform. by intros s v s' Hs [= _ <-]. }
      intros head1.
      eapply hoare_bind with (Q' := λ _ s, freelist_invariant s).
      { destruct (head1 =? 0).
        - apply hoare_perform. intros s v s' _ Hgrow.
          by apply grow_invariant in Hgrow as [Hinv _].
        - eapply hoare_weaken; [apply hoare_ret | done |].
          by intros a s [_ Hs]. }
      intros head2.
      eapply hoare_bind with (Q' := λ _ s, freelist_invariant s).
      { apply hoare_perform. intros s v s' Hs [= _ <-]. by apply Hmutex. }
      intros _. eapply hoare_weaken; [apply hoare_ret | done |].
      by intros a s [_ Hs].
    - eapply hoare_weaken; [apply hoare_ret | done |].
      by intros a s [_ Hs]. }
  intros head.
  eapply hoare_bind; [apply hoare_TryAllocateEntryFromFreelist |].
  intros [|].
  - eapply hoare_weaken; [apply hoare_ret | done |].
    by intros a s [-> Hs].
  - exact IH.
Qed.

Lemma hoare_AllocateAndInitializeEntry fuel initial_value tag :
  hoare freelist_invariant
    (AllocateAndInitializeEntry fuel initial_value tag)
    (λ _ s, freelist_invariant s).
Proof.
  unfold AllocateAndInitializeEntry.
  eapply hoare_bind; [apply hoare_allocate_loop |]. intros head.
  eapply hoare_bind with (Q' := λ _ s, freelist_invariant s).
  - apply hoare_perform.
    intros s v s' (Hfits & Hhead & nodes & Hfrom & Hnotin). cbn.
    destruct (entry_at (buffer_ s) head); [|done]. intros [= _ <-].
    split.
    + unfold table_fits, capacity in *. cbn. by rewrite length_insert.
    + exists nodes. cbn. apply freelist_from_insert; [lia | done..].
  - intros _. eapply hoare_weaken; [apply hoare_ret | done |].
    by intros a s [_ Hs].
Qed.

Lemma hoare_AllocateEvacuationEntry fuel start_of_evacuation_area :
  hoare freelist_invariant
    (AllocateEvacuationEntry fuel start_of_evacuation_area)
    (λ _ s, freelist_invariant s).
Proof.
  induction fuel as [|fuel IH]; [done |].
  change (AllocateEvacuationEntry (S fuel) start_of_evacuation_area) with
    (freelist_head ← perform Load_freelist_head;
     if (freelist_head =? 0) || (start_of_evacuation_area <=? freelist_head)
     then mret kNullExternalPointerHandle
     else
       success ← TryAllocateEntryFromFreelist freelist_head;
       if success : bool then mret (IndexToHandle freelist_head)
       else AllocateEvacuationEntry fuel start_of_evacuation_area).
  eapply hoare_bind with (Q' := λ _ s, freelist_invariant s).
  { apply hoare_perform. by intros s v s' Hs [= _ <-]. }
  intros head. destruct ((head =? 0) || _).
  - eapply hoare_weaken; [apply hoare_ret | done |].
    by intros a s [_ Hs].
  - eapply hoare_bind; [apply hoare_TryAllocateEntryFromFreelist |].
    intros [|]; [|exact IH].
    eapply hoare_weaken; [apply hoare_ret | done |].
    intros a s [_ Hs]. by eapply claimed_freelist_invariant.
Qed.

Lemma hoare_perform_ops fuel ops :
  hoare freelist_invariant (perform_ops fuel ops)
    (λ _ s, freelist_invariant s).
Proof.
  induction ops as [|op ops IH]; cbn [perform_ops].
  - eapply hoare_weaken; [apply hoare_ret | done |].
    by intros a s [_ Hs].
  - eapply hoare_bind with (Q' := λ _ s, freelist_invariant s);
      [|intros _; exact IH].
    destruct op as [initial_value tag|start|index]; cbn [perform_op];
      (eapply hoare_bind with (Q' := λ _ s, freelist_invariant s);
       [|intros _; eapply hoare_weaken; [apply hoare_ret | done |];
         by intros a s [_ Hs]]).
    + apply hoare_AllocateAndInitializeEntry.
    + apply hoare_AllocateEvacuationEntry.
    + apply hoare_perform. intros s v s' Hs Hreclaim.
      by eapply reclaim_invariant.
Qed.

(** ** Allocations return *)

Lemma run_TryAllocateEntryFromFreelist_head s nodes :
  freelist_from (buffer_ s) (freelist_head_ s) nodes →
  freelist_head_ s ≠ 0 →
  ∃ s' trace,
    run (TryAllocateEntryFromFreelist (freelist_head_ s)) s
    = Done true s' trace
    ∧ is_Some (entry_at (buffer_ s') (freelist_head_ s)).
Proof.
  intros Hfrom Hnz. rewrite run_TryAllocateEntryFromFreelist.
  inversion Hfrom as [Hzero|head entry tail _ Hentry Hfree _ _]; [done |].
  pose proof (entry_at_Some _ _ _ Hentry) as Hrange.
  rewrite Hentry, Z.eqb_refl, Hfree.
  rewrite (proj2 (Z.eqb_neq _ _) Hnz).
  rewrite (proj2 (Z.ltb_lt _ _)) by (unfold capacity; lia).
  eexists _, _. split; [done |]. cbn. by rewrite Hentry.
Qed.

Lemma run_allocate_loop_returns fuel s :
  freelist_invariant s →
  mutex_ s = false →
  (freelist_head_ s = 0 →
   capacity s + kEntriesPerBlock ≤ kMaxExternalPointers) →
  ∃ head s' trace,
    run (allocate_loop (S fuel)) s = Done head s' trace
    ∧ is_Some (entry_at (buffer_ s') head).
Proof.
  intros [Hfits (nodes & Hfrom)] Hmutex Hroom.
  change (allocate_loop (S fuel)) with
    (freelist_head ← perform Load_freelist_head;
      freelist_head ←
        (if freelist_head =? 0 then
           perform Lock_mutex;;
           freelist_head ← perform Load_freelist_head;
           freelist_head ←
             (if freelist_head =? 0 then perform Grow
              else mret freelist_head);
           perform Unlock_mutex;;
           mret freelist_head
         else mret freelist_head);
      success ← TryAllocateEntryFromFreelist freelist_head;
      if success : bool then mret freelist_head else allocate_loop fuel).
  cbn [perform mbind prog_mbind prog_bind run access].
  destruct (Z.eqb_spec (freelist_head_ s) 0) as [Hzero|Hnz].
  - specialize (Hroom Hzero).
    cbn [perform mbind prog_mbind prog_bind run access mret prog_mret].
    rewrite Hmutex.
    cbn [perform mbind prog_mbind prog_bind run access mret prog_mret
         freelist_head_ set_mutex].
    rewrite Hzero.
    cbn [Z.eqb perform mbind prog_mbind prog_bind run access mret
         prog_mret].
    destruct (grow (set_mutex s true)) as [start s1| |] eqn:Hgrow.
    2,3: unfold grow in Hgrow; cbn in Hgrow; rewrite Hzero in Hgrow;
         cbn in Hgrow;
         destruct (Z.ltb_spec kMaxExternalPointers
                     (capacity (set_mutex s true) + kEntriesPerBlock));
         [unfold capacity in *; cbn in *; lia | done].
    destruct (grow_invariant _ _ _ Hgrow)
      as ([_ (grown & Hgrown)] & -> & Hstart).
    cbn [perform mbind prog_mbind prog_bind run access mret prog_mret].
    change (prog_bind ?f ?p) with (p ≫= f).
    rewrite run_bind.
    destruct (run_TryAllocateEntryFromFreelist_head
                (set_mutex s1 false) grown)
      as (s2 & trace2 & Hclaim & Hentry); [done.. |].
    cbn [freelist_head_ set_mutex] in Hclaim. rewrite Hclaim.
    cbn. eexists _, _, _. split; [done | exact Hentry].
  - cbn [perform mbind prog_mbind prog_bind run access mret prog_mret].
    change (prog_bind ?f ?p) with (p ≫= f).
    rewrite run_bind.
    destruct (run_TryAllocateEntryFromFreelist_head s nodes)
      as (s2 & trace2 & Hclaim & Hentry); [done.. |].
    rewrite Hclaim. cbn. eexists _, _, _. split; [done | exact Hentry].
Qed.

Lemma run_AllocateAndInitializeEntry_returns fuel s initial_value tag :
  freelist_invariant s →
  mutex_ s = false →
  (freelist_head_ s = 0 →
   capacity s + kEntriesPerBlock ≤ kMaxExternalPointers) →
  ∃ handle s' trace,
    run (AllocateAndInitializeEntry (S fuel) initial_value tag) s
    = Done handle s' trace.
Proof.
  intros Hs Hmutex Hroom.
  destruct (run_allocate_loop_returns fuel s Hs Hmutex Hroom)
    as (head & s1 & trace1 & Hloop & [old Hold]).
  unfold AllocateAndInitializeEntry. rewrite run_bind, Hloop. cbn.
  rewrite Hold. by eexists _, _, _.
Qed.

(** ** FreelistSize *)

Lemma run_FreelistSize_empty fuel s :
  freelist_head_ s = 0 →
  run (FreelistSize (S fuel)) s = Done 0 s [(Load_freelist_head, 0)].
Proof. intros Hhead. cbn. by rewrite Hhead. Qed.

Lemma run_FreelistSize_head fuel s entry :
  freelist_head_ s ≠ 0 →
  entry_at (buffer_ s) (freelist_head_ s) = Some entry →
  IsFreelistEntry entry = true →
  ExtractFreelistSize entry ≤ capacity s →
  run (FreelistSize (S fuel)) s
  = Done (ExtractFreelistSize entry) s
      [(Load_freelist_head, freelist_head_ s);
       (RelaxedLoad (freelist_head_ s), entry);
       (Load_capacity, capacity s)].
Proof.
  intros Hhead Hentry Hfree Hsize. cbn.
  rewrite (proj2 (Z.eqb_neq _ _) Hhead). cbn. rewrite Hentry. cbn.
  rewrite Hfree. cbn. by rewrite (proj2 (Z.leb_le _ _) Hsize).
Qed.

Lemma run_FreelistSize_invariant fuel s nodes :
  freelist_from (buffer_ s) (freelist_head_ s) nodes →
  ∃ trace,
    run (FreelistSize (S fuel)) s = Done (Z.of_nat (length nodes)) s trace.
Proof.
  intros Hfrom. pose proof (freelist_from_length _ _ _ Hfrom) as Hlength.
  inversion Hfrom as [Hhead|head entry tail Hnz Hentry Hfree Hsize Hrest].
  - eexists. by apply run_FreelistSize_empty.
  - subst. eexists. cbn [length] in *. rewrite <- Hsize.
    apply run_FreelistSize_head; [done.. |].
    rewrite Hsize. unfold capacity. lia.
Qed.

(** C8.  [FreelistSize] returns 0 when the head is zero and otherwise the
    size recorded in the head entry.  In every state reached from a
    well-formed freelist by allocations and frees, that is the number of
    entries one passes when following next-pointers from the head to the
    terminator. *)
Theorem FreelistSize_counts_reachable_entries :
  (∀ fuel s,
     freelist_head_ s = 0 →
     run (FreelistSize (S fuel)) s = Done 0 s [(Load_freelist_head, 0)])
  ∧ (∀ fuel s entry,
       freelist_head_ s ≠ 0 →
       entry_at (buffer_ s) (freelist_head_ s) = Some entry →
       IsFreelistEntry entry = true →
       ExtractFreelistSize entry ≤ capacity s →
       run (FreelistSize (S fuel)) s
       = Done (ExtractFreelistSize entry) s
           [(Load_freelist_head, freelist_head_ s);
            (RelaxedLoad (freelist_head_ s), entry);
            (Load_capacity, capacity s)])
  ∧ (∀ fuel ops s s' trace,
       freelist_invariant s →
       run (perform_ops fuel ops) s = Done tt s' trace →
       ∃ count trace',
         reachable_free_entries s' = Some count
         ∧ run (FreelistSize 1) s' = Done (Z.of_nat count) s' trace').
Proof.
  split; [exact run_FreelistSize_empty |].
  split; [exact run_FreelistSize_head |].
  intros fuel ops s s' trace Hs Hrun.
  destruct (hoare_perform_ops fuel ops _ _ _ _ Hs Hrun)
    as [_ (nodes & Hfrom)].
  destruct (run_FreelistSize_invariant 0 _ _ Hfrom) as [trace' Hsize].
  exists (length nodes), trace'.
  split; [by apply reachable_free_entries_from | done].
Qed.

(** ** Evacuation on an ordered freelist *)

(** On an ordered freelist no node lies below the head. *)
Lemma freelist_from_ascending buffer head nodes :
  freelist_from buffer head nodes →
  (∀ j entry,
     j ∈ nodes → entry_at buffer j = Some entry →
     ExtractNextFreelistEntry entry = 0
     ∨ j < ExtractNextFreelistEntry entry) →
  ∀ j, j ∈ nodes → head ≤ j.
Proof.
  induction 1 as [|head entry nodes Hnz Hentry Hfree Hsize Hrest IH];
    intros Hlinks j Hin; [by apply elem_of_nil in Hin |].
  apply elem_of_cons in Hin as [->|Hin]; [lia |].
  assert (ExtractNextFreelistEntry entry ≤ j) as Hnext.
  { apply IH; [|done]. intros j' entry' Hin'. apply Hlinks. by right. }
  destruct (Hlinks head entry) as [Hend|Hup];
    [apply list_elem_of_here | done | | lia].
  rewrite Hend in Hrest. inversion Hrest; subst; [|done].
  by apply elem_of_nil in Hin.
Qed.

(** C6.  When the entry of the handle lies in the evacuation area and an
    entry below the boundary is free, the freelist being ordered by index,
    [Mark] returns and leaves an evacuation entry that records the location
    of the handle at an index below the boundary, the lowest free one; the
    handle's own entry stays regular and is marked. *)
Theorem Mark_evacuates_when_some_entry_is_free
    fuel s handle handle_location old_entry :
  heap_ s !! handle_location = Some handle →
  Z.land handle_location kExternalPointerTagMask = 0 →
  start_of_evacuation_area_ s ≤ HandleToIndex handle →
  start_of_evacuation_area_ s ≠ kNotCompactingMarker →
  table_fits s →
  freelist_ordered s →
  free_entry_below s (start_of_evacuation_area_ s) →
  entry_at (buffer_ s) (HandleToIndex handle) = Some old_entry →
  IsRegularEntry old_entry = true →
  pointer_tag (tag_when_marked old_entry) →
  ∃ s' trace,
    run (Mark (S fuel) handle handle_location) s = Done tt s' trace
    ∧ evacuated_below s' (start_of_evacuation_area_ s) handle_location
    ∧ entry_at (buffer_ s') (freelist_head_ s)
      = Some (MakeEvacuationEntry handle_location)
    ∧ 0 < freelist_head_ s < start_of_evacuation_area_ s
    ∧ entry_at (buffer_ s') (HandleToIndex handle)
      = Some (SetMarkBit old_entry)
    ∧ IsRegularEntry (SetMarkBit old_entry) = true
    ∧ IsMarked (SetMarkBit old_entry) = true.
Proof.
  intros Hslot Hloc Habove Hcompacting Hfits (nodes & Hfrom & Hordered)
    (j & free_entry & Hj & Hfree_entry & Hfree) Hold Hregular Htag.
  destruct (Hordered j free_entry) as [Hin _]; [lia | done.. |].
  assert (freelist_head_ s ≤ j) as Hlowest.
  { apply (freelist_from_ascending _ _ _ Hfrom); [|done].
    intros j' entry' Hin' Hentry'.
    pose proof (freelist_from_bounds _ _ _ Hfrom) as Hbounds.
    rewrite Forall_forall in Hbounds. specialize (Hbounds _ Hin').
    pose proof (freelist_from_sizes _ _ _ Hfrom) as Hsizes.
    rewrite Forall_forall in Hsizes.
    destruct (Hsizes _ Hin') as (entry'' & Hentry'' & Hfree'' & _).
    rewrite Hentry' in Hentry''. injection Hentry'' as <-.
    destruct (Hordered j' entry') as [_ ?]; [lia | done..]. }
  destruct nodes as [|head tail]; [by apply elem_of_nil in Hin |].
  inversion Hfrom as [|head' entry tail' Hnz Hentry Hfree_head _ _ Hhead].
  pose proof (entry_at_Some _ _ _ Hentry) as Hhead_range.
  destruct (Mark_evacuates_to_freelist_head
              fuel s handle handle_location old_entry entry)
    as (s' & trace & Hrun & _ & Hat & Hevacuated & Hmarked & Hstays & Hbit);
    [first [done | lia].. |].
  exists s', trace. split; [done |]. split; [done |]. split; [done |].
  split; [lia |]. done.
Qed.

End Properties.

(* ================================================================== *)
(** * Further properties of the methods *)

Section Behaviour.
Context `{L : Layout}.

(** ** What a run of the evacuating part of [Mark] comes to *)

Lemma run_AllocateEvacuationEntry fuel boundary s :
  run (AllocateEvacuationEntry (S fuel) boundary) s =
  if (freelist_head_ s =? 0) || (boundary <=? freelist_head_ s) then
    Done kNullExternalPointerHandle s [(Load_freelist_head, freelist_head_ s)]
  else
    match entry_at (buffer_ s) (freelist_head_ s) with
    | Some entry =>
        if IsFreelistEntry entry then
          Done (IndexToHandle (freelist_head_ s))
            (set_freelist_head s (ExtractNextFreelistEntry entry))
            [(Load_freelist_head, freelist_head_ s);
             (Load_capacity, capacity s);
             (RelaxedLoad (freelist_head_ s), entry);
             (CompareAndSwap_freelist_head (freelist_head_ s)
                (ExtractNextFreelistEntry entry), freelist_head_ s)]
        else Aborted
    | None => Aborted
    end.
Proof.
  destruct ((freelist_head_ s =? 0) || (boundary <=? freelist_head_ s))
    eqn:Hrefuse.
  { apply run_AllocateEvacuationEntry_refuses.
    apply orb_true_iff in Hrefuse as [?|?]; [left | right]; lia. }
  apply orb_false_iff in Hrefuse as [Hnz Hbelow].
  destruct (entry_at (buffer_ s) (freelist_head_ s)) as [entry|] eqn:Hentry.
  - destruct (IsFreelistEntry entry) eqn:Hfree.
    + apply entry_at_Some in Hentry as Hrange.
      apply run_AllocateEvacuationEntry_claims; [lia | done..].
    + change (AllocateEvacuationEntry (S fuel) boundary) with
        (freelist_head ← perform Load_freelist_head;
         if (freelist_head =? 0) || (boundary <=? freelist_head)
         then mret kNullExternalPointerHandle
         else
           success ← TryAllocateEntryFromFreelist freelist_head;
           if success : bool then mret (IndexToHandle freelist_head)
           else AllocateEvacuationEntry fuel boundary).
      cbn [perform mbind prog_mbind prog_bind run access].
      rewrite Hnz, Hbelow. cbn [orb].
      change (prog_bind ?f ?p) with (p ≫= f).
      rewrite run_bind, run_TryAllocateEntryFromFreelist, Hentry.
      cbn zeta. rewrite Z.eqb_refl, Hfree.
      by destruct (negb _ && _).
  - change (AllocateEvacuationEntry (S fuel) boundary) with
      (freelist_head ← perform Load_freelist_head;
       if (freelist_head =? 0) || (boundary <=? freelist_head)
       then mret kNullExternalPointerHandle
       else
         success ← TryAllocateEntryFromFreelist freelist_head;
         if success : bool then mret (IndexToHandle freelist_head)
         else AllocateEvacuationEntry fuel boundary).
    cbn [perform mbind prog_mbind prog_bind run access].
    rewrite Hnz, Hbelow. cbn [orb].
    change (prog_bind ?f ?p) with (p ≫= f).
    rewrite run_bind, run_TryAllocateEntryFromFreelist, Hentry.
    by destruct (negb _ && _).
Qed.

(** The three ways in which the evacuating part of [Mark] returns. *)
Lemma run_evacuate_returns fuel s handle handle_location index s1 trace :
  table_fits s →
  run (evacuate fuel handle handle_location index) s = Done tt s1 trace →
  index < start_of_evacuation_area_ s
  ∨ (start_of_evacuation_area_ s ≤ index
     ∧ start_of_evacuation_area_ s ≠ kNotCompactingMarker
     ∧ (freelist_head_ s = 0
        ∨ start_of_evacuation_area_ s ≤ freelist_head_ s)
     ∧ ∃ fuel', fuel = S fuel')
  ∨ (start_of_evacuation_area_ s ≤ index
     ∧ start_of_evacuation_area_ s ≠ kNotCompactingMarker
     ∧ 0 < freelist_head_ s < start_of_evacuation_area_ s
     ∧ (∃ entry, entry_at (buffer_ s) (freelist_head_ s) = Some entry
                 ∧ IsFreelistEntry entry = true)
     ∧ is_Some (heap_ s !! handle_location)
     ∧ ∃ fuel', fuel = S fuel').
Proof.
  intros Hfits.
  destruct (Z.lt_ge_cases index (start_of_evacuation_area_ s))
    as [Hbelow|Habove]; [by left |].
  intros Hrun. right. revert Hrun. unfold evacuate.
  cbn -[AllocateEvacuationEntry].
  rewrite (proj2 (Z.leb_le _ _) Habove).
  cbn -[AllocateEvacuationEntry].
  destruct (Z.eqb_spec (start_of_evacuation_area_ s) kNotCompactingMarker)
    as [|Hcompacting]; [done |].
  cbn -[AllocateEvacuationEntry].
  change (prog_bind ?f ?p) with (p ≫= f).
  rewrite run_bind.
  destruct fuel as [|fuel']; [done |].
  rewrite run_AllocateEvacuationEntry.
  destruct ((freelist_head_ s =? 0) || _) eqn:Hrefuse.
  { intros _. left. split_and!; [done.. | | by eexists].
    apply orb_true_iff in Hrefuse as [?|?]; [left | right]; lia. }
  apply orb_false_iff in Hrefuse as [Hnz Hhead].
  destruct (entry_at (buffer_ s) (freelist_head_ s)) as [entry|] eqn:Hentry;
    [|done].
  destruct (IsFreelistEntry entry) eqn:Hfree; [|done].
  apply entry_at_Some in Hentry as Hrange.
  assert (0 < freelist_head_ s < kMaxExternalPointers) as Hmax
    by (unfold table_fits, capacity in Hfits; lia).
  rewrite (proj2 (Z.eqb_neq _ _) (IndexToHandle_nonzero _ Hmax)).
  rewrite HandleToIndex_IndexToHandle by lia.
  cbn.
  destruct (freelist_head_ s <? start_of_evacuation_area_ s) eqn:Hlt;
    [|done].
  cbn. rewrite Hentry. cbn.
  destruct (heap_ s !! handle_location) as [slot|] eqn:Hslot; [|done].
  intros _. right. split_and!; [done | done | lia | lia | by eexists | done
                                | by eexists].
Qed.

(** The entry that [Mark] is called for is left alone by the evacuating
    part. *)
Lemma run_evacuate_entry fuel s handle handle_location index s1 trace :
  table_fits s →
  run (evacuate fuel handle handle_location index) s = Done tt s1 trace →
  entry_at (buffer_ s1) index = entry_at (buffer_ s) index
  ∧ table_fits s1.
Proof.
  intros Hfits Hrun.
  destruct (run_evacuate_returns _ _ _ _ _ _ _ Hfits Hrun)
    as [Hbelow|[(Habove & Hcompacting & Hhead & fuel' & ->)
               |(Habove & Hcompacting & Hhead & (entry & Hentry & Hfree)
                 & [slot Hslot] & fuel' & ->)]].
  - rewrite run_evacuate_not_needed in Hrun by done.
    by injection Hrun as <- _.
  - rewrite run_evacuate_aborts in Hrun by done.
    by injection Hrun as <- _.
  - rewrite (run_evacuate_claims _ _ _ _ _ entry slot) in Hrun by done.
    injection Hrun as <- _. cbn. split.
    + apply entry_at_insert_ne; lia.
    + unfold table_fits, capacity in *. cbn. by rewrite length_insert.
Qed.

(** Run alone, with fuel for one round, the evacuating part of [Mark] does
    not spin: its attempt to claim an entry succeeds or fails a check. *)
Lemma run_evacuate_not_Diverged fuel s handle handle_location index :
  run (evacuate (S fuel) handle handle_location index) s ≠ Diverged.
Proof.
  unfold evacuate. cbn -[AllocateEvacuationEntry].
  destruct (start_of_evacuation_area_ s <=? index); [|done].
  cbn -[AllocateEvacuationEntry].
  destruct (negb _); [|done].
  cbn -[AllocateEvacuationEntry].
  change (prog_bind ?f ?p) with (p ≫= f).
  rewrite run_bind, run_AllocateEvacuationEntry.
  destruct (_ || _); [by cbn |].
  destruct (entry_at _ _) as [entry|]; [|done].
  destruct (IsFreelistEntry entry); [|done].
  destruct (negb (IndexToHandle (freelist_head_ s) =? _)); cbn; [|done].
  destruct (_ <? _); cbn; [|done].
  destruct (entry_at _ _); cbn; [|done].
  by destruct (_ !! _).
Qed.

(** ** Exchange *)

(** X1.  [Exchange] on an entry that holds a pointer under the given tag
    returns that pointer and leaves the new pointer in the entry, where a
    following [Get] with the same tag finds it. *)
Theorem Exchange_returns_previous_value s handle old_value value tag :
  handle ≠ kNullExternalPointerHandle →
  Z.land old_value kExternalPointerTagMask = 0 →
  Z.land value kExternalPointerTagMask = 0 →
  Z.land tag kExternalPointerMarkBit ≠ 0 →
  pointer_tag tag →
  entry_at (buffer_ s) (HandleToIndex handle)
    = Some (MakeRegularEntry old_value tag) →
  let index := HandleToIndex handle in
  let s' := store_entry s index (MakeRegularEntry value tag) in
  run (Exchange handle value tag) s
  = Done old_value s'
      [(RelaxedExchange index (MakeRegularEntry value tag),
        MakeRegularEntry old_value tag)]
  ∧ run (Get handle tag) s'
    = Done value s' [(RelaxedLoad index, MakeRegularEntry value tag)].
Proof.
  intros Hhandle Hold Hvalue Hmark Htag Hentry index s'.
  pose proof Htag as (Hmask & _).
  pose proof (entry_at_Some _ _ _ Hentry) as Hrange.
  split.
  - rewrite run_Exchange, Hentry.
    rewrite (proj2 (Z.eqb_neq _ _) Hhandle), (proj2 (Z.eqb_eq _ _) Hvalue),
      (proj2 (Z.eqb_neq _ _) Hmark).
    cbn [negb andb].
    by rewrite IsRegularEntry_regular_entry, Untag_regular_entry.
  - rewrite run_Get. subst s'. rewrite buffer_store_entry.
    rewrite entry_at_insert by done.
    by rewrite IsRegularEntry_regular_entry, Untag_regular_entry.
Qed.

(** ** Entries written by the mutator *)

(** X2.  [Set] and [Exchange] return only when the handle is not the null
    handle, the pointer has no tag bits and the tag carries the mark bit;
    the entry they leave is the pointer combined with the tag, and it is
    marked. *)
Theorem mutator_writes_marked_entry
    s handle value tag s' trace old_value :
  run (Set_ handle value tag) s = Done tt s' trace
  ∨ run (Exchange handle value tag) s = Done old_value s' trace →
  handle ≠ kNullExternalPointerHandle
  ∧ Z.land value kExternalPointerTagMask = 0
  ∧ Z.land tag kExternalPointerMarkBit ≠ 0
  ∧ entry_at (buffer_ s') (HandleToIndex handle)
    = Some (MakeRegularEntry value tag)
  ∧ IsMarked (MakeRegularEntry value tag) = true.
Proof.
  intros Hrun.
  assert (handle ≠ kNullExternalPointerHandle
          ∧ Z.land value kExternalPointerTagMask = 0
          ∧ Z.land tag kExternalPointerMarkBit ≠ 0
          ∧ 0 ≤ HandleToIndex handle < Z.of_nat (length (buffer_ s))
          ∧ s' = store_entry s (HandleToIndex handle)
                   (MakeRegularEntry value tag))
    as (Hhandle & Hvalue & Hmark & Hrange & ->).
  { destruct Hrun as [Hrun|Hrun]; revert Hrun;
      [rewrite run_Set | rewrite run_Exchange];
      destruct (Z.eqb_spec handle kNullExternalPointerHandle);
        [done | | done |];
      destruct (Z.eqb_spec (Z.land value kExternalPointerTagMask) 0);
        [|done | |done];
      destruct (Z.eqb_spec (Z.land tag kExternalPointerMarkBit) 0);
        [done | | done |];
      cbn [negb andb];
      destruct (entry_at _ _) as [old_entry|] eqn:Hentry; [|done | |done];
      apply entry_at_Some in Hentry.
    - by intros [= <- _].
    - destruct (IsRegularEntry old_entry); [|done].
      destruct (Untag old_entry tag); [|done]. by intros [= _ <- _]. }
  split_and!; [done.. | |].
  - rewrite buffer_store_entry. by apply entry_at_insert.
  - by apply IsMarked_regular_entry.
Qed.

(** ** Mark, run alone *)

(** A run of [Mark] that returns is a run of its evacuating part followed
    by the marking of the entry, which was regular. *)
Lemma run_Mark_returns fuel s handle handle_location s' trace :
  table_fits s →
  run (Mark fuel handle handle_location) s = Done tt s' trace →
  ∃ s1 trace1 old_entry,
    heap_ s !! handle_location = Some handle
    ∧ run (evacuate fuel handle handle_location (HandleToIndex handle)) s
      = Done tt s1 trace1
    ∧ entry_at (buffer_ s) (HandleToIndex handle) = Some old_entry
    ∧ entry_at (buffer_ s1) (HandleToIndex handle) = Some old_entry
    ∧ IsRegularEntry old_entry = true
    ∧ s' = store_entry s1 (HandleToIndex handle) (SetMarkBit old_entry)
    ∧ trace = (Load_handle handle_location, handle)
              :: trace1 ++
                 [(RelaxedLoad (HandleToIndex handle), old_entry);
                  (RelaxedCompareAndSwap (HandleToIndex handle) old_entry
                     (SetMarkBit old_entry), old_entry)].
Proof.
  intros Hfits. rewrite run_Mark.
  destruct (heap_ s !! handle_location) as [stored|]; [|done].
  destruct (Z.eqb_spec handle stored) as [<-|]; [|done].
  destruct (run (evacuate _ _ _ _) s) as [[] s1 trace1| |] eqn:Hevacuate;
    [|done..].
  destruct (run_evacuate_entry _ _ _ _ _ _ _ Hfits Hevacuate) as [Hsame _].
  rewrite run_mark_alive.
  destruct (entry_at (buffer_ s1) _) as [old_entry|] eqn:Hold; [|done].
  destruct (IsRegularEntry old_entry) eqn:Hregular; [|done].
  intros [= <- <-]. exists s1, trace1, old_entry.
  by rewrite <- Hsame.
Qed.

(** X3.  An entry that is not regular, a freelist or an evacuation entry,
    cannot be used: [Get], [Exchange] and [Mark] on a handle of such an
    entry fail their check. *)
Theorem accessors_abort_on_reserved_entry
    s handle entry tag value fuel handle_location :
  table_fits s →
  entry_at (buffer_ s) (HandleToIndex handle) = Some entry →
  IsRegularEntry entry = false →
  run (Get handle tag) s = Aborted
  ∧ run (Exchange handle value tag) s = Aborted
  ∧ run (Mark (S fuel) handle handle_location) s = Aborted.
Proof.
  intros Hfits Hentry Hreserved. split_and!.
  - by rewrite run_Get, Hentry, Hreserved.
  - rewrite run_Exchange, Hentry, Hreserved. by destruct (_ && _).
  - rewrite run_Mark.
    destruct (heap_ s !! handle_location) as [stored|]; [|done].
    destruct (handle =? stored); [|done].
    destruct (run (evacuate _ _ _ _) s) as [[] s1 trace1| |] eqn:Hevacuate;
      [|done|by apply run_evacuate_not_Diverged in Hevacuate].
    destruct (run_evacuate_entry _ _ _ _ _ _ _ Hfits Hevacuate) as [Hsame _].
    by rewrite run_mark_alive, Hsame, Hentry, Hreserved.
Qed.

Lemma run_Mark_below_evacuation_area
    fuel s handle handle_location old_entry :
  heap_ s !! handle_location = Some handle →
  HandleToIndex handle < start_of_evacuation_area_ s →
  entry_at (buffer_ s) (HandleToIndex handle) = Some old_entry →
  IsRegularEntry old_entry = true →
  run (Mark fuel handle handle_location) s
  = Done tt (store_entry s (HandleToIndex handle) (SetMarkBit old_entry))
      [(Load_handle handle_location, handle);
       (Load_start_of_evacuation_area, start_of_evacuation_area_ s);
       (RelaxedLoad (HandleToIndex handle), old_entry);
       (RelaxedCompareAndSwap (HandleToIndex handle) old_entry
          (SetMarkBit old_entry), old_entry)].
Proof.
  intros Hslot Hbelow Hold Hregular.
  rewrite run_Mark, Hslot, Z.eqb_refl.
  rewrite run_evacuate_not_needed by done.
  by rewrite run_mark_alive, Hold, Hregular.
Qed.

(** X4.  [Mark] on a handle whose index lies below the start of the
    evacuation area sets the mark bit of the entry and does nothing else:
    it needs no fuel, and the freelist, the start of the evacuation area,
    the handle slot and every other entry stay as they are. *)
Theorem Mark_below_evacuation_area
    fuel s handle handle_location old_entry :
  heap_ s !! handle_location = Some handle →
  HandleToIndex handle < start_of_evacuation_area_ s →
  entry_at (buffer_ s) (HandleToIndex handle) = Some old_entry →
  IsRegularEntry old_entry = true →
  let index := HandleToIndex handle in
  let s' := store_entry s index (SetMarkBit old_entry) in
  run (Mark fuel handle handle_location) s
  = Done tt s'
      [(Load_handle handle_location, handle);
       (Load_start_of_evacuation_area, start_of_evacuation_area_ s);
       (RelaxedLoad index, old_entry);
       (RelaxedCompareAndSwap index old_entry (SetMarkBit old_entry),
        old_entry)]
  ∧ only_entry_changed index s s'
  ∧ entry_at (buffer_ s') index = Some (SetMarkBit old_entry).
Proof.
  intros Hslot Hbelow Hold Hregular index s'.
  pose proof (entry_at_Some _ _ _ Hold) as Hrange.
  split_and!.
  - by apply run_Mark_below_evacuation_area.
  - apply store_entry_only_entry_changed. lia.
  - subst s'. rewrite buffer_store_entry. by apply entry_at_insert.
Qed.

(** X5.  While the table is not being compacted, so that [IsCompacting]
    returns false, a [Mark] that returns has changed nothing but the entry
    of its handle, and has neither read nor written the freelist. *)
Theorem Mark_when_not_compacting fuel s handle handle_location s' trace :
  returned (run IsCompacting s) = Some false →
  run (Mark fuel handle handle_location) s = Done tt s' trace →
  only_entry_changed (HandleToIndex handle) s s'
  ∧ Forall (λ ev, ev.1 ≠ Load_freelist_head
                  ∧ ∀ old_head new_head,
                      ev.1 ≠ CompareAndSwap_freelist_head old_head new_head)
      trace.
Proof.
  intros Hidle. cbn in Hidle.
  assert (start_of_evacuation_area_ s = kNotCompactingMarker) as Hstart.
  { destruct (Z.eqb_spec (start_of_evacuation_area_ s) kNotCompactingMarker);
      [done | discriminate]. }
  rewrite run_Mark.
  destruct (heap_ s !! handle_location) as [stored|]; [|done].
  destruct (Z.eqb_spec handle stored) as [<-|]; [|done].
  destruct (Z.lt_ge_cases (HandleToIndex handle)
              (start_of_evacuation_area_ s)) as [Hbelow|Habove].
  - rewrite run_evacuate_not_needed by done.
    rewrite run_mark_alive.
    destruct (entry_at (buffer_ s) _) as [old_entry|] eqn:Hold; [|done].
    destruct (IsRegularEntry old_entry); [|done].
    intros [= <- <-]. apply entry_at_Some in Hold. split.
    + apply store_entry_only_entry_changed. lia.
    + repeat constructor; done.
  - unfold evacuate. cbn -[AllocateEvacuationEntry].
    rewrite (proj2 (Z.leb_le _ _) Habove).
    cbn -[AllocateEvacuationEntry].
    by rewrite (proj2 (Z.eqb_eq _ _) Hstart).
Qed.

Lemma store_entry_same s index entry :
  entry_at (buffer_ s) index = Some entry →
  store_entry s index entry = s.
Proof.
  intros Hentry. unfold entry_at in Hentry.
  destruct (index <? 0); [done |].
  destruct s. unfold store_entry, set_buffer. cbn in *.
  by rewrite list_insert_id.
Qed.

Lemma SetMarkBit_twice entry :
  SetMarkBit (SetMarkBit entry) = SetMarkBit entry.
Proof.
  unfold SetMarkBit. rewrite <- Z.lor_assoc. by rewrite Z.lor_diag.
Qed.

(** An entry whose tag carries the mark bit is its own marked version. *)
Lemma SetMarkBit_tagged entry tag :
  HasTag entry tag = true →
  Z.land tag kExternalPointerMarkBit = kExternalPointerMarkBit →
  SetMarkBit entry = entry.
Proof.
  unfold HasTag, SetMarkBit. intros Htag%Z.eqb_eq Hmark.
  apply Z.bits_inj'. intros n Hn. rewrite Z.lor_spec.
  destruct (Z.testbit kExternalPointerMarkBit n) eqn:Hbit;
    [|by rewrite orb_false_r].
  rewrite orb_true_r.
  assert (Z.testbit tag n = true) as Htagbit.
  { assert (Z.testbit (Z.land tag kExternalPointerMarkBit) n = true)
      as Hboth by (by rewrite Hmark).
    rewrite Z.land_spec in Hboth. by apply andb_true_iff in Hboth as [? _]. }
  rewrite <- Htag, Z.land_spec in Htagbit.
  by apply andb_true_iff in Htagbit as [-> _].
Qed.

(** X6.  Marking is idempotent: on the state that [Mark] of a handle below
    the evacuation area has left, a second [Mark] of the handle changes
    nothing, and the two calls in a row leave that state. *)
Theorem Mark_twice_below_evacuation_area
    fuel s handle handle_location old_entry :
  heap_ s !! handle_location = Some handle →
  HandleToIndex handle < start_of_evacuation_area_ s →
  entry_at (buffer_ s) (HandleToIndex handle) = Some old_entry →
  IsRegularEntry old_entry = true →
  pointer_tag (tag_when_marked old_entry) →
  let index := HandleToIndex handle in
  let marked_entry := SetMarkBit old_entry in
  let s' := store_entry s index marked_entry in
  run (Mark fuel handle handle_location) s'
  = Done tt s'
      [(Load_handle handle_location, handle);
       (Load_start_of_evacuation_area, start_of_evacuation_area_ s);
       (RelaxedLoad index, marked_entry);
       (RelaxedCompareAndSwap index marked_entry marked_entry,
        marked_entry)]
  ∧ final_state
      (run (Mark fuel handle handle_location;;
            Mark fuel handle handle_location) s)
    = Some s'.
Proof.
  intros Hslot Hbelow Hold Hregular Htag index marked_entry s'.
  pose proof (entry_at_Some _ _ _ Hold) as Hrange.
  assert (entry_at (buffer_ s') index = Some marked_entry) as Hmarked.
  { subst s'. rewrite buffer_store_entry. by apply entry_at_insert. }
  assert (run (Mark fuel handle handle_location) s'
          = Done tt s'
              [(Load_handle handle_location, handle);
               (Load_start_of_evacuation_area, start_of_evacuation_area_ s);
               (RelaxedLoad index, marked_entry);
               (RelaxedCompareAndSwap index marked_entry marked_entry,
                marked_entry)]) as Hsecond.
  { rewrite (run_Mark_below_evacuation_area _ s' _ _ marked_entry);
      [|done | done | done | by apply IsRegularEntry_SetMarkBit].
    subst marked_entry. rewrite SetMarkBit_twice.
    by rewrite (store_entry_same s') by done. }
  split; [done |].
  rewrite run_bind.
  rewrite (run_Mark_below_evacuation_area _ s _ _ old_entry) by done.
  fold index marked_entry s'. by rewrite Hsecond.
Qed.

(** X7.  Marking does not disturb the pointer: when the tag carries the
    mark bit, [Get] returns after [Mark] what it returned before, whether
    or not [Mark] evacuated the entry or aborted the compaction. *)
Theorem Mark_preserves_Get
    fuel s handle handle_location tag value s0 trace0 s' trace :
  table_fits s →
  Z.land tag kExternalPointerMarkBit = kExternalPointerMarkBit →
  run (Get handle tag) s = Done value s0 trace0 →
  run (Mark fuel handle handle_location) s = Done tt s' trace →
  run (Get handle tag) s' = Done value s' trace0.
Proof.
  intros Hfits Htag Hget Hmark.
  destruct (run_Mark_returns _ _ _ _ _ _ Hfits Hmark)
    as (s1 & trace1 & old_entry & _ & _ & Hold & Hold1 & Hregular & -> & _).
  pose proof (entry_at_Some _ _ _ Hold1) as Hrange.
  revert Hget. rewrite !run_Get, Hold, Hregular, buffer_store_entry.
  rewrite entry_at_insert by done.
  unfold Untag.
  destruct (HasTag old_entry tag) eqn:Hhas; [|done].
  rewrite (SetMarkBit_tagged old_entry tag) by done.
  rewrite Hregular, Hhas. by intros [= <- _ <-].
Qed.

(** X8.  In a debug build [Mark] leaves a trace in the handle slot when it
    evacuates an entry: the slot then holds the handle with the visited
    marker, and a second [Mark] of the same slot with the same handle
    fails its first check. *)
Theorem Mark_detects_second_visit
    fuel later_fuel s handle handle_location s' trace :
  table_fits s →
  Z.lor handle kVisitedHandleMarker ≠ handle →
  run (Mark fuel handle handle_location) s = Done tt s' trace →
  Exists (λ ev, is_Store ev.1 = true) trace →
  heap_ s' !! handle_location = Some (Z.lor handle kVisitedHandleMarker)
  ∧ run (Mark later_fuel handle handle_location) s' = Aborted.
Proof.
  intros Hfits Hvisited Hmark Hstore.
  destruct (run_Mark_returns _ _ _ _ _ _ Hfits Hmark)
    as (s1 & trace1 & old_entry & Hslot & Hevacuate & Hold & Hold1
        & Hregular & -> & ->).
  assert (heap_ s1 !! handle_location
          = Some (Z.lor handle kVisitedHandleMarker)) as Hslot1.
  { apply Exists_cons in Hstore as [Hstore|Hstore]; [done |].
    apply Exists_app in Hstore as [Hstore|Hstore].
    2: { repeat (apply Exists_cons in Hstore as [Hstore|Hstore];
                 [done |]). by apply Exists_nil in Hstore. }
    destruct (run_evacuate_returns _ _ _ _ _ _ _ Hfits Hevacuate)
      as [Hbelow|[(Habove & Hcompacting & Hhead & fuel' & ->)
                 |(Habove & Hcompacting & Hhead & (entry & Hentry & Hfree)
                   & [slot Hslot'] & fuel' & ->)]].
    - rewrite run_evacuate_not_needed in Hevacuate by done.
      injection Hevacuate as _ <-.
      apply Exists_cons in Hstore as [Hstore|Hstore]; [done |].
      by apply Exists_nil in Hstore.
    - rewrite run_evacuate_aborts in Hevacuate by done.
      injection Hevacuate as _ <-.
      repeat (apply Exists_cons in Hstore as [Hstore|Hstore]; [done |]).
      by apply Exists_nil in Hstore.
    - rewrite (run_evacuate_claims _ _ _ _ _ entry slot) in Hevacuate
        by done.
      injection Hevacuate as <- _. cbn. by rewrite lookup_insert_eq. }
  split; [done |].
  rewrite run_Mark. cbn [heap_ store_entry set_buffer]. rewrite Hslot1.
  by rewrite (proj2 (Z.eqb_neq _ _)) by done.
Qed.

(** A regular entry is not a node of the freelist. *)
Lemma regular_entry_not_free buffer head nodes index entry :
  freelist_from buffer head nodes →
  entry_at buffer index = Some entry →
  IsRegularEntry entry = true →
  index ∉ nodes.
Proof.
  intros Hfrom Hentry Hregular Hin.
  pose proof (freelist_from_sizes _ _ _ Hfrom) as Hsizes.
  rewrite Forall_forall in Hsizes.
  destruct (Hsizes _ Hin) as (entry' & Hentry' & Hfree & _).
  rewrite Hentry in Hentry'. injection Hentry' as <-.
  unfold IsRegularEntry in Hregular. by rewrite Hfree in Hregular.
Qed.

(** X9.  [Mark] keeps the freelist well-formed.  When it evacuates the
    entry it takes the head node off the freelist, which lay below the
    evacuation area and now holds the evacuation entry; otherwise the
    freelist is the same list of nodes as before.  [FreelistSize] returns
    the length of the list that remains. *)
Theorem Mark_keeps_freelist
    fuel s handle handle_location nodes s' trace :
  table_fits s →
  freelist_from (buffer_ s) (freelist_head_ s) nodes →
  run (Mark fuel handle handle_location) s = Done tt s' trace →
  table_fits s'
  ∧ ∃ nodes' trace',
      freelist_from (buffer_ s') (freelist_head_ s') nodes'
      ∧ run (FreelistSize 1) s'
        = Done (Z.of_nat (length nodes')) s' trace'
      ∧ ((Forall (λ ev, is_Store ev.1 = false) trace
          ∧ freelist_head_ s' = freelist_head_ s
          ∧ nodes' = nodes)
         ∨ (Exists (λ ev, is_Store ev.1 = true) trace
            ∧ freelist_head_ s < start_of_evacuation_area_ s
              ≤ HandleToIndex handle
            ∧ entry_at (buffer_ s') (freelist_head_ s)
              = Some (MakeEvacuationEntry handle_location)
            ∧ nodes = freelist_head_ s :: nodes')).
Proof.
  intros Hfits Hfrom Hmark.
  destruct (run_Mark_returns _ _ _ _ _ _ Hfits Hmark)
    as (s1 & trace1 & old_entry & Hslot & Hevacuate & Hold & Hold1
        & Hregular & -> & ->).
  pose proof (entry_at_Some _ _ _ Hold) as Hrange.
  pose proof (regular_entry_not_free _ _ _ _ _ Hfrom Hold Hregular)
    as Hnotin.
  destruct (run_evacuate_entry _ _ _ _ _ _ _ Hfits Hevacuate) as [_ Hfits1].
  assert (table_fits
            (store_entry s1 (HandleToIndex handle) (SetMarkBit old_entry)))
    as Hfits'.
  { unfold table_fits, capacity in *. cbn. by rewrite length_insert. }
  split; [done |].
  assert (∀ nodes',
            freelist_from (buffer_ s1) (freelist_head_ s1) nodes' →
            HandleToIndex handle ∉ nodes' →
            freelist_from
              (buffer_ (store_entry s1 (HandleToIndex handle)
                          (SetMarkBit old_entry)))
              (freelist_head_
                 (store_entry s1 (HandleToIndex handle)
                    (SetMarkBit old_entry))) nodes'
            ∧ ∃ trace',
                run (FreelistSize 1)
                  (store_entry s1 (HandleToIndex handle)
                     (SetMarkBit old_entry))
                = Done (Z.of_nat (length nodes'))
                    (store_entry s1 (HandleToIndex handle)
                       (SetMarkBit old_entry)) trace') as Hkept.
  { intros nodes' Hfrom' Hnotin'.
    assert (freelist_from
              (buffer_ (store_entry s1 (HandleToIndex handle)
                          (SetMarkBit old_entry)))
              (freelist_head_
                 (store_entry s1 (HandleToIndex handle)
                    (SetMarkBit old_entry))) nodes') as Hfrom''.
    { cbn. apply freelist_from_insert; [lia | done..]. }
    split; [done |]. by apply run_FreelistSize_invariant. }
  destruct (run_evacuate_returns _ _ _ _ _ _ _ Hfits Hevacuate)
    as [Hbelow|[(Habove & Hcompacting & Hhead & fuel' & ->)
               |(Habove & Hcompacting & Hhead & (entry & Hentry & Hfree)
                 & [slot Hslot'] & fuel' & ->)]].
  - rewrite run_evacuate_not_needed in Hevacuate by done.
    injection Hevacuate as <- <-.
    destruct (Hkept nodes) as [Hfrom' [trace' Hsize]]; [done.. |].
    exists nodes, trace'. split_and!; [done.. |]. left.
    split_and!; [|done..]. repeat constructor.
  - rewrite run_evacuate_aborts in Hevacuate by done.
    injection Hevacuate as <- <-.
    destruct (Hkept nodes) as [Hfrom' [trace' Hsize]]; [done.. |].
    exists nodes, trace'. split_and!; [done.. |]. left.
    split_and!; [|done..]. repeat constructor.
  - rewrite (run_evacuate_claims _ _ _ _ _ entry slot) in Hevacuate by done.
    injection Hevacuate as <- <-.
    pose proof (freelist_from_NoDup _ _ _ Hfrom) as Hnodup.
    inversion Hfrom as [Hzero|head entry' tail _ Hentry' _ _ Hrest];
      [lia |].
    subst. rewrite Hentry in Hentry'. injection Hentry' as <-.
    apply NoDup_cons in Hnodup as [Hhead_notin _].
    apply not_elem_of_cons in Hnotin as [Hne Hnotin].
    destruct (Hkept tail) as [Hfrom' [trace' Hsize]]; [|done |].
    { cbn. apply freelist_from_insert; [lia | done..]. }
    exists tail, trace'. split_and!; [done.. |]. right.
    split_and!; [|lia | lia | |done].
    + do 7 apply Exists_cons_tl. by apply Exists_cons_hd.
    + cbn. rewrite entry_at_insert_ne by (done || lia).
      apply entry_at_insert. apply entry_at_Some in Hentry. lia.
Qed.

(** ** Allocation, run alone *)

Lemma allocate_loop_unfold fuel :
  allocate_loop (S fuel) =
  (freelist_head ← perform Load_freelist_head;
   freelist_head ←
     (if freelist_head =? 0 then
        perform Lock_mutex;;
        freelist_head ← perform Load_freelist_head;
        freelist_head ←
          (if freelist_head =? 0 then perform Grow
           else mret freelist_head);
        perform Unlock_mutex;;
        mret freelist_head
      else mret freelist_head);
   success ← TryAllocateEntryFromFreelist freelist_head;
   if success : bool then mret freelist_head else allocate_loop fuel).
Proof. reflexivity. Qed.

(** With a node on the freelist the loop takes it, in one round. *)
Lemma run_allocate_loop_head fuel s entry :
  freelist_head_ s ≠ 0 →
  entry_at (buffer_ s) (freelist_head_ s) = Some entry →
  IsFreelistEntry entry = true →
  run (allocate_loop (S fuel)) s
  = Done (freelist_head_ s)
      (set_freelist_head s (ExtractNextFreelistEntry entry))
      [(Load_freelist_head, freelist_head_ s);
       (Load_capacity, capacity s);
       (RelaxedLoad (freelist_head_ s), entry);
       (CompareAndSwap_freelist_head (freelist_head_ s)
          (ExtractNextFreelistEntry entry), freelist_head_ s)].
Proof.
  intros Hnz Hentry Hfree.
  pose proof (entry_at_Some _ _ _ Hentry) as Hrange.
  rewrite allocate_loop_unfold.
  cbn [perform mbind prog_mbind prog_bind run access].
  rewrite (proj2 (Z.eqb_neq _ _) Hnz).
  cbn [perform mbind prog_mbind prog_bind run access mret prog_mret].
  change (prog_bind ?f ?p) with (p ≫= f).
  rewrite run_bind, run_TryAllocateEntryFromFreelist, Hentry.
  rewrite (proj2 (Z.eqb_neq _ _) Hnz).
  rewrite (proj2 (Z.ltb_lt _ _)) by (unfold capacity; lia).
  cbn zeta. cbn [negb andb]. by rewrite Z.eqb_refl, Hfree.
Qed.

Lemma length_grow_block old_capacity :
  Z.of_nat (length (grow_block old_capacity)) = kEntriesPerBlock.
Proof.
  unfold grow_block. rewrite length_fmap, length_seqZ.
  pose proof entries_per_block_range. lia.
Qed.

(** With the freelist empty the loop takes the mutex, grows the table by
    one block and takes the first entry of the block. *)
Lemma run_allocate_loop_grows fuel s :
  freelist_head_ s = 0 →
  mutex_ s = false →
  capacity s + kEntriesPerBlock ≤ kMaxExternalPointers →
  let new_capacity := capacity s + kEntriesPerBlock in
  let start := Z.max (capacity s) 1 in
  let next := if start + 1 <? new_capacity then start + 1 else 0 in
  let first := MakeFreelistEntry next (new_capacity - start) in
  run (allocate_loop (S fuel)) s
  = Done start
      (mkState (buffer_ s ++ grow_block (capacity s)) next
         (start_of_evacuation_area_ s) false (heap_ s))
      [(Load_freelist_head, 0); (Lock_mutex, 0); (Load_freelist_head, 0);
       (Grow, start); (Unlock_mutex, 0); (Load_capacity, new_capacity);
       (RelaxedLoad start, first);
       (CompareAndSwap_freelist_head start next, start)].
Proof.
  intros Hzero Hmutex Hroom new_capacity start next first.
  pose proof entries_per_block_range as Hblock.
  pose proof kMaxExternalPointers_le_field as Hfield.
  assert (0 ≤ capacity s) as Hcap by (unfold capacity; lia).
  assert (0 ≤ next < 2 ^ kFreelistFieldBits) as Hnext.
  { subst next. destruct (Z.ltb_spec (start + 1) new_capacity); lia. }
  assert (entry_at (buffer_ s ++ grow_block (capacity s)) start
          = Some first) as Hfirst.
  { apply (entry_at_grown (buffer_ s) start); fold (capacity s); lia. }
  rewrite allocate_loop_unfold.
  cbn [perform mbind prog_mbind prog_bind run access].
  rewrite Hzero.
  cbn [Z.eqb perform mbind prog_mbind prog_bind run access mret prog_mret].
  rewrite Hmutex.
  cbn [perform mbind prog_mbind prog_bind run access mret prog_mret
       freelist_head_ set_mutex].
  rewrite Hzero.
  cbn [Z.eqb perform mbind prog_mbind prog_bind run access mret prog_mret].
  unfold grow. cbn [freelist_head_ set_mutex]. rewrite Hzero.
  cbn [Z.eqb negb].
  change (capacity (set_mutex s true)) with (capacity s).
  rewrite (proj2 (Z.ltb_ge _ _)) by lia.
  cbn [perform mbind prog_mbind prog_bind run access mret prog_mret].
  change (prog_bind ?f ?p) with (p ≫= f).
  rewrite run_bind, run_TryAllocateEntryFromFreelist.
  cbn [buffer_ freelist_head_ set_mutex set_freelist_head set_buffer
       start_of_evacuation_area_ mutex_ heap_].
  fold start. rewrite Hfirst.
  assert (capacity
            (set_mutex
               (set_freelist_head
                  (set_buffer (set_mutex s true)
                     (buffer_ s ++ grow_block (capacity s))) start) false)
          = new_capacity) as ->.
  { unfold capacity. cbn. rewrite length_app, Nat2Z.inj_add.
    by rewrite length_grow_block. }
  rewrite (proj2 (Z.eqb_neq start 0)) by lia.
  rewrite (proj2 (Z.ltb_lt start new_capacity)) by lia.
  cbn zeta. cbn [negb andb]. rewrite Z.eqb_refl.
  subst first.
  rewrite IsFreelistEntry_MakeFreelistEntry by lia.
  rewrite ExtractNextFreelistEntry_MakeFreelistEntry by lia.
  done.
Qed.

(** Once the loop has claimed an entry, the entry is initialised and its
    handle returned. *)
Lemma run_AllocateAndInitializeEntry_claimed
    fuel s initial_value tag head s1 trace1 old_entry :
  run (allocate_loop fuel) s = Done head s1 trace1 →
  entry_at (buffer_ s1) head = Some old_entry →
  run (AllocateAndInitializeEntry fuel initial_value tag) s
  = Done (IndexToHandle head)
      (store_entry s1 head (MakeRegularEntry initial_value tag))
      (trace1 ++
       [(RelaxedStore head (MakeRegularEntry initial_value tag), 0)]).
Proof.
  intros Hloop Hold. unfold AllocateAndInitializeEntry.
  rewrite run_bind, Hloop. cbn. by rewrite Hold.
Qed.

(** X10.  Run alone on a well-formed freelist, [AllocateAndInitializeEntry]
    returns in one round of its loop.  The handle is not null; its entry
    is the head of the freelist, or the first entry of a new block when the
    freelist was empty, and only then does the table grow.  [Get] with the
    tag of the allocation finds the initial value.  The other entries that
    existed, the start of the evacuation area and the heap are untouched,
    the mutex is free again, and the freelist is well-formed without the
    entry. *)
Theorem AllocateAndInitializeEntry_returns_fresh_entry
    fuel s nodes initial_value tag :
  table_fits s →
  freelist_from (buffer_ s) (freelist_head_ s) nodes →
  mutex_ s = false →
  (freelist_head_ s = 0 →
   capacity s + kEntriesPerBlock ≤ kMaxExternalPointers) →
  Z.land initial_value kExternalPointerTagMask = 0 →
  pointer_tag tag →
  ∃ handle s' trace nodes',
    run (AllocateAndInitializeEntry (S fuel) initial_value tag) s
      = Done handle s' trace
    ∧ handle ≠ kNullExternalPointerHandle
    ∧ HandleToIndex handle
      = (if freelist_head_ s =? 0 then Z.max (capacity s) 1
         else freelist_head_ s)
    ∧ (Exists (λ ev, is_Grow ev.1 = true) trace ↔ freelist_head_ s = 0)
    ∧ run (Get handle tag) s'
      = Done initial_value s'
          [(RelaxedLoad (HandleToIndex handle),
            MakeRegularEntry initial_value tag)]
    ∧ (∀ other, other ≠ HandleToIndex handle → other < capacity s →
         entry_at (buffer_ s') other = entry_at (buffer_ s) other)
    ∧ start_of_evacuation_area_ s' = start_of_evacuation_area_ s
    ∧ heap_ s' = heap_ s
    ∧ mutex_ s' = false
    ∧ table_fits s'
    ∧ freelist_from (buffer_ s') (freelist_head_ s') nodes'
    ∧ (HandleToIndex handle ∉ nodes')
    ∧ (freelist_head_ s ≠ 0 → nodes = HandleToIndex handle :: nodes').
Proof.
  intros Hfits Hfrom Hmutex Hroom Hvalue Htag.
  pose proof Htag as (Hmask & _).
  pose proof entries_per_block_range as Hblock.
  assert (0 ≤ capacity s) as Hcap by (unfold capacity; lia).
  destruct (Z.eqb_spec (freelist_head_ s) 0) as [Hzero|Hnz].
  - specialize (Hroom Hzero).
    pose proof (run_allocate_loop_grows fuel s Hzero Hmutex Hroom) as Hloop.
    cbn zeta in Hloop. revert Hloop.
    set (new_capacity := capacity s + kEntriesPerBlock).
    set (start := Z.max (capacity s) 1).
    set (next := if start + 1 <? new_capacity then start + 1 else 0).
    assert (0 < start < kMaxExternalPointers) as Hstart by lia.
    assert (Z.of_nat (length (buffer_ s ++ grow_block (capacity s)))
            = new_capacity) as Hlength.
    { rewrite length_app, Nat2Z.inj_add. by rewrite length_grow_block. }
    assert (is_Some (entry_at (buffer_ s ++ grow_block (capacity s)) start))
      as [old Hold] by (apply entry_at_is_Some; lia).
    intros Hloop.
    eexists _, _, _, (seqZ (start + 1) (new_capacity - (start + 1))).
    split; [by apply (run_AllocateAndInitializeEntry_claimed _ _ _ _ _ _ _
                        old Hloop) |].
    rewrite HandleToIndex_IndexToHandle by lia.
    split_and!.
    + by apply IndexToHandle_nonzero.
    + done.
    + split; [done |]. intros _.
      do 3 apply Exists_cons_tl. by apply Exists_cons_hd.
    + rewrite run_Get, HandleToIndex_IndexToHandle by lia. cbn.
      rewrite entry_at_insert by lia.
      by rewrite IsRegularEntry_regular_entry, Untag_regular_entry.
    + intros other Hother Hold_entry. cbn.
      rewrite entry_at_insert_ne by lia.
      apply entry_at_app_l. by fold (capacity s).
    + done.
    + done.
    + done.
    + unfold table_fits. unfold capacity at 1.
      cbn [buffer_ store_entry set_buffer].
      rewrite length_insert, Hlength. lia.
    + cbn. apply freelist_from_insert; [lia | |].
      * rewrite elem_of_seqZ. lia.
      * pose proof (freelist_from_grown (buffer_ s)
                      (Z.to_nat (new_capacity - (start + 1))) (start + 1))
          as Hgrown.
        cbn zeta in Hgrown. fold (capacity s) in Hgrown.
        fold new_capacity in Hgrown. apply Hgrown; lia.
    + rewrite elem_of_seqZ. lia.
    + done.
  - inversion Hfrom as [Hhead|head entry tail _ Hentry Hfree _ Hrest];
      [done |].
    subst head nodes.
    pose proof (entry_at_Some _ _ _ Hentry) as Hrange.
    pose proof (freelist_from_NoDup _ _ _ Hfrom) as Hnodup.
    apply NoDup_cons in Hnodup as [Hnotin _].
    assert (0 < freelist_head_ s < kMaxExternalPointers) as Hhead
      by (unfold table_fits, capacity in Hfits; lia).
    pose proof (run_allocate_loop_head fuel s entry Hnz Hentry Hfree)
      as Hloop.
    eexists _, _, _, tail.
    split; [by apply (run_AllocateAndInitializeEntry_claimed _ _ _ _ _ _ _
                        entry Hloop) |].
    rewrite HandleToIndex_IndexToHandle by lia.
    split_and!.
    + by apply IndexToHandle_nonzero.
    + done.
    + split; [|done]. intros Hgrow.
      repeat (apply Exists_cons in Hgrow as [Hgrow|Hgrow]; [done |]).
      by apply Exists_nil in Hgrow.
    + rewrite run_Get, HandleToIndex_IndexToHandle by lia. cbn.
      rewrite entry_at_insert by lia.
      by rewrite IsRegularEntry_regular_entry, Untag_regular_entry.
    + intros other Hother _. cbn. apply entry_at_insert_ne; lia.
    + done.
    + done.
    + done.
    + unfold table_fits, capacity in *. cbn. by rewrite length_insert.
    + cbn. apply freelist_from_insert; [lia | done..].
    + done.
    + done.
Qed.

(** ** Allocation by several threads *)

Lemma rest_of_allocation_step initial_value tag point a k :
  rest_of_allocation initial_value tag point = Do a k →
  next_access initial_value tag point = Some a
  ∧ ∀ value,
      k value = rest_of_allocation initial_value tag (next_point point value).
Proof.
  destruct point
    as [[|fuel]|fuel|fuel|fuel|fuel head|fuel head|fuel head table_capacity
       |fuel head entry|head|head|]; cbn; try discriminate.
  - intros [= <- <-]. split; [done |]. intros value.
    by destruct (value =? 0).
  - intros [= <- <-]. by split.
  - intros [= <- <-]. split; [done |]. intros value.
    by destruct (value =? 0).
  - intros [= <- <-]. by split.
  - intros [= <- <-]. by split.
  - unfold TryAllocateEntryFromFreelist.
    destruct (head =? 0); cbn; [discriminate |].
    intros [= <- <-]. by split.
  - unfold claim_after_capacity.
    destruct (head <? table_capacity); cbn; [|discriminate].
    intros [= <- <-]. by split.
  - intros [= <- <-]. split; [done |]. intros value.
    destruct (value =? head); cbn; [|done].
    by destruct (IsFreelistEntry entry).
  - intros [= <- <-]. by split.
Qed.

Lemma rest_of_allocation_returned initial_value tag point handle :
  rest_of_allocation initial_value tag point = Ret handle →
  ∃ head, point = At_returned head ∧ handle = IndexToHandle head.
Proof.
  destruct point
    as [[|fuel]|fuel|fuel|fuel|fuel head|fuel head|fuel head table_capacity
       |fuel head entry|head|head|]; cbn; try discriminate.
  - unfold TryAllocateEntryFromFreelist. by destruct (head =? 0).
  - unfold claim_after_capacity. by destruct (head <? table_capacity).
  - intros [= <-]. by exists head.
Qed.

(** The mutex part of the invariant after a step of thread [i]. *)
Lemma mutex_update allocators s i c point' s' :
  allocators_invariant allocators s →
  allocators !! i = Some c →
  (holds_mutex point' = holds_mutex c.2 → mutex_ s' = mutex_ s) →
  (holds_mutex c.2 = false → holds_mutex point' = true →
   mutex_ s = false ∧ mutex_ s' = true) →
  (holds_mutex c.2 = true → holds_mutex point' = false →
   mutex_ s' = false) →
  (mutex_ s' = true ↔
   holds_mutex point' = true
   ∨ ∃ j cj, j ≠ i ∧ allocators !! j = Some cj ∧ holds_mutex cj.2 = true)
  ∧ (∀ j cj, j ≠ i → allocators !! j = Some cj →
       holds_mutex cj.2 = true → holds_mutex point' = false).
Proof.
  intros (_ & nodes & _ & _ & _ & _ & Hmutex & Hunique) Hi Hsame Hlock
    Hunlock.
  assert (∀ j cj, j ≠ i → allocators !! j = Some cj →
            holds_mutex cj.2 = true →
            mutex_ s = true ∧ holds_mutex c.2 = false) as Hother.
  { intros j cj Hj Hcj Hholds. split.
    - apply Hmutex. by exists j, cj.
    - destruct (holds_mutex c.2) eqn:Hc; [|done].
      by destruct Hj; apply (Hunique j i cj c). }
  split.
  - destruct (holds_mutex point') eqn:Hpoint', (holds_mutex c.2) eqn:Hc.
    + rewrite Hsame by done. split; [by left |]. intros _.
      apply Hmutex. by exists i, c.
    + destruct Hlock as [_ ->]; [done.. |]. split; [by left | done].
    + rewrite Hunlock by done. split; [done |].
      intros [|(j & cj & Hj & Hcj & Hholds)]; [done |].
      destruct (Hother j cj) as [_ ?]; done.
    + rewrite Hsame by done. rewrite Hmutex. split.
      * intros (j & cj & Hcj & Hholds). right. exists j, cj.
        split; [|done]. intros ->. rewrite Hi in Hcj.
        injection Hcj as <-. by rewrite Hc in Hholds.
      * intros [|(j & cj & Hj & Hcj & Hholds)]; [done |]. by exists j, cj.
  - intros j cj Hj Hcj Hholds.
    destruct (Hother j cj) as [Hheld Hc]; [done.. |].
    destruct (holds_mutex point') eqn:Hpoint'; [|done].
    destruct Hlock as [Hfree _]; [done.. |]. by rewrite Hfree in Hheld.
Qed.

(** The invariant after a step of thread [i], from what holds of the other
    threads and of thread [i] in the new state. *)
Lemma allocators_invariant_update allocators s i c c' s' nodes' :
  allocators_invariant allocators s →
  allocators !! i = Some c →
  table_fits s' →
  freelist_from (buffer_ s') (freelist_head_ s') nodes' →
  (∀ j cj, j ≠ i → allocators !! j = Some cj →
     point_consistent s' nodes' cj
     ∧ (∀ head, owned_entry cj.2 = Some head →
          0 < head < capacity s' ∧ (head ∉ nodes')
          ∧ owned_entry c'.2 ≠ Some head)) →
  point_consistent s' nodes' c' →
  (∀ head, owned_entry c'.2 = Some head →
     0 < head < capacity s' ∧ head ∉ nodes') →
  (holds_mutex c'.2 = holds_mutex c.2 → mutex_ s' = mutex_ s) →
  (holds_mutex c.2 = false → holds_mutex c'.2 = true →
   mutex_ s = false ∧ mutex_ s' = true) →
  (holds_mutex c.2 = true → holds_mutex c'.2 = false →
   mutex_ s' = false) →
  allocators_invariant (<[i := c']> allocators) s'.
Proof.
  intros Hinv Hi Hfits Hfrom Hothers Hpoint Hown Hsame Hlock Hunlock.
  destruct (mutex_update _ _ _ _ c'.2 s' Hinv Hi Hsame Hlock Hunlock)
    as [Hmutex' Hexclusive].
  destruct Hinv as (_ & nodes & _ & Hinjective & _ & _ & _ & Hunique).
  pose proof (lookup_lt_Some _ _ _ Hi) as Hlt.
  assert (∀ j cj, <[i := c']> allocators !! j = Some cj →
            (j = i ∧ cj = c') ∨ (j ≠ i ∧ allocators !! j = Some cj))
    as Hlookup.
  { intros j cj Hj. destruct (decide (j = i)) as [->|Hne].
    - rewrite list_lookup_insert_eq in Hj by done. left.
      by injection Hj as <-.
    - rewrite list_lookup_insert_ne in Hj by done. by right. }
  split; [done |]. exists nodes'. split_and!.
  - done.
  - intros j k cj ck head Hj Hk Hownj Hownk.
    destruct (Hlookup _ _ Hj) as [[-> ->]|[Hjne Hj']],
      (Hlookup _ _ Hk) as [[-> ->]|[Hkne Hk']]; [done | | |].
    + destruct (Hothers k ck Hkne Hk') as [_ Hk_own].
      by destruct (Hk_own head Hownk) as (_ & _ & []).
    + destruct (Hothers j cj Hjne Hj') as [_ Hj_own].
      by destruct (Hj_own head Hownj) as (_ & _ & []).
    + by apply (Hinjective j k cj ck head).
  - intros j cj head Hj Hownj.
    destruct (Hlookup _ _ Hj) as [[-> ->]|[Hjne Hj']]; [by apply Hown |].
    destruct (Hothers j cj Hjne Hj') as [_ Hj_own].
    by destruct (Hj_own head Hownj) as (? & ? & _).
  - intros j cj Hj.
    destruct (Hlookup _ _ Hj) as [[-> ->]|[Hjne Hj']]; [done |].
    by destruct (Hothers j cj Hjne Hj') as [? _].
  - rewrite Hmutex'. split.
    + intros [Hholds|(j & cj & Hj & Hcj & Hholds)].
      * exists i, c'. by rewrite list_lookup_insert_eq.
      * exists j, cj. by rewrite list_lookup_insert_ne.
    + intros (j & cj & Hj & Hholds).
      destruct (Hlookup _ _ Hj) as [[-> ->]|[Hjne Hj']]; [by left |].
      right. by exists j, cj.
  - intros j k cj ck Hj Hk Hholdj Hholdk.
    destruct (Hlookup _ _ Hj) as [[-> ->]|[Hjne Hj']],
      (Hlookup _ _ Hk) as [[-> ->]|[Hkne Hk']]; [done | | |].
    + by rewrite (Hexclusive k ck) in Hholdj.
    + by rewrite (Hexclusive j cj) in Hholdk.
    + by apply (Hunique j k cj ck).
Qed.

(** The list of nodes of the freelist is determined by the table. *)
Lemma freelist_from_unique buffer head nodes nodes' :
  freelist_from buffer head nodes →
  freelist_from buffer head nodes' →
  nodes = nodes'.
Proof.
  intros Hfrom. revert nodes'.
  induction Hfrom as [|head entry tail Hnz Hentry Hfree Hsize Hrest IH];
    intros nodes' Hfrom';
    inversion Hfrom' as [Hzero|head' entry' tail' Hnz' Hentry' _ _ Hrest'];
    subst; try done.
  rewrite Hentry in Hentry'. injection Hentry' as <-.
  f_equal. by apply IH.
Qed.

Lemma point_consistent_same_table s s' nodes c :
  buffer_ s' = buffer_ s →
  freelist_head_ s' = freelist_head_ s →
  point_consistent s nodes c →
  point_consistent s' nodes c.
Proof.
  unfold point_consistent, capacity. intros -> ->. done.
Qed.

(** What holds of the threads other than [i] after a step of thread [i]
    that leaves the entries they know about alone. *)
Lemma others_frame allocators s nodes i c point' s' nodes' :
  allocators_invariant allocators s →
  freelist_from (buffer_ s) (freelist_head_ s) nodes →
  allocators !! i = Some c →
  capacity s ≤ capacity s' →
  (∀ head, 0 < head < capacity s → head ∈ nodes' →
     head ∈ nodes
     ∧ entry_at (buffer_ s') head = entry_at (buffer_ s) head) →
  (∀ j cj head, j ≠ i → allocators !! j = Some cj →
     owned_entry cj.2 = Some head →
     entry_at (buffer_ s') head = entry_at (buffer_ s) head) →
  (∀ j cj fuel, j ≠ i → allocators !! j = Some cj →
     cj.2 = At_grow fuel → freelist_head_ s' = 0) →
  (∀ head, owned_entry point' = Some head →
     owned_entry c.2 = Some head ∨ head ∈ nodes) →
  ∀ j cj, j ≠ i → allocators !! j = Some cj →
    point_consistent s' nodes' cj
    ∧ (∀ head, owned_entry cj.2 = Some head →
         0 < head < capacity s' ∧ (head ∉ nodes')
         ∧ owned_entry point' ≠ Some head).
Proof.
  intros (_ & nodes0 & Hfrom0 & Hinjective & Hown & Hpoints & _) Hfrom Hi
    Hcapacity Hnodes Hentries Hgrow Hpoint' j cj Hj Hcj.
  assert (nodes0 = nodes) as -> by (by eapply freelist_from_unique).
  pose proof (Hpoints _ _ Hcj) as Hpoint.
  split.
  - unfold point_consistent in *.
    destruct cj.2 as [fuel|fuel|fuel|fuel|fuel head|fuel head
                     |fuel head table_capacity|fuel head entry|head|head|]
      eqn:Hcj2; try done.
    + by apply (Hgrow j cj fuel).
    + lia.
    + lia.
    + lia.
    + destruct Hpoint as [Hrange Hentry]. split; [lia |].
      intros Hin. destruct (Hnodes head) as [Hin' ->]; [done.. |].
      by apply Hentry.
    + rewrite (Hentries j cj head); [done.. |]. by rewrite Hcj2.
  - intros head Hhead.
    destruct (Hown _ _ _ Hcj Hhead) as [Hrange Hnotin].
    split; [lia |]. split.
    + intros Hin. by destruct (Hnodes head) as [? _].
    + intros Hhead'. destruct (Hpoint' _ Hhead') as [Hc|Hin]; [|done].
      by destruct Hj; apply (Hinjective j i cj c head).
Qed.

(** The invariant is kept by every step of every thread. *)
Lemma allocators_invariant_step
    allocators s i initial_value tag point a value s' :
  allocators_invariant allocators s →
  allocators !! i = Some (initial_value, tag, point) →
  next_access initial_value tag point = Some a →
  access a s = Reply value s' →
  allocators_invariant
    (<[i := (initial_value, tag, next_point point value)]> allocators) s'.
Proof.
  intros Hinv Hi Hnext Haccess.
  pose proof Hinv
    as (Hfits & nodes & Hfrom & Hinjective & Hown & Hpoints & Hmutex
        & Hunique).
  pose proof (Hpoints _ _ Hi) as Hpoint.
  unfold point_consistent in Hpoint. cbn [fst snd] in Hpoint.
  pose proof (freelist_from_bounds _ _ _ Hfrom) as Hbounds.
  rewrite Forall_forall in Hbounds.
  pose proof (freelist_from_entries _ _ _ Hfrom) as Hhead.
  assert (∀ point',
            buffer_ s' = buffer_ s →
            freelist_head_ s' = freelist_head_ s →
            owned_entry point' = None →
            point_consistent s nodes (initial_value, tag, point') →
            (holds_mutex point' = holds_mutex point →
             mutex_ s' = mutex_ s) →
            (holds_mutex point = false → holds_mutex point' = true →
             mutex_ s = false ∧ mutex_ s' = true) →
            (holds_mutex point = true → holds_mutex point' = false →
             mutex_ s' = false) →
            allocators_invariant
              (<[i := (initial_value, tag, point')]> allocators) s')
    as Hquiet.
  { intros point' Hbuffer Hhead' Hnone Hpoint' Hsame Hlock Hunlock.
    apply (allocators_invariant_update _ s _ _ _ _ nodes Hinv Hi);
      [| | |by apply (point_consistent_same_table s)
       |cbn; by rewrite Hnone |done..].
    - unfold table_fits, capacity. by rewrite Hbuffer.
    - by rewrite Hbuffer, Hhead'.
    - apply (others_frame _ s nodes _ _ point' _ _ Hinv Hfrom Hi).
      + unfold capacity. rewrite Hbuffer. lia.
      + intros head _ Hin. by rewrite Hbuffer.
      + intros. by rewrite Hbuffer.
      + intros j cj fuel Hj Hcj Hgrow. rewrite Hhead'.
        pose proof (Hpoints _ _ Hcj) as Hc. unfold point_consistent in Hc.
        by rewrite Hgrow in Hc.
      + intros head. by rewrite Hnone. }
  destruct point
    as [[|fuel]|fuel|fuel|fuel|fuel head|fuel head|fuel head table_capacity
       |fuel head entry|head|head|]; cbn in Hnext; try discriminate.
  - (* the head is loaded *)
    injection Hnext as <-. injection Haccess as <- <-.
    cbn [next_point].
    destruct (Z.eqb_spec (freelist_head_ s) 0) as [Hzero|Hnz];
      apply Hquiet; try done.
    destruct Hhead as [[? _]|Hin]; [done |].
    unfold point_consistent, capacity. cbn. by apply Hbounds.
  - (* the mutex is taken *)
    injection Hnext as <-. cbn in Haccess.
    destruct (mutex_ s) eqn:Hfree; [done |]. injection Haccess as <- <-.
    apply Hquiet; done.
  - (* the head is loaded again *)
    injection Hnext as <-. injection Haccess as <- <-.
    cbn [next_point].
    destruct (Z.eqb_spec (freelist_head_ s) 0) as [Hzero|Hnz];
      apply Hquiet; try done.
    destruct Hhead as [[? _]|Hin]; [done |].
    unfold point_consistent, capacity. cbn. by apply Hbounds.
  - (* the table grows *)
    injection Hnext as <-. cbn in Haccess. unfold grow in Haccess.
    rewrite Hpoint in Haccess. cbn [Z.eqb negb] in Haccess.
    destruct (Z.ltb_spec kMaxExternalPointers
                (capacity s + kEntriesPerBlock)) as [|Hroom]; [done |].
    injection Haccess as <- <-.
    pose proof entries_per_block_range as Hblock.
    assert (0 ≤ capacity s) as Hcap by (unfold capacity; lia).
    set (new_capacity := capacity s + kEntriesPerBlock).
    set (start := Z.max (capacity s) 1).
    assert (capacity
              (set_freelist_head
                 (set_buffer s (buffer_ s ++ grow_block (capacity s)))
                 start) = new_capacity) as Hlength.
    { unfold capacity at 1. cbn. rewrite length_app, Nat2Z.inj_add.
      by rewrite length_grow_block. }
    cbn [next_point].
    apply (allocators_invariant_update _ s _ _ _ _
             (seqZ start (new_capacity - start)) Hinv Hi).
    + unfold table_fits. rewrite Hlength. lia.
    + pose proof (freelist_from_grown (buffer_ s)
                    (Z.to_nat (new_capacity - start)) start) as Hgrown.
      cbn zeta in Hgrown. fold (capacity s) in Hgrown.
      fold new_capacity in Hgrown.
      rewrite (proj2 (Z.ltb_lt start new_capacity)) in Hgrown by lia.
      apply Hgrown; lia.
    + apply (others_frame _ s nodes _ _ _ _ _ Hinv Hfrom Hi).
      * rewrite Hlength. lia.
      * intros head Hrange Hin. apply elem_of_seqZ in Hin. lia.
      * intros j cj head Hj Hcj Hhead'. cbn.
        apply entry_at_app_l. fold (capacity s).
        destruct (Hown _ _ _ Hcj Hhead'). lia.
      * intros j cj fuel' Hj Hcj Hgrow.
        destruct Hj. apply (Hunique j i cj _ Hcj Hi); [|done].
        by rewrite Hgrow.
      * done.
    + unfold point_consistent. cbn [fst snd]. rewrite Hlength. lia.
    + done.
    + done.
    + done.
    + done.
  - (* the mutex is released *)
    injection Hnext as <-. injection Haccess as <- <-.
    apply Hquiet; done.
  - (* the capacity is loaded *)
    destruct (head =? 0); [done |].
    injection Hnext as <-. injection Haccess as <- <-.
    apply Hquiet; done.
  - (* the entry at the head is loaded *)
    destruct (head <? table_capacity); [|done].
    injection Hnext as <-. cbn in Haccess.
    destruct (entry_at (buffer_ s) head) as [entry|] eqn:Hentry; [|done].
    injection Haccess as <- <-.
    apply Hquiet; try done.
    unfold point_consistent. cbn. split; [lia | done].
  - (* the head is swapped *)
    injection Hnext as <-. cbn in Haccess. cbn [next_point].
    destruct Hpoint as [Hrange Hentry].
    destruct (Z.eqb_spec (freelist_head_ s) head) as [Hsame|Hmoved].
    + injection Haccess as <- <-. rewrite Hsame, Z.eqb_refl.
      destruct Hhead as [[? _]|Hin]; [lia |].
      rewrite Hsame in Hin. specialize (Hentry Hin).
      pose proof (freelist_from_NoDup _ _ _ Hfrom) as Hnodup.
      inversion Hfrom as [Hzero|head' entry' tail _ Hentry' Hfree _ Hrest];
        [lia |].
      subst head' nodes. rewrite Hsame, Hentry in Hentry'.
      injection Hentry' as <-. rewrite Hfree.
      apply NoDup_cons in Hnodup as [Hnotin _].
      apply (allocators_invariant_update _ s _ _ _ _ tail Hinv Hi);
        [done |done | |done | |done..].
      * apply (others_frame _ s (freelist_head_ s :: tail) _ _ _ _ _ Hinv
                 Hfrom Hi); [done | | done | |].
        -- intros head' _ Hin'. split; [by right | done].
        -- intros j cj fuel' Hj Hcj Hgrow.
           pose proof (Hpoints _ _ Hcj) as Hc.
           unfold point_consistent in Hc. rewrite Hgrow in Hc. lia.
        -- intros head' [= <-]. right. rewrite Hsame. by left.
      * intros head' [= <-]. split; [done |]. by rewrite <- Hsame.
    + injection Haccess as <- <-.
      rewrite (proj2 (Z.eqb_neq _ _) Hmoved).
      apply Hquiet; done.
  - (* the entry is initialised *)
    injection Hnext as <-. cbn in Haccess.
    destruct (entry_at (buffer_ s) head) as [old_entry|] eqn:Hold; [|done].
    injection Haccess as <- <-.
    destruct (Hown _ _ head Hi) as [Hrange Hnotin]; [done |].
    cbn [next_point].
    apply (allocators_invariant_update _ s _ _ _ _ nodes Hinv Hi).
    + unfold table_fits, capacity in *. cbn. by rewrite length_insert.
    + cbn. apply freelist_from_insert; [lia | done..].
    + apply (others_frame _ s nodes _ _ _ _ _ Hinv Hfrom Hi).
      * unfold capacity. cbn. rewrite length_insert. lia.
      * intros head' _ Hin. split; [done |]. cbn.
        apply entry_at_insert_ne; [lia |]. by intros ->.
      * intros j cj head' Hj Hcj Hhead'. cbn.
        apply entry_at_insert_ne; [lia |]. intros ->.
        by destruct Hj; apply (Hinjective j i cj _ head' Hcj Hi).
      * intros j cj fuel' Hj Hcj Hgrow.
        pose proof (Hpoints _ _ Hcj) as Hc.
        unfold point_consistent in Hc. by rewrite Hgrow in Hc.
      * intros head' [= <-]. by left.
    + unfold point_consistent. cbn.
      apply entry_at_insert. unfold capacity in Hrange. lia.
    + intros head' [= <-]. split; [|done].
      unfold capacity in *. cbn. rewrite length_insert. lia.
    + done.
    + done.
    + done.
Qed.

(** The invariant holds throughout every interleaving. *)
Lemma interleave_allocators schedule allocators s threads' s' :
  allocators_invariant allocators s →
  interleave schedule (allocator_prog <$> allocators) s
    = Some (threads', s') →
  ∃ allocators',
    threads' = allocator_prog <$> allocators'
    ∧ allocators'.*1 = allocators.*1
    ∧ allocators_invariant allocators' s'.
Proof.
  revert allocators s.
  induction schedule as [|i schedule IH]; intros allocators s Hinv; cbn.
  { intros [= <- <-]. by exists allocators. }
  rewrite list_lookup_fmap.
  destruct (allocators !! i) as [[[initial_value tag] point]|] eqn:Hi; cbn;
    [|by apply IH].
  unfold allocator_prog at 1. cbn [fst snd].
  destruct (rest_of_allocation initial_value tag point) as [handle| | |a k]
    eqn:Hrest; [by apply IH | done | by apply IH |].
  destruct (rest_of_allocation_step _ _ _ _ _ Hrest) as [Hnext Hk].
  destruct (access a s) as [value s1| |] eqn:Haccess; [|done | by apply IH].
  rewrite Hk.
  change (rest_of_allocation initial_value tag (next_point point value))
    with (allocator_prog (initial_value, tag, next_point point value)).
  rewrite <- list_fmap_insert. intros Hrun.
  destruct (IH _ _ (allocators_invariant_step _ _ _ _ _ _ _ _ _ Hinv Hi
                      Hnext Haccess) Hrun)
    as (allocators' & -> & Hrequests & Hinv').
  exists allocators'. split; [done |]. split; [|done].
  rewrite Hrequests, list_fmap_insert. cbn [fst].
  apply list_insert_id. by rewrite list_lookup_fmap, Hi.
Qed.

(** A pool of threads that are about to call [AllocateAndInitializeEntry]
    satisfies the invariant. *)
Lemma allocators_invariant_initial fuel requests s :
  freelist_invariant s →
  mutex_ s = false →
  allocators_invariant ((λ request, (request, At_loop fuel)) <$> requests) s.
Proof.
  intros [Hfits (nodes & Hfrom)] Hmutex.
  assert (∀ i c,
            ((λ request : Z * Z, (request, At_loop fuel)) <$> requests) !! i
              = Some c →
            c.2 = At_loop fuel) as Hpoint.
  { intros i c. rewrite list_lookup_fmap.
    destruct (requests !! i); [|done]. by intros [= <-]. }
  split; [done |]. exists nodes. split_and!; [done | | | | |].
  - intros i j ci cj head Hi _ Hown. by rewrite (Hpoint _ _ Hi) in Hown.
  - intros i c head Hi Hown. by rewrite (Hpoint _ _ Hi) in Hown.
  - intros i c Hi. unfold point_consistent. by rewrite (Hpoint _ _ Hi).
  - rewrite Hmutex. split; [done |].
    intros (i & c & Hi & Hholds). by rewrite (Hpoint _ _ Hi) in Hholds.
  - intros i j ci cj Hi _ Hholds. by rewrite (Hpoint _ _ Hi) in Hholds.
Qed.

(** X11.  Threads that allocate at the same time never get the same
    entry.  In every interleaving of any number of calls of
    [AllocateAndInitializeEntry], started on a well-formed freelist, the
    handles returned so far are pairwise distinct and not null, each
    thread that has returned finds the entry of its handle holding its own
    initial value under its own tag, and the freelist is well-formed. *)
Theorem concurrent_allocations_are_distinct
    schedule fuel (requests : list (Address * ExternalPointerTag))
    s threads' s' :
  freelist_invariant s →
  mutex_ s = false →
  interleave schedule
    ((λ request, AllocateAndInitializeEntry fuel request.1 request.2)
     <$> requests) s
    = Some (threads', s') →
  freelist_invariant s'
  ∧ (∀ i j handle,
       threads' !! i = Some (Ret handle) →
       threads' !! j = Some (Ret handle) →
       i = j)
  ∧ (∀ i handle,
       threads' !! i = Some (Ret handle) →
       handle ≠ kNullExternalPointerHandle
       ∧ ∃ initial_value tag,
           requests !! i = Some (initial_value, tag)
           ∧ entry_at (buffer_ s') (HandleToIndex handle)
             = Some (MakeRegularEntry initial_value tag)).
Proof.
  intros Hs Hmutex Hrun.
  pose proof (allocators_invariant_initial fuel requests s Hs Hmutex)
    as Hinv.
  assert ((λ request : Z * Z,
             AllocateAndInitializeEntry fuel request.1 request.2)
          <$> requests
          = allocator_prog
            <$> ((λ request, (request, At_loop fuel)) <$> requests))
    as Hthreads by (by rewrite <- list_fmap_compose).
  rewrite Hthreads in Hrun.
  destruct (interleave_allocators _ _ _ _ _ Hinv Hrun)
    as (allocators' & -> & Hrequests & Hinv').
  rewrite <- list_fmap_compose in Hrequests.
  change (fst ∘ _) with (@id (Z * Z)%type) in Hrequests.
  rewrite list_fmap_id in Hrequests.
  destruct Hinv'
    as (Hfits & nodes & Hfrom & Hinjective & Hown & Hpoints & _).
  assert (∀ i handle,
            (allocator_prog <$> allocators') !! i = Some (Ret handle) →
            ∃ c head,
              allocators' !! i = Some c ∧ c.2 = At_returned head
              ∧ handle = IndexToHandle head) as Hreturned.
  { intros i handle. rewrite list_lookup_fmap.
    destruct (allocators' !! i) as [c|]; [|done]. intros [= Hc].
    apply rest_of_allocation_returned in Hc as (head & Hc & ->).
    by exists c, head. }
  assert (∀ i c head,
            allocators' !! i = Some c → c.2 = At_returned head →
            0 < head < kMaxExternalPointers) as Hrange.
  { intros i c head Hi Hc. destruct (Hown i c head Hi) as [? _].
    - by rewrite Hc.
    - unfold table_fits in Hfits. lia. }
  split; [split; [done | by exists nodes] |]. split.
  - intros i j handle Hi Hj.
    destruct (Hreturned _ _ Hi) as (ci & headi & Hci & Hpointi & ->).
    destruct (Hreturned _ _ Hj) as (cj & headj & Hcj & Hpointj & Hsame).
    pose proof (Hrange _ _ _ Hci Hpointi).
    pose proof (Hrange _ _ _ Hcj Hpointj).
    apply (f_equal HandleToIndex) in Hsame.
    rewrite !HandleToIndex_IndexToHandle in Hsame by lia. subst headj.
    apply (Hinjective i j ci cj headi); [done.. | |].
    + by rewrite Hpointi.
    + by rewrite Hpointj.
  - intros i handle Hi.
    destruct (Hreturned _ _ Hi) as (c & head & Hc & Hpoint & ->).
    pose proof (Hrange _ _ _ Hc Hpoint).
    split; [by apply IndexToHandle_nonzero |].
    exists c.1.1, c.1.2. split.
    + rewrite <- Hrequests, list_lookup_fmap, Hc. cbn.
      by destruct c as [[] ?].
    + rewrite HandleToIndex_IndexToHandle by lia.
      pose proof (Hpoints _ _ Hc) as Hentry.
      unfold point_consistent in Hentry. by rewrite Hpoint in Hentry.
Qed.

Lemma about_to_grow_point initial_value tag point :
  about_to_grow (rest_of_allocation initial_value tag point) = true →
  ∃ fuel, point = At_grow fuel.
Proof.
  destruct (rest_of_allocation initial_value tag point) as [| | |a k]
    eqn:Hrest; try done.
  destruct (rest_of_allocation_step _ _ _ _ _ Hrest) as [Hnext _].
  destruct a; try done. intros _.
  destruct point
    as [[|fuel]|fuel|fuel|fuel|fuel head|fuel head|fuel head table_capacity
       |fuel head entry|head|head|]; cbn in Hnext; try done.
  - by exists fuel.
  - by destruct (head =? 0).
  - by destruct (head <? table_capacity).
Qed.

(** X12.  The double-checked locking of [AllocateAndInitializeEntry]
    works.  In every interleaving of any number of calls, a thread that is
    about to call [Grow] holds the mutex and finds the freelist empty, and
    no other thread is about to call [Grow]; and once all threads have
    returned the mutex is free. *)
Theorem table_grows_only_when_freelist_is_empty
    schedule fuel (requests : list (Address * ExternalPointerTag))
    s threads' s' :
  freelist_invariant s →
  mutex_ s = false →
  interleave schedule
    ((λ request, AllocateAndInitializeEntry fuel request.1 request.2)
     <$> requests) s
    = Some (threads', s') →
  (∀ i thread,
     threads' !! i = Some thread →
     about_to_grow thread = true →
     freelist_head_ s' = 0
     ∧ mutex_ s' = true
     ∧ ∀ j thread',
         threads' !! j = Some thread' →
         about_to_grow thread' = true →
         j = i)
  ∧ ((∀ i thread, threads' !! i = Some thread → ∃ handle, thread = Ret handle)
     → mutex_ s' = false).
Proof.
  intros Hs Hmutex Hrun.
  pose proof (allocators_invariant_initial fuel requests s Hs Hmutex)
    as Hinv.
  assert ((λ request : Z * Z,
             AllocateAndInitializeEntry fuel request.1 request.2)
          <$> requests
          = allocator_prog
            <$> ((λ request, (request, At_loop fuel)) <$> requests))
    as Hthreads by (by rewrite <- list_fmap_compose).
  rewrite Hthreads in Hrun.
  destruct (interleave_allocators _ _ _ _ _ Hinv Hrun)
    as (allocators' & -> & _ & Hinv').
  destruct Hinv'
    as (_ & nodes & _ & _ & _ & Hpoints & Hheld & Hunique).
  assert (∀ i thread,
            (allocator_prog <$> allocators') !! i = Some thread →
            about_to_grow thread = true →
            ∃ c fuel', allocators' !! i = Some c ∧ c.2 = At_grow fuel')
    as Hgrowing.
  { intros i thread. rewrite list_lookup_fmap.
    destruct (allocators' !! i) as [c|]; [|done]. intros [= <-] Hgrow.
    apply about_to_grow_point in Hgrow as [fuel' Hgrow].
    by exists c, fuel'. }
  split.
  - intros i thread Hi Hgrow.
    destruct (Hgrowing _ _ Hi Hgrow) as (c & fuel' & Hc & Hpoint).
    split_and!.
    + pose proof (Hpoints _ _ Hc) as Hempty.
      unfold point_consistent in Hempty. by rewrite Hpoint in Hempty.
    + apply Hheld. exists i, c. by rewrite Hpoint.
    + intros j thread' Hj Hgrow'.
      destruct (Hgrowing _ _ Hj Hgrow') as (c' & fuel'' & Hc' & Hpoint').
      apply (Hunique j i c' c); [done.. | |].
      * by rewrite Hpoint'.
      * by rewrite Hpoint.
  - intros Hall. apply not_true_is_false. intros Hmutex'.
    apply Hheld in Hmutex' as (i & c & Hc & Hholds).
    destruct (Hall i (allocator_prog c)) as [handle Hhandle].
    { by rewrite list_lookup_fmap, Hc. }
    apply rest_of_allocation_returned in Hhandle as (head & Hpoint & _).
    by rewrite Hpoint in Hholds.
Qed.

(** ** No allocating thread fails a check *)

Lemma entries_taken_insert allocators i old new :
  allocators !! i = Some old →
  (entries_taken (<[i := new]> allocators)
   + (if has_entry old then 1 else 0)
   = entries_taken allocators + (if has_entry new then 1 else 0))%nat.
Proof.
  unfold entries_taken. revert i.
  induction allocators as [|allocator allocators IH]; intros [|i]; cbn;
    try done.
  - intros [= ->]. destruct (has_entry old), (has_entry new); cbn; lia.
  - intros Hi. specialize (IH _ Hi).
    destruct (has_entry allocator); cbn [List.filter length Nat.add];
      [f_equal |]; exact IH.
Qed.

Lemma entries_taken_le allocators :
  (entries_taken allocators ≤ length allocators)%nat.
Proof.
  unfold entries_taken.
  induction allocators as [|allocator allocators IH]; cbn; [done |].
  destruct (has_entry allocator); cbn; lia.
Qed.

Lemma entries_taken_lt allocators i allocator :
  allocators !! i = Some allocator →
  has_entry allocator = false →
  (entries_taken allocators < length allocators)%nat.
Proof.
  intros Hi Hnone.
  pose proof (entries_taken_insert allocators i allocator
                (allocator.1, At_store 0) Hi) as Hinsert.
  pose proof (entries_taken_le
                (<[i := (allocator.1, At_store 0)]> allocators)) as Hle.
  rewrite length_insert in Hle. rewrite Hnone in Hinsert. cbn in Hinsert.
  lia.
Qed.

(** A thread whose point is consistent with the table has not failed a
    check. *)
Lemma rest_of_allocation_not_aborted s nodes initial_value tag point :
  point_consistent s nodes (initial_value, tag, point) →
  rest_of_allocation initial_value tag point ≠ Abort.
Proof.
  unfold point_consistent. cbn [fst snd].
  destruct point
    as [[|fuel]|fuel|fuel|fuel|fuel head|fuel head|fuel head table_capacity
       |fuel head entry|head|head|]; cbn; try done.
  - intros Hrange. unfold TryAllocateEntryFromFreelist.
    by rewrite (proj2 (Z.eqb_neq head 0)) by lia.
  - intros [Hrange _]. unfold claim_after_capacity.
    by rewrite (proj2 (Z.ltb_lt head table_capacity)) by lia.
Qed.

(** The accesses of the threads do not fail, as long as the table can
    grow by one block for each thread. *)
Lemma allocator_access_succeeds
    initial_capacity allocators s i initial_value tag point a :
  allocators_invariant allocators s →
  room_invariant initial_capacity allocators s →
  initial_capacity + kEntriesPerBlock * Z.of_nat (length allocators)
    ≤ kMaxExternalPointers →
  allocators !! i = Some (initial_value, tag, point) →
  next_access initial_value tag point = Some a →
  access a s ≠ Fault.
Proof.
  intros (Hfits & nodes & Hfrom & _ & Hown & Hpoints & _) Hroom Hmax Hi
    Hnext.
  pose proof (Hpoints _ _ Hi) as Hpoint.
  unfold point_consistent in Hpoint. cbn [fst snd] in Hpoint.
  pose proof entries_per_block_range as Hblock.
  destruct point
    as [[|fuel]|fuel|fuel|fuel|fuel head|fuel head|fuel head table_capacity
       |fuel head entry|head|head|]; cbn in Hnext; try discriminate.
  - by injection Hnext as <-.
  - injection Hnext as <-. cbn. by destruct (mutex_ s).
  - by injection Hnext as <-.
  - injection Hnext as <-. cbn. unfold grow. rewrite Hpoint.
    cbn [Z.eqb negb].
    pose proof (entries_taken_lt _ _ _ Hi eq_refl) as Htaken.
    unfold room_invariant in Hroom. rewrite Hpoint in Hroom.
    cbn [Z.eqb] in Hroom.
    rewrite (proj2 (Z.ltb_ge _ _)); [done |]. nia.
  - by injection Hnext as <-.
  - destruct (head =? 0); [done |]. by injection Hnext as <-.
  - destruct (head <? table_capacity); [|done]. injection Hnext as <-.
    cbn. destruct (entry_at_is_Some (buffer_ s) head) as [entry ->];
      [unfold capacity in Hpoint; lia | done].
  - injection Hnext as <-. cbn. by destruct (_ =? _).
  - injection Hnext as <-. cbn.
    destruct (Hown _ _ head Hi) as [Hrange _]; [done |].
    destruct (entry_at_is_Some (buffer_ s) head) as [entry ->];
      [unfold capacity in Hrange; lia | done].
Qed.

Lemma room_invariant_step
    initial_capacity allocators s i initial_value tag point a value s' :
  allocators_invariant allocators s →
  room_invariant initial_capacity allocators s →
  allocators !! i = Some (initial_value, tag, point) →
  next_access initial_value tag point = Some a →
  access a s = Reply value s' →
  room_invariant initial_capacity
    (<[i := (initial_value, tag, next_point point value)]> allocators) s'.
Proof.
  intros Hinv Hroom Hi Hnext Haccess.
  pose proof (allocators_invariant_step _ _ _ _ _ _ _ _ _ Hinv Hi Hnext
                Haccess) as (_ & nodes' & _ & _ & _ & Hpoints' & _).
  pose proof (Hpoints' i (initial_value, tag, next_point point value))
    as Hpoint'.
  rewrite list_lookup_insert_eq in Hpoint'
    by (by apply lookup_lt_Some in Hi).
  specialize (Hpoint' eq_refl).
  unfold point_consistent in Hpoint'. cbn [fst snd] in Hpoint'.
  destruct Hinv as (_ & nodes & _ & _ & _ & Hpoints & _).
  pose proof (Hpoints _ _ Hi) as Hpoint.
  unfold point_consistent in Hpoint. cbn [fst snd] in Hpoint.
  pose proof (entries_taken_insert allocators i _
                (initial_value, tag, next_point point value) Hi)
    as Htaken.
  pose proof entries_per_block_range as Hblock.
  unfold room_invariant in *. unfold has_entry in Htaken.
  cbn [fst snd] in Htaken.
  destruct point
    as [[|fuel]|fuel|fuel|fuel|fuel head|fuel head|fuel head table_capacity
       |fuel head entry|head|head|]; cbn in Hnext; try discriminate;
    cbn [next_point] in *.
  - injection Hnext as <-. injection Haccess as <- <-.
    destruct (freelist_head_ s =? 0) eqn:Hzero; cbn in Htaken; lia.
  - injection Hnext as <-. cbn in Haccess.
    destruct (mutex_ s); [done |]. injection Haccess as <- <-.
    cbn in *. unfold capacity in *. cbn. lia.
  - injection Hnext as <-. injection Haccess as <- <-.
    cbn [next_point] in *.
    destruct (freelist_head_ s =? 0) eqn:Hzero; cbn in Htaken; lia.
  - injection Hnext as <-. cbn in Haccess. unfold grow in Haccess.
    rewrite Hpoint in Haccess. cbn [Z.eqb negb] in Haccess.
    destruct (_ <? _); [done |]. injection Haccess as <- <-.
    rewrite Hpoint in Hroom. cbn [Z.eqb] in Hroom.
    cbn in Htaken.
    assert (0 ≤ capacity s) as Hcap by (unfold capacity; lia).
    unfold capacity at 1. cbn [buffer_ set_freelist_head set_buffer].
    rewrite length_app, Nat2Z.inj_add, length_grow_block.
    fold (capacity s). cbn [freelist_head_ set_freelist_head].
    rewrite (proj2 (Z.eqb_neq (Z.max (capacity s) 1) 0)) by lia.
    nia.
  - injection Hnext as <-. injection Haccess as <- <-.
    cbn in Htaken. unfold capacity in *. cbn. lia.
  - destruct (head =? 0); [done |].
    injection Hnext as <-. injection Haccess as <- <-.
    cbn in Htaken. lia.
  - destruct (head <? table_capacity); [|done].
    injection Hnext as <-. cbn in Haccess.
    destruct (entry_at (buffer_ s) head); [|done].
    injection Haccess as <- <-. cbn in Htaken. lia.
  - injection Hnext as <-. cbn in Haccess. cbn [next_point] in *.
    destruct (Z.eqb_spec (freelist_head_ s) head) as [Hsame|Hmoved].
    + injection Haccess as <- <-. rewrite Hsame, Z.eqb_refl in *.
      destruct (IsFreelistEntry entry); [|done].
      cbn in Htaken. unfold capacity in *.
      cbn [buffer_ freelist_head_ set_freelist_head].
      rewrite (proj2 (Z.eqb_neq head 0)) in Hroom by lia.
      destruct (_ =? 0); nia.
    + injection Haccess as <- <-.
      rewrite (proj2 (Z.eqb_neq _ _) Hmoved) in *.
      cbn in Htaken. lia.
  - injection Hnext as <-. cbn in Haccess.
    destruct (entry_at (buffer_ s) head); [|done].
    injection Haccess as <- <-. cbn in Htaken.
    unfold capacity in *. cbn. rewrite length_insert. lia.
Qed.

Lemma interleave_allocators_succeeds
    schedule initial_capacity allocators s :
  allocators_invariant allocators s →
  room_invariant initial_capacity allocators s →
  initial_capacity + kEntriesPerBlock * Z.of_nat (length allocators)
    ≤ kMaxExternalPointers →
  is_Some (interleave schedule (allocator_prog <$> allocators) s).
Proof.
  revert allocators s.
  induction schedule as [|i schedule IH]; intros allocators s Hinv Hroom Hmax;
    cbn; [done |].
  rewrite list_lookup_fmap.
  destruct (allocators !! i) as [[[initial_value tag] point]|] eqn:Hi; cbn;
    [|by apply IH].
  unfold allocator_prog at 1. cbn [fst snd].
  pose proof Hinv as (_ & nodes & _ & _ & _ & Hpoints & _).
  pose proof (rest_of_allocation_not_aborted _ _ _ _ _ (Hpoints _ _ Hi))
    as Hnot_aborted.
  destruct (rest_of_allocation initial_value tag point) as [handle| | |a k]
    eqn:Hrest; [by apply IH | done | by apply IH |].
  destruct (rest_of_allocation_step _ _ _ _ _ Hrest) as [Hnext Hk].
  pose proof (allocator_access_succeeds _ _ _ _ _ _ _ _ Hinv Hroom Hmax Hi
                Hnext) as Hno_fault.
  destruct (access a s) as [value s1| |] eqn:Haccess; [|done | by apply IH].
  rewrite Hk.
  change (rest_of_allocation initial_value tag (next_point point value))
    with (allocator_prog (initial_value, tag, next_point point value)).
  rewrite <- list_fmap_insert.
  apply IH.
  - by eapply allocators_invariant_step.
  - by eapply room_invariant_step.
  - by rewrite length_insert.
Qed.

(** X13.  No check of [AllocateAndInitializeEntry] or of
    [TryAllocateEntryFromFreelist] fails when threads allocate at the same
    time, and no access leaves the table: started on a well-formed
    freelist, with the mutex free and room for one more block for each
    thread, every interleaving of the calls runs without an abort. *)
Theorem concurrent_allocations_pass_all_checks
    schedule fuel (requests : list (Address * ExternalPointerTag)) s :
  freelist_invariant s →
  mutex_ s = false →
  capacity s + kEntriesPerBlock * Z.of_nat (length requests)
    ≤ kMaxExternalPointers →
  is_Some
    (interleave schedule
       ((λ request, AllocateAndInitializeEntry fuel request.1 request.2)
        <$> requests) s).
Proof.
  intros Hs Hmutex Hmax.
  pose proof (allocators_invariant_initial fuel requests s Hs Hmutex)
    as Hinv.
  assert ((λ request : Z * Z,
             AllocateAndInitializeEntry fuel request.1 request.2)
          <$> requests
          = allocator_prog
            <$> ((λ request, (request, At_loop fuel)) <$> requests))
    as -> by (by rewrite <- list_fmap_compose).
  apply (interleave_allocators_succeeds _ (capacity s)); [done | |].
  - unfold room_invariant. pose proof entries_per_block_range.
    destruct (_ =? 0); nia.
  - by rewrite length_fmap.
Qed.

(** ** Allocating threads leave their loop *)

Lemma current_freelist_size_claimed s nodes entry :
  freelist_from (buffer_ s) (freelist_head_ s) nodes →
  freelist_head_ s ≠ 0 →
  (freelist_head_ s ∈ nodes →
   entry_at (buffer_ s) (freelist_head_ s) = Some entry) →
  IsFreelistEntry entry = true
  ∧ current_freelist_size
      (set_freelist_head s (ExtractNextFreelistEntry entry))
    = current_freelist_size s - 1.
Proof.
  intros Hfrom Hnz Hentry.
  rewrite (current_freelist_size_from s nodes Hfrom).
  inversion Hfrom as [Hhead|head e tail _ He Hfree Hsize Hrest];
    [congruence |].
  subst. rewrite Hentry in He by set_solver.
  injection He as ->. split; [done |].
  rewrite (current_freelist_size_from _ tail) by done.
  cbn [length]. lia.
Qed.

Lemma current_freelist_size_grown s value s' :
  grow s = Reply value s' →
  current_freelist_size s = 0
  ∧ 1 ≤ current_freelist_size s'
  ∧ freelist_head_ s' = value.
Proof.
  intros Hgrow.
  destruct (grow_invariant _ _ _ Hgrow) as ([_ [nodes Hfrom]] & -> & Hnz).
  split; [|split; [|done]].
  - unfold grow in Hgrow. unfold current_freelist_size.
    by destruct (freelist_head_ s =? 0).
  - rewrite (current_freelist_size_from s' nodes Hfrom).
    inversion Hfrom; [congruence |]. cbn [length]. lia.
Qed.

Lemma current_freelist_size_store s nodes index entry :
  freelist_from (buffer_ s) (freelist_head_ s) nodes →
  0 ≤ index →
  index ∉ nodes →
  current_freelist_size (store_entry s index entry)
  = current_freelist_size s.
Proof.
  intros Hfrom Hindex Hnotin.
  rewrite (current_freelist_size_from s nodes Hfrom).
  apply current_freelist_size_from. cbn.
  by apply freelist_from_insert.
Qed.

(** A step that leaves [freelist_head_] and the number of changes to come
    as they are, or uses up one of these changes, leaves every thread with
    rounds enough. *)
Lemma rounds_suffice_frame allocators allocators' s s' point :
  (changes_to_come allocators' s' = changes_to_come allocators s
   ∧ freelist_head_ s' = freelist_head_ s)
  ∨ changes_to_come allocators' s' + 1 ≤ changes_to_come allocators s →
  rounds_suffice allocators s point →
  rounds_suffice allocators' s' point.
Proof.
  intros Hframe.
  destruct point; cbn; try done; destruct Hframe as [[Hsame Hhead]|Hless];
    rewrite ?Hsame, ?Hhead; try done;
    repeat (destruct (_ =? _)); lia.
Qed.

Lemma fuel_invariant_step
    allocators s i initial_value tag point a value s' :
  allocators_invariant allocators s →
  fuel_invariant allocators s →
  allocators !! i = Some (initial_value, tag, point) →
  next_access initial_value tag point = Some a →
  access a s = Reply value s' →
  fuel_invariant
    (<[i := (initial_value, tag, next_point point value)]> allocators) s'.
Proof.
  intros Hinv Hfuel Hi Hnext Haccess.
  assert (rounds_suffice
            (<[i := (initial_value, tag, next_point point value)]> allocators)
            s' (next_point point value)
          ∧ ((changes_to_come
                (<[i := (initial_value, tag, next_point point value)]>
                   allocators) s'
              = changes_to_come allocators s
              ∧ freelist_head_ s' = freelist_head_ s)
             ∨ changes_to_come
                 (<[i := (initial_value, tag, next_point point value)]>
                    allocators) s' + 1
               ≤ changes_to_come allocators s)) as [Hown Hframe].
  { destruct Hinv as (Hfits & nodes & Hfrom & _ & Howned & Hpoints & _).
    pose proof (Hpoints _ _ Hi) as Hpoint.
    unfold point_consistent in Hpoint. cbn [fst snd] in Hpoint.
    pose proof (Hfuel _ _ Hi) as Hrounds. cbn [snd] in Hrounds.
    pose proof (entries_taken_insert allocators i _
                  (initial_value, tag, next_point point value) Hi)
      as Htaken.
    unfold has_entry in Htaken. cbn [fst snd] in Htaken.
    destruct point
      as [[|fuel]|fuel|fuel|fuel|fuel head|fuel head
         |fuel head table_capacity|fuel head entry|head|head|];
      cbn in Hnext; try discriminate;
      cbn [next_point rounds_suffice owned_entry] in *;
      unfold changes_to_come in *; rewrite length_insert.
    - injection Hnext as <-. injection Haccess as <- <-.
      destruct (Z.eqb_spec (freelist_head_ s) 0);
        cbn [rounds_suffice owned_entry] in *; unfold changes_to_come;
        rewrite ?length_insert, ?Z.eqb_refl;
        (split; [lia |]); left; (split; [lia | done]).
    - injection Hnext as <-. cbn in Haccess.
      destruct (mutex_ s); [done |]. injection Haccess as <- <-.
      change (current_freelist_size (set_mutex s true))
        with (current_freelist_size s).
      split; [lia |]. left. split; [lia | done].
    - injection Hnext as <-. injection Haccess as <- <-.
      destruct (Z.eqb_spec (freelist_head_ s) 0);
        cbn [rounds_suffice owned_entry] in *; unfold changes_to_come;
        rewrite ?length_insert, ?Z.eqb_refl;
        (split; [lia |]); left; (split; [lia | done]).
    - injection Hnext as <-. cbn in Haccess.
      apply current_freelist_size_grown in Haccess
        as (Hempty & Hgrown & Hhead).
      pose proof (entries_taken_lt _ _ _ Hi eq_refl) as Hwaiting.
      rewrite Hhead, Z.eqb_refl. split; [lia |]. right. lia.
    - injection Hnext as <-. injection Haccess as <- <-.
      change (current_freelist_size (set_mutex s false))
        with (current_freelist_size s).
      change (freelist_head_ (set_mutex s false)) with (freelist_head_ s).
      split; [lia |]. left. split; [lia | done].
    - destruct (head =? 0); [done |].
      injection Hnext as <-. injection Haccess as <- <-.
      split; [lia |]. left. split; [lia | done].
    - destruct (head <? table_capacity); [|done].
      injection Hnext as <-. cbn in Haccess.
      destruct (entry_at (buffer_ s) head); [|done].
      injection Haccess as <- <-.
      split; [lia |]. left. split; [lia | done].
    - injection Hnext as <-. cbn in Haccess.
      destruct (Z.eqb_spec (freelist_head_ s) head) as [Hsame|Hmoved].
      + injection Haccess as <- <-.
        destruct Hpoint as [Hrange Hentry]. rewrite <- Hsame in Hentry.
        destruct (current_freelist_size_claimed s nodes entry)
          as [Hfree Hsize]; [done | lia | done |].
        rewrite Hsame, Z.eqb_refl, Hfree in Htaken |- *.
        cbn [rounds_suffice owned_entry] in *. split; [done |].
        right. rewrite Hsize. lia.
      + injection Haccess as <- <-.
        rewrite (proj2 (Z.eqb_neq _ _) Hmoved) in Htaken |- *.
        cbn [rounds_suffice owned_entry] in *.
        unfold changes_to_come. rewrite length_insert.
        split; [lia |]. left. split; [lia | done].
    - injection Hnext as <-. cbn in Haccess.
      destruct (entry_at (buffer_ s) head); [|done].
      injection Haccess as <- <-. split; [done |]. left.
      destruct (Howned _ _ head Hi) as [Hrange Hnotin]; [done |].
      rewrite (current_freelist_size_store s nodes) by (done || lia).
      split; [lia | done]. }
  intros j c Hj. destruct (decide (j = i)) as [->|Hne].
  - rewrite list_lookup_insert_eq in Hj by (by apply lookup_lt_Some in Hi).
    by injection Hj as <-.
  - rewrite list_lookup_insert_ne in Hj by done.
    eapply rounds_suffice_frame; [exact Hframe |]. by apply (Hfuel j).
Qed.

(** A thread that has rounds enough has not used up its fuel. *)
Lemma rounds_suffice_not_Spin allocators s i initial_value tag point :
  allocators !! i = Some (initial_value, tag, point) →
  rounds_suffice allocators s point →
  rest_of_allocation initial_value tag point ≠ Spin.
Proof.
  intros Hi Hrounds.
  destruct point
    as [[|fuel]|fuel|fuel|fuel|fuel head|fuel head|fuel head table_capacity
       |fuel head entry|head|head|]; cbn; try done.
  - cbn in Hrounds. unfold changes_to_come in Hrounds.
    pose proof (entries_taken_lt _ _ _ Hi eq_refl). lia.
  - unfold TryAllocateEntryFromFreelist. by destruct (head =? 0).
  - unfold claim_after_capacity. by destruct (head <? table_capacity).
Qed.

Lemma interleave_allocators_fuel schedule allocators s threads' s' :
  allocators_invariant allocators s →
  fuel_invariant allocators s →
  interleave schedule (allocator_prog <$> allocators) s
    = Some (threads', s') →
  ∃ allocators',
    threads' = allocator_prog <$> allocators'
    ∧ allocators_invariant allocators' s'
    ∧ fuel_invariant allocators' s'.
Proof.
  revert allocators s.
  induction schedule as [|i schedule IH]; intros allocators s Hinv Hfuel;
    cbn.
  { intros [= <- <-]. by exists allocators. }
  rewrite list_lookup_fmap.
  destruct (allocators !! i) as [[[initial_value tag] point]|] eqn:Hi; cbn;
    [|by apply IH].
  unfold allocator_prog at 1. cbn [fst snd].
  destruct (rest_of_allocation initial_value tag point) as [handle| | |a k]
    eqn:Hrest; [by apply IH | done | by apply IH |].
  destruct (rest_of_allocation_step _ _ _ _ _ Hrest) as [Hnext Hk].
  destruct (access a s) as [value s1| |] eqn:Haccess; [|done | by apply IH].
  rewrite Hk.
  change (rest_of_allocation initial_value tag (next_point point value))
    with (allocator_prog (initial_value, tag, next_point point value)).
  rewrite <- list_fmap_insert.
  apply IH.
  - by eapply allocators_invariant_step.
  - by eapply fuel_invariant_step.
Qed.

(** X20.  The loop of [AllocateAndInitializeEntry] is left after a bounded
    number of rounds, however the threads are scheduled: a round fails only
    when another thread has taken an entry or grown the table in the
    meantime, which [n] threads do fewer than [2 * n] times in all.  So,
    when [n] threads allocate at the same time, started on a well-formed
    freelist with the mutex free, and each may go round its loop [2 * n]
    times, no thread uses up its rounds and none fails a check: in every
    interleaving each thread has returned or has an access to perform. *)
Theorem concurrent_allocations_leave_the_loop
    schedule fuel (requests : list (Address * ExternalPointerTag))
    s threads' s' :
  freelist_invariant s →
  mutex_ s = false →
  2 * Z.of_nat (length requests) ≤ Z.of_nat fuel →
  interleave schedule
    ((λ request, AllocateAndInitializeEntry fuel request.1 request.2)
     <$> requests) s
    = Some (threads', s') →
  ∀ i thread,
    threads' !! i = Some thread →
    (∃ handle, thread = Ret handle) ∨ (∃ a k, thread = Do a k).
Proof.
  intros Hs Hmutex Hfuel Hrun.
  pose proof (allocators_invariant_initial fuel requests s Hs Hmutex)
    as Hinv.
  assert ((λ request : Z * Z,
             AllocateAndInitializeEntry fuel request.1 request.2)
          <$> requests
          = allocator_prog
            <$> ((λ request, (request, At_loop fuel)) <$> requests))
    as Hthreads by (by rewrite <- list_fmap_compose).
  rewrite Hthreads in Hrun.
  assert (fuel_invariant
            ((λ request, (request, At_loop fuel)) <$> requests) s)
    as Hinitial.
  { intros i c. rewrite list_lookup_fmap.
    destruct (requests !! i); [|done]. intros [= <-]. cbn.
    unfold changes_to_come. rewrite length_fmap.
    destruct Hs as [_ [nodes Hfrom]].
    rewrite (current_freelist_size_from s nodes Hfrom). lia. }
  destruct (interleave_allocators_fuel _ _ _ _ _ Hinv Hinitial Hrun)
    as (allocators' & -> & Hinv' & Hfuel').
  destruct Hinv' as (_ & nodes & _ & _ & _ & Hpoints & _).
  intros i thread. rewrite list_lookup_fmap.
  destruct (allocators' !! i) as [[[initial_value tag] point]|] eqn:Hi;
    [|done].
  intros [= <-]. unfold allocator_prog. cbn [fst snd].
  pose proof (rounds_suffice_not_Spin _ _ _ _ _ _ Hi (Hfuel' i _ Hi))
    as Hnot_spin.
  pose proof (rest_of_allocation_not_aborted _ _ _ _ _ (Hpoints _ _ Hi))
    as Hnot_aborted.
  destruct (rest_of_allocation initial_value tag point) as [handle| | |a k];
    [left; by exists handle | done | done | right; by exists a, k].
Qed.

(** ** FreelistSize while other threads allocate *)

(** X14.  [FreelistSize] only reads.  Whatever other threads do between
    its accesses, it goes round its loop as long as the entry it finds at
    the head it has loaded is not a freelist entry, and what it returns is
    0, the last head loaded being 0, or the size recorded in the freelist
    entry it loaded last, which the capacity loaded after it bounds. *)
Theorem FreelistSize_reads_a_freelist_entry
    fuel env n s size s' trace :
  exec env n (FreelistSize fuel) s = Done size s' trace →
  Forall (λ ev, is_load ev.1 = true) trace
  ∧ ∃ rounds,
      Forall (λ round : Z * Entry,
                round.1 ≠ 0 ∧ IsFreelistEntry round.2 = false) rounds
      ∧ ((size = 0
          ∧ trace = retried_rounds rounds ++ [(Load_freelist_head, 0)])
         ∨ ∃ head entry table_capacity,
             trace = retried_rounds rounds
                     ++ [(Load_freelist_head, head);
                         (RelaxedLoad head, entry);
                         (Load_capacity, table_capacity)]
             ∧ head ≠ 0
             ∧ IsFreelistEntry entry = true
             ∧ size = ExtractFreelistSize entry
             ∧ size ≤ table_capacity).
Proof.
  revert n s trace.
  induction fuel as [|fuel IH]; intros n s trace; [done |].
  cbn. destruct (env n s) as [s1|]; [|done].
  destruct (Z.eqb_spec (freelist_head_ s1) 0) as [Hzero|Hnz]; cbn.
  { intros [= <- <- <-]. split; [by repeat constructor |].
    exists []. split; [done |]. left. by rewrite Hzero. }
  destruct (env (S n) s1) as [s2|]; [|done].
  destruct (entry_at (buffer_ s2) (freelist_head_ s1)) as [entry|];
    [|done].
  destruct (IsFreelistEntry entry) eqn:Hfree; cbn.
  - destruct (env (S (S n)) s2) as [s3|]; [|done]. cbn.
    destruct (Z.leb_spec (ExtractFreelistSize entry) (capacity s3));
      cbn; [|done].
    intros [= <- <- <-]. split; [by repeat constructor |].
    exists []. split; [done |]. right.
    by exists (freelist_head_ s1), entry, (capacity s3).
  - destruct (exec env (S (S n)) (FreelistSize fuel) s2)
      as [size' s3 trace'| |] eqn:Hrest; [|done..].
    intros [= <- <- <-].
    destruct (IH _ _ _ Hrest) as (Hloads & rounds & Hrounds & Hlast).
    split; [by repeat constructor |].
    exists ((freelist_head_ s1, entry) :: rounds).
    split; [by constructor |].
    destruct Hlast as [[-> ->]|(head & entry' & table_capacity & -> & ?)];
      [by left |].
    right. by exists head, entry', table_capacity.
Qed.

(** ** Mark bits are not cleared *)

Lemma access_load a s v s' :
  is_load a = true → access a s = Reply v s' → s' = s.
Proof.
  destruct a; try done; cbn; intros _.
  - destruct (entry_at _ _); [|done]. by intros [= _ <-].
  - by intros [= _ <-].
  - by intros [= _ <-].
  - by intros [= _ <-].
  - destruct (_ !! _); [|done]. by intros [= _ <-].
Qed.

Lemma hoare_load (P : State → Prop) a :
  is_load a = true → hoare P (perform a) (λ _ s, P s).
Proof.
  intros Hload. apply hoare_perform. intros s v s' Hs Haccess.
  by rewrite (access_load _ _ _ _ Hload Haccess).
Qed.

Lemma hoare_return {A} (P : State → Prop) (a : A) :
  hoare P (mret a) (λ _ s, P s).
Proof.
  eapply hoare_weaken; [apply hoare_ret | done |]. by intros r s [_ Hs].
Qed.

Lemma marked_at_store index s index' entry :
  marked_at index s →
  0 ≤ index' →
  (index' = index → IsMarked entry = true) →
  marked_at index (store_entry s index' entry).
Proof.
  intros (old & Hold & Hmarked) Hrange Hentry.
  destruct (decide (index' = index)) as [->|Hne].
  - exists entry. split; [|by apply Hentry].
    rewrite buffer_store_entry. apply entry_at_insert.
    by apply entry_at_Some in Hold.
  - exists old. split; [|done].
    rewrite buffer_store_entry. by rewrite entry_at_insert_ne.
Qed.

Section Marked.
Variable index : Z.
Hypothesis free_entries_unmarked :
  ∀ entry, IsFreelistEntry entry = true → IsMarked entry = false.

Lemma kept_store s index' entry :
  kept_marked index s →
  is_Some (entry_at (buffer_ s) index') →
  (index' = index → IsMarked entry = true) →
  kept_marked index (store_entry s index' entry).
Proof.
  intros [Hfits Hmarked] [old Hold] Hentry. split.
  - unfold table_fits, capacity in *. cbn. by rewrite length_insert.
  - apply marked_at_store; [done | | done].
    apply entry_at_Some in Hold. lia.
Qed.

(** The entry at [index] is not on the freelist. *)
Lemma kept_not_free s entry :
  kept_marked index s →
  entry_at (buffer_ s) index = Some entry →
  IsFreelistEntry entry = false.
Proof.
  intros [_ (entry' & Hentry' & Hmarked)] Hentry.
  rewrite Hentry in Hentry'. injection Hentry' as <-.
  destruct (IsFreelistEntry entry) eqn:Hfree; [|done].
  by rewrite (free_entries_unmarked _ Hfree) in Hmarked.
Qed.

Lemma hoare_TryAllocateEntryFromFreelist_kept head :
  hoare (kept_marked index) (TryAllocateEntryFromFreelist head)
    (λ success s, kept_marked index s ∧ (success = true → head ≠ index)).
Proof.
  intros s success s' trace Hs.
  rewrite run_TryAllocateEntryFromFreelist.
  destruct (negb _ && _); [|done].
  destruct (entry_at (buffer_ s) head) as [entry|] eqn:Hentry; [|done].
  cbn zeta. destruct (freelist_head_ s =? head).
  - destruct (IsFreelistEntry entry) eqn:Hfree; [|done].
    intros [= <- <- _]. split; [done |]. intros _ Hsame.
    rewrite Hsame in Hentry.
    by rewrite (kept_not_free _ _ Hs Hentry) in Hfree.
  - by intros [= <- <- _].
Qed.

Lemma hoare_allocate_loop_kept fuel :
  hoare (kept_marked index) (allocate_loop fuel)
    (λ head s, kept_marked index s ∧ head ≠ index).
Proof.
  induction fuel as [|fuel IH]; [done |].
  rewrite allocate_loop_unfold.
  assert (∀ held s,
            kept_marked index s → kept_marked index (set_mutex s held))
    as Hmutex
    by (by intros held s [Hfits Hmarked]).
  eapply hoare_bind; [by apply hoare_load |]. intros head0.
  eapply hoare_bind with (Q' := λ _ s, kept_marked index s).
  { destruct (head0 =? 0); [|apply hoare_return].
    eapply hoare_bind with (Q' := λ _ s, kept_marked index s).
    { apply hoare_perform. intros s v s' Hs. cbn.
      destruct (mutex_ s); [done |]. intros [= _ <-]. by apply Hmutex. }
    intros _. eapply hoare_bind; [by apply hoare_load |]. intros head1.
    eapply hoare_bind with (Q' := λ _ s, kept_marked index s).
    { destruct (head1 =? 0); [|apply hoare_return].
      apply hoare_perform. intros s v s' [Hfits Hmarked] Hgrow.
      split; [by eapply (access_table_fits Grow) |].
      destruct Hmarked as (entry & Hentry & Hmarked).
      cbn in Hgrow. unfold grow in Hgrow.
      destruct (negb _); [done |]. destruct (_ <? _); [done |].
      injection Hgrow as _ <-. exists entry. split; [|done]. cbn.
      rewrite entry_at_app_l; [done |].
      apply entry_at_Some in Hentry. lia. }
    intros head2.
    eapply hoare_bind with (Q' := λ _ s, kept_marked index s);
      [|intros ?; apply hoare_return].
    apply hoare_perform. intros s v s' Hs [= _ <-]. by apply Hmutex. }
  intros head.
  eapply hoare_bind; [apply hoare_TryAllocateEntryFromFreelist_kept |].
  intros [|].
  - intros s a s' trace [Hs Hne] [= <- <- _]. split; [done | by apply Hne].
  - eapply hoare_weaken; [exact IH | by intros s [Hs _] | done].
Qed.

Lemma hoare_AllocateEvacuationEntry_kept fuel boundary :
  hoare (kept_marked index) (AllocateEvacuationEntry fuel boundary)
    (λ _ s, kept_marked index s).
Proof.
  induction fuel as [|fuel IH]; [done |].
  change (AllocateEvacuationEntry (S fuel) boundary) with
    (freelist_head ← perform Load_freelist_head;
     if (freelist_head =? 0) || (boundary <=? freelist_head)
     then mret kNullExternalPointerHandle
     else
       success ← TryAllocateEntryFromFreelist freelist_head;
       if success : bool then mret (IndexToHandle freelist_head)
       else AllocateEvacuationEntry fuel boundary).
  eapply hoare_bind; [by apply hoare_load |]. intros head.
  destruct (_ || _); [apply hoare_return |].
  eapply hoare_bind; [apply hoare_TryAllocateEntryFromFreelist_kept |].
  intros [|].
  - eapply hoare_weaken; [apply hoare_return | by intros s [Hs _] | done].
  - eapply hoare_weaken; [exact IH | by intros s [Hs _] | done].
Qed.

Lemma hoare_FreelistSize_kept fuel :
  hoare (kept_marked index) (FreelistSize fuel) (λ _ s, kept_marked index s).
Proof.
  induction fuel as [|fuel IH]; [done |].
  change (FreelistSize (S fuel)) with
    (freelist_head ← perform Load_freelist_head;
     if freelist_head =? 0 then mret 0
     else
       entry ← perform (RelaxedLoad freelist_head);
       if negb (IsFreelistEntry entry) then FreelistSize fuel
       else
         let freelist_size := ExtractFreelistSize entry in
         table_capacity ← perform Load_capacity;
         DCHECK (freelist_size <=? table_capacity);;
         mret freelist_size).
  eapply hoare_bind; [by apply hoare_load |]. intros head.
  destruct (head =? 0); [apply hoare_return |].
  eapply hoare_bind; [by apply hoare_load |]. intros entry.
  destruct (negb _); [exact IH |]. cbn zeta.
  eapply hoare_bind; [by apply hoare_load |]. intros table_capacity.
  eapply hoare_bind; [apply hoare_DCHECK |]. intros [].
  eapply hoare_weaken; [apply hoare_return | by intros s [Hs _] | done].
Qed.

Lemma hoare_Mark_kept fuel handle handle_location :
  hoare (kept_marked index) (Mark fuel handle handle_location)
    (λ _ s, kept_marked index s).
Proof.
  intros s [] s' trace Hs Hmark. pose proof Hs as [Hfits Hmarked].
  destruct (run_Mark_returns _ _ _ _ _ _ Hfits Hmark)
    as (s1 & trace1 & old_entry & Hslot & Hevacuate & Hold & Hold1
        & Hregular & -> & _).
  apply kept_store; [|done | intros _; apply IsMarked_SetMarkBit].
  destruct (run_evacuate_returns _ _ _ _ _ _ _ Hfits Hevacuate)
    as [Hbelow|[(Habove & Hcompacting & Hhead & fuel' & ->)
               |(Habove & Hcompacting & Hhead & (entry & Hentry & Hfree)
                 & [slot Hslot'] & fuel' & ->)]].
  - rewrite run_evacuate_not_needed in Hevacuate by done.
    by injection Hevacuate as <- _.
  - rewrite run_evacuate_aborts in Hevacuate by done.
    by injection Hevacuate as <- _.
  - rewrite (run_evacuate_claims _ _ _ _ _ entry slot) in Hevacuate by done.
    injection Hevacuate as <- _.
    apply (kept_store (set_freelist_head s _)); [done | done |].
    intros Hsame. rewrite Hsame in Hentry.
    by rewrite (kept_not_free _ _ Hs Hentry) in Hfree.
Qed.

Lemma hoare_invoke_kept fuel call :
  hoare (kept_marked index) (invoke fuel call) (λ _ s, kept_marked index s).
Proof.
  destruct call as [handle tag|handle value tag|handle value tag|head
                   |initial_value tag|boundary| |handle handle_location| |].
  - cbn [invoke]. intros s value s' trace Hs. rewrite run_Get.
    destruct (entry_at _ _) as [entry|]; [|done].
    destruct (IsRegularEntry entry); [|done].
    destruct (Untag entry tag); [|done]. by intros [= _ <- _].
  - intros s result s' trace Hs. rewrite run_invoke_Set.
    destruct (Z.eqb_spec (Z.land tag kExternalPointerMarkBit) 0) as [|Hmark];
      [by rewrite andb_false_r |].
    destruct (_ && _); [|done].
    destruct (entry_at _ _) as [old|] eqn:Hold; [|done].
    intros [= _ <- _]. apply kept_store; [done | done |].
    intros _. by apply IsMarked_regular_entry.
  - cbn [invoke]. intros s result s' trace Hs. rewrite run_Exchange.
    destruct (Z.eqb_spec (Z.land tag kExternalPointerMarkBit) 0) as [|Hmark];
      [by rewrite andb_false_r |].
    destruct (_ && _); [|done].
    destruct (entry_at _ _) as [old|] eqn:Hold; [|done].
    destruct (IsRegularEntry old); [|done].
    destruct (Untag old tag); [|done].
    intros [= _ <- _]. apply kept_store; [done | done |].
    intros _. by apply IsMarked_regular_entry.
  - cbn [invoke].
    eapply hoare_bind; [apply hoare_TryAllocateEntryFromFreelist_kept |].
    intros success.
    eapply hoare_weaken; [apply hoare_return | by intros s [Hs _] | done].
  - cbn [invoke]. unfold AllocateAndInitializeEntry.
    eapply hoare_bind; [apply hoare_allocate_loop_kept |]. intros head.
    eapply hoare_bind with (Q' := λ _ s, kept_marked index s);
      [|intros ?; apply hoare_return].
    apply hoare_perform. intros s v s' [Hs Hne]. cbn.
    destruct (entry_at (buffer_ s) head) as [old|] eqn:Hold; [|done].
    intros [= _ <-]. by apply kept_store.
  - apply hoare_AllocateEvacuationEntry_kept.
  - apply hoare_FreelistSize_kept.
  - cbn [invoke]. eapply hoare_bind; [apply hoare_Mark_kept |]. intros ?.
    apply hoare_return.
  - cbn [invoke].
    eapply hoare_bind with (Q' := λ _ s, kept_marked index s);
      [|intros ?; apply hoare_return].
    unfold IsCompacting.
    eapply hoare_bind; [by apply hoare_load |]. intros ?. apply hoare_return.
  - cbn [invoke].
    eapply hoare_bind with (Q' := λ _ s, kept_marked index s);
      [|intros ?; apply hoare_return].
    unfold CompactingWasAbortedDuringMarking.
    eapply hoare_bind; [by apply hoare_load |]. intros ?. apply hoare_return.
Qed.

Lemma hoare_invoke_all_kept fuel calls :
  hoare (kept_marked index) (invoke_all fuel calls)
    (λ _ s, kept_marked index s).
Proof.
  induction calls as [|call calls IH]; cbn [invoke_all];
    [apply hoare_return |].
  eapply hoare_bind; [apply hoare_invoke_kept |]. intros ?. exact IH.
Qed.

End Marked.

(** X15.  No method clears a mark bit.  Free entries being unmarked, an
    entry that is marked is still marked after any sequence of calls of
    the methods, whatever their arguments: [Set] and [Exchange] write
    marked entries, [Mark] sets the bit, and the allocations write to
    entries taken off the freelist only. *)
Theorem marked_entries_stay_marked fuel calls s s' trace index :
  (∀ entry, IsFreelistEntry entry = true → IsMarked entry = false) →
  table_fits s →
  marked_at index s →
  run (invoke_all fuel calls) s = Done tt s' trace →
  marked_at index s'.
Proof.
  intros Hfree Hfits Hmarked Hrun.
  by destruct (hoare_invoke_all_kept index Hfree fuel calls s tt s' trace).
Qed.

(** ** Set and Get while other entries are written *)

(** X16.  Writes to other entries do not disturb a handle: when the other
    threads do nothing but [Set] and [Exchange] on handles of other
    entries, in any number and at any moment, a [Get] that follows a [Set]
    on the same handle returns the pointer that was set. *)
Theorem Set_then_Get_among_other_writes
    env_fuel schedule n s handle value tag result s' trace :
  pointer_tag tag →
  (∀ k, Forall (λ call, is_mutator_write call = true) (schedule k)) →
  (∀ k call entry,
     call ∈ schedule k →
     ¬ mutator_write call (HandleToIndex handle) entry) →
  exec (calls_env env_fuel schedule) n
    (Set_ handle value tag;; Get handle tag) s
    = Done result s' trace →
  result = value
  ∧ entry_at (buffer_ s') (HandleToIndex handle)
    = Some (MakeRegularEntry value tag)
  ∧ trace = [(RelaxedStore (HandleToIndex handle)
                (MakeRegularEntry value tag), 0);
             (RelaxedLoad (HandleToIndex handle),
              MakeRegularEntry value tag)].
Proof.
  intros Htag Hwrites Hothers.
  pose proof Htag as (Hmask & _).
  assert (∀ k s0 s1,
            calls_env env_fuel schedule k s0 = Some s1 →
            entry_at (buffer_ s1) (HandleToIndex handle)
            = entry_at (buffer_ s0) (HandleToIndex handle)) as Henv.
  { intros k s0 s1. unfold calls_env.
    destruct (run (invoke_all env_fuel (schedule k)) s0)
      as [[] s2 trace2| |] eqn:Hrun; [|done..].
    intros [= <-].
    destruct (run_mutator_writes _ _ _ _ _ (HandleToIndex handle)
                (Hwrites k) Hrun) as [Hsame|(call & entry & Hin & Hwrite & _)];
      [done |].
    by destruct (Hothers k call entry). }
  unfold Set_, Get.
  destruct (Z.eqb_spec handle kNullExternalPointerHandle); [done |].
  destruct (Z.eqb_spec (Z.land value kExternalPointerTagMask) 0)
    as [Hvalue|]; [|done].
  destruct (Z.eqb_spec (Z.land tag kExternalPointerMarkBit) 0); [done |].
  cbn.
  destruct (calls_env env_fuel schedule n s) as [s1|]; [|done].
  destruct (entry_at (buffer_ s1) (HandleToIndex handle)) as [old|] eqn:Hold;
    [|done].
  apply entry_at_Some in Hold.
  destruct (calls_env env_fuel schedule (S n) _) as [s2|] eqn:Hs2; [|done].
  apply Henv in Hs2. rewrite buffer_store_entry in Hs2.
  rewrite entry_at_insert in Hs2 by done.
  rewrite Hs2. cbn.
  rewrite IsRegularEntry_regular_entry by done. cbn.
  rewrite Untag_regular_entry by done. cbn.
  by intros [= <- <- <-].
Qed.

(** ** Exchanges by several threads *)

Section Exchanges.
Variable handle : ExternalPointerHandle.
Variable tag : ExternalPointerTag.
Variable initial_value : Address.
Hypothesis handle_not_null : handle ≠ kNullExternalPointerHandle.
Hypothesis tag_is_pointer_tag : pointer_tag tag.
Hypothesis tag_is_marked : Z.land tag kExternalPointerMarkBit ≠ 0.

(** With its checks passed, [Exchange] is one access followed by the
    check and the untagging of what the access returned. *)
Lemma Exchange_access value :
  Z.land value kExternalPointerTagMask = 0 →
  Exchange handle value tag
  = Do (RelaxedExchange (HandleToIndex handle) (MakeRegularEntry value tag))
       (λ old_entry,
          DCHECK (IsRegularEntry old_entry);; checked (Untag old_entry tag)).
Proof.
  intros Hvalue. unfold Exchange.
  rewrite (proj2 (Z.eqb_neq _ _) handle_not_null),
    (proj2 (Z.eqb_eq _ _) Hvalue), (proj2 (Z.eqb_neq _ _) tag_is_marked).
  reflexivity.
Qed.

Lemma completed_insert exchangers i value old_value :
  exchangers !! i = Some (value, None) →
  completed (<[i := (value, Some old_value)]> exchangers)
  ≡ₚ (value, old_value) :: completed exchangers.
Proof.
  unfold completed. revert i.
  induction exchangers as [|[value' [old_value'|]] exchangers IH];
    intros [|i]; cbn; try done.
  - intros Hi. rewrite (IH _ Hi). apply Permutation_swap.
  - intros Hi. by apply IH.
Qed.

Lemma exchanges_completed exchangers :
  Forall (λ exchanger : Address * option Address,
            Z.land exchanger.1 kExternalPointerTagMask = 0) exchangers →
  exchanges exchangers.*1 (exchanger_prog handle tag <$> exchangers)
  = completed exchangers.
Proof.
  unfold exchanges, completed.
  induction 1 as [|[value [old_value|]] exchangers Hvalue _ IH]; cbn;
    [done | by rewrite IH |].
  unfold exchanger_prog at 1. cbn [fst snd].
  rewrite Exchange_access by done. exact IH.
Qed.

Lemma interleave_exchangers schedule exchangers s :
  exchangers_invariant handle tag initial_value exchangers s →
  ∃ exchangers' s',
    interleave schedule (exchanger_prog handle tag <$> exchangers) s
      = Some (exchanger_prog handle tag <$> exchangers', s')
    ∧ exchangers'.*1 = exchangers.*1
    ∧ exchangers_invariant handle tag initial_value exchangers' s'.
Proof.
  pose proof tag_is_pointer_tag as (Hmask & _).
  revert exchangers s.
  induction schedule as [|i schedule IH]; intros exchangers s Hinv.
  { by exists exchangers, s. }
  cbn [interleave]. rewrite list_lookup_fmap.
  destruct (exchangers !! i) as [[value [old_value|]]|] eqn:Hi;
    cbn [fmap option_fmap option_map]; [by apply IH | | by apply IH].
  destruct Hinv as (Hvalues & current & Hcurrent & Hentry & Hconserved).
  assert (Z.land value kExternalPointerTagMask = 0) as Hvalue.
  { rewrite Forall_forall in Hvalues.
    apply (Hvalues (value, None)). by eapply list_elem_of_lookup_2. }
  unfold exchanger_prog at 1. cbn [fst snd].
  rewrite Exchange_access by done.
  cbn [access]. rewrite Hentry.
  rewrite IsRegularEntry_regular_entry, Untag_regular_entry by done.
  cbn [DCHECK checked mbind prog_mbind prog_bind].
  change (Ret current)
    with (exchanger_prog handle tag (value, Some current)).
  rewrite <- list_fmap_insert.
  destruct (IH (<[i := (value, Some current)]> exchangers)
              (store_entry s (HandleToIndex handle)
                 (MakeRegularEntry value tag)))
    as (exchangers' & s' & Hrun & Hsame & Hinv').
  { split.
    - apply Forall_insert; done.
    - exists value. split; [done |]. split.
      + rewrite buffer_store_entry. apply entry_at_insert.
        by apply entry_at_Some in Hentry.
      + rewrite (completed_insert _ _ _ _ Hi). cbn [fmap list_fmap fst snd].
        rewrite Hconserved. apply Permutation_swap. }
  exists exchangers', s'. split; [done |]. split; [|done].
  rewrite Hsame, list_fmap_insert. cbn [fst].
  apply list_insert_id. by rewrite list_lookup_fmap, Hi.
Qed.

End Exchanges.

(** X18.  [Exchange] is atomic.  When any number of threads exchange the
    pointer of one handle at the same time, under one tag, no thread fails
    a check, the entry always holds one of the pointers, and no pointer is
    lost or handed out twice: the pointers received by the threads that
    have returned, together with the pointer in the entry, are the
    pointers those threads have stored, together with the pointer the
    entry held at first. *)
Theorem concurrent_exchanges_conserve_pointers
    schedule handle tag initial_value (values : list Address) s :
  handle ≠ kNullExternalPointerHandle →
  pointer_tag tag →
  Z.land tag kExternalPointerMarkBit ≠ 0 →
  Forall (λ value, Z.land value kExternalPointerTagMask = 0)
    (initial_value :: values) →
  entry_at (buffer_ s) (HandleToIndex handle)
    = Some (MakeRegularEntry initial_value tag) →
  ∃ threads' s' current,
    interleave schedule ((λ value, Exchange handle value tag) <$> values) s
      = Some (threads', s')
    ∧ entry_at (buffer_ s') (HandleToIndex handle)
      = Some (MakeRegularEntry current tag)
    ∧ current :: (exchanges values threads').*2
      ≡ₚ initial_value :: (exchanges values threads').*1
    ∧ Forall2 (λ value thread,
                 thread = Exchange handle value tag
                 ∨ ∃ old_value, thread = Ret old_value) values threads'.
Proof.
  intros Hhandle Htag Hmark Hvalues Hentry.
  apply Forall_cons in Hvalues as [Hinitial Hvalues].
  assert ((λ value, Exchange handle value tag) <$> values
          = exchanger_prog handle tag <$> ((λ value, (value, None)) <$> values))
    as -> by (by rewrite <- list_fmap_compose).
  assert (Forall (λ exchanger : Address * option Address,
                    Z.land exchanger.1 kExternalPointerTagMask = 0)
            ((λ value, (value, None)) <$> values)) as Hgiven.
  { rewrite Forall_fmap. by eapply Forall_impl. }
  destruct (interleave_exchangers handle tag initial_value Hhandle Htag Hmark
              schedule ((λ value, (value, None)) <$> values) s)
    as (exchangers' & s' & Hrun & Hsame & Hinv').
  { split; [done |]. exists initial_value. split; [done |].
    split; [done |].
    assert (completed ((λ value : Z, (value, @None Z)) <$> values) = [])
      as ->; [|done].
    clear. unfold completed. by induction values. }
  rewrite <- list_fmap_compose in Hsame.
  change (fst ∘ _) with (@id Z) in Hsame. rewrite list_fmap_id in Hsame.
  destruct Hinv' as (Hgiven' & current & Hcurrent & Hentry' & Hconserved).
  exists (exchanger_prog handle tag <$> exchangers'), s', current.
  split; [done |]. split; [done |].
  rewrite <- Hsame.
  rewrite (exchanges_completed handle tag Hhandle Hmark) by done.
  split; [done |].
  clear. induction exchangers' as [|[value [old_value|]] ? IH]; cbn;
    constructor; try done.
  - right. by exists old_value.
  - by left.
Qed.

(** ** The direction of evacuation *)

Lemma ensures_performs_only {A} I allowed (p : prog A) :
  performs_only allowed p →
  ensures I (λ trace _, Forall (λ ev, allowed ev.1 = true) trace) p.
Proof.
  induction 1 as [a| | |a k Ha Hk IH].
  - by constructor.
  - constructor.
  - constructor.
  - constructor. intros s v s' Hs Hacc.
    eapply ensures_weaken; [apply IH |].
    intros trace r Htrace. by constructor.
Qed.

Lemma ensures_and {A} I (Q1 Q2 : list Event → A → Prop) (p : prog A) :
  ensures I Q1 p →
  ensures I Q2 p →
  ensures I (λ trace a, Q1 trace a ∧ Q2 trace a) p.
Proof.
  intros H1. revert Q2.
  induction H1 as [Q0 a Ha|Q0|Q0|Q0 a k Hk IH]; intros Q2 H2.
  - inversion H2; subst. by constructor.
  - constructor.
  - constructor.
  - inversion H2 as [| | |Q0' a' k' Hk2]; subst.
    constructor. intros s v s' Hs Hacc.
    apply (IH _ _ _ Hs Hacc (λ trace, Q2 ((a, v) :: trace))).
    by apply (Hk2 s v s').
Qed.

Lemma start_of_evacuation_area_loaded_app trace trace' boundary :
  start_of_evacuation_area_loaded trace = Some boundary →
  start_of_evacuation_area_loaded (trace ++ trace') = Some boundary.
Proof.
  induction trace as [|[a v] trace IH]; cbn; [done |]. by destruct a.
Qed.

Lemma stores_below_loads boundary entry trace :
  Forall (λ ev : Event, is_Store ev.1 = false) trace →
  stores_below boundary entry trace.
Proof.
  unfold stores_below. intros Hloads.
  eapply Forall_impl; [exact Hloads |]. intros [a v] Ha. cbn in *.
  by destruct a.
Qed.

Lemma ensures_evacuate fuel handle handle_location index :
  ensures table_fits
    (λ trace _,
       ∃ boundary,
         start_of_evacuation_area_loaded trace = Some boundary
         ∧ stores_below boundary (MakeEvacuationEntry handle_location) trace
         ∧ (Exists (λ ev, is_Store ev.1 = true) trace → boundary ≤ index))
    (evacuate fuel handle handle_location index).
Proof.
  unfold evacuate. constructor. intros s boundary s' Hs [= <- <-].
  destruct (Z.leb_spec (start_of_evacuation_area_ s) index) as [Habove|].
  2: { constructor. exists (start_of_evacuation_area_ s).
       split; [done |]. split; [by repeat constructor |].
       intros Hstore. apply Exists_cons in Hstore as [|Hstore]; [done |].
       by apply Exists_nil in Hstore. }
  set (boundary := start_of_evacuation_area_ s).
  cbn -[AllocateEvacuationEntry].
  constructor. intros s1 start1 s1' Hs1 [= <- <-].
  destruct (negb (start_of_evacuation_area_ s1 =? kNotCompactingMarker));
    cbn -[AllocateEvacuationEntry]; [|constructor].
  change (prog_bind ?f ?p) with (p ≫= f).
  eapply ensures_bind.
  { apply ensures_and; [apply ensures_AllocateEvacuationEntry |].
    apply (ensures_performs_only _ (λ a, negb (is_Store a))).
    apply performs_only_AllocateEvacuationEntry; done. }
  intros trace new_handle [(head & _ & Hhandle) Hloads].
  assert (Forall (λ ev : Event, is_Store ev.1 = false) trace) as Hloads'.
  { eapply Forall_impl; [exact Hloads |]. intros ev. apply negb_true_iff. }
  destruct Hhandle as [[_ ->]|(Hhead & Hmax & ->)].
  - cbn. constructor. intros s2 v2 s2' Hs2 Hacc2. constructor.
    exists boundary. split; [done |]. split.
    + apply Forall_cons. split; [done |]. apply Forall_cons.
      split; [done |]. apply Forall_app. split.
      * by apply stores_below_loads.
      * by repeat constructor.
    + done.
  - rewrite (proj2 (Z.eqb_neq _ _)) by (apply IndexToHandle_nonzero; lia).
    rewrite HandleToIndex_IndexToHandle by lia.
    cbn. rewrite (proj2 (Z.ltb_lt head boundary)) by lia. cbn.
    constructor. intros s2 v2 s2' Hs2 Hacc2.
    constructor. intros s3 v3 s3' Hs3 Hacc3. constructor.
    exists boundary. split; [done |]. split; [|done].
    apply Forall_cons. split; [done |]. apply Forall_cons.
    split; [done |]. apply Forall_app. split.
    + by apply stores_below_loads.
    + apply Forall_cons. split; [by cbn |]. by repeat constructor.
Qed.

(** X19.  Evacuation moves entries downwards.  Whatever other threads do
    between the accesses of [Mark], to the start of the evacuation area in
    particular, the only entry that [Mark] overwrites with a [Store] is an
    evacuation entry for its handle location, at an index below the start
    of the evacuation area that it loaded first, and so below the index of
    the entry that is evacuated. *)
Theorem Mark_evacuates_downwards
    fuel env n s handle handle_location s' trace :
  (∀ n s s1, table_fits s → env n s = Some s1 → table_fits s1) →
  table_fits s →
  exec env n (Mark fuel handle handle_location) s = Done tt s' trace →
  ∃ boundary,
    start_of_evacuation_area_loaded trace = Some boundary
    ∧ stores_below boundary (MakeEvacuationEntry handle_location) trace
    ∧ (Exists (λ ev, is_Store ev.1 = true) trace →
       boundary ≤ HandleToIndex handle).
Proof.
  intros Henv Hs Hexec.
  apply (exec_ensures table_fits
           (λ trace _,
              ∃ boundary,
                start_of_evacuation_area_loaded trace = Some boundary
                ∧ stores_below boundary
                    (MakeEvacuationEntry handle_location) trace
                ∧ (Exists (λ ev, is_Store ev.1 = true) trace →
                   boundary ≤ HandleToIndex handle))
           env (Mark fuel handle handle_location) n s tt s' trace Henv
           access_table_fits); [|done..].
  unfold Mark. constructor. intros s0 stored s0' Hs0 Hacc0.
  destruct (handle =? stored); cbn -[evacuate mark_alive]; [|constructor].
  change (prog_bind ?f ?p) with (p ≫= f).
  eapply ensures_bind; [apply ensures_evacuate |].
  intros trace1 [] (boundary & Hloaded & Hstores & Habove).
  eapply ensures_weaken.
  { apply (ensures_performs_only _ (λ a, negb (is_Store a))).
    unfold mark_alive.
    repeat first
      [ apply performs_only_bind; [|intros ?]
      | apply performs_only_DCHECK
      | by apply performs_only_perform
      | constructor ]. }
  intros trace2 [] Hloads. cbn beta.
  assert (Forall (λ ev : Event, is_Store ev.1 = false) trace2) as Hloads'.
  { eapply Forall_impl; [exact Hloads |]. intros ev. apply negb_true_iff. }
  exists boundary. split_and!.
  - cbn. by apply start_of_evacuation_area_loaded_app.
  - apply Forall_cons. split; [done |]. apply Forall_app.
    split; [done | by apply stores_below_loads].
  - intros Hstore. apply Habove.
    apply Exists_cons in Hstore as [|Hstore]; [done |].
    apply Exists_app in Hstore as [|Hstore]; [done |].
    apply Exists_exists in Hstore as (ev & Hin & Hev).
    rewrite Forall_forall in Hloads'. by rewrite (Hloads' _ Hin) in Hev.
Qed.

(** ** Marking while other threads allocate *)

Lemma rest_of_mark_step handle handle_location point a k :
  rest_of_mark handle handle_location point = Do a k →
  next_mark_access handle handle_location point = Some a
  ∧ ∀ value,
      k value
      = rest_of_mark handle handle_location
          (next_mark_point handle point value).
Proof.
  destruct point
    as [fuel|fuel|fuel start|[|fuel] start|fuel start head
       |fuel start head table_capacity|fuel start head entry|index| |start
       | |old_entry| |]; cbn; try discriminate.
  - intros [= <- <-]. split; [done |]. intros value.
    by destruct (handle =? value).
  - intros [= <- <-]. split; [done |]. intros value.
    by destruct (value <=? HandleToIndex handle).
  - intros [= <- <-]. split; [done |]. intros value.
    by destruct (value =? kNotCompactingMarker).
  - intros [= <- <-]. split; [done |]. intros value.
    by destruct ((value =? 0) || (start <=? value)).
  - unfold TryAllocateEntryFromFreelist.
    destruct (head =? 0); cbn; [discriminate |].
    intros [= <- <-]. by split.
  - unfold claim_after_capacity.
    destruct (head <? table_capacity); cbn; [|discriminate].
    intros [= <- <-]. by split.
  - intros [= <- <-]. split; [done |]. intros value.
    destruct (value =? head); cbn; [|done].
    destruct (IsFreelistEntry entry); cbn; [|done].
    unfold relocate.
    destruct (negb (IndexToHandle head =? kNullExternalPointerHandle));
      cbn; [|done].
    by destruct (HandleToIndex (IndexToHandle head) <? start).
  - intros [= <- <-]. by split.
  - intros [= <- <-]. by split.
  - intros [= <- <-]. by split.
  - intros [= <- <-]. split; [done |]. intros value.
    by destruct (IsRegularEntry value).
  - intros [= <- <-]. split; [done |]. intros value.
    by destruct ((value =? old_entry) || IsMarked value).
Qed.

Lemma worker_prog_step worker a k :
  worker_prog worker = Do a k →
  ∀ value, k value = worker_prog (worker_next worker value).
Proof.
  destruct worker
    as [initial_value tag point|handle handle_location point|p|index p];
    cbn.
  - intros Hrest. by apply rest_of_allocation_step in Hrest as [_ ?].
  - intros Hrest. by apply rest_of_mark_step in Hrest as [_ ?].
  - by intros ->.
  - by intros ->.
Qed.

Lemma worker_call_next worker value :
  worker_call (worker_next worker value) = worker_call worker.
Proof. destruct worker as [| |[]|? []]; done. Qed.

Lemma worker_prog_of fuel call :
  worker_prog (worker_of fuel call) = invoke fuel call.
Proof. by destruct call. Qed.

(** The mutex part of the invariant after a step of thread [i]. *)
Lemma worker_mutex_update workers s i w w' s' :
  workers_invariant workers s →
  workers !! i = Some w →
  (worker_holds w' = worker_holds w → mutex_ s' = mutex_ s) →
  (worker_holds w = false → worker_holds w' = true →
   mutex_ s = false ∧ mutex_ s' = true) →
  (worker_holds w = true → worker_holds w' = false → mutex_ s' = false) →
  (mutex_ s' = true ↔
   worker_holds w' = true
   ∨ ∃ j wj, j ≠ i ∧ workers !! j = Some wj ∧ worker_holds wj = true)
  ∧ (∀ j wj, j ≠ i → workers !! j = Some wj →
       worker_holds wj = true → worker_holds w' = false).
Proof.
  intros (_ & nodes & _ & _ & _ & _ & _ & Hmutex & Hunique) Hi Hsame Hlock
    Hunlock.
  assert (∀ j wj, j ≠ i → workers !! j = Some wj →
            worker_holds wj = true →
            mutex_ s = true ∧ worker_holds w = false) as Hother.
  { intros j wj Hj Hwj Hholds. split.
    - apply Hmutex. by exists j, wj.
    - destruct (worker_holds w) eqn:Hw; [|done].
      by destruct Hj; apply (Hunique j i wj w). }
  split.
  - destruct (worker_holds w') eqn:Hw', (worker_holds w) eqn:Hw.
    + rewrite Hsame by done. split; [by left |]. intros _.
      apply Hmutex. by exists i, w.
    + destruct Hlock as [_ ->]; [done.. |]. split; [by left | done].
    + rewrite Hunlock by done. split; [done |].
      intros [|(j & wj & Hj & Hwj & Hholds)]; [done |].
      destruct (Hother j wj) as [_ ?]; done.
    + rewrite Hsame by done. rewrite Hmutex. split.
      * intros (j & wj & Hwj & Hholds). right. exists j, wj.
        split; [|done]. intros ->. rewrite Hi in Hwj.
        injection Hwj as <-. by rewrite Hw in Hholds.
      * intros [|(j & wj & Hj & Hwj & Hholds)]; [done |]. by exists j, wj.
  - intros j wj Hj Hwj Hholds.
    destruct (Hother j wj) as [Hheld Hw]; [done.. |].
    destruct (worker_holds w') eqn:Hw'; [|done].
    destruct Hlock as [Hfree _]; [done.. |]. by rewrite Hfree in Hheld.
Qed.

(** The invariant after a step of thread [i], from what holds of the other
    threads and of thread [i] in the new state. *)
Lemma workers_invariant_update workers s i w w' s' nodes' :
  workers_invariant workers s →
  workers !! i = Some w →
  table_fits s' →
  freelist_from (buffer_ s') (freelist_head_ s') nodes' →
  (∀ j wj, j ≠ i → workers !! j = Some wj →
     worker_consistent s' nodes' wj
     ∧ (∀ head, worker_owned wj = Some head →
          0 < head < capacity s' ∧ (head ∉ nodes')
          ∧ worker_owned w' ≠ Some head)
     ∧ (∀ index, worker_writes wj = Some index →
          worker_owned w' ≠ Some index)) →
  worker_consistent s' nodes' w' →
  (∀ head, worker_owned w' = Some head →
     0 < head < capacity s' ∧ head ∉ nodes') →
  worker_writes w' = None →
  (worker_holds w' = worker_holds w → mutex_ s' = mutex_ s) →
  (worker_holds w = false → worker_holds w' = true →
   mutex_ s = false ∧ mutex_ s' = true) →
  (worker_holds w = true → worker_holds w' = false → mutex_ s' = false) →
  workers_invariant (<[i := w']> workers) s'.
Proof.
  intros Hinv Hi Hfits Hfrom Hothers Hpoint Hown Hwrites Hsame Hlock
    Hunlock.
  destruct (worker_mutex_update _ _ _ _ w' s' Hinv Hi Hsame Hlock Hunlock)
    as [Hmutex' Hexclusive].
  destruct Hinv
    as (_ & nodes & _ & Hinjective & _ & Hreserved & _ & _ & Hunique).
  pose proof (lookup_lt_Some _ _ _ Hi) as Hlt.
  assert (∀ j wj, <[i := w']> workers !! j = Some wj →
            (j = i ∧ wj = w') ∨ (j ≠ i ∧ workers !! j = Some wj))
    as Hlookup.
  { intros j wj Hj. destruct (decide (j = i)) as [->|Hne].
    - rewrite list_lookup_insert_eq in Hj by done. left.
      by injection Hj as <-.
    - rewrite list_lookup_insert_ne in Hj by done. by right. }
  split; [done |]. exists nodes'. split_and!.
  - done.
  - intros j k wj wk head Hj Hk Hownj Hownk.
    destruct (Hlookup _ _ Hj) as [[-> ->]|[Hjne Hj']],
      (Hlookup _ _ Hk) as [[-> ->]|[Hkne Hk']]; [done | | |].
    + destruct (Hothers k wk Hkne Hk') as (_ & Hk_own & _).
      by destruct (Hk_own head Hownk) as (_ & _ & []).
    + destruct (Hothers j wj Hjne Hj') as (_ & Hj_own & _).
      by destruct (Hj_own head Hownj) as (_ & _ & []).
    + by apply (Hinjective j k wj wk head).
  - intros j wj head Hj Hownj.
    destruct (Hlookup _ _ Hj) as [[-> ->]|[Hjne Hj']]; [by apply Hown |].
    destruct (Hothers j wj Hjne Hj') as (_ & Hj_own & _).
    by destruct (Hj_own head Hownj) as (? & ? & _).
  - intros j k wj wk index Hj Hk Hwritesj.
    destruct (Hlookup _ _ Hj) as [[-> ->]|[Hjne Hj']];
      [by rewrite Hwrites in Hwritesj |].
    destruct (Hlookup _ _ Hk) as [[-> ->]|[Hkne Hk']].
    + destruct (Hothers j wj Hjne Hj') as (_ & _ & Hj_writes).
      by apply Hj_writes.
    + by apply (Hreserved j k wj wk).
  - intros j wj Hj.
    destruct (Hlookup _ _ Hj) as [[-> ->]|[Hjne Hj']]; [done |].
    by destruct (Hothers j wj Hjne Hj') as [? _].
  - rewrite Hmutex'. split.
    + intros [Hholds|(j & wj & Hj & Hwj & Hholds)].
      * exists i, w'. by rewrite list_lookup_insert_eq.
      * exists j, wj. by rewrite list_lookup_insert_ne.
    + intros (j & wj & Hj & Hholds).
      destruct (Hlookup _ _ Hj) as [[-> ->]|[Hjne Hj']]; [by left |].
      right. by exists j, wj.
  - intros j k wj wk Hj Hk Hholdj Hholdk.
    destruct (Hlookup _ _ Hj) as [[-> ->]|[Hjne Hj']],
      (Hlookup _ _ Hk) as [[-> ->]|[Hkne Hk']]; [done | | |].
    + by rewrite (Hexclusive k wk) in Hholdj.
    + by rewrite (Hexclusive j wj) in Hholdk.
    + by apply (Hunique j k wj wk).
Qed.

Lemma IsRegularEntry_not_free entry :
  IsRegularEntry entry = true → IsFreelistEntry entry = false.
Proof.
  unfold IsRegularEntry. by destruct (IsFreelistEntry entry).
Qed.

(** What holds of the threads other than [i] after a step of thread [i]
    that changes no entry but one it has taken off the freelist, one that
    is not free, by setting its mark bit, or one that a thread is to write,
    by storing a marked entry. *)
Lemma workers_frame workers s nodes i w w' s' nodes' :
  workers_invariant workers s →
  freelist_from (buffer_ s) (freelist_head_ s) nodes →
  workers !! i = Some w →
  capacity s ≤ capacity s' →
  (∀ head, head < capacity s → head ∈ nodes' →
     head ∈ nodes
     ∧ entry_at (buffer_ s') head = entry_at (buffer_ s) head) →
  (∀ index entry,
     entry_at (buffer_ s) index = Some entry →
     entry_at (buffer_ s') index = Some entry
     ∨ (worker_owned w = Some index ∧ IsFreelistEntry entry = true)
     ∨ (IsFreelistEntry entry = false
        ∧ entry_at (buffer_ s') index = Some (SetMarkBit entry))
     ∨ (worker_writes w = Some index
        ∧ ∃ entry',
            entry_at (buffer_ s') index = Some entry'
            ∧ IsMarked entry' = true)) →
  (∀ j initial_value tag fuel, j ≠ i →
     workers !! j = Some (Allocating initial_value tag (At_grow fuel)) →
     freelist_head_ s' = 0) →
  (∀ head, worker_owned w' = Some head →
     worker_owned w = Some head ∨ head ∈ nodes) →
  ∀ j wj, j ≠ i → workers !! j = Some wj →
    worker_consistent s' nodes' wj
    ∧ (∀ head, worker_owned wj = Some head →
         0 < head < capacity s' ∧ (head ∉ nodes')
         ∧ worker_owned w' ≠ Some head)
    ∧ (∀ index, worker_writes wj = Some index →
         worker_owned w' ≠ Some index).
Proof.
  intros (_ & nodes0 & Hfrom0 & Hinjective & Hown & Hreserved & Hpoints & _)
    Hfrom Hi Hcapacity Hnodes Hentries Hgrow Hw' j wj Hj Hwj.
  assert (nodes0 = nodes) as -> by (by eapply freelist_from_unique).
  pose proof (Hpoints _ _ Hwj) as Hpoint.
  pose proof (Hpoints _ _ Hi) as Hpoint_i.
  assert (∀ head entry,
            worker_owned wj = Some head →
            entry_at (buffer_ s) head = Some entry →
            IsFreelistEntry entry = true →
            entry_at (buffer_ s') head = Some entry) as Htaken.
  { intros head entry Hhead Hentry Hfree.
    destruct (Hentries _ _ Hentry)
      as [?|[[Hhead' _]|[[Hnot _]|[Hwrites _]]]]; [done | | |].
    - by destruct Hj; apply (Hinjective j i wj w head).
    - by rewrite Hfree in Hnot.
    - by destruct (Hreserved i j w wj head). }
  split; [|split].
  - destruct wj
      as [initial_value tag point|handle handle_location point|p|index p];
      cbn in *; [| |done |].
    + destruct point
        as [fuel|fuel|fuel|fuel|fuel head|fuel head
           |fuel head table_capacity|fuel head entry|head|head|];
        try done.
      * by apply (Hgrow j initial_value tag fuel).
      * lia.
      * lia.
      * lia.
      * destruct Hpoint as [Hrange Hentry]. split; [lia |].
        intros Hin. destruct (Hnodes head) as [Hin' ->]; [lia | done |].
        by apply Hentry.
      * destruct Hpoint as (entry & Hentry & Hfree). exists entry.
        split; [|done]. by apply Htaken.
      * assert (∀ entry,
                  entry_at (buffer_ s) head = Some entry →
                  entry_at (buffer_ s') head = Some entry
                  ∨ entry_at (buffer_ s') head = Some (SetMarkBit entry))
          as Hhead.
        { intros entry Hentry.
          destruct (Hentries _ _ Hentry)
            as [?|[[Hhead' _]|[[_ ?]|[Hwrites _]]]]; [by left | | by right |].
          - by destruct Hj; apply (Hinjective j i _ w head Hwj Hi).
          - by destruct (Hreserved i j w _ head Hi Hwj). }
        destruct Hpoint as [Hentry|Hentry];
          destruct (Hhead _ Hentry) as [?|Hmarked];
          [by left | by right | by right |].
        right. by rewrite SetMarkBit_twice in Hmarked.
    + destruct point
        as [fuel|fuel|fuel start|fuel start|fuel start head
           |fuel start head table_capacity|fuel start head entry|index|
           |start| |old_entry| |]; try done.
      * lia.
      * lia.
      * destruct Hpoint as [Hrange Hentry]. split; [lia |].
        intros Hin. destruct (Hnodes head) as [Hin' ->]; [lia | done |].
        by apply Hentry.
      * destruct Hpoint as (entry & Hentry & Hfree). exists entry.
        split; [|done]. by apply Htaken.
      * intros Hmarked_taken.
        destruct (Hpoint Hmarked_taken) as (entry & Hentry & Hmarked).
        destruct (Hentries _ _ Hentry)
          as [?|[[_ Hfree]|[[_ ?]|[_ (entry' & ? & ?)]]]].
        -- by exists entry.
        -- by rewrite (Hmarked_taken _ Hfree) in Hmarked.
        -- exists (SetMarkBit entry). split; [done |].
           apply IsMarked_SetMarkBit.
        -- by exists entry'.
    + destruct p as [| | |a k]; try done.
      destruct Hpoint as (Hstore & Hloads & Hrange & Hnotin).
      split; [done |]. split; [done |]. split; [lia |].
      intros Hin. by destruct (Hnodes index) as [? _]; [lia | |].
  - intros head Hhead.
    destruct (Hown _ _ _ Hwj Hhead) as [Hrange Hnotin].
    split; [lia |]. split.
    + intros Hin. by destruct (Hnodes head) as [? _]; [lia | |].
    + intros Hhead'. destruct (Hw' _ Hhead') as [Hw|Hin]; [|done].
      by destruct Hj; apply (Hinjective j i wj w head).
  - intros index Hindex Hindex'.
    destruct (Hw' _ Hindex') as [Hw|Hin].
    + by destruct (Hreserved j i wj w index).
    + destruct wj as [| | |index' [| | |a k]]; try done.
      injection Hindex as ->.
      by destruct Hpoint as (_ & _ & _ & Hnotin).
Qed.

Lemma worker_consistent_same_table s s' nodes w :
  buffer_ s' = buffer_ s →
  freelist_head_ s' = freelist_head_ s →
  worker_consistent s nodes w →
  worker_consistent s' nodes w.
Proof.
  unfold worker_consistent, capacity. intros -> ->. done.
Qed.

(** The invariant is kept by every step of every thread. *)
Lemma workers_invariant_step workers s i w a k value s' :
  workers_invariant workers s →
  workers !! i = Some w →
  worker_prog w = Do a k →
  access a s = Reply value s' →
  workers_invariant (<[i := worker_next w value]> workers) s'.
Proof.
  intros Hinv Hi Hprog Haccess.
  pose proof Hinv
    as (Hfits & nodes & Hfrom & Hinjective & Hown & Hreserved & Hpoints
        & Hmutex & Hunique).
  pose proof (Hpoints _ _ Hi) as Hpoint.
  pose proof (freelist_from_bounds _ _ _ Hfrom) as Hbounds.
  rewrite Forall_forall in Hbounds.
  pose proof (freelist_from_entries _ _ _ Hfrom) as Hhead.
  assert (∀ j initial_value tag fuel,
            workers !! j
            = Some (Allocating initial_value tag (At_grow fuel)) →
            freelist_head_ s = 0) as Hgrowing.
  { intros j initial_value tag fuel Hj. by apply (Hpoints _ _ Hj). }
  assert (∀ w',
            buffer_ s' = buffer_ s →
            freelist_head_ s' = freelist_head_ s →
            worker_owned w' = None →
            worker_writes w' = None →
            worker_consistent s nodes w' →
            (worker_holds w' = worker_holds w → mutex_ s' = mutex_ s) →
            (worker_holds w = false → worker_holds w' = true →
             mutex_ s = false ∧ mutex_ s' = true) →
            (worker_holds w = true → worker_holds w' = false →
             mutex_ s' = false) →
            workers_invariant (<[i := w']> workers) s')
    as Hquiet.
  { intros w' Hbuffer Hhead' Hnone Hwrites Hpoint' Hsame Hlock Hunlock.
    apply (workers_invariant_update _ s _ _ _ _ nodes Hinv Hi);
      [| | |by apply (worker_consistent_same_table s)
       |by rewrite Hnone |done..].
    - unfold table_fits, capacity. by rewrite Hbuffer.
    - by rewrite Hbuffer, Hhead'.
    - apply (workers_frame _ s nodes _ _ w' _ _ Hinv Hfrom Hi).
      + unfold capacity. rewrite Hbuffer. lia.
      + intros head _ Hin. by rewrite Hbuffer.
      + intros index entry Hentry. left. by rewrite Hbuffer.
      + intros j initial_value tag fuel _ Hj. rewrite Hhead'.
        by apply (Hgrowing j initial_value tag fuel).
      + intros head. by rewrite Hnone. }
  assert (∀ w',
            buffer_ s' = buffer_ s →
            freelist_head_ s' = freelist_head_ s →
            mutex_ s' = mutex_ s →
            worker_owned w' = None →
            worker_writes w' = None →
            worker_holds w' = worker_holds w →
            worker_consistent s nodes w' →
            workers_invariant (<[i := w']> workers) s')
    as Hsilent.
  { intros w' Hbuffer Hhead' Hmutex' Hnone Hwrites Hholds Hpoint'.
    apply Hquiet; try done.
    - intros Hfree Hheld. congruence.
    - intros Hheld Hfree. congruence. }
  destruct w
    as [initial_value tag point|handle handle_location point|p|index p];
    cbn [worker_prog worker_next] in *.
  - (* an allocating thread *)
    apply rest_of_allocation_step in Hprog as [Hnext _].
    destruct point
      as [[|fuel]|fuel|fuel|fuel|fuel head|fuel head
         |fuel head table_capacity|fuel head entry|head|head|];
      cbn in Hnext; try discriminate.
    + (* the head is loaded *)
      injection Hnext as <-. injection Haccess as <- <-.
      cbn [next_point].
      destruct (Z.eqb_spec (freelist_head_ s) 0) as [Hzero|Hnz];
        apply Hsilent; try done.
      destruct Hhead as [[? _]|Hin]; [done |].
      unfold capacity. cbn. by apply Hbounds.
    + (* the mutex is taken *)
      injection Hnext as <-. cbn in Haccess.
      destruct (mutex_ s) eqn:Hfree; [done |]. injection Haccess as <- <-.
      apply Hquiet; done.
    + (* the head is loaded again *)
      injection Hnext as <-. injection Haccess as <- <-.
      cbn [next_point].
      destruct (Z.eqb_spec (freelist_head_ s) 0) as [Hzero|Hnz];
        apply Hsilent; try done.
      destruct Hhead as [[? _]|Hin]; [done |].
      unfold capacity. cbn. by apply Hbounds.
    + (* the table grows *)
      injection Hnext as <-. cbn in Haccess. unfold grow in Haccess.
      cbn in Hpoint. rewrite Hpoint in Haccess.
      cbn [Z.eqb negb] in Haccess.
      destruct (Z.ltb_spec kMaxExternalPointers
                  (capacity s + kEntriesPerBlock)) as [|Hroom]; [done |].
      injection Haccess as <- <-.
      pose proof entries_per_block_range as Hblock.
      assert (0 ≤ capacity s) as Hcap by (unfold capacity; lia).
      set (new_capacity := capacity s + kEntriesPerBlock).
      set (start := Z.max (capacity s) 1).
      assert (capacity
                (set_freelist_head
                   (set_buffer s (buffer_ s ++ grow_block (capacity s)))
                   start) = new_capacity) as Hlength.
      { unfold capacity at 1. cbn. rewrite length_app, Nat2Z.inj_add.
        by rewrite length_grow_block. }
      cbn [next_point].
      apply (workers_invariant_update _ s _ _ _ _
               (seqZ start (new_capacity - start)) Hinv Hi).
      * unfold table_fits. rewrite Hlength. lia.
      * pose proof (freelist_from_grown (buffer_ s)
                      (Z.to_nat (new_capacity - start)) start) as Hgrown.
        cbn zeta in Hgrown. fold (capacity s) in Hgrown.
        fold new_capacity in Hgrown.
        rewrite (proj2 (Z.ltb_lt start new_capacity)) in Hgrown by lia.
        apply Hgrown; lia.
      * apply (workers_frame _ s nodes _ _ _ _ _ Hinv Hfrom Hi).
        -- rewrite Hlength. lia.
        -- intros head Hrange Hin. apply elem_of_seqZ in Hin. lia.
        -- intros index entry Hentry. left. cbn.
           rewrite entry_at_app_l; [done |].
           apply entry_at_Some in Hentry. lia.
        -- intros j initial_value' tag' fuel' Hj Hwj.
           destruct Hj. by apply (Hunique j i _ _ Hwj Hi).
        -- done.
      * cbn. rewrite Hlength. lia.
      * done.
      * done.
      * done.
      * done.
      * done.
    + (* the mutex is released *)
      injection Hnext as <-. injection Haccess as <- <-.
      apply Hquiet; done.
    + (* the capacity is loaded *)
      destruct (head =? 0); [done |].
      injection Hnext as <-. injection Haccess as <- <-.
      apply Hsilent; try done; cbn in *; lia.
    + (* the entry at the head is loaded *)
      destruct (head <? table_capacity); [|done].
      injection Hnext as <-. cbn in Haccess.
      destruct (entry_at (buffer_ s) head) as [entry|] eqn:Hentry; [|done].
      injection Haccess as <- <-.
      apply Hsilent; try done; cbn in *; (split; [lia | done]).
    + (* the head is swapped *)
      injection Hnext as <-. cbn in Haccess. cbn [next_point].
      destruct Hpoint as [Hrange Hentry].
      destruct (Z.eqb_spec (freelist_head_ s) head) as [Hsame|Hmoved].
      * injection Haccess as <- <-. rewrite Hsame, Z.eqb_refl.
        destruct Hhead as [[? _]|Hin]; [lia |].
        rewrite Hsame in Hin. specialize (Hentry Hin).
        pose proof (freelist_from_NoDup _ _ _ Hfrom) as Hnodup.
        inversion Hfrom as [Hzero|head' entry' tail _ Hentry' Hfree _ Hrest];
          [lia |].
        subst head' nodes. rewrite Hsame, Hentry in Hentry'.
        injection Hentry' as <-. rewrite Hfree.
        apply NoDup_cons in Hnodup as [Hnotin _].
        apply (workers_invariant_update _ s _ _ _ _ tail Hinv Hi);
          [done |done | | | |done..].
        -- apply (workers_frame _ s (freelist_head_ s :: tail) _ _ _ _ _
                    Hinv Hfrom Hi); [done | | | |].
           ++ intros head' _ Hin'. split; [by right | done].
           ++ intros index entry' Hentry'. by left.
           ++ intros j initial_value' tag' fuel' Hj Hwj.
              pose proof (Hgrowing _ _ _ _ Hwj). lia.
           ++ intros head' [= <-]. right. rewrite Hsame. by left.
        -- cbn. by exists entry.
        -- intros head' [= <-]. split; [done |]. by rewrite <- Hsame.
      * injection Haccess as <- <-.
        rewrite (proj2 (Z.eqb_neq _ _) Hmoved).
        apply Hsilent; done.
    + (* the entry is initialised *)
      injection Hnext as <-. cbn in Haccess.
      destruct (entry_at (buffer_ s) head) as [old_entry|] eqn:Hold; [|done].
      injection Haccess as <- <-.
      destruct (Hown _ _ head Hi) as [Hrange Hnotin]; [done |].
      destruct Hpoint as (entry & Hentry & Hfree).
      cbn [next_point].
      apply (workers_invariant_update _ s _ _ _ _ nodes Hinv Hi).
      * unfold table_fits, capacity in *. cbn. by rewrite length_insert.
      * cbn. apply freelist_from_insert; [lia | done..].
      * apply (workers_frame _ s nodes _ _ _ _ _ Hinv Hfrom Hi).
        -- unfold capacity. cbn. rewrite length_insert. lia.
        -- intros head' _ Hin. split; [done |]. cbn.
           apply entry_at_insert_ne; [lia |]. by intros ->.
        -- intros index entry' Hentry'.
           destruct (decide (index = head)) as [->|Hne].
           ++ right. left. split; [done |]. congruence.
           ++ left. cbn. rewrite entry_at_insert_ne; [done | lia | done].
        -- intros j initial_value' tag' fuel' Hj Hwj.
           by apply (Hgrowing j initial_value' tag' fuel').
        -- intros head' [= <-]. by left.
      * cbn. left. apply entry_at_insert. unfold capacity in Hrange. lia.
      * intros head' [= <-]. split; [|done].
        unfold capacity in *. cbn. rewrite length_insert. lia.
      * done.
      * done.
      * done.
      * done.
  - (* a marking thread *)
    apply rest_of_mark_step in Hprog as [Hnext _].
    destruct point
      as [fuel|fuel|fuel start|[|fuel] start|fuel start head
         |fuel start head table_capacity|fuel start head entry|index|
         |start| |old_entry| |];
      cbn in Hnext; try discriminate.
    + (* the handle is loaded *)
      injection Hnext as <-. cbn in Haccess.
      destruct (heap_ s !! handle_location); [|done].
      injection Haccess as <- <-. cbn [next_mark_point].
      destruct (handle =? _); by apply Hsilent.
    + (* the start of the evacuation area is loaded *)
      injection Hnext as <-. injection Haccess as <- <-.
      cbn [next_mark_point].
      destruct (_ <=? _); by apply Hsilent.
    + (* and loaded again *)
      injection Hnext as <-. injection Haccess as <- <-.
      cbn [next_mark_point].
      destruct (negb _); by apply Hsilent.
    + (* the head is loaded *)
      injection Hnext as <-. injection Haccess as <- <-.
      cbn [next_mark_point].
      destruct (Z.eqb_spec (freelist_head_ s) 0) as [Hzero|Hnz];
        cbn [orb]; [by apply Hsilent |].
      destruct (start <=? freelist_head_ s); apply Hsilent; try done.
      destruct Hhead as [[? _]|Hin]; [done |].
      unfold capacity. cbn. by apply Hbounds.
    + (* the capacity is loaded *)
      destruct (head =? 0); [done |].
      injection Hnext as <-. injection Haccess as <- <-.
      by apply Hsilent.
    + (* the entry at the head is loaded *)
      destruct (head <? table_capacity); [|done].
      injection Hnext as <-. cbn in Haccess.
      destruct (entry_at (buffer_ s) head) as [entry|] eqn:Hentry; [|done].
      injection Haccess as <- <-.
      apply Hsilent; try done; cbn in *; (split; [lia | done]).
    + (* the head is swapped *)
      injection Hnext as <-. cbn in Haccess. cbn [next_mark_point].
      destruct Hpoint as [Hrange Hentry].
      destruct (Z.eqb_spec (freelist_head_ s) head) as [Hsame|Hmoved].
      * injection Haccess as <- <-. rewrite Hsame, Z.eqb_refl.
        destruct Hhead as [[? _]|Hin]; [lia |].
        rewrite Hsame in Hin. specialize (Hentry Hin).
        pose proof (freelist_from_NoDup _ _ _ Hfrom) as Hnodup.
        inversion Hfrom as [Hzero|head' entry' tail _ Hentry' Hfree _ Hrest];
          [lia |].
        subst head' nodes. rewrite Hsame, Hentry in Hentry'.
        injection Hentry' as <-. rewrite Hfree.
        apply NoDup_cons in Hnodup as [Hnotin _].
        assert (0 ≤ head < kMaxExternalPointers) as Hsmall
          by (unfold table_fits in Hfits; lia).
        cbn zeta.
        rewrite (proj2 (Z.eqb_neq (IndexToHandle head)
                          kNullExternalPointerHandle))
          by (apply IndexToHandle_nonzero; lia).
        cbn [negb]. rewrite HandleToIndex_IndexToHandle by done.
        assert (∀ point',
                  (∀ index, worker_owned
                              (Marking handle handle_location point')
                            = Some index → index = head) →
                  worker_consistent
                    (set_freelist_head s (ExtractNextFreelistEntry entry))
                    tail (Marking handle handle_location point') →
                  workers_invariant
                    (<[i := Marking handle handle_location point']> workers)
                    (set_freelist_head s (ExtractNextFreelistEntry entry)))
          as Htaken.
        { intros point' Hpoint' Hconsistent.
          apply (workers_invariant_update _ s _ _ _ _ tail Hinv Hi);
            [done |done | |done | |done..].
          - apply (workers_frame _ s (freelist_head_ s :: tail) _ _ _ _ _
                     Hinv Hfrom Hi); [done | | | |].
            + intros head' _ Hin'. split; [by right | done].
            + intros index entry' Hentry'. by left.
            + intros j initial_value' tag' fuel' Hj Hwj.
              pose proof (Hgrowing _ _ _ _ Hwj). lia.
            + intros head' Hhead'. right.
              rewrite (Hpoint' _ Hhead'), Hsame. by left.
          - intros head' Hhead'. rewrite (Hpoint' _ Hhead').
            split; [done |]. by rewrite <- Hsame. }
        destruct (head <? start); apply Htaken; try done.
        -- by intros index [= <-].
        -- cbn. by exists entry.
      * injection Haccess as <- <-.
        rewrite (proj2 (Z.eqb_neq _ _) Hmoved).
        by apply Hsilent.
    + (* the evacuation entry is stored *)
      injection Hnext as <-. cbn in Haccess.
      destruct (entry_at (buffer_ s) index) as [old_entry|] eqn:Hold;
        [|done].
      injection Haccess as <- <-.
      destruct (Hown _ _ index Hi) as [Hrange Hnotin]; [done |].
      destruct Hpoint as (entry & Hentry & Hfree).
      cbn [next_mark_point].
      apply (workers_invariant_update _ s _ _ _ _ nodes Hinv Hi).
      * unfold table_fits, capacity in *. cbn. by rewrite length_insert.
      * cbn. apply freelist_from_insert; [lia | done..].
      * apply (workers_frame _ s nodes _ _ _ _ _ Hinv Hfrom Hi).
        -- unfold capacity. cbn. rewrite length_insert. lia.
        -- intros head' _ Hin. split; [done |]. cbn.
           apply entry_at_insert_ne; [lia |]. by intros ->.
        -- intros index' entry' Hentry'.
           destruct (decide (index' = index)) as [->|Hne].
           ++ right. left. split; [done |]. congruence.
           ++ left. cbn. rewrite entry_at_insert_ne; [done | lia | done].
        -- intros j initial_value' tag' fuel' Hj Hwj.
           by apply (Hgrowing j initial_value' tag' fuel').
        -- done.
      * done.
      * done.
      * done.
      * done.
      * done.
      * done.
    + (* the slot is written *)
      injection Hnext as <-. cbn in Haccess.
      destruct (heap_ s !! handle_location); [|done].
      injection Haccess as <- <-. by apply Hsilent.
    + (* compaction is given up *)
      injection Hnext as <-. injection Haccess as <- <-.
      by apply Hsilent.
    + (* the entry to mark is loaded *)
      injection Hnext as <-. cbn in Haccess.
      destruct (entry_at (buffer_ s) (HandleToIndex handle))
        as [entry|] eqn:Hentry; [|done].
      injection Haccess as <- <-. cbn [next_mark_point].
      destruct (IsRegularEntry entry) eqn:Hregular; by apply Hsilent.
    + (* the entry is swapped *)
      injection Hnext as <-. cbn in Haccess. cbn in Hpoint.
      destruct (entry_at (buffer_ s) (HandleToIndex handle))
        as [entry|] eqn:Hentry; [|done].
      pose proof (entry_at_Some _ _ _ Hentry) as Hindex.
      destruct (Z.eqb_spec entry old_entry) as [->|Hchanged].
      * injection Haccess as <- <-. cbn [next_mark_point].
        rewrite Z.eqb_refl. cbn [orb].
        pose proof (regular_entry_not_free _ _ _ _ _ Hfrom Hentry Hpoint)
          as Hnotin.
        apply (workers_invariant_update _ s _ _ _ _ nodes Hinv Hi).
        -- unfold table_fits, capacity in *. cbn. by rewrite length_insert.
        -- cbn. apply freelist_from_insert; [lia | done..].
        -- apply (workers_frame _ s nodes _ _ _ _ _ Hinv Hfrom Hi).
           ++ unfold capacity. cbn. rewrite length_insert. lia.
           ++ intros head' _ Hin. split; [done |]. cbn.
              apply entry_at_insert_ne; [lia |]. by intros <-.
           ++ intros index' entry' Hentry'.
              destruct (decide (index' = HandleToIndex handle))
                as [Hsame|Hne].
              ** subst index'. right. right. left.
                 rewrite Hentry in Hentry'.
                 injection Hentry' as <-.
                 split; [by apply IsRegularEntry_not_free |]. cbn.
                 apply entry_at_insert. lia.
              ** left. cbn.
                 rewrite entry_at_insert_ne; [done | lia | done].
           ++ intros j initial_value' tag' fuel' Hj Hwj.
              by apply (Hgrowing j initial_value' tag' fuel').
           ++ done.
        -- cbn. intros _. exists (SetMarkBit old_entry).
           split; [|apply IsMarked_SetMarkBit].
           apply entry_at_insert. lia.
        -- done.
        -- done.
        -- done.
        -- done.
        -- done.
      * injection Haccess as <- <-. cbn [next_mark_point].
        rewrite (proj2 (Z.eqb_neq _ _) Hchanged). cbn [orb].
        destruct (IsMarked entry) eqn:Hmarked; apply Hsilent; try done.
        cbn. intros _. by exists entry.
  - (* a thread that loads *)
    subst p. cbn in Hpoint.
    inversion Hpoint as [| | |a' k' Hload Hrest]; subst.
    apply (access_load _ _ _ _ Hload) in Haccess as ->.
    apply Hsilent; try done. cbn. apply Hrest.
  - (* a thread that writes an entry *)
    subst p. cbn in Hpoint.
    destruct Hpoint as ((entry & Hstore & Hmarked) & Hloads & Hrange & Hnotin).
    assert (s' = store_entry s index entry) as ->.
    { destruct Hstore as [->| ->]; cbn in Haccess;
        destruct (entry_at (buffer_ s) index); try done;
        by injection Haccess as <- <-. }
    apply (workers_invariant_update _ s _ _ _ _ nodes Hinv Hi).
    + unfold table_fits, capacity in *. cbn. by rewrite length_insert.
    + cbn. apply freelist_from_insert; [lia | done..].
    + apply (workers_frame _ s nodes _ _ _ _ _ Hinv Hfrom Hi).
      * unfold capacity. cbn. rewrite length_insert. lia.
      * intros head' _ Hin. split; [done |]. cbn.
        apply entry_at_insert_ne; [lia |]. by intros <-.
      * intros index' entry' Hentry'.
        destruct (decide (index' = index)) as [Hsame|Hne].
        -- subst index'. right. right. right. split; [done |].
           exists entry. split; [|done]. cbn.
           apply entry_at_insert. unfold capacity in Hrange. lia.
        -- left. cbn. rewrite entry_at_insert_ne; [done | lia | done].
      * intros j initial_value' tag' fuel' Hj Hwj.
        by apply (Hgrowing j initial_value' tag' fuel').
      * done.
    + cbn. apply Hloads.
    + done.
    + done.
    + done.
    + done.
    + done.
Qed.

(** The invariant holds throughout every interleaving. *)
Lemma interleave_workers schedule workers s threads' s' :
  workers_invariant workers s →
  interleave schedule (worker_prog <$> workers) s = Some (threads', s') →
  ∃ workers',
    threads' = worker_prog <$> workers'
    ∧ worker_call <$> workers' = worker_call <$> workers
    ∧ workers_invariant workers' s'.
Proof.
  revert workers s.
  induction schedule as [|i schedule IH]; intros workers s Hinv; cbn.
  { intros [= <- <-]. by exists workers. }
  rewrite list_lookup_fmap.
  destruct (workers !! i) as [w|] eqn:Hi; cbn; [|by apply IH].
  destruct (worker_prog w) as [result| | |a k] eqn:Hprog;
    [by apply IH | done | by apply IH |].
  destruct (access a s) as [value s1| |] eqn:Haccess; [|done | by apply IH].
  rewrite (worker_prog_step _ _ _ Hprog), <- list_fmap_insert.
  intros Hrun.
  destruct (IH _ _ (workers_invariant_step _ _ _ _ _ _ _ _ Hinv Hi Hprog
                      Haccess) Hrun)
    as (workers' & -> & Hcalls & Hinv').
  exists workers'. split; [done |]. split; [|done].
  rewrite Hcalls, list_fmap_insert, worker_call_next.
  apply list_insert_id. by rewrite list_lookup_fmap, Hi.
Qed.

Ltac solve_loads :=
  repeat first
    [ progress intros
    | apply performs_only_DCHECK
    | apply performs_only_perform
    | apply performs_only_bind
    | apply performs_only_Ret
    | apply performs_only_Abort
    | apply performs_only_Do
    | match goal with
      | |- performs_only _ (if ?c then _ else _) => destruct c
      | |- performs_only _ (checked ?o) => destruct o
      | |- performs_only _ (mret _) => apply performs_only_Ret
      end
    | reflexivity ].

Lemma performs_only_FreelistSize fuel :
  performs_only is_load (FreelistSize fuel).
Proof.
  induction fuel as [|fuel IH]; [apply performs_only_Spin |].
  cbn [FreelistSize]. solve_loads. apply IH.
Qed.

Lemma entry_not_free buffer head nodes index entry :
  freelist_from buffer head nodes →
  entry_at buffer index = Some entry →
  IsFreelistEntry entry = false →
  index ∉ nodes.
Proof.
  intros Hfrom Hentry Hnot Hin.
  pose proof (freelist_from_sizes _ _ _ Hfrom) as Hsizes.
  rewrite Forall_forall in Hsizes.
  destruct (Hsizes _ Hin) as (entry' & Hentry' & Hfree & _).
  rewrite Hentry in Hentry'. injection Hentry' as <-.
  by rewrite Hfree in Hnot.
Qed.

(** A pool of threads that are about to make their calls satisfies the
    invariant. *)
Lemma workers_invariant_initial fuel calls s :
  freelist_invariant s →
  mutex_ s = false →
  Forall (concurrent_call s) calls →
  workers_invariant (worker_of fuel <$> calls) s.
Proof.
  intros [Hfits (nodes & Hfrom)] Hmutex Hcalls.
  rewrite Forall_forall in Hcalls.
  assert (∀ i w,
            (worker_of fuel <$> calls) !! i = Some w →
            worker_owned w = None ∧ worker_holds w = false
            ∧ worker_consistent s nodes w) as Hstart.
  { intros i w. rewrite list_lookup_fmap.
    destruct (calls !! i) as [call|] eqn:Hcall; [|done]. intros [= <-].
    apply list_elem_of_lookup_2, Hcalls in Hcall.
    destruct call; try done; cbn [worker_of worker_owned worker_holds];
      (split; [done |]); (split; [done |]); cbn [worker_consistent invoke].
    - unfold Get. solve_loads.
    - destruct Hcall as (entry & Hentry & Hnot). unfold Set_.
      destruct (negb (handle =? kNullExternalPointerHandle)); [|done].
      destruct (Z.land value kExternalPointerTagMask =? 0); [|done].
      destruct (Z.eqb_spec (Z.land tag kExternalPointerMarkBit) 0)
        as [|Hmark]; [done |].
      cbn. split; [|split; [|split]].
      + eexists. split; [by left |]. by apply IsMarked_regular_entry.
      + intros value'. apply performs_only_Ret.
      + apply entry_at_Some in Hentry. unfold capacity. lia.
      + by eapply entry_not_free.
    - destruct Hcall as (entry & Hentry & Hnot). unfold Exchange.
      destruct (negb (handle =? kNullExternalPointerHandle)); [|done].
      destruct (Z.land value kExternalPointerTagMask =? 0); [|done].
      destruct (Z.eqb_spec (Z.land tag kExternalPointerMarkBit) 0)
        as [|Hmark]; [done |].
      cbn. split; [|split; [|split]].
      + eexists. split; [by right |]. by apply IsMarked_regular_entry.
      + intros value'. solve_loads.
      + apply entry_at_Some in Hentry. unfold capacity. lia.
      + by eapply entry_not_free.
    - apply performs_only_FreelistSize.
    - unfold IsCompacting. solve_loads.
    - unfold CompactingWasAbortedDuringMarking. solve_loads. }
  split; [done |]. exists nodes. split_and!; [done | | | | | |].
  - intros i j wi wj head Hi _ Hown.
    destruct (Hstart _ _ Hi) as (Hnone & _). by rewrite Hnone in Hown.
  - intros i w head Hi Hown.
    destruct (Hstart _ _ Hi) as (Hnone & _). by rewrite Hnone in Hown.
  - intros i j wi wj index _ Hj _ Hown.
    destruct (Hstart _ _ Hj) as (Hnone & _). by rewrite Hnone in Hown.
  - intros i w Hi. by destruct (Hstart _ _ Hi) as (_ & _ & ?).
  - rewrite Hmutex. split; [done |].
    intros (i & w & Hi & Hholds).
    destruct (Hstart _ _ Hi) as (_ & Hfree & _). by rewrite Hfree in Hholds.
  - intros i j wi wj Hi _ Hholds.
    destruct (Hstart _ _ Hi) as (_ & Hfree & _). by rewrite Hfree in Hholds.
Qed.

Lemma interleave_calls schedule fuel calls s threads' s' :
  freelist_invariant s →
  mutex_ s = false →
  Forall (concurrent_call s) calls →
  interleave schedule (invoke fuel <$> calls) s = Some (threads', s') →
  ∃ workers',
    threads' = worker_prog <$> workers'
    ∧ workers_invariant workers' s'
    ∧ (∀ i initial_value tag,
         calls !! i
         = Some (Call_AllocateAndInitializeEntry initial_value tag) →
         ∃ point, workers' !! i = Some (Allocating initial_value tag point))
    ∧ (∀ i handle handle_location,
         calls !! i = Some (Call_Mark handle handle_location) →
         ∃ point,
           workers' !! i = Some (Marking handle handle_location point)).
Proof.
  intros Hs Hmutex Hcalls Hrun.
  pose proof (workers_invariant_initial fuel calls s Hs Hmutex Hcalls)
    as Hinv.
  assert (invoke fuel <$> calls = worker_prog <$> (worker_of fuel <$> calls))
    as Hthreads.
  { rewrite <- list_fmap_compose. apply list_fmap_ext.
    intros i call _. cbn. by rewrite worker_prog_of. }
  rewrite Hthreads in Hrun.
  destruct (interleave_workers _ _ _ _ _ Hinv Hrun)
    as (workers' & -> & Hsame & Hinv').
  exists workers'. split; [done |]. split; [done |].
  assert (∀ i call,
            calls !! i = Some call →
            ∃ w, workers' !! i = Some w
                 ∧ worker_call w = worker_call (worker_of fuel call))
    as Hcall.
  { intros i call Hi.
    apply (f_equal (λ l, l !! i)) in Hsame.
    rewrite !list_lookup_fmap, Hi in Hsame. cbn in Hsame.
    destruct (workers' !! i) as [w|]; [|done].
    exists w. split; [done |]. by injection Hsame. }
  split.
  - intros i initial_value tag Hi.
    destruct (Hcall _ _ Hi) as (w & Hw & Hkind). cbn in Hkind.
    destruct w as [? ? point| | |]; try done.
    injection Hkind as -> ->. by exists point.
  - intros i handle handle_location Hi.
    destruct (Hcall _ _ Hi) as (w & Hw & Hkind). cbn in Hkind.
    destruct w as [|? ? point| |]; try done.
    injection Hkind as -> ->. by exists point.
Qed.

Lemma rest_of_mark_returned handle handle_location point result :
  rest_of_mark handle handle_location point = Ret result →
  point = M_returned.
Proof.
  destruct point
    as [fuel|fuel|fuel start|[|fuel] start|fuel start head
       |fuel start head table_capacity|fuel start head entry|index| |start
       | |old_entry| |]; cbn; try done.
  - unfold TryAllocateEntryFromFreelist. by destruct (head =? 0).
  - unfold claim_after_capacity. by destruct (head <? table_capacity).
Qed.

Lemma allocating_not_aborted s nodes initial_value tag point :
  worker_consistent s nodes (Allocating initial_value tag point) →
  rest_of_allocation initial_value tag point ≠ Abort.
Proof.
  cbn.
  destruct point
    as [[|fuel]|fuel|fuel|fuel|fuel head|fuel head|fuel head table_capacity
       |fuel head entry|head|head|]; cbn; try done.
  - intros Hrange. unfold TryAllocateEntryFromFreelist.
    by rewrite (proj2 (Z.eqb_neq head 0)) by lia.
  - intros [Hrange _]. unfold claim_after_capacity.
    by rewrite (proj2 (Z.ltb_lt head table_capacity)) by lia.
Qed.

(** X21.  Allocation is not disturbed by what other threads do with the
    table at the same time.  In every interleaving of calls of
    [AllocateAndInitializeEntry], [Mark], [Get], [FreelistSize],
    [IsCompacting] and [CompactingWasAbortedDuringMarking], and of [Set]
    and [Exchange] with handles whose entries are not free, started on a
    well-formed freelist with the mutex free, the freelist stays
    well-formed; the handles that the allocations have returned are
    pairwise distinct and not null; the entry of each holds the initial
    value under the tag of its call, with or without the mark bit that a
    marking thread may have set; and no allocating thread has failed a
    check. *)
Theorem allocation_among_concurrent_calls
    schedule fuel calls s threads' s' :
  freelist_invariant s →
  mutex_ s = false →
  Forall (concurrent_call s) calls →
  interleave schedule (invoke fuel <$> calls) s = Some (threads', s') →
  freelist_invariant s'
  ∧ (∀ i j initial_value tag initial_value' tag' handle,
       calls !! i
       = Some (Call_AllocateAndInitializeEntry initial_value tag) →
       calls !! j
       = Some (Call_AllocateAndInitializeEntry initial_value' tag') →
       threads' !! i = Some (Ret handle) →
       threads' !! j = Some (Ret handle) →
       i = j)
  ∧ (∀ i initial_value tag,
       calls !! i
       = Some (Call_AllocateAndInitializeEntry initial_value tag) →
       threads' !! i ≠ Some Abort
       ∧ ∀ handle,
           threads' !! i = Some (Ret handle) →
           handle ≠ kNullExternalPointerHandle
           ∧ (entry_at (buffer_ s') (HandleToIndex handle)
              = Some (MakeRegularEntry initial_value tag)
              ∨ entry_at (buffer_ s') (HandleToIndex handle)
                = Some (SetMarkBit (MakeRegularEntry initial_value tag)))).
Proof.
  intros Hs Hmutex Hcalls Hrun.
  destruct (interleave_calls _ _ _ _ _ _ Hs Hmutex Hcalls Hrun)
    as (workers' & -> & Hinv' & Hallocating & _).
  destruct Hinv'
    as (Hfits & nodes & Hfrom & Hinjective & Hown & _ & Hpoints & _).
  assert (∀ i initial_value tag handle,
            calls !! i
            = Some (Call_AllocateAndInitializeEntry initial_value tag) →
            (worker_prog <$> workers') !! i = Some (Ret handle) →
            ∃ head,
              workers' !! i
              = Some (Allocating initial_value tag (At_returned head))
              ∧ handle = IndexToHandle head
              ∧ 0 < head < kMaxExternalPointers) as Hreturned.
  { intros i initial_value tag handle Hi.
    destruct (Hallocating _ _ _ Hi) as [point Hw].
    rewrite list_lookup_fmap, Hw. cbn. intros [= Hret].
    apply rest_of_allocation_returned in Hret as (head & -> & ->).
    exists head. split; [done |]. split; [done |].
    destruct (Hown _ _ head Hw) as [? _]; [done |].
    unfold table_fits in Hfits. lia. }
  split; [split; [done | by exists nodes] |]. split.
  - intros i j initial_value tag initial_value' tag' handle Hi Hj Hreti
      Hretj.
    destruct (Hreturned _ _ _ _ Hi Hreti) as (headi & Hwi & -> & Hrangei).
    destruct (Hreturned _ _ _ _ Hj Hretj) as (headj & Hwj & Hsame & Hrangej).
    apply (f_equal HandleToIndex) in Hsame.
    rewrite !HandleToIndex_IndexToHandle in Hsame by lia. subst headj.
    by apply (Hinjective i j _ _ headi Hwi Hwj).
  - intros i initial_value tag Hi. split.
    + destruct (Hallocating _ _ _ Hi) as [point Hw].
      rewrite list_lookup_fmap, Hw. cbn. intros [= Habort]. revert Habort.
      apply (allocating_not_aborted s' nodes). by apply (Hpoints i).
    + intros handle Hret.
      destruct (Hreturned _ _ _ _ Hi Hret) as (head & Hw & -> & Hrange).
      split; [by apply IndexToHandle_nonzero |].
      rewrite HandleToIndex_IndexToHandle by lia.
      by apply (Hpoints _ _ Hw).
Qed.

(** X22.  What [Mark] has marked stays marked while other threads
    allocate, mark, read and write.  In every interleaving of calls of
    [AllocateAndInitializeEntry], [Mark], [Get], [FreelistSize],
    [IsCompacting] and [CompactingWasAbortedDuringMarking], and of [Set]
    and [Exchange] with handles whose entries are not free, started on a
    well-formed freelist with the mutex free, the entry of the handle of
    each call of [Mark] that has returned carries the mark bit, provided
    that the layout of the tags is such that no freelist entry carries
    it. *)
Theorem Mark_among_concurrent_calls
    schedule fuel calls s threads' s' :
  freelist_invariant s →
  mutex_ s = false →
  Forall (concurrent_call s) calls →
  (∀ entry, IsFreelistEntry entry = true → IsMarked entry = false) →
  interleave schedule (invoke fuel <$> calls) s = Some (threads', s') →
  ∀ i handle handle_location result,
    calls !! i = Some (Call_Mark handle handle_location) →
    threads' !! i = Some (Ret result) →
    ∃ entry,
      entry_at (buffer_ s') (HandleToIndex handle) = Some entry
      ∧ IsMarked entry = true.
Proof.
  intros Hs Hmutex Hcalls Hlayout Hrun i handle handle_location result Hi.
  destruct (interleave_calls _ _ _ _ _ _ Hs Hmutex Hcalls Hrun)
    as (workers' & -> & Hinv' & _ & Hmarking).
  destruct Hinv' as (_ & nodes & _ & _ & _ & _ & Hpoints & _).
  destruct (Hmarking _ _ _ Hi) as [point Hw].
  rewrite list_lookup_fmap, Hw. cbn. intros [= Hret].
  apply rest_of_mark_returned in Hret as ->.
  by apply (Hpoints _ _ Hw).
Qed.

End Behaviour.

(** ** The shape of string sets *)

(** C10.  A string hashes the same whether it is presented as a key or as
    an object stored in the set: both ways yield what [EnsureHash] yields
    for it. *)
Theorem HashForObject_agrees_with_Hash
    (ReadOnlyRoots String : Type) (EnsureHash : String → Z * String)
    (roots : ReadOnlyRoots) (string : String) :
  StringSetShape.HashForObject ReadOnlyRoots String EnsureHash roots
    (StringSetShape.HeapString String string)
  = Some (StringSetShape.Hash ReadOnlyRoots String EnsureHash roots string).
Proof. reflexivity. Qed.

(** ** What the shape of string sets accepts *)

(** X17.  [IsMatch] and [HashForObject] accept the same objects, the
    strings: the check of the one fails where the cast of the other does.
    On a string [IsMatch] compares it with the key by [Equals], and
    [HashForObject] hashes it as [Hash] hashes a key. *)
Theorem IsMatch_accepts_what_HashForObject_hashes
    (ReadOnlyRoots String : Type) (EnsureHash : String → Z * String)
    (Equals : String → String → bool)
    (roots : ReadOnlyRoots) (key : String)
    (value : StringSetShape.Object String) :
  (is_Some (StringSetShape.IsMatch String Equals key value)
   ↔ is_Some (StringSetShape.HashForObject ReadOnlyRoots String EnsureHash
                roots value))
  ∧ ∀ result,
      StringSetShape.IsMatch String Equals key value = Some result →
      ∃ string,
        value = StringSetShape.HeapString String string
        ∧ StringSetShape.cast String value = Some string
        ∧ result = Equals key string
        ∧ StringSetShape.HashForObject ReadOnlyRoots String EnsureHash
            roots value
          = Some (StringSetShape.Hash ReadOnlyRoots String EnsureHash roots
                    string).
Proof.
  destruct value as [number|string|address]; cbn.
  - split; [|done]. split; by intros [? ?].
  - split; [by split |]. intros result [= <-]. by exists string.
  - split; [|done]. split; by intros [? ?].
Qed.

(** ** The theorems at concrete inputs *)

Lemma Get_Exchange_tag_mismatch_aborts_witness :
  run (Get (IndexToHandle 2) tag_b) example_state = Aborted
  ∧ run (Exchange (IndexToHandle 2) 0x3000 tag_b) example_state = Aborted.
Proof.
  apply (Get_Exchange_tag_mismatch_aborts
           example_state (IndexToHandle 2) 0x1000 tag_a tag_b 0x3000);
    [reflexivity | reflexivity | reflexivity | discriminate].
Defined.

Lemma Set_then_Get_returns_value_witness :
  ∃ s' trace,
    run (Set_ (IndexToHandle 6) 0x4000 tag_a;; Get (IndexToHandle 6) tag_a)
      example_state
    = Done 0x4000 s' trace.
Proof.
  apply (Set_then_Get_returns_value
           example_state (IndexToHandle 6) 0x4000 tag_a);
    [ by vm_compute | reflexivity | by vm_compute
    | by vm_compute | by vm_compute ].
Defined.

Lemma example_rival_claim_fits n s s1 :
  table_fits s → example_rival_claim n s = Some s1 → table_fits s1.
Proof.
  intros Hs. unfold example_rival_claim.
  destruct (n =? 2)%nat; by intros [= <-].
Qed.

Lemma AllocateEvacuationEntry_below_boundary_witness :
  exec example_rival_claim 0 (AllocateEvacuationEntry 1 5) example_state
  = Done kNullExternalPointerHandle example_state [(Load_freelist_head, 5)]
  ∧ ∃ handle s' trace,
      exec example_rival_claim 0 (AllocateEvacuationEntry 2 6) example_state
        = Done handle s' trace
      ∧ handle = IndexToHandle 1
      ∧ (∃ head, final_freelist_head_loaded trace = Some head
           ∧ (head = 0 ∨ 6 ≤ head ↔ handle = kNullExternalPointerHandle))
      ∧ Forall (λ ev, is_Grow ev.1 = false) trace
      ∧ ((∀ n s s1, example_rival_claim n s = Some s1 →
            capacity s1 = capacity s) →
         capacity s' = capacity example_state)
      ∧ (handle ≠ kNullExternalPointerHandle →
         0 ≤ HandleToIndex handle < 6).
Proof.
  split.
  - refine (proj1 (AllocateEvacuationEntry_below_boundary
                     0 5 example_rival_claim 0 example_state
                     example_rival_claim_fits _) example_state _ _).
    + by vm_compute.
    + reflexivity.
    + right. by vm_compute.
  - eexists _, _, _. split; [by vm_compute |]. split; [by vm_compute |].
    apply (proj1 (proj2 (AllocateEvacuationEntry_below_boundary
                           2 6 example_rival_claim 0 example_state
                           example_rival_claim_fits ltac:(by vm_compute)))).
    by vm_compute.
Defined.

Lemma Mark_without_evacuation_slot_aborts_compaction_witness :
  let s := compacting_state 4 in
  let marked_boundary := Z.lor 4 kCompactionAbortedMarker in
  let s' :=
    store_entry (set_start s marked_boundary) 6
      (SetMarkBit (MakeRegularEntry 0x2000 tag_b)) in
  (∃ trace, run (Mark 1 (IndexToHandle 6) 0x7000) s = Done tt s' trace)
  ∧ run CompactingWasAbortedDuringMarking s'
    = Done true s' [(Load_start_of_evacuation_area, marked_boundary)].
Proof.
  intros s marked_boundary s'.
  destruct (Mark_without_evacuation_slot_aborts_compaction
              0 s (IndexToHandle 6) 0x7000 (MakeRegularEntry 0x2000 tag_b))
    as (Hrun & _ & _ & Haborted & _);
    [ by vm_compute | by vm_compute | by vm_compute
    | right; by vm_compute | by vm_compute | by vm_compute | ].
  split; [eexists; exact Hrun | exact Haborted].
Defined.

Lemma freelist_ordered_ordered_state : freelist_ordered ordered_state.
Proof.
  exists [1; 5]. split.
  - refine (freelist_node _ 1 (MakeFreelistEntry 5 2) [5] _ _ _ _ _);
      [done | by vm_compute.. |].
    refine (freelist_node _ 5 (MakeFreelistEntry 0 1) [] _ _ _ _ _);
      [done | by vm_compute.. |].
    exact (freelist_end _).
  - intros j entry Hj Hentry Hfree.
    pose proof (entry_at_Some _ _ _ Hentry) as Hrange.
    assert (j = 1 ∨ j = 2 ∨ j = 3 ∨ j = 4 ∨ j = 5 ∨ j = 6 ∨ j = 7)
      as Hcases
      by (change (length (buffer_ ordered_state)) with 8%nat in Hrange; lia).
    destruct Hcases as [->|[->|[->|[->|[->|[->| ->]]]]]];
      vm_compute in Hentry; injection Hentry as <-;
      try (by vm_compute in Hfree).
    + split; [apply list_elem_of_here | right; by vm_compute].
    + split; [apply list_elem_of_further, list_elem_of_here
             | left; by vm_compute].
Qed.

Lemma Mark_evacuates_when_some_entry_is_free_witness :
  ∃ s' trace,
    run (Mark 1 (IndexToHandle 6) 0x7000) ordered_state = Done tt s' trace
    ∧ evacuated_below s' 4 0x7000
    ∧ entry_at (buffer_ s') 1 = Some (MakeEvacuationEntry 0x7000)
    ∧ entry_at (buffer_ s') 6
      = Some (SetMarkBit (MakeRegularEntry 0x2000 tag_b)).
Proof.
  destruct (Mark_evacuates_when_some_entry_is_free
              0 ordered_state (IndexToHandle 6) 0x7000
              (MakeRegularEntry 0x2000 tag_b))
    as (s' & trace & Hrun & Hevacuated & Hat & _ & Hold & _).
  - by vm_compute.
  - by vm_compute.
  - by vm_compute.
  - by vm_compute.
  - by vm_compute.
  - exact freelist_ordered_ordered_state.
  - exists 1, (MakeFreelistEntry 5 2). by vm_compute.
  - by vm_compute.
  - by vm_compute.
  - by vm_compute.
  - exists s', trace. split; [exact Hrun |]. split; [exact Hevacuated |].
    split; [exact Hat | exact Hold].
Defined.

Lemma freelist_invariant_unmarked_state : freelist_invariant unmarked_state.
Proof.
  split; [by vm_compute |]. exists [5; 1].
  refine (freelist_node _ 5 (MakeFreelistEntry 1 2) [1] _ _ _ _ _);
    [done | by vm_compute.. |].
  refine (freelist_node _ 1 (MakeFreelistEntry 0 1) [] _ _ _ _ _);
    [done | by vm_compute.. |].
  exact (freelist_end _).
Qed.

Lemma Mark_marks_entry_witness :
  (∃ s' trace,
     run (Mark 1 (IndexToHandle 6) 0x7000) unmarked_state = Done tt s' trace
     ∧ entry_CAS_count trace = 1%nat
     ∧ IsMarked (MakeRegularEntry 0x2000 tag_unmarked) = false
     ∧ entry_at (buffer_ unmarked_state) 6
       = Some (MakeRegularEntry 0x2000 tag_unmarked)
     ∧ entry_at (buffer_ s') 6
       = Some (SetMarkBit (MakeRegularEntry 0x2000 tag_unmarked))
     ∧ IsMarked (SetMarkBit (MakeRegularEntry 0x2000 tag_unmarked)) = true)
  ∧ ∃ s' trace,
      exec (calls_env 0 example_racing_set) 0
        (Mark 1 (IndexToHandle 6) 0x7000) unmarked_state
      = Done tt s' trace
      ∧ entry_CAS_count trace = 1%nat
      ∧ entry_at (buffer_ s') 6 = Some (MakeRegularEntry 0x5000 tag_a)
      ∧ ∃ entry, entry_at (buffer_ s') 6 = Some entry ∧ IsMarked entry = true.
Proof.
  assert (∀ k, Forall (λ call, is_mutator_write call = true)
                 (example_racing_set k)) as Hschedule.
  { intros k. unfold example_racing_set.
    destruct (k =? 3)%nat; by repeat constructor. }
  pose proof (Mark_marks_entry 0 0 example_racing_set (IndexToHandle 6)
                0x7000 Hschedule) as Hmark.
  cbv zeta in Hmark. destruct Hmark as (Halone & _ & Hraced).
  split.
  - destruct (Halone unmarked_state (MakeRegularEntry 0x2000 tag_unmarked))
      as (s' & trace & Hrun & Hcount & Hat & Hbit).
    + by vm_compute.
    + exact freelist_invariant_unmarked_state.
    + intros Habove. exfalso. apply Habove. by vm_compute.
    + by vm_compute.
    + by vm_compute.
    + exists s', trace. split; [exact Hrun |]. split; [exact Hcount |].
      split; [by vm_compute |]. split; [by vm_compute |].
      split; [exact Hat | exact Hbit].
  - eexists _, _. split; [by vm_compute |].
    match goal with
    | |- entry_CAS_count ?trace = _ ∧ entry_at (buffer_ ?s') _ = _ ∧ _ =>
        destruct (Hraced 0%nat unmarked_state s' trace)
          as (Hcount & Hmarked & _); [by vm_compute |]
    end.
    split; [exact Hcount |]. split; [by vm_compute | exact Hmarked].
Defined.

Lemma TryAllocateEntryFromFreelist_claims_once_witness :
  ∃ threads' s',
    interleave [0; 1; 0; 1; 0; 1]%nat
      (replicate 2 (TryAllocateEntryFromFreelist 5)) example_state
      = Some (threads', s')
    ∧ threads' = [Ret true; Ret false]
    ∧ freelist_head_ s' = 1
    ∧ (successes threads' ≤ 1)%nat.
Proof.
  eexists _, _. split; [by vm_compute |].
  split; [done |]. split; [done |].
  match goal with
  | |- (successes ?threads' ≤ 1)%nat =>
      apply (proj2 TryAllocateEntryFromFreelist_claims_once
               [0; 1; 0; 1; 0; 1]%nat 2%nat 5 example_state
               (MakeFreelistEntry 1 2) threads'
               (set_freelist_head example_state 1));
        by vm_compute
  end.
Defined.

Lemma FreelistSize_counts_reachable_entries_witness :
  run (FreelistSize 1) empty_table = Done 0 empty_table [(Load_freelist_head, 0)]
  ∧ run (FreelistSize 1) example_state
    = Done 2 example_state
        [(Load_freelist_head, 5); (RelaxedLoad 5, MakeFreelistEntry 1 2);
         (Load_capacity, 8)]
  ∧ ∃ s' trace,
      run (perform_ops 1 example_ops) empty_table = Done tt s' trace
      ∧ reachable_free_entries s' = Some 4%nat
      ∧ ∃ count trace',
          reachable_free_entries s' = Some count
          ∧ run (FreelistSize 1) s' = Done (Z.of_nat count) s' trace'.
Proof.
  destruct FreelistSize_counts_reachable_entries
    as (Hempty & Hhead & Hafter).
  split; [by apply (Hempty 0%nat empty_table) |].
  split.
  { assert (run (FreelistSize 1) example_state
            = Done (ExtractFreelistSize (MakeFreelistEntry 1 2))
                example_state
                [(Load_freelist_head, freelist_head_ example_state);
                 (RelaxedLoad (freelist_head_ example_state),
                  MakeFreelistEntry 1 2);
                 (Load_capacity, capacity example_state)]) as Hrun
      by (apply (Hhead 0%nat example_state (MakeFreelistEntry 1 2));
          by vm_compute).
    exact Hrun. }
  eexists _, _. split; [by vm_compute |]. split; [by vm_compute |].
  match goal with
  | |- ∃ count trace', reachable_free_entries ?s' = _ ∧ _ =>
      eapply (Hafter 1%nat example_ops empty_table s');
        [|by vm_compute]
  end.
  split; [by vm_compute | exists []; constructor].
Defined.

Lemma Set_Exchange_change_one_entry_witness :
  only_entry_changed (HandleToIndex (IndexToHandle 2)) example_state
    (store_entry example_state 2 (MakeRegularEntry 0x3000 tag_a)).
Proof.
  apply (Set_Exchange_change_one_entry
           example_state (IndexToHandle 2) 0x3000 tag_a _
           [(RelaxedExchange 2 (MakeRegularEntry 0x3000 tag_a),
             MakeRegularEntry 0x1000 tag_a)] 0x1000).
  right. vm_compute. reflexivity.
Defined.

(** ** The scenarios of the spec, evaluated *)

(** Scenario 1: a handle allocated with a tag and the value 0x1000 yields
    0x1000 under that tag. *)
Example allocate_then_get :
  returned
    (run (handle ← AllocateAndInitializeEntry 1 0x1000 tag_a;
          value ← Get handle tag_a;
          mret (handle, value)) empty_table)
  = Some (IndexToHandle 1, 0x1000).
Proof. by vm_compute. Qed.

(** Scenario 2, with blocks of four entries: four allocations from the
    empty table make it grow twice and yield four different handles. *)
Example allocate_grows :
  let outcome :=
    run (h1 ← AllocateAndInitializeEntry 1 0x1000 tag_a;
         h2 ← AllocateAndInitializeEntry 1 0x2000 tag_a;
         h3 ← AllocateAndInitializeEntry 1 0x3000 tag_b;
         h4 ← AllocateAndInitializeEntry 1 0x4000 tag_b;
         mret [h1; h2; h3; h4]) empty_table in
  returned outcome = Some (IndexToHandle <$> [1; 2; 3; 4])
  ∧ (capacity <$> final_state outcome) = Some 8
  ∧ length (List.filter (λ ev, is_Grow ev.1) (accesses outcome)) = 2%nat.
Proof. by vm_compute. Qed.

(** Scenario 3: with the boundary at 6 and the freelist head at 5, marking
    the handle of entry 6 leaves an evacuation entry for the handle's
    location at index 5. *)
Example mark_evacuates :
  let outcome :=
    run (Mark 1 (IndexToHandle 6) 0x7000) (compacting_state 6) in
  returned outcome = Some tt
  ∧ (final_state outcome ≫= λ s, entry_at (buffer_ s) 5)
    = Some (MakeEvacuationEntry 0x7000)
  ∧ (final_state outcome ≫= λ s, IsRegularEntry <$> entry_at (buffer_ s) 6)
    = Some true
  ∧ (final_state outcome ≫= λ s, IsMarked <$> entry_at (buffer_ s) 6)
    = Some true.
Proof. by vm_compute. Qed.

(** Scenario 4: with the boundary at 4 the freelist offers nothing below
    it, and marking the handle of entry 6 aborts the compaction. *)
Example mark_aborts_compaction :
  let outcome :=
    run (Mark 1 (IndexToHandle 6) 0x7000;;
         CompactingWasAbortedDuringMarking) (compacting_state 4) in
  returned outcome = Some true
  ∧ (final_state outcome
       ≫= λ s, Some (forallb (λ entry, negb (IsEvacuationEntry entry))
                       (buffer_ s)))
    = Some true.
Proof. by vm_compute. Qed.

(** ** The further properties at concrete inputs *)

Lemma Exchange_returns_previous_value_witness :
  let s' := store_entry example_state 6 (MakeRegularEntry 0x3000 tag_b) in
  run (Exchange (IndexToHandle 6) 0x3000 tag_b) example_state
  = Done 0x2000 s'
      [(RelaxedExchange 6 (MakeRegularEntry 0x3000 tag_b),
        MakeRegularEntry 0x2000 tag_b)]
  ∧ run (Get (IndexToHandle 6) tag_b) s'
    = Done 0x3000 s' [(RelaxedLoad 6, MakeRegularEntry 0x3000 tag_b)].
Proof.
  refine (Exchange_returns_previous_value
            example_state (IndexToHandle 6) 0x2000 0x3000 tag_b
            _ _ _ _ _ _);
    by vm_compute.
Defined.

Lemma mutator_writes_marked_entry_witness :
  entry_at
    (buffer_ (store_entry example_state 6 (MakeRegularEntry 0x4000 tag_a))) 6
  = Some (MakeRegularEntry 0x4000 tag_a)
  ∧ IsMarked (MakeRegularEntry 0x4000 tag_a) = true.
Proof.
  destruct (mutator_writes_marked_entry
              example_state (IndexToHandle 6) 0x4000 tag_a
              (store_entry example_state 6 (MakeRegularEntry 0x4000 tag_a))
              [(RelaxedStore 6 (MakeRegularEntry 0x4000 tag_a), 0)] 0)
    as (_ & _ & _ & Hentry & Hmarked); [left; by vm_compute |].
  split; [exact Hentry | exact Hmarked].
Defined.

Lemma accessors_abort_on_reserved_entry_witness :
  run (Get (IndexToHandle 5) tag_a) dangling_state = Aborted
  ∧ run (Exchange (IndexToHandle 5) 0x3000 tag_a) dangling_state = Aborted
  ∧ run (Mark 1 (IndexToHandle 5) 0x7000) dangling_state = Aborted.
Proof.
  apply (accessors_abort_on_reserved_entry
           dangling_state (IndexToHandle 5) (MakeFreelistEntry 1 2));
    by vm_compute.
Defined.

Lemma Mark_below_evacuation_area_witness :
  let s' :=
    store_entry example_state 6
      (SetMarkBit (MakeRegularEntry 0x2000 tag_b)) in
  (∃ trace, run (Mark 0 (IndexToHandle 6) 0x7000) example_state
            = Done tt s' trace)
  ∧ only_entry_changed 6 example_state s'.
Proof.
  intros s'.
  destruct (Mark_below_evacuation_area
              0 example_state (IndexToHandle 6) 0x7000
              (MakeRegularEntry 0x2000 tag_b))
    as (Hrun & Hframe & _); [by vm_compute.. |].
  split; [eexists; exact Hrun | exact Hframe].
Defined.

Lemma Mark_when_not_compacting_witness :
  only_entry_changed 6 example_state
    (store_entry example_state 6
       (SetMarkBit (MakeRegularEntry 0x2000 tag_b))).
Proof.
  destruct (Mark_when_not_compacting
              0 example_state (IndexToHandle 6) 0x7000
              (store_entry example_state 6
                 (SetMarkBit (MakeRegularEntry 0x2000 tag_b)))
              [(Load_handle 0x7000, IndexToHandle 6);
               (Load_start_of_evacuation_area, kNotCompactingMarker);
               (RelaxedLoad 6, MakeRegularEntry 0x2000 tag_b);
               (RelaxedCompareAndSwap 6 (MakeRegularEntry 0x2000 tag_b)
                  (SetMarkBit (MakeRegularEntry 0x2000 tag_b)),
                MakeRegularEntry 0x2000 tag_b)])
    as [Hframe _]; [by vm_compute | by vm_compute |].
  exact Hframe.
Defined.

Lemma Mark_twice_below_evacuation_area_witness :
  let s' :=
    store_entry example_state 6
      (SetMarkBit (MakeRegularEntry 0x2000 tag_b)) in
  (∃ trace, run (Mark 0 (IndexToHandle 6) 0x7000) s' = Done tt s' trace)
  ∧ final_state
      (run (Mark 0 (IndexToHandle 6) 0x7000;;
            Mark 0 (IndexToHandle 6) 0x7000) example_state)
    = Some s'.
Proof.
  intros s'.
  destruct (Mark_twice_below_evacuation_area
              0 example_state (IndexToHandle 6) 0x7000
              (MakeRegularEntry 0x2000 tag_b))
    as [Hsecond Hboth]; [by vm_compute.. |].
  split; [eexists; exact Hsecond | exact Hboth].
Defined.

Lemma Mark_preserves_Get_witness :
  ∃ s' trace,
    run (Mark 1 (IndexToHandle 6) 0x7000) (compacting_state 6)
      = Done tt s' trace
    ∧ run (Get (IndexToHandle 6) tag_b) s'
      = Done 0x2000 s' [(RelaxedLoad 6, MakeRegularEntry 0x2000 tag_b)].
Proof.
  eexists _, _. split; [by vm_compute |].
  match goal with
  | |- run _ ?s' = _ =>
      eapply (Mark_preserves_Get
                1 (compacting_state 6) (IndexToHandle 6) 0x7000 tag_b
                0x2000 (compacting_state 6) _ s');
        by vm_compute
  end.
Defined.

Lemma Mark_detects_second_visit_witness :
  ∃ s' trace,
    run (Mark 1 (IndexToHandle 6) 0x7000) (compacting_state 6)
      = Done tt s' trace
    ∧ heap_ s' !! 0x7000
      = Some (Z.lor (IndexToHandle 6) kVisitedHandleMarker)
    ∧ run (Mark 1 (IndexToHandle 6) 0x7000) s' = Aborted.
Proof.
  eexists _, _. split; [by vm_compute |].
  match goal with
  | |- heap_ ?s' !! _ = _ ∧ _ =>
      eapply (Mark_detects_second_visit
                1 1 (compacting_state 6) (IndexToHandle 6) 0x7000 s');
        [ by vm_compute | by vm_compute | by vm_compute | ]
  end.
  do 7 apply Exists_cons_tl. by apply Exists_cons_hd.
Defined.

Lemma freelist_from_example_state :
  freelist_from (buffer_ example_state) (freelist_head_ example_state)
    [5; 1].
Proof.
  refine (freelist_node _ 5 (MakeFreelistEntry 1 2) [1] _ _ _ _ _);
    [done | by vm_compute.. |].
  refine (freelist_node _ 1 (MakeFreelistEntry 0 1) [] _ _ _ _ _);
    [done | by vm_compute.. |].
  exact (freelist_end _).
Qed.

Lemma freelist_invariant_example_state : freelist_invariant example_state.
Proof.
  split; [by vm_compute |]. exists [5; 1].
  exact freelist_from_example_state.
Qed.

Lemma freelist_invariant_empty_table : freelist_invariant empty_table.
Proof. split; [by vm_compute |]. exists []. exact (freelist_end _). Qed.

Lemma free_entries_unmarked_reference entry :
  IsFreelistEntry entry = true → IsMarked entry = false.
Proof.
  unfold IsFreelistEntry, HasTag, IsMarked. intros Hfree%Z.eqb_eq.
  assert (Z.land entry kExternalPointerMarkBit
          = Z.land (Z.land entry kExternalPointerTagMask)
              kExternalPointerMarkBit) as ->
    by (by rewrite <- Z.land_assoc).
  by rewrite Hfree.
Qed.

Lemma Mark_keeps_freelist_witness :
  ∃ s' trace,
    run (Mark 1 (IndexToHandle 6) 0x7000) (compacting_state 6)
      = Done tt s' trace
    ∧ table_fits s'
    ∧ ∃ nodes' trace',
        freelist_from (buffer_ s') (freelist_head_ s') nodes'
        ∧ run (FreelistSize 1) s'
          = Done (Z.of_nat (length nodes')) s' trace'
        ∧ ((Forall (λ ev, is_Store ev.1 = false) trace
            ∧ freelist_head_ s' = 5
            ∧ nodes' = [5; 1])
           ∨ (Exists (λ ev, is_Store ev.1 = true) trace
              ∧ 5 < 6 ≤ 6
              ∧ entry_at (buffer_ s') 5
                = Some (MakeEvacuationEntry 0x7000)
              ∧ [5; 1] = 5 :: nodes')).
Proof.
  eexists _, _. split; [by vm_compute |].
  match goal with
  | |- table_fits ?s' ∧ _ =>
      refine (Mark_keeps_freelist
                1 (compacting_state 6) (IndexToHandle 6) 0x7000 [5; 1]
                s' _ _ _ _);
        [ by vm_compute | exact freelist_from_example_state
        | by vm_compute ]
  end.
Defined.

Lemma AllocateAndInitializeEntry_returns_fresh_entry_witness :
  ∃ handle s' trace,
    run (AllocateAndInitializeEntry 1 0x1000 tag_a) empty_table
      = Done handle s' trace
    ∧ handle ≠ kNullExternalPointerHandle
    ∧ HandleToIndex handle = 1
    ∧ Exists (λ ev, is_Grow ev.1 = true) trace
    ∧ run (Get handle tag_a) s'
      = Done 0x1000 s'
          [(RelaxedLoad (HandleToIndex handle),
            MakeRegularEntry 0x1000 tag_a)]
    ∧ mutex_ s' = false.
Proof.
  destruct (AllocateAndInitializeEntry_returns_fresh_entry
              0 empty_table [] 0x1000 tag_a)
    as (handle & s' & trace & nodes' & Hrun & Hhandle & Hindex & Hgrow
        & Hget & _ & _ & _ & Hmutex & _);
    [ by vm_compute | exact (freelist_end _) | reflexivity
    | intros _; by vm_compute | reflexivity | by vm_compute | ].
  exists handle, s', trace.
  split; [exact Hrun |]. split; [exact Hhandle |].
  split; [exact Hindex |]. split; [by apply Hgrow |].
  split; [exact Hget | exact Hmutex].
Defined.

Lemma concurrent_allocations_are_distinct_witness :
  ∃ threads' s',
    interleave contended_schedule
      ((λ request, AllocateAndInitializeEntry 2 request.1 request.2)
       <$> example_requests) example_state
      = Some (threads', s')
    ∧ threads' = [Ret (IndexToHandle 5); Ret (IndexToHandle 1)]
    ∧ freelist_invariant s'
    ∧ (∀ i j handle,
         threads' !! i = Some (Ret handle) →
         threads' !! j = Some (Ret handle) →
         i = j)
    ∧ (∀ i handle,
         threads' !! i = Some (Ret handle) →
         handle ≠ kNullExternalPointerHandle
         ∧ ∃ initial_value tag,
             example_requests !! i = Some (initial_value, tag)
             ∧ entry_at (buffer_ s') (HandleToIndex handle)
               = Some (MakeRegularEntry initial_value tag)).
Proof.
  eexists _, _. split; [by vm_compute |]. split; [by vm_compute |].
  match goal with
  | |- freelist_invariant ?s' ∧ (∀ i j handle, ?threads' !! i = _ → _) ∧ _ =>
      refine (concurrent_allocations_are_distinct
                contended_schedule 2 example_requests example_state
                threads' s' _ _ _);
        [ exact freelist_invariant_example_state | reflexivity
        | by vm_compute ]
  end.
Defined.

Lemma table_grows_only_when_freelist_is_empty_witness :
  ∃ threads' s',
    interleave growing_schedule
      ((λ request, AllocateAndInitializeEntry 1 request.1 request.2)
       <$> example_requests) empty_table
      = Some (threads', s')
    ∧ about_to_grow <$> threads' = [true; false]
    ∧ freelist_head_ s' = 0
    ∧ mutex_ s' = true.
Proof.
  assert ((λ result : list (prog Z) * State, about_to_grow <$> result.1)
          <$> interleave growing_schedule
                ((λ request,
                    AllocateAndInitializeEntry 1 request.1 request.2)
                 <$> example_requests) empty_table
          = Some [true; false]) as Hgrowing by (by vm_compute).
  destruct (interleave growing_schedule _ empty_table)
    as [[threads' s']|] eqn:Hrun; [|done].
  injection Hgrowing as Hgrowing. cbn [fst] in Hgrowing.
  exists threads', s'. split; [reflexivity |]. split; [exact Hgrowing |].
  destruct threads' as [|thread threads']; [done |].
  injection Hgrowing as Hgrow _.
  destruct (proj1 (table_grows_only_when_freelist_is_empty
                     growing_schedule 1 example_requests empty_table _ s'
                     freelist_invariant_empty_table eq_refl Hrun)
              0%nat thread eq_refl Hgrow) as (Hhead & Hmutex & _).
  split; [exact Hhead | exact Hmutex].
Defined.

Lemma concurrent_allocations_pass_all_checks_witness :
  is_Some
    (interleave contended_schedule
       ((λ request, AllocateAndInitializeEntry 2 request.1 request.2)
        <$> example_requests) example_state).
Proof.
  apply (concurrent_allocations_pass_all_checks
           contended_schedule 2 example_requests example_state);
    [ exact freelist_invariant_example_state | reflexivity
    | by vm_compute ].
Defined.

Lemma concurrent_allocations_leave_the_loop_witness :
  ∃ threads' s',
    interleave contended_schedule
      ((λ request, AllocateAndInitializeEntry 4 request.1 request.2)
       <$> example_requests) example_state
      = Some (threads', s')
    ∧ threads' = [Ret (IndexToHandle 5); Ret (IndexToHandle 1)]
    ∧ ∀ i thread,
        threads' !! i = Some thread →
        (∃ handle, thread = Ret handle) ∨ (∃ a k, thread = Do a k).
Proof.
  eexists _, _. split; [by vm_compute |]. split; [by vm_compute |].
  match goal with
  | |- ∀ i thread, ?threads' !! i = _ → _ =>
      refine (concurrent_allocations_leave_the_loop
                contended_schedule 4 example_requests example_state
                threads' _ _ _ _ _);
        [ exact freelist_invariant_example_state | reflexivity
        | by vm_compute | by vm_compute ]
  end.
Defined.

Lemma FreelistSize_reads_a_freelist_entry_witness :
  ∃ s' trace,
    exec example_rival_allocation 0 (FreelistSize 2) example_state
      = Done 1 s' trace
    ∧ Forall (λ ev, is_load ev.1 = true) trace
    ∧ ∃ rounds,
        Forall (λ round : Z * Entry,
                  round.1 ≠ 0 ∧ IsFreelistEntry round.2 = false) rounds
        ∧ ((1 = 0
            ∧ trace = retried_rounds rounds ++ [(Load_freelist_head, 0)])
           ∨ ∃ head entry table_capacity,
               trace = retried_rounds rounds
                       ++ [(Load_freelist_head, head);
                           (RelaxedLoad head, entry);
                           (Load_capacity, table_capacity)]
               ∧ head ≠ 0
               ∧ IsFreelistEntry entry = true
               ∧ 1 = ExtractFreelistSize entry
               ∧ 1 ≤ table_capacity).
Proof.
  eexists _, _. split; [by vm_compute |].
  match goal with
  | |- Forall _ ?trace ∧ _ =>
      refine (FreelistSize_reads_a_freelist_entry
                2 example_rival_allocation 0 example_state 1 _ trace _);
        by vm_compute
  end.
Defined.

Lemma marked_entries_stay_marked_witness :
  ∃ s' trace,
    run (invoke_all 1 example_calls) example_state = Done tt s' trace
    ∧ marked_at 6 s'.
Proof.
  eexists _, _. split; [by vm_compute |].
  match goal with
  | |- marked_at 6 ?s' =>
      refine (marked_entries_stay_marked
                1 example_calls example_state s' _ 6
                free_entries_unmarked_reference _ _ _);
        [ by vm_compute
        | exists (MakeRegularEntry 0x2000 tag_b); by vm_compute
        | by vm_compute ]
  end.
Defined.

Lemma Set_then_Get_among_other_writes_witness :
  ∃ result s' trace,
    exec (calls_env 0 example_other_set) 0
      (Set_ (IndexToHandle 6) 0x4000 tag_a;; Get (IndexToHandle 6) tag_a)
      example_state
      = Done result s' trace
    ∧ entry_at (buffer_ s') 2 = Some (MakeRegularEntry 0x5000 tag_a)
    ∧ result = 0x4000
    ∧ entry_at (buffer_ s') (HandleToIndex (IndexToHandle 6))
      = Some (MakeRegularEntry 0x4000 tag_a)
    ∧ trace = [(RelaxedStore (HandleToIndex (IndexToHandle 6))
                  (MakeRegularEntry 0x4000 tag_a), 0);
               (RelaxedLoad (HandleToIndex (IndexToHandle 6)),
                MakeRegularEntry 0x4000 tag_a)].
Proof.
  eexists _, _, _. split; [by vm_compute |]. split; [by vm_compute |].
  match goal with
  | |- ?result = _ ∧ entry_at (buffer_ ?s') _ = _ ∧ ?trace = _ =>
      refine (Set_then_Get_among_other_writes
                0 example_other_set 0 example_state (IndexToHandle 6)
                0x4000 tag_a result s' trace _ _ _ _)
  end.
  - by vm_compute.
  - intros k. unfold example_other_set.
    destruct (k =? 1)%nat; by repeat constructor.
  - intros k call entry Hin (handle & value & tag & Hcall & Hindex & _).
    unfold example_other_set in Hin.
    destruct (k =? 1)%nat; [|by apply elem_of_nil in Hin].
    apply list_elem_of_singleton in Hin. subst call.
    destruct Hcall as [[= <- _ _]|[=]]. by vm_compute in Hindex.
  - by vm_compute.
Defined.

Lemma concurrent_exchanges_conserve_pointers_witness :
  ∃ threads' s' current,
    interleave [1; 0; 2]%nat
      ((λ value, Exchange (IndexToHandle 6) value tag_b)
       <$> [0x3000; 0x4000; 0x5000]) example_state
      = Some (threads', s')
    ∧ entry_at (buffer_ s') (HandleToIndex (IndexToHandle 6))
      = Some (MakeRegularEntry current tag_b)
    ∧ current :: (exchanges [0x3000; 0x4000; 0x5000] threads').*2
      ≡ₚ 0x2000 :: (exchanges [0x3000; 0x4000; 0x5000] threads').*1
    ∧ Forall2 (λ value thread,
                 thread = Exchange (IndexToHandle 6) value tag_b
                 ∨ ∃ old_value, thread = Ret old_value)
        [0x3000; 0x4000; 0x5000] threads'.
Proof.
  refine (concurrent_exchanges_conserve_pointers
            [1; 0; 2]%nat (IndexToHandle 6) tag_b 0x2000
            [0x3000; 0x4000; 0x5000] example_state _ _ _ _ _);
    [ by vm_compute | by vm_compute | by vm_compute
    | by repeat constructor | by vm_compute ].
Defined.

Lemma Mark_evacuates_downwards_witness :
  ∃ s' trace,
    exec example_rival_abort 0 (Mark 1 (IndexToHandle 6) 0x7000)
      (compacting_state 6)
      = Done tt s' trace
    ∧ start_of_evacuation_area_ s' = Z.lor 6 kCompactionAbortedMarker
    ∧ ∃ boundary,
        start_of_evacuation_area_loaded trace = Some boundary
        ∧ stores_below boundary (MakeEvacuationEntry 0x7000) trace
        ∧ (Exists (λ ev, is_Store ev.1 = true) trace →
           boundary ≤ HandleToIndex (IndexToHandle 6)).
Proof.
  eexists _, _. split; [by vm_compute |]. split; [by vm_compute |].
  match goal with
  | |- ∃ boundary, start_of_evacuation_area_loaded ?trace = _ ∧ _ =>
      refine (Mark_evacuates_downwards
                1 example_rival_abort 0 (compacting_state 6)
                (IndexToHandle 6) 0x7000 _ trace _ _ _)
  end.
  - intros n s s1 Hs. unfold example_rival_abort.
    destruct (n =? 2)%nat; by intros [= <-].
  - by vm_compute.
  - by vm_compute.
Defined.

Lemma allocation_among_concurrent_calls_witness :
  ∃ threads' s',
    interleave marking_schedule (invoke 2 <$> example_pool)
      (compacting_state 6)
      = Some (threads', s')
    ∧ threads' = [Ret (IndexToHandle 5); Ret 0; Ret 0; Ret 0]
    ∧ freelist_invariant s'
    ∧ (∀ i j initial_value tag initial_value' tag' handle,
         example_pool !! i
         = Some (Call_AllocateAndInitializeEntry initial_value tag) →
         example_pool !! j
         = Some (Call_AllocateAndInitializeEntry initial_value' tag') →
         threads' !! i = Some (Ret handle) →
         threads' !! j = Some (Ret handle) →
         i = j)
    ∧ (∀ i initial_value tag,
         example_pool !! i
         = Some (Call_AllocateAndInitializeEntry initial_value tag) →
         threads' !! i ≠ Some Abort
         ∧ ∀ handle,
             threads' !! i = Some (Ret handle) →
             handle ≠ kNullExternalPointerHandle
             ∧ (entry_at (buffer_ s') (HandleToIndex handle)
                = Some (MakeRegularEntry initial_value tag)
                ∨ entry_at (buffer_ s') (HandleToIndex handle)
                  = Some (SetMarkBit (MakeRegularEntry initial_value tag)))).
Proof.
  eexists _, _. split; [by vm_compute |]. split; [by vm_compute |].
  match goal with
  | |- freelist_invariant ?s' ∧ _ =>
      refine (allocation_among_concurrent_calls
                marking_schedule 2 example_pool (compacting_state 6)
                _ s' _ _ _ _);
        [ exact freelist_invariant_example_state | reflexivity
        | repeat constructor; by exists (MakeRegularEntry 0x1000 tag_a)
        | by vm_compute ]
  end.
Defined.

Lemma Mark_among_concurrent_calls_witness :
  ∃ threads' s',
    interleave marking_schedule (invoke 2 <$> example_pool)
      (compacting_state 6)
      = Some (threads', s')
    ∧ threads' !! 1%nat = Some (Ret 0)
    ∧ ∃ entry,
        entry_at (buffer_ s') (HandleToIndex (IndexToHandle 6)) = Some entry
        ∧ IsMarked entry = true.
Proof.
  eexists _, _. split; [by vm_compute |]. split; [by vm_compute |].
  match goal with
  | |- ∃ entry, entry_at (buffer_ ?s') _ = _ ∧ _ =>
      refine (Mark_among_concurrent_calls
                marking_schedule 2 example_pool (compacting_state 6)
                _ s' _ _ _ _ _ 1%nat (IndexToHandle 6) 0x7000 0 _ _);
        [ exact freelist_invariant_example_state | reflexivity
        | repeat constructor; by exists (MakeRegularEntry 0x1000 tag_a)
        | exact free_entries_unmarked_reference
        | by vm_compute | reflexivity | by vm_compute ]
  end.
Defined.
